(** * Shallow embedding of the CConv pointer-safety inference engine

    The development follows the C++ sources under [clang/lib/CConv]:
    - [ProgramInfo.cpp]: [isExternOkay], [link], [addVariable],
      [hasConstraintType], [computePointerDisjointSet];
    - [ConstraintResolver.cpp]: [analyzeAllocExpr], [getInvalidCastPVCons],
      [getExprConstraintVars] and its helpers;
    - [ArrayBoundsInferenceConsumer.cpp]: the name heuristics,
      [isAllocatorCall], [handleAllocatorCall], [VisitRecordDecl],
      [VisitFunctionDecl].

    Conventions.
    - Heap objects ([ConstraintVariable*], [Expr*]) are identified with their
      contents; a [std::set] of pointers is a list without repetition, in
      insertion order.
    - The constraint system [Constraints] is kept as the sequence of
      constraints handed to [Constraints::addConstraint], oldest first,
      together with the counter of fresh variable atoms.
    - A failed [assert], an out-of-range argument access or a null
      dereference is the result [None]. *)

From Stdlib Require Import ZArith List String Bool Arith Lia Ascii.
From stdpp Require Import gmap strings list fin_maps sorting.

Set Warnings "-register-all,-clear-no-such-hyp".

(** ** Atoms and constraints *)

Module Atoms.

(** [Atom::AtomKind] restricted to the constant atoms. *)
Inductive ConstAtom : Type := A_Ptr | A_NTArr | A_Arr | A_Wild.

(** [uint32_t] key of a variable atom ([VarAtom::getLoc]). *)
Abbreviation ConstraintKey := nat (only parsing).

Inductive Atom : Type :=
| VarAtom (Loc : ConstraintKey)
| ConstA (C : ConstAtom).

(** [PersistentSourceLoc]: file name, line and column. *)
Abbreviation PersistentSourceLoc := (string * nat * nat)%type (only parsing).

Definition getFileName (L : PersistentSourceLoc) : string := L.1.1.
Definition getLineNo (L : PersistentSourceLoc) : nat := L.1.2.
Definition getColNo (L : PersistentSourceLoc) : nat := L.2.

(** A [Geq] constraint with its diagnostic reason and the optional source
    position it was created with. *)
Record Geq : Type := mkGeq {
  getLHS : Atom;
  getRHS : Atom;
  getReason : string;
  getGeqLoc : option PersistentSourceLoc
}.

Inductive Constraint : Type :=
| CGeq (G : Geq)
| CImplies (Premise Conclusion : Geq).

(** [Constraints]: the calls to [addConstraint], oldest first, and the next
    fresh variable key. *)
Record Constraints : Type := mkCS {
  getConstraints : list Constraint;
  freshKey : ConstraintKey
}.

Definition emptyCS : Constraints := mkCS [] 0.

Definition getWild : Atom := ConstA A_Wild.
Definition getPtr : Atom := ConstA A_Ptr.
Definition getArr : Atom := ConstA A_Arr.
Definition getNTArr : Atom := ConstA A_NTArr.

Definition createGeq (L R : Atom) (Rsn : string)
    (PL : option PersistentSourceLoc) : Geq := mkGeq L R Rsn PL.

Definition addConstraint (C : Constraint) (CS : Constraints) : Constraints :=
  mkCS (getConstraints CS ++ [C]) (freshKey CS).

Definition addConstraints (Cs : list Constraint) (CS : Constraints)
    : Constraints :=
  mkCS (getConstraints CS ++ Cs) (freshKey CS).

(** [Constraints::getFreshVar]. *)
Definition getFreshVar (CS : Constraints) : Atom * Constraints :=
  (VarAtom (freshKey CS), mkCS (getConstraints CS) (S (freshKey CS))).

(** [n] fresh variable atoms, in creation order. *)
Fixpoint getFreshVars (n : nat) (CS : Constraints) : list Atom * Constraints :=
  match n with
  | O => ([], CS)
  | S n' =>
      let '(A, CS1) := getFreshVar CS in
      let '(As, CS2) := getFreshVars n' CS1 in
      (A :: As, CS2)
  end.

Definition ConstAtom_eqb (a b : ConstAtom) : bool :=
  match a, b with
  | A_Ptr, A_Ptr | A_NTArr, A_NTArr | A_Arr, A_Arr | A_Wild, A_Wild => true
  | _, _ => false
  end.

Definition Atom_eqb (a b : Atom) : bool :=
  match a, b with
  | VarAtom x, VarAtom y => Nat.eqb x y
  | ConstA x, ConstA y => ConstAtom_eqb x y
  | _, _ => false
  end.

End Atoms.

Export Atoms.

(** ** Constraint variables *)

Module ConstraintVariables.

Abbreviation BoundsKey := nat (only parsing).

(** The scalar members of a [PointerVariableConstraint]. *)
Record PVInfo : Type := mkPVInfo {
  pvName : string;
  pvBaseType : string;
  pvArrPresent : bool;
  pvItype : option string;
  pvBoundsKey : option BoundsKey;
  pvIsOriginallyChecked : bool;
  pvIsGeneric : bool
}.

(** [ConstraintVariable] with its two subclasses.  [PVConstraint] holds the
    atoms of its pointer levels, outermost first, and the optional
    function-shaped variable of a function pointer; [FVConstraint] holds the
    return variables, one set of variables per parameter, and the
    has-body / has-prototype flags. *)
Inductive ConstraintVariable : Type :=
| PVConstraint (vars : list Atom) (FV : option ConstraintVariable)
    (info : PVInfo)
| FVConstraint (Name : string) (returnVars : list ConstraintVariable)
    (paramVars : list (list ConstraintVariable)) (Hasbody Hasproto : bool).

Abbreviation CVarSet := (list ConstraintVariable) (only parsing).

Definition isPV (C : ConstraintVariable) : bool :=
  match C with PVConstraint _ _ _ => true | FVConstraint _ _ _ _ _ => false end.

Definition isFV (C : ConstraintVariable) : bool :=
  match C with PVConstraint _ _ _ => false | FVConstraint _ _ _ _ _ => true end.

Definition getCvars (C : ConstraintVariable) : list Atom :=
  match C with PVConstraint vs _ _ => vs | FVConstraint _ _ _ _ _ => [] end.

Definition getFV (C : ConstraintVariable) : option ConstraintVariable :=
  match C with PVConstraint _ fv _ => fv | FVConstraint _ _ _ _ _ => None end.

Definition getName (C : ConstraintVariable) : string :=
  match C with
  | PVConstraint _ _ i => pvName i
  | FVConstraint n _ _ _ _ => n
  end.

Definition getReturnVars (C : ConstraintVariable) : CVarSet :=
  match C with
  | PVConstraint _ _ _ => []
  | FVConstraint _ r _ _ _ => r
  end.

Definition getParamVars (C : ConstraintVariable) : list CVarSet :=
  match C with
  | PVConstraint _ _ _ => []
  | FVConstraint _ _ p _ _ => p
  end.

Definition numParams (C : ConstraintVariable) : nat :=
  length (getParamVars C).

(** [FVConstraint::getParamVar(i)]; the source asserts [i < numParams]. *)
Definition getParamVar (C : ConstraintVariable) (i : nat) : option CVarSet :=
  getParamVars C !! i.

Definition hasBody (C : ConstraintVariable) : bool :=
  match C with
  | PVConstraint _ _ _ => false
  | FVConstraint _ _ _ b _ => b
  end.

Definition hasProtoType (C : ConstraintVariable) : bool :=
  match C with
  | PVConstraint _ _ _ => false
  | FVConstraint _ _ _ _ p => p
  end.

Definition option_eqb {A} (f : A -> A -> bool) (x y : option A) : bool :=
  match x, y with
  | Some a, Some b => f a b
  | None, None => true
  | _, _ => false
  end.

Fixpoint list_eqb {A} (f : A -> A -> bool) (x y : list A) : bool :=
  match x, y with
  | [], [] => true
  | a :: x', b :: y' => f a b && list_eqb f x' y'
  | _, _ => false
  end.

Definition PVInfo_eqb (a b : PVInfo) : bool :=
  String.eqb (pvName a) (pvName b) && String.eqb (pvBaseType a) (pvBaseType b)
  && Bool.eqb (pvArrPresent a) (pvArrPresent b)
  && option_eqb String.eqb (pvItype a) (pvItype b)
  && option_eqb Nat.eqb (pvBoundsKey a) (pvBoundsKey b)
  && Bool.eqb (pvIsOriginallyChecked a) (pvIsOriginallyChecked b)
  && Bool.eqb (pvIsGeneric a) (pvIsGeneric b).

(** Identity of two constraint-variable objects, as equality of contents. *)
Fixpoint CV_eqb (a b : ConstraintVariable) {struct a} : bool :=
  match a, b with
  | PVConstraint va fa ia, PVConstraint vb fb ib =>
      list_eqb Atom_eqb va vb
      && match fa, fb with
         | Some x, Some y => CV_eqb x y
         | None, None => true
         | _, _ => false
         end
      && PVInfo_eqb ia ib
  | FVConstraint na ra pa ba qa, FVConstraint nb rb pb bb qb =>
      String.eqb na nb
      && (fix go (x y : list ConstraintVariable) : bool :=
            match x, y with
            | [], [] => true
            | c :: x', d :: y' => CV_eqb c d && go x' y'
            | _, _ => false
            end) ra rb
      && (fix gos (x y : list (list ConstraintVariable)) : bool :=
            match x, y with
            | [], [] => true
            | c :: x', d :: y' =>
                (fix go (x y : list ConstraintVariable) : bool :=
                   match x, y with
                   | [], [] => true
                   | c :: x', d :: y' => CV_eqb c d && go x' y'
                   | _, _ => false
                   end) c d && gos x' y'
            | _, _ => false
            end) pa pb
      && Bool.eqb ba bb && Bool.eqb qa qb
  | _, _ => false
  end.

(** [std::set::insert] of one pointer, and of a range.  A
    [std::set<ConstraintVariable *>] is kept as the list of its elements in
    the order of their insertion (the set orders them by address), and a
    pointer that is inserted again is recognized by the contents of the
    variable it points to. *)
Definition insertCV (C : ConstraintVariable) (S : CVarSet) : CVarSet :=
  if existsb (CV_eqb C) S then S else S ++ [C].

Definition insertCVs (Cs : CVarSet) (S : CVarSet) : CVarSet :=
  foldl (fun acc C => insertCV C acc) S Cs.

(** Every atom owned by a constraint variable: its own pointer levels, then
    recursively those of the nested function-shaped variable, of the return
    variables and of the parameter variables. *)
Fixpoint atomsOf (C : ConstraintVariable) : list Atom :=
  match C with
  | PVConstraint vs fv _ =>
      vs ++ match fv with Some f => atomsOf f | None => [] end
  | FVConstraint _ rets params _ _ =>
      flat_map atomsOf rets ++ flat_map (flat_map atomsOf) params
  end.

(** Modelled from the spec: [ConstraintVariable::constrainToWild] (defined in
    ConstraintVariables.cpp, not part of the sources at hand).  Spec 4.3:
    "forces every atom owned by this variable (recursively through nested
    function-shaped return/parameter variables) to the Wild constant via a
    Geq(atom, Wild) edge tagged with a diagnostic reason string and optional
    source location". *)
Definition constrainToWild (C : ConstraintVariable) (Rsn : string)
    (PL : option PersistentSourceLoc) (CS : Constraints) : Constraints :=
  addConstraints
    (map (fun A => CGeq (createGeq A getWild Rsn PL)) (atomsOf C)) CS.

(** Modelled from the spec: [PointerVariableConstraint::constrainOuterTo]
    (ConstraintVariables.cpp).  With [doLB] the outermost atom is bounded
    below by [C] ("the new atom is constrained >= PtrTyp", comment of
    [addAtom]; spec 4.3 "constrained >= bound"); without it the inequality
    is the converse one. *)
Definition constrainOuterTo (P : ConstraintVariable) (C : Atom) (doLB : bool)
    (CS : Constraints) : Constraints :=
  match getCvars P with
  | [] => CS
  | A :: _ =>
      if doLB then addConstraint (CGeq (createGeq A C "" None)) CS
      else addConstraint (CGeq (createGeq C A "" None)) CS
  end.

(** [ConsAction]: the flow policy of an assignment-like edge. *)
Inductive ConsAction : Type := Safe_to_Wild | Wild_to_Safe | Same_to_Same.

(** Modelled from the spec: the inequalities a flow policy expands into
    (spec 3, "Constraint Edge"): [Same] enforces both directions,
    [SafeToWild] the inequality from left to right, [WildToSafe] its
    inverse. *)
Definition createAtomGeq (L R : Atom) (Rsn : string)
    (PL : option PersistentSourceLoc) (CA : ConsAction) : list Constraint :=
  match CA with
  | Same_to_Same =>
      [CGeq (createGeq L R Rsn PL); CGeq (createGeq R L Rsn PL)]
  | Safe_to_Wild => [CGeq (createGeq L R Rsn PL)]
  | Wild_to_Safe => [CGeq (createGeq R L Rsn PL)]
  end.

Fixpoint zipAtoms (Ls Rs : list Atom) : list (Atom * Atom) :=
  match Ls, Rs with
  | L :: Ls', R :: Rs' => (L, R) :: zipAtoms Ls' Rs'
  | _, _ => []
  end.

(** Modelled from the spec: [constrainConsVarGeq] on two constraint variables
    (ConstraintVariables.cpp).  The pointer levels of the two sides are
    related level by level with the inequalities of the policy. *)
Definition constrainConsVarGeq1 (L R : ConstraintVariable)
    (PL : option PersistentSourceLoc) (CA : ConsAction) (CS : Constraints)
    : Constraints :=
  addConstraints
    (flat_map (fun LR => createAtomGeq LR.1 LR.2 "" PL CA)
       (zipAtoms (getCvars L) (getCvars R))) CS.

(** [constrainConsVarGeq] on two sets: every left variable against every
    right variable. *)
Definition constrainConsVarGeq (Ls Rs : CVarSet)
    (PL : option PersistentSourceLoc) (CA : ConsAction) (CS : Constraints)
    : Constraints :=
  foldl (fun cs L => foldl (fun cs' R => constrainConsVarGeq1 L R PL CA cs')
                       cs Rs) CS Ls.

(** Modelled from the spec: [ConstraintVariable::getCopy] (spec 4.3 "copy()":
    an independent variable with fresh Unknown atoms).  Constant atoms are
    kept, as the comment in the call branch of [getExprConstraintVars] says
    ("constant atoms that are reused by the copy constructor"). *)
Fixpoint copyAtoms (vs : list Atom) (CS : Constraints)
    : list Atom * Constraints :=
  match vs with
  | [] => ([], CS)
  | VarAtom _ :: vs' =>
      let '(A, CS1) := getFreshVar CS in
      let '(As, CS2) := copyAtoms vs' CS1 in
      (A :: As, CS2)
  | ConstA c :: vs' =>
      let '(As, CS1) := copyAtoms vs' CS in
      (ConstA c :: As, CS1)
  end.

Definition getCopy (C : ConstraintVariable) (CS : Constraints)
    : ConstraintVariable * Constraints :=
  match C with
  | PVConstraint vs fv i =>
      let '(vs', CS') := copyAtoms vs CS in (PVConstraint vs' fv i, CS')
  | FVConstraint _ _ _ _ _ => (C, CS)
  end.

End ConstraintVariables.

Export ConstraintVariables.

(** ** The front end's view of the program *)

Module FrontEnd.

(** Modelled from the spec: the static type description of section 6 ("a
    static type description distinguishing pointer/array/function/record/
    arithmetic kinds and pointee/element/return/parameter types
    recursively").  Clang's [QualType] is not part of the sources at hand.
    A pointer carries its Checked C kind. *)
Inductive BuiltinKind : Type := BK_Void | BK_Char | BK_Int | BK_Float.

Inductive CheckedPointerKind : Type :=
| CPK_Unchecked | CPK_Ptr | CPK_Array | CPK_NtArray.

Inductive QualType : Type :=
| BuiltinType (K : BuiltinKind)
| EnumType (Name : string)
| RecordType (Name : string)
| PointerType (K : CheckedPointerKind) (Pointee : QualType)
| ArrayType (Elem : QualType)
| FunctionType (Ret : QualType) (Params : list QualType) (Proto : bool).

Definition BuiltinKind_eqb (a b : BuiltinKind) : bool :=
  match a, b with
  | BK_Void, BK_Void | BK_Char, BK_Char | BK_Int, BK_Int
  | BK_Float, BK_Float => true
  | _, _ => false
  end.

Definition CheckedPointerKind_eqb (a b : CheckedPointerKind) : bool :=
  match a, b with
  | CPK_Unchecked, CPK_Unchecked | CPK_Ptr, CPK_Ptr | CPK_Array, CPK_Array
  | CPK_NtArray, CPK_NtArray => true
  | _, _ => false
  end.

(** [QualType::operator==]. *)
Fixpoint QualType_eqb (a b : QualType) {struct a} : bool :=
  match a, b with
  | BuiltinType x, BuiltinType y => BuiltinKind_eqb x y
  | EnumType x, EnumType y => String.eqb x y
  | RecordType x, RecordType y => String.eqb x y
  | PointerType k x, PointerType l y =>
      CheckedPointerKind_eqb k l && QualType_eqb x y
  | ArrayType x, ArrayType y => QualType_eqb x y
  | FunctionType r ps p, FunctionType r' ps' p' =>
      QualType_eqb r r'
      && (fix go (x y : list QualType) : bool :=
            match x, y with
            | [], [] => true
            | c :: x', d :: y' => QualType_eqb c d && go x' y'
            | _, _ => false
            end) ps ps'
      && Bool.eqb p p'
  | _, _ => false
  end.

Definition isPointerType (T : QualType) : bool :=
  match T with PointerType _ _ => true | _ => false end.

Definition isArrayType (T : QualType) : bool :=
  match T with ArrayType _ => true | _ => false end.

Definition isFunctionType (T : QualType) : bool :=
  match T with FunctionType _ _ _ => true | _ => false end.

Definition isRecordType (T : QualType) : bool :=
  match T with RecordType _ => true | _ => false end.

Definition isEnumeralType (T : QualType) : bool :=
  match T with EnumType _ => true | _ => false end.

Definition isIntegerType (T : QualType) : bool :=
  match T with
  | BuiltinType BK_Char | BuiltinType BK_Int | EnumType _ => true
  | _ => false
  end.

Definition isArithmeticType (T : QualType) : bool :=
  match T with
  | BuiltinType BK_Char | BuiltinType BK_Int | BuiltinType BK_Float
  | EnumType _ => true
  | _ => false
  end.

Definition isVoidPointerType (T : QualType) : bool :=
  match T with PointerType _ (BuiltinType BK_Void) => true | _ => false end.

(** [ASTContext::getPointerType]: the unchecked pointer to [T]. *)
Definition getPointerType (T : QualType) : QualType :=
  PointerType CPK_Unchecked T.

(** [QualType::getAsString], for the reason strings. *)
Fixpoint getAsString (T : QualType) : string :=
  match T with
  | BuiltinType BK_Void => "void"
  | BuiltinType BK_Char => "char"
  | BuiltinType BK_Int => "int"
  | BuiltinType BK_Float => "float"
  | EnumType n => "enum " +:+ n
  | RecordType n => "struct " +:+ n
  | PointerType CPK_Unchecked P => getAsString P +:+ " *"
  | PointerType CPK_Ptr P => "_Ptr<" +:+ getAsString P +:+ ">"
  | PointerType CPK_Array P => "_Array_ptr<" +:+ getAsString P +:+ ">"
  | PointerType CPK_NtArray P => "_Nt_array_ptr<" +:+ getAsString P +:+ ">"
  | ArrayType E => getAsString E +:+ " []"
  | FunctionType R _ _ => getAsString R +:+ " ()"
  end.

Inductive DeclKind : Type :=
| DK_Function | DK_Var | DK_ParmVar | DK_Field | DK_EnumConstant | DK_Other.

Definition DeclKind_eqb (a b : DeclKind) : bool :=
  match a, b with
  | DK_Function, DK_Function | DK_Var, DK_Var | DK_ParmVar, DK_ParmVar
  | DK_Field, DK_Field | DK_EnumConstant, DK_EnumConstant
  | DK_Other, DK_Other => true
  | _, _ => false
  end.

(** What the engine reads of a declaration besides name, type and
    position. *)
Record DeclFlags : Type := mkDeclFlags {
  fIsGlobal : bool;
  fIsThisDeclarationADefinition : bool;
  fHasBody : bool;
  fIsRewritable : bool;
  fHasGlobalStorage : bool;
  fIsIdentifier : bool
}.

(** A declaration node: its class, name, type, [PersistentSourceLoc::mkPSL],
    the parameter declarations of a function, and its flags. *)
Inductive Decl : Type :=
| mkDecl (Kind : DeclKind) (Name : string) (Ty : QualType)
    (PSL : PersistentSourceLoc) (Params : list Decl) (Flags : DeclFlags).

Definition getDeclKind (D : Decl) : DeclKind :=
  match D with mkDecl k _ _ _ _ _ => k end.
Definition getNameAsString (D : Decl) : string :=
  match D with mkDecl _ n _ _ _ _ => n end.
Definition getDeclType (D : Decl) : QualType :=
  match D with mkDecl _ _ t _ _ _ => t end.
Definition mkPSL (D : Decl) : PersistentSourceLoc :=
  match D with mkDecl _ _ _ l _ _ => l end.
Definition getParamDecls (D : Decl) : list Decl :=
  match D with mkDecl _ _ _ _ ps _ => ps end.
Definition getDeclFlags (D : Decl) : DeclFlags :=
  match D with mkDecl _ _ _ _ _ f => f end.

Definition isFunctionDecl (D : Decl) : bool :=
  DeclKind_eqb (getDeclKind D) DK_Function.
(** [dyn_cast<VarDecl>]: a [ParmVarDecl] is a [VarDecl]. *)
Definition isVarDecl (D : Decl) : bool :=
  DeclKind_eqb (getDeclKind D) DK_Var || DeclKind_eqb (getDeclKind D) DK_ParmVar.
Definition isParmVarDecl (D : Decl) : bool :=
  DeclKind_eqb (getDeclKind D) DK_ParmVar.
Definition isFieldDecl (D : Decl) : bool :=
  DeclKind_eqb (getDeclKind D) DK_Field.
(** [dyn_cast<DeclaratorDecl>]. *)
Definition isDeclaratorDecl (D : Decl) : bool :=
  isFunctionDecl D || isVarDecl D || isFieldDecl D.

Definition isGlobal (D : Decl) : bool := fIsGlobal (getDeclFlags D).
Definition isThisDeclarationADefinition (D : Decl) : bool :=
  fIsThisDeclarationADefinition (getDeclFlags D).
Definition declHasBody (D : Decl) : bool := fHasBody (getDeclFlags D).
Definition isRewritable (D : Decl) : bool := fIsRewritable (getDeclFlags D).

(** [PersistentSourceLoc::valid]. *)
Definition valid (L : PersistentSourceLoc) : bool :=
  negb (String.eqb (getFileName L) "").

Inductive UnaryOpcode : Type :=
| UO_PostInc | UO_PostDec | UO_PreInc | UO_PreDec | UO_AddrOf | UO_Deref
| UO_Plus | UO_Minus | UO_Not | UO_LNot | UO_Real | UO_Imag | UO_Extension
| UO_Coawait.

Inductive BinaryOpcode : Type :=
| BO_PtrMemD | BO_PtrMemI | BO_Mul | BO_Div | BO_Rem | BO_Add | BO_Sub
| BO_Shl | BO_Shr | BO_Cmp | BO_LT | BO_GT | BO_LE | BO_GE | BO_EQ | BO_NE
| BO_And | BO_Xor | BO_Or | BO_LAnd | BO_LOr | BO_Assign | BO_MulAssign
| BO_DivAssign | BO_RemAssign | BO_AddAssign | BO_SubAssign | BO_ShlAssign
| BO_ShrAssign | BO_AndAssign | BO_XorAssign | BO_OrAssign | BO_Comma.

(** [BinaryOperator::isMultiplicativeOp]. *)
Definition isMultiplicativeOp (O : BinaryOpcode) : bool :=
  match O with BO_Mul | BO_Div | BO_Rem => true | _ => false end.

Inductive UnaryExprOrTypeTrait : Type := UETT_SizeOf | UETT_AlignOf.

(** What every expression node carries: its identity, its static type, its
    source position and whether the rewriter can touch that position. *)
Record ExprInfo : Type := mkExprInfo {
  eId : nat;
  eType : QualType;
  ePSL : PersistentSourceLoc;
  eRewritable : bool
}.

(** The expression classes the engine distinguishes.  [StmtExpr] carries
    the result of [getStmtExprResult]: [None] is the null pointer of a
    statement expression without statements, [Some None] a last statement
    that is no expression, [Some (Some E)] the expression [E].
    [OtherExpr] stands for every other class. *)
Inductive Expr : Type :=
| ParenExpr (H : ExprInfo) (Sub : Expr)
| ImplicitCastExpr (H : ExprInfo) (Sub : Expr)
| CStyleCastExpr (H : ExprInfo) (Sub : Expr)
| DeclRefExpr (H : ExprInfo) (D : Decl)
| MemberExpr (H : ExprInfo) (Base : Expr) (Member : Decl)
| CHKCBindTemporaryExpr (H : ExprInfo) (Sub : Expr)
| BinaryOperator (H : ExprInfo) (Opc : BinaryOpcode) (LHS RHS : Expr)
| ArraySubscriptExpr (H : ExprInfo) (Base Idx : Expr)
| UnaryOperator (H : ExprInfo) (Opc : UnaryOpcode) (Sub : Expr)
| CallExpr (H : ExprInfo) (CalleeDecl : option Decl) (Callee : Expr)
    (Args : list Expr)
| ConditionalOperator (H : ExprInfo) (Cond LHS RHS : Expr)
| InitListExpr (H : ExprInfo) (Inits : list Expr)
| CompoundLiteralExpr (H : ExprInfo) (Init : Expr)
| StringLiteral (H : ExprInfo) (ByteLength : nat)
| StmtExpr (H : ExprInfo) (Result : option (option Expr))
| UnaryExprOrTypeTraitExpr (H : ExprInfo) (Kind : UnaryExprOrTypeTrait)
    (ArgTy : QualType)
| IntegerLiteral (H : ExprInfo) (Val : Z)
| OtherExpr (H : ExprInfo).

Definition getInfo (E : Expr) : ExprInfo :=
  match E with
  | ParenExpr H _ | ImplicitCastExpr H _ | CStyleCastExpr H _
  | DeclRefExpr H _ | MemberExpr H _ _ | CHKCBindTemporaryExpr H _
  | BinaryOperator H _ _ _ | ArraySubscriptExpr H _ _
  | UnaryOperator H _ _ | CallExpr H _ _ _ | ConditionalOperator H _ _ _
  | InitListExpr H _ | CompoundLiteralExpr H _ | StringLiteral H _
  | StmtExpr H _ | UnaryExprOrTypeTraitExpr H _ _ | IntegerLiteral H _
  | OtherExpr H => H
  end.

Definition getType (E : Expr) : QualType := eType (getInfo E).
Definition getExprId (E : Expr) : nat := eId (getInfo E).

(** [Stmt::getStmtClassName]. *)
Definition getStmtClassName (E : Expr) : string :=
  match E with
  | ParenExpr _ _ => "ParenExpr"
  | ImplicitCastExpr _ _ => "ImplicitCastExpr"
  | CStyleCastExpr _ _ => "CStyleCastExpr"
  | DeclRefExpr _ _ => "DeclRefExpr"
  | MemberExpr _ _ _ => "MemberExpr"
  | CHKCBindTemporaryExpr _ _ => "CHKCBindTemporaryExpr"
  | BinaryOperator _ _ _ _ => "BinaryOperator"
  | ArraySubscriptExpr _ _ _ => "ArraySubscriptExpr"
  | UnaryOperator _ _ _ => "UnaryOperator"
  | CallExpr _ _ _ _ => "CallExpr"
  | ConditionalOperator _ _ _ _ => "ConditionalOperator"
  | InitListExpr _ _ => "InitListExpr"
  | CompoundLiteralExpr _ _ => "CompoundLiteralExpr"
  | StringLiteral _ _ => "StringLiteral"
  | StmtExpr _ _ => "StmtExpr"
  | UnaryExprOrTypeTraitExpr _ _ _ => "UnaryExprOrTypeTraitExpr"
  | IntegerLiteral _ _ => "IntegerLiteral"
  | OtherExpr _ => "Expr"
  end.

(** [Expr::IgnoreParens]. *)
Fixpoint IgnoreParens (E : Expr) : Expr :=
  match E with
  | ParenExpr _ Sub => IgnoreParens Sub
  | _ => E
  end.

(** [Expr::IgnoreParenImpCasts]. *)
Fixpoint IgnoreParenImpCasts (E : Expr) : Expr :=
  match E with
  | ParenExpr _ Sub => IgnoreParenImpCasts Sub
  | ImplicitCastExpr _ Sub => IgnoreParenImpCasts Sub
  | _ => E
  end.

(** [Expr::IgnoreParenCasts]. *)
Fixpoint IgnoreParenCasts (E : Expr) : Expr :=
  match E with
  | ParenExpr _ Sub => IgnoreParenCasts Sub
  | ImplicitCastExpr _ Sub => IgnoreParenCasts Sub
  | CStyleCastExpr _ Sub => IgnoreParenCasts Sub
  | _ => E
  end.

End FrontEnd.

Export FrontEnd.

(** ** ProgramInfo: linking *)

Module Linking.

(** The members of [ProgramInfo] that [link] and [addVariable] use.
    [std::map]s are finite maps. *)
Record ProgramInfo : Type := mkProgramInfo {
  persisted : bool;
  CS : Constraints;
  Variables : gmap PersistentSourceLoc CVarSet;
  GlobalVariableSymbols : gmap string CVarSet;
  ExternFunctions : gmap string bool;
  ExternalFunctionDeclFVCons : gmap string CVarSet;
  ExternalFunctionDefnFVCons : gmap string CVarSet;
  StaticFunctionDeclFVCons : gmap string (gmap string CVarSet);
  StaticFunctionDefnFVCons : gmap string (gmap string CVarSet);
  MultipleRewrites : bool
}.

Definition setCS (I : ProgramInfo) (C : Constraints) : ProgramInfo :=
  mkProgramInfo (persisted I) C (Variables I) (GlobalVariableSymbols I) (ExternFunctions I)
    (ExternalFunctionDeclFVCons I) (ExternalFunctionDefnFVCons I)
    (StaticFunctionDeclFVCons I) (StaticFunctionDefnFVCons I)
    (MultipleRewrites I).

(** A loop over a [std::map] whose keys are names visits the entries in
    the order of the keys: [std::string::operator<] compares byte by byte,
    and a proper prefix comes first. *)
Definition nameLe {A} (a b : string * A) : Prop :=
  String.leb a.1 b.1 = true.

#[global] Instance nameLe_dec {A} : RelDecision (@nameLe A) :=
  fun a b => decide (String.leb a.1 b.1 = true).

Definition inNameOrder {A} (m : gmap string A) : list (string * A) :=
  merge_sort nameLe (map_to_list m).

(** [ProgramInfo::isExternOkay]. *)
Definition isExternOkay (Ext : string) : bool :=
  String.eqb Ext "malloc" || String.eqb Ext "free".

(** The loop shared by the first two blocks of [link]: iterators [I] and
    [J = I + 1] walk a set and every neighbouring pair is made equal. *)
Fixpoint constrainNeighbours (C : CVarSet) (cs : Constraints) : Constraints :=
  match C with
  | VI :: ((VJ :: _) as C') =>
      constrainNeighbours C'
        (constrainConsVarGeq [VI] [VJ] None Same_to_Same cs)
  | _ => cs
  end.

(** What the third block adds for two declarations [P1], [P2] without
    body: the return variables are made equal; the parameters are made
    equal when the numbers of parameters agree; otherwise, when both
    declarations carry a prototype, both are constrained to WILD. *)
Definition mergePair (P1 P2 : ConstraintVariable) (cs : Constraints)
    : Constraints :=
  let cs0 :=
    constrainConsVarGeq (getReturnVars P1) (getReturnVars P2) None
      Same_to_Same cs in
  if Nat.eqb (numParams P1) (numParams P2) then
    foldl (fun c LR => constrainConsVarGeq LR.1 LR.2 None Same_to_Same c)
      cs0 (zip (getParamVars P1) (getParamVars P2))
  else if hasProtoType P1 && hasProtoType P2 then
    let rsn := "Return value of function:" +:+ getName P1 in
    constrainToWild P2 rsn None (constrainToWild P1 rsn None cs0)
  else cs0.

(** The body of the [while (J != P.end())] loop of the third block, for the
    declarations [P] of one symbol; [I] and [J] are the positions of the two
    iterators and [Gap] is the flag declared before the loop over symbols.
    [fuel] bounds the number of iterations. *)
Fixpoint mergeDeclsLoop (fuel : nat) (P : CVarSet) (I J : nat) (Gap : bool)
    (cs : Constraints) : option (Constraints * bool) :=
  match P !! J with
  | None => Some (cs, Gap)
  | Some P2 =>
      match fuel with
      | O => None
      | S fuel' =>
          match P !! I with
          | None => None
          | Some P1 =>
              if hasBody P2 then mergeDeclsLoop fuel' P I (S J) true cs
              else
                let cs1 :=
                  if negb (hasBody P1) && negb (hasBody P2)
                  then mergePair P1 P2 cs
                  else cs in
                if negb Gap then mergeDeclsLoop fuel' P (S I) (S J) false cs1
                else mergeDeclsLoop fuel' P (S I) J false cs1
          end
      end
  end.

(** One symbol of the third block: nothing happens unless the set has more
    than one element. *)
Definition mergeDecls (P : CVarSet) (Gap : bool) (cs : Constraints)
    : option (Constraints * bool) :=
  if decide (1 < length P) then
    mergeDeclsLoop (2 * length P + 2) P 0 1 Gap cs
  else Some (cs, Gap).

Fixpoint mergeAllDecls (Ps : list (string * CVarSet)) (Gap : bool)
    (cs : Constraints) : option (Constraints * bool) :=
  match Ps with
  | [] => Some (cs, Gap)
  | Sym :: Ps' =>
      match mergeDecls Sym.2 Gap cs with
      | None => None
      | Some (cs', Gap') => mergeAllDecls Ps' Gap' cs'
      end
  end.

(** The inner loops of the last block for one declaration [G] of an
    unresolved external function. *)
Definition constrainExternToWild (FuncName : string)
    (G : ConstraintVariable) (cs : Constraints) : Constraints :=
  let cs1 :=
    foldl (fun c U =>
             constrainToWild U
               ("Return value of an external function:" +:+ FuncName) None c)
      cs (getReturnVars G) in
  foldl (fun c Ps =>
           foldl (fun c' PVar =>
                    constrainToWild PVar
                      "Inner pointer of a parameter to external function."
                      None c')
             c Ps)
    cs1 (getParamVars G).

(** The last block of [link]; the [assert] on the declaration map is the
    [None] result. *)
Fixpoint constrainExterns (Us : list (string * bool))
    (Decls : gmap string CVarSet) (cs : Constraints) : option Constraints :=
  match Us with
  | [] => Some cs
  | U :: Us' =>
      if negb U.2 && negb (isExternOkay U.1) then
        match Decls !! U.1 with
        | None => None
        | Some Gs =>
            constrainExterns Us' Decls
              (foldl (fun c G => constrainExternToWild U.1 G c) cs Gs)
        end
      else constrainExterns Us' Decls cs
  end.

(** The [assert] of the last block of [link] holds: every unresolved
    external function that the block constrains has an entry in the map of
    declarations. *)
Definition externsDeclared (Info : ProgramInfo) : bool :=
  forallb
    (fun U : string * bool =>
       implb (negb U.2 && negb (isExternOkay U.1))
         (bool_decide (is_Some (ExternalFunctionDeclFVCons Info !! U.1))))
    (map_to_list (ExternFunctions Info)).

(** [ProgramInfo::link].  [SeperateMultipleFuncDecls] is the global option
    of CCGlobalOptions.h.  The order of the keys of [Variables] is declared
    in PersistentSourceLoc.h, which is not part of the sources at hand: its
    entries are visited in the order of [map_to_list]. *)
Definition link (SeperateMultipleFuncDecls : bool) (Info : ProgramInfo)
    : option ProgramInfo :=
  let cs1 :=
    foldl (fun c V => constrainNeighbours V.2 c) (CS Info)
      (map_to_list (Variables Info)) in
  let cs2 :=
    foldl (fun c V => constrainNeighbours V.2 c) cs1
      (inNameOrder (GlobalVariableSymbols Info)) in
  let r3 :=
    if negb SeperateMultipleFuncDecls then
      mergeAllDecls (inNameOrder (ExternalFunctionDeclFVCons Info)) false cs2
    else Some (cs2, false) in
  match r3 with
  | None => None
  | Some (cs3, _) =>
      match constrainExterns (inNameOrder (ExternFunctions Info))
              (ExternalFunctionDeclFVCons Info) cs3 with
      | None => None
      | Some cs4 => Some (setCS Info cs4)
      end
  end.

End Linking.

Export Linking.

(** ** ProgramInfo: registering declarations *)

Module Registering.

Definition defaultPVInfo (N B : string) (G : bool) : PVInfo :=
  mkPVInfo N B false None None false G.

Definition setChecked (i : PVInfo) : PVInfo :=
  mkPVInfo (pvName i) (pvBaseType i) (pvArrPresent i) (pvItype i)
    (pvBoundsKey i) true (pvIsGeneric i).

Definition setArrPresent (i : PVInfo) : PVInfo :=
  mkPVInfo (pvName i) (pvBaseType i) true (pvItype i)
    (pvBoundsKey i) (pvIsOriginallyChecked i) (pvIsGeneric i).

(** The atom of one pointer level: a fresh variable for an unchecked
    pointer, the constant of its class for a checked one. *)
Definition levelAtom (K : CheckedPointerKind) (cs : Constraints)
    : Atom * Constraints :=
  match K with
  | CPK_Unchecked => getFreshVar cs
  | CPK_Ptr => (getPtr, cs)
  | CPK_Array => (getArr, cs)
  | CPK_NtArray => (getNTArr, cs)
  end.

Definition isCheckedKind (K : CheckedPointerKind) : bool :=
  match K with CPK_Unchecked => false | _ => true end.

(** [C] with one more outermost atom. *)
Definition pushAtom (A : Atom) (upd : PVInfo -> PVInfo)
    (C : ConstraintVariable) : ConstraintVariable :=
  match C with
  | PVConstraint vs fv i => PVConstraint (A :: vs) fv (upd i)
  | FVConstraint _ _ _ _ _ => C
  end.

(** Modelled from the spec: the [PointerVariableConstraint] constructor from
    a type (ConstraintVariables.cpp).  Spec 3: "an ordered sequence of
    atoms, one per pointer/array level (outermost first), plus: the
    underlying non-pointer base type, an optional nested function-shaped
    variable (for pointers-to-function)", and the flag
    was-originally-a-checked-type. *)
Fixpoint newPVConstraint (T : QualType) (N : string) (G : bool)
    (cs : Constraints) {struct T} : ConstraintVariable * Constraints :=
  match T with
  | PointerType K P =>
      let '(A, cs1) := levelAtom K cs in
      let '(C, cs2) := newPVConstraint P N G cs1 in
      (pushAtom A (if isCheckedKind K then setChecked else id) C, cs2)
  | ArrayType E =>
      let '(A, cs1) := getFreshVar cs in
      let '(C, cs2) := newPVConstraint E N G cs1 in
      (pushAtom A setArrPresent C, cs2)
  | FunctionType R Ps Proto =>
      let '(RV, cs1) := newPVConstraint R "" false cs in
      let '(PVs, cs2) :=
        (fix go (ps : list QualType) (c : Constraints)
           : list CVarSet * Constraints :=
           match ps with
           | [] => ([], c)
           | p :: ps' =>
               let '(V, c1) := newPVConstraint p "" false c in
               let '(Vs, c2) := go ps' c1 in
               ([V] :: Vs, c2)
           end) Ps cs1 in
      (PVConstraint [] (Some (FVConstraint N [RV] PVs false Proto))
         (defaultPVInfo N (getAsString T) G), cs2)
  | _ => (PVConstraint [] None (defaultPVInfo N (getAsString T) G), cs)
  end.

(** [cs'] has the constraints of [cs], and the unknowns among [As] are
    keys taken from the counter on the way from [cs] to [cs']. *)
Definition freshFrom (cs cs' : Constraints) (As : list Atom) : Prop :=
  getConstraints cs' = getConstraints cs
  /\ freshKey cs <= freshKey cs'
  /\ forall k, VarAtom k ∈ As -> freshKey cs <= k < freshKey cs'.

(** The parameter variables of a function-shaped variable, one singleton
    set per parameter declaration. *)
Fixpoint newParamVars (Ps : list Decl) (cs : Constraints)
    : list CVarSet * Constraints :=
  match Ps with
  | [] => ([], cs)
  | P :: Ps' =>
      let '(V, cs1) :=
        newPVConstraint (getDeclType P) (getNameAsString P) false cs in
      let '(Vs, cs2) := newParamVars Ps' cs1 in
      ([V] :: Vs, cs2)
  end.

Definition getReturnType (T : QualType) : QualType :=
  match T with FunctionType R _ _ => R | _ => T end.

Definition typeHasProto (T : QualType) : bool :=
  match T with FunctionType _ _ p => p | _ => false end.

(** Modelled from the spec: the [FunctionVariableConstraint] constructor
    from a declaration (ConstraintVariables.cpp).  Spec 3: "a return-value
    constraint variable, an ordered list of parameter constraint-variable
    sets [...], and a has-body flag". *)
Definition newFVConstraint (D : Decl) (cs : Constraints)
    : ConstraintVariable * Constraints :=
  let '(RV, cs1) :=
    newPVConstraint (getReturnType (getDeclType D)) (getNameAsString D)
      false cs in
  let '(PVs, cs2) := newParamVars (getParamDecls D) cs1 in
  (FVConstraint (getNameAsString D) [RV] PVs
     (isThisDeclarationADefinition D && declHasBody D)
     (typeHasProto (getDeclType D)), cs2).

(** [ProgramInfo::hasConstraintType<T>], for [T] one of the two
    subclasses. *)
Definition hasConstraintType (isT : ConstraintVariable -> bool)
    (S : CVarSet) : bool := existsb isT S.

(** The number of constraint variables of one subclass in a set. *)
Definition countType (isT : ConstraintVariable -> bool)
    (S : list ConstraintVariable) : nat := length (List.filter isT S).

(** [ProgramInfo::insertIntoExternalFunctionMap]; the second component is
    the new value of [MultipleRewrites]. *)
Definition insertIntoExternalFunctionMap (Map : gmap string CVarSet)
    (FuncName : string) (ToIns : CVarSet) (MR : bool)
    : gmap string CVarSet * bool :=
  match Map !! FuncName with
  | None => (<[FuncName := ToIns]> Map, MR)
  | Some _ => (Map, true)
  end.

(** [ProgramInfo::insertIntoStaticFunctionMap]. *)
Definition insertIntoStaticFunctionMap
    (Map : gmap string (gmap string CVarSet))
    (FuncName FileName : string) (ToIns : CVarSet) (MR : bool)
    : gmap string (gmap string CVarSet) * bool :=
  match Map !! FuncName with
  | None => (<[FuncName := {[FileName := ToIns]}]> Map, MR)
  | Some Files =>
      match Files !! FileName with
      | None => (<[FuncName := <[FileName := ToIns]> Files]> Map, MR)
      | Some _ => (Map, true)
      end
  end.

(** [ProgramInfo::insertNewFVConstraints]. *)
Definition insertNewFVConstraints (FD : Decl) (FVcons : CVarSet)
    (Info : ProgramInfo) : ProgramInfo :=
  let FuncName := getNameAsString FD in
  if isGlobal FD then
    if isThisDeclarationADefinition FD && declHasBody FD then
      let '(M, MR) :=
        insertIntoExternalFunctionMap (ExternalFunctionDefnFVCons Info)
          FuncName FVcons (MultipleRewrites Info) in
      mkProgramInfo (persisted Info) (CS Info) (Variables Info)
        (GlobalVariableSymbols Info) (ExternFunctions Info)
        (ExternalFunctionDeclFVCons Info) M
        (StaticFunctionDeclFVCons Info) (StaticFunctionDefnFVCons Info) MR
    else
      let '(M, MR) :=
        insertIntoExternalFunctionMap (ExternalFunctionDeclFVCons Info)
          FuncName FVcons (MultipleRewrites Info) in
      mkProgramInfo (persisted Info) (CS Info) (Variables Info)
        (GlobalVariableSymbols Info) (ExternFunctions Info)
        M (ExternalFunctionDefnFVCons Info)
        (StaticFunctionDeclFVCons Info) (StaticFunctionDefnFVCons Info) MR
  else
    let FuncFileName := getFileName (mkPSL FD) in
    if isThisDeclarationADefinition FD && declHasBody FD then
      let '(M, MR) :=
        insertIntoStaticFunctionMap (StaticFunctionDefnFVCons Info)
          FuncName FuncFileName FVcons (MultipleRewrites Info) in
      mkProgramInfo (persisted Info) (CS Info) (Variables Info)
        (GlobalVariableSymbols Info) (ExternFunctions Info)
        (ExternalFunctionDeclFVCons Info) (ExternalFunctionDefnFVCons Info)
        (StaticFunctionDeclFVCons Info) M MR
    else
      let '(M, MR) :=
        insertIntoStaticFunctionMap (StaticFunctionDeclFVCons Info)
          FuncName FuncFileName FVcons (MultipleRewrites Info) in
      mkProgramInfo (persisted Info) (CS Info) (Variables Info)
        (GlobalVariableSymbols Info) (ExternFunctions Info)
        (ExternalFunctionDeclFVCons Info) (ExternalFunctionDefnFVCons Info)
        M (StaticFunctionDefnFVCons Info) MR.

Definition setVariables (I : ProgramInfo)
    (V : gmap PersistentSourceLoc CVarSet) : ProgramInfo :=
  mkProgramInfo (persisted I) (CS I) V (GlobalVariableSymbols I)
    (ExternFunctions I) (ExternalFunctionDeclFVCons I)
    (ExternalFunctionDefnFVCons I) (StaticFunctionDeclFVCons I)
    (StaticFunctionDefnFVCons I) (MultipleRewrites I).

(** [Variables[L]]: [operator[]] yields the empty set for a new key. *)
Definition lookupVars (V : gmap PersistentSourceLoc CVarSet)
    (L : PersistentSourceLoc) : CVarSet := default [] (V !! L).

(** [Variables[L].insert(S.begin(), S.end())]. *)
Definition insertVars (L : PersistentSourceLoc) (S : CVarSet)
    (V : gmap PersistentSourceLoc CVarSet)
    : gmap PersistentSourceLoc CVarSet :=
  <[L := insertCVs S (lookupVars V L)]> V.

(** The loop of [addVariable] that maps every parameter position to the
    parameter's constraint variables. *)
Fixpoint addParamMappings (Ps : list Decl) (PVs : list CVarSet)
    (V : gmap PersistentSourceLoc CVarSet)
    : gmap PersistentSourceLoc CVarSet :=
  match Ps, PVs with
  | PVD :: Ps', PS :: PVs' =>
      addParamMappings Ps' PVs'
        (match PS with
         | [] => V
         | _ :: _ => insertVars (mkPSL PVD) PS V
         end)
  | _, _ => V
  end.

(** [ProgramInfo::addVariable]. *)
Definition addVariable (D : Decl) (Info : ProgramInfo)
    : option ProgramInfo :=
  if persisted Info then None
  else if negb (valid (mkPSL D)) then None
  else
    let PLoc := mkPSL D in
    (* [operator[]] creates the entry. *)
    let Info0 :=
      setVariables Info (<[PLoc := lookupVars (Variables Info) PLoc]>
                           (Variables Info)) in
    let r :=
      if isFunctionDecl D then
        if negb (isFunctionType (getDeclType D)) then None
        else if negb (hasConstraintType isFV
                        (lookupVars (Variables Info0) PLoc)) then
          let '(F, cs1) := newFVConstraint D (CS Info0) in
          let Info1 :=
            setVariables (setCS Info0 cs1)
              (insertVars PLoc [F] (Variables Info0)) in
          let Info2 := insertNewFVConstraints D [F] Info1 in
          if negb (Nat.eqb (length (getParamDecls D)) (numParams F))
          then None
          else
            Some (setVariables Info2
                    (addParamMappings (getParamDecls D) (getParamVars F)
                       (Variables Info2)))
        else Some Info0
      else if isVarDecl D || isFieldDecl D then
        let Ty := getDeclType D in
        if isPointerType Ty || isArrayType Ty then
          if negb (hasConstraintType isPV
                     (lookupVars (Variables Info0) PLoc)) then
            let '(P, cs1) :=
              newPVConstraint Ty (getNameAsString D) false (CS Info0) in
            Some (setVariables (setCS Info0 cs1)
                    (insertVars PLoc [P] (Variables Info0)))
          else Some Info0
        else Some Info0
      else None in
    match r with
    | None => None
    | Some Info3 =>
        if negb (isRewritable D) then
          Some (setCS Info3
                  (foldl (fun c C =>
                            constrainToWild C "Pointer in Macro declaration."
                              None c)
                     (CS Info3) (lookupVars (Variables Info3) PLoc)))
        else Some Info3
    end.

(** [ProgramInfo::seeFunctionDecl]. *)
Definition seeFunctionDecl (F : Decl) (Info : ProgramInfo) : ProgramInfo :=
  if negb (isGlobal F) then Info
  else
    let Fname := getNameAsString F in
    let seen := default false (ExternFunctions Info !! Fname) in
    let E' :=
      if negb seen then
        <[Fname := isThisDeclarationADefinition F && declHasBody F]>
          (ExternFunctions Info)
      else <[Fname := seen]> (ExternFunctions Info) in
    mkProgramInfo (persisted Info) (CS Info) (Variables Info)
      (GlobalVariableSymbols Info) E' (ExternalFunctionDeclFVCons Info)
      (ExternalFunctionDefnFVCons Info) (StaticFunctionDeclFVCons Info)
      (StaticFunctionDefnFVCons Info) (MultipleRewrites Info).

Definition emptyProgramInfo : ProgramInfo :=
  mkProgramInfo false emptyCS ∅ ∅ ∅ ∅ ∅ ∅ ∅ false.

End Registering.

Export Registering.

(** ** ProgramInfo: root causes of WILD pointers *)

Module RootCause.

(** [WildPointerInferenceInfo]. *)
Record WildPointerInferenceInfo : Type := mkWPI {
  WildPtrReason : string;
  IsValid : bool;
  SourceFileName : string;
  wpLineNo : nat;
  wpColStart : nat
}.

Definition emptyWPI : WildPointerInferenceInfo := mkWPI "" false "" 0 0.

(** [DisjointSet]: the members [computePointerDisjointSet] touches. *)
Record DisjointSet : Type := mkDS {
  Leaders : gmap ConstraintKey ConstraintKey;
  Groups : gmap ConstraintKey (gset ConstraintKey);
  RealWildPtrsWithReasons : gmap ConstraintKey WildPointerInferenceInfo;
  TotalNonDirectWildPointers : gset ConstraintKey;
  AllWildPtrs : gset ConstraintKey;
  PtrSourceMap : gmap ConstraintKey PersistentSourceLoc;
  ValidSourceFiles : gset string
}.

(** [DisjointSet::Clear]. *)
Definition Clear : DisjointSet := mkDS ∅ ∅ ∅ ∅ ∅ ∅ ∅.

Definition setLG (D : DisjointSet)
    (L : gmap ConstraintKey ConstraintKey)
    (G : gmap ConstraintKey (gset ConstraintKey)) : DisjointSet :=
  mkDS L G (RealWildPtrsWithReasons D) (TotalNonDirectWildPointers D)
    (AllWildPtrs D) (PtrSourceMap D) (ValidSourceFiles D).

(** [Groups[k]]. *)
Definition group (G : gmap ConstraintKey (gset ConstraintKey))
    (k : ConstraintKey) : gset ConstraintKey := default ∅ (G !! k).

(** Every key led by [Old] is led by [New] instead. *)
Definition replaceLeader (Old New : ConstraintKey)
    (L : gmap ConstraintKey ConstraintKey) : gmap ConstraintKey ConstraintKey :=
  (fun l => if decide (l = Old) then New else l) <$> L.

(** Modelled from the spec: [DisjointSet::AddElements] (declared in
    ProgramInfo.h, not part of the sources at hand).  Spec 4.7: the pass
    "builds a union-find over all Unknown atom ids using every Geq(a,b)
    edge": the groups of [a] and [b] are united, a key seen for the first
    time joins the other key's group, and two new keys form a group led by
    the first. *)
Definition AddElements (a b : ConstraintKey) (D : DisjointSet) : DisjointSet :=
  match Leaders D !! a, Leaders D !! b with
  | Some la, Some lb =>
      if decide (la = lb) then D
      else
        setLG D (replaceLeader lb la (Leaders D))
          (delete lb
             (<[la := group (Groups D) la ∪ group (Groups D) lb]> (Groups D)))
  | Some la, None =>
      setLG D (<[b := la]> (Leaders D))
        (<[la := group (Groups D) la ∪ {[b]}]> (Groups D))
  | None, Some lb =>
      setLG D (<[a := lb]> (Leaders D))
        (<[lb := group (Groups D) lb ∪ {[a]}]> (Groups D))
  | None, None =>
      setLG D (<[b := a]> (<[a := a]> (Leaders D)))
        (<[a := {[a; b]}]> (Groups D))
  end.

(** The first loop, for one constraint.  [WildPtrs] is the local set of the
    source. *)
Definition recordConstraint (currC : Constraint)
    (st : DisjointSet * gset ConstraintKey)
    : option (DisjointSet * gset ConstraintKey) :=
  let '(D, WildPtrs) := st in
  match currC with
  | CImplies _ _ => Some st
  | CGeq EC =>
      match getRHS EC with
      | ConstA A_Wild =>
          match getLHS EC with
          | VarAtom k =>
              let old := default emptyWPI (RealWildPtrsWithReasons D !! k) in
              let r1 :=
                mkWPI (getReason EC) (IsValid old) (SourceFileName old)
                  (wpLineNo old) (wpColStart old) in
              let r2 :=
                match getGeqLoc EC with
                | Some PL =>
                    if negb (String.eqb (getFileName PL) "")
                       && negb (Nat.eqb (getLineNo PL) 0)
                    then mkWPI (getReason EC) true (getFileName PL)
                           (getLineNo PL) (getColNo PL)
                    else r1
                | None => r1
                end in
              Some (mkDS (Leaders D) (Groups D)
                      (<[k := r2]> (RealWildPtrsWithReasons D))
                      (TotalNonDirectWildPointers D) (AllWildPtrs D)
                      (PtrSourceMap D) (ValidSourceFiles D),
                    {[k]} ∪ WildPtrs)
          | ConstA _ => None
          end
      | VarAtom r =>
          match getLHS EC with
          | VarAtom l => Some (AddElements l r D, WildPtrs)
          | ConstA _ => None
          end
      | ConstA _ => Some st
      end
  end.

Fixpoint recordConstraints (Cs : list Constraint)
    (st : DisjointSet * gset ConstraintKey)
    : option (DisjointSet * gset ConstraintKey) :=
  match Cs with
  | [] => Some st
  | C :: Cs' =>
      match recordConstraint C st with
      | None => None
      | Some st' => recordConstraints Cs' st'
      end
  end.

(** The second loop, for one directly WILD key. *)
Definition adjustLeader (RealCVar : ConstraintKey) (D : DisjointSet)
    : DisjointSet :=
  match Leaders D !! RealCVar with
  | None => D
  | Some OldGroupLeader =>
      match RealWildPtrsWithReasons D !! OldGroupLeader with
      | Some _ => D
      | None =>
          setLG D (replaceLeader OldGroupLeader RealCVar (Leaders D))
            (delete OldGroupLeader
               (<[RealCVar := group (Groups D) RealCVar
                              ∪ group (Groups D) OldGroupLeader
                              ∪ {[RealCVar]}]> (Groups D)))
      end
  end.

(** The keys of a [std::map] or [std::set], ascending. *)
Definition ascending (K : gset ConstraintKey) : list ConstraintKey :=
  merge_sort Nat.le (elements K).

(** The third loop: the union of the groups whose leader is directly
    WILD. *)
Definition wildGroupMembers (D : DisjointSet) : gset ConstraintKey :=
  foldl (fun acc Gm =>
           match RealWildPtrsWithReasons D !! Gm.1 with
           | Some _ => Gm.2 ∪ acc
           | None => acc
           end)
    ∅ (map_to_list (Groups D)).

(** The last loop: the directly WILD members of all groups. *)
Definition allWildInGroups (D : DisjointSet) (WildPtrs : gset ConstraintKey)
    : gset ConstraintKey :=
  foldl (fun acc G =>
           let WildCkeys := G.2 ∩ WildPtrs in
           if decide (WildCkeys = ∅) then acc else WildCkeys ∪ acc)
    ∅ (map_to_list (Groups D)).

(** The variable atoms of a constraint variable that the source maps back
    to a location: the levels of a pointer variable, or of the pointer
    variables among the return variables of a function variable. *)
Definition sourceAtoms (CV : ConstraintVariable) : list Atom :=
  match CV with
  | PVConstraint vs _ _ => vs
  | FVConstraint _ rets _ _ _ =>
      flat_map (fun PV => if isPV PV then getCvars PV else []) rets
  end.

Definition mapAtomsTo (L : PersistentSourceLoc) (As : list Atom)
    (M : gmap ConstraintKey PersistentSourceLoc)
    : gmap ConstraintKey PersistentSourceLoc :=
  foldl (fun m A => match A with VarAtom k => <[k := L]> m | ConstA _ => m end)
    M As.

(** The loop over [Variables]; [canWrite] is the file filter of Utils.cpp. *)
Definition recordSources (canWrite : string -> bool)
    (Vars : list (PersistentSourceLoc * CVarSet)) (D : DisjointSet)
    : DisjointSet :=
  foldl (fun d LS =>
           if canWrite (getFileName LS.1) then
             mkDS (Leaders d) (Groups d) (RealWildPtrsWithReasons d)
               (TotalNonDirectWildPointers d) (AllWildPtrs d)
               (foldl (fun m CV => mapAtomsTo LS.1 (sourceAtoms CV) m)
                  (PtrSourceMap d) LS.2)
               ({[getFileName LS.1]} ∪ ValidSourceFiles d)
           else d)
    D Vars.

(** [ProgramInfo::computePointerDisjointSet]. *)
Definition computePointerDisjointSet (canWrite : string -> bool)
    (Info : ProgramInfo) : option DisjointSet :=
  match recordConstraints (getConstraints (CS Info)) (Clear, ∅) with
  | None => None
  | Some (D1, WildPtrs) =>
      let D2 :=
        foldl (fun d k => adjustLeader k d) D1
          (ascending (dom (RealWildPtrsWithReasons D1))) in
      let Total := wildGroupMembers D2 ∖ WildPtrs in
      let D3 :=
        mkDS (Leaders D2) (Groups D2) (RealWildPtrsWithReasons D2) Total
          (AllWildPtrs D2) (PtrSourceMap D2) (ValidSourceFiles D2) in
      let D4 := recordSources canWrite (map_to_list (Variables Info)) D3 in
      Some (mkDS (Leaders D4) (Groups D4) (RealWildPtrsWithReasons D4)
              (TotalNonDirectWildPointers D4)
              (allWildInGroups D4 WildPtrs ∪ AllWildPtrs D4)
              (PtrSourceMap D4) (ValidSourceFiles D4))
  end.

(** The first loop reads the key of the left side of every [Geq] whose
    right side is WILD or an unknown: such a left side has to be an
    unknown. *)
Definition leftIsVar (C : Constraint) : bool :=
  match C with
  | CImplies _ _ => true
  | CGeq EC =>
      match getRHS EC, getLHS EC with
      | ConstA A_Wild, ConstA _ => false
      | VarAtom _, ConstA _ => false
      | _, _ => true
      end
  end.

(** The two maps of a disjoint set agree: the group of a leader holds
    exactly the keys it leads, and a leader belongs to its own group. *)
Definition consistent (D : DisjointSet) : Prop :=
  (forall k l, Leaders D !! k = Some l
               <-> exists g, Groups D !! l = Some g /\ k ∈ g)
  /\ (forall l g, Groups D !! l = Some g -> l ∈ g).

(** Two keys are in one group. *)
Definition sameGroup (D : DisjointSet) (a b : nat) : Prop :=
  exists l, Leaders D !! a = Some l /\ Leaders D !! b = Some l.

End RootCause.

Export RootCause.

(** ** ConstraintResolver *)

Module Resolver.

Abbreviation BKeySet := (list nat) (only parsing).
Abbreviation CSetBkeyPair :=
  (list ConstraintVariable * list nat)%type (only parsing).

(** The helpers of Utils.cpp and of the other engine classes that the
    resolver calls and whose code is not part of the sources at hand: they
    are taken as given. *)
Record ResolverEnv : Type := mkResolverEnv {
  isNULLExpression : Expr -> bool;
  isCastSafe : QualType -> QualType -> bool;
  getVariable : Decl -> option ConstraintVariable;
  evaluateToInt : Expr -> option Z;
  AllocatorFunctions : list string;
  getContextSensitiveBoundsKey : nat -> BoundsKey -> BoundsKey
}.

(** What the resolver changes: the constraint system and the persistent
    constraints of expressions. *)
Record ResolverState : Type := mkRS {
  rCS : Constraints;
  ExprConstraintVars : gmap nat CSetBkeyPair
}.

(** State and failure. *)
Definition M (A : Type) : Type := ResolverState -> option (A * ResolverState).

Definition ret {A} (x : A) : M A := fun s => Some (x, s).
Definition fail {A} : M A := fun _ => None.
Definition bind {A B} (m : M A) (f : A -> M B) : M B :=
  fun s => match m s with None => None | Some (x, s') => f x s' end.
Definition getState : M ResolverState := fun s => Some (s, s).
Definition modifyCS (f : Constraints -> Constraints) : M unit :=
  fun s => Some (tt, mkRS (f (rCS s)) (ExprConstraintVars s)).
Definition withCS {A} (f : Constraints -> A * Constraints) : M A :=
  fun s => let '(x, cs) := f (rCS s) in
           Some (x, mkRS cs (ExprConstraintVars s)).

Notation "'let*' x ':=' m 'in' k" := (bind m (fun x => k))
  (at level 10, x name, m at level 100, k at level 200).
Notation "'do*' m 'in' k" := (bind m (fun _ => k))
  (at level 10, m at level 100, k at level 200).

(** Modelled from the spec: the persistent-constraint store of
    [ProgramInfo] ([hasPersistentConstraints], [getPersistentConstraints],
    [storePersistentConstraints]; the resolver's revision of ProgramInfo.cpp
    is not part of the sources at hand).  Spec 4.4: "Results for any given
    expression node are memoized (cached by node identity)". *)
Definition hasPersistentConstraints (E : Expr) (s : ResolverState) : bool :=
  bool_decide (is_Some (ExprConstraintVars s !! getExprId E)).

Definition getPersistentConstraints (E : Expr) : M CSetBkeyPair :=
  fun s => match ExprConstraintVars s !! getExprId E with
           | Some r => Some (r, s)
           | None => None
           end.

Definition storePersistentConstraints (E : Expr) (R : CSetBkeyPair)
    : M unit :=
  fun s => Some (tt, mkRS (rCS s) (<[getExprId E := R]> (ExprConstraintVars s))).

Definition EmptyCSBKeySet : CSetBkeyPair := ([], []).

(** [convertToCSetBKeyPair]. *)
Definition convertToCSetBKeyPair (Vars : CVarSet) : CSetBkeyPair := (Vars, []).

(** [ConstraintResolver::constraintAllCVarsToWild]. *)
Definition constraintAllCVarsToWild (CSet : CVarSet) (rsn : string)
    (AtExpr : option Expr) : M unit :=
  let PslP := option_map (fun E => ePSL (getInfo E)) AtExpr in
  modifyCS (fun cs => foldl (fun c A => constrainToWild A rsn PslP c) cs CSet).

Definition PVConstraintOf (C : list Atom) (PVC : ConstraintVariable)
    : ConstraintVariable :=
  match PVC with
  | PVConstraint _ fv i =>
      PVConstraint C fv
        (mkPVInfo (pvName i) (pvBaseType i) (pvArrPresent i) (pvItype i)
           None false false)
  | FVConstraint _ _ _ _ _ => PVC
  end.

(** [ConstraintResolver::handleDeref]; dereferencing a function variable
    fails the [assert]. *)
Fixpoint handleDeref (T : CVarSet) : option CVarSet :=
  match T with
  | [] => Some []
  | CV :: T' =>
      if isPV CV then
        match handleDeref T' with
        | None => None
        | Some tmp =>
            match getCvars CV with
            | [] => Some tmp
            | _ :: C =>
                match C with
                | [] => Some tmp
                | _ :: _ => Some (insertCVs tmp [PVConstraintOf C CV])
                end
            end
        end
      else None
  end.

(** [ConstraintResolver::addAtom]. *)
Definition addAtom (PVC : ConstraintVariable) (PtrTyp : Atom)
    (cs : Constraints) : ConstraintVariable * Constraints :=
  let '(NewA, cs1) := getFreshVar cs in
  let C := getCvars PVC in
  let cs2 :=
    match C with
    | VarAtom VA :: _ =>
        addConstraint
          (CImplies (createGeq NewA getWild "" None)
                    (createGeq (VarAtom VA) getWild "" None)) cs1
    | _ => cs1
    end in
  let TmpPV := PVConstraintOf (NewA :: C) PVC in
  (TmpPV, constrainOuterTo TmpPV PtrTyp true cs2).

(** [ConstraintResolver::addAtomAll]. *)
Fixpoint addAtomAll (CVS : CVarSet) (PtrTyp : Atom) (cs : Constraints)
    : CVarSet * Constraints :=
  match CVS with
  | [] => ([], cs)
  | CV :: CVS' =>
      let '(X, cs1) :=
        if isPV CV then addAtom CV PtrTyp cs else (CV, cs) in
      let '(Result, cs2) := addAtomAll CVS' PtrTyp cs1 in
      (insertCVs Result [X], cs2)
  end.

(** [getSizeOfArg]. *)
Definition getSizeOfArg (Arg : Expr) : option QualType :=
  match Arg with
  | UnaryExprOrTypeTraitExpr _ UETT_SizeOf ArgTy => Some ArgTy
  | _ => None
  end.

Definition inList (x : string) (l : list string) : bool :=
  existsb (String.eqb x) l.

(** The first expression of [Exprs] that is a [sizeof]. *)
Fixpoint firstSizeOf (Exprs : list Expr) : option QualType :=
  match Exprs with
  | [] => None
  | Ex :: Exprs' =>
      match getSizeOfArg Ex with
      | Some T => Some T
      | None => firstSizeOf Exprs'
      end
  end.

(** [analyzeAllocExpr].  The outer [option] is a failed argument access or
    [assert]; the inner one is the null result.  The constant atom comes
    with the type read off the [sizeof]. *)
Definition analyzeAllocExpr (env : ResolverEnv) (Args : list Expr)
    (FuncName : string) : option (option (Atom * QualType)) :=
  if String.eqb FuncName "calloc" then
    match Args !! 1 with
    | None => None
    | Some Arg1 =>
        match getSizeOfArg Arg1 with
        | None => Some None
        | Some ArgTy =>
            match Args !! 0 with
            | None => None
            | Some Arg0 =>
                match evaluateToInt env Arg0 with
                | Some 1%Z => Some (Some (getPtr, ArgTy))
                | _ => Some (Some (getArr, ArgTy))
                end
            end
        end
    end
  else
    let OE :=
      if inList FuncName (AllocatorFunctions env)
         || String.eqb FuncName "malloc"
      then Args !! 0
      else if String.eqb FuncName "realloc" then Args !! 1
      else None in
    match OE with
    | None => None
    | Some E0 =>
        let E := IgnoreParenImpCasts E0 in
        let '(Ret, Exprs) :=
          match E with
          | BinaryOperator _ Opc L R =>
              if isMultiplicativeOp Opc then (getArr, [L; R])
              else (getPtr, [E])
          | _ => (getPtr, [E])
          end in
        match firstSizeOf Exprs with
        | Some ArgTy => Some (Some (Ret, ArgTy))
        | None => Some None
        end
    end.

(** Modelled from the spec: [isFunctionAllocator] (Utils.cpp): "a
    recognized allocator (malloc/calloc/realloc)", or one of the allocators
    named by the [AllocatorFunctions] option that [analyzeAllocExpr]
    consults. *)
Definition isFunctionAllocator (env : ResolverEnv) (N : string) : bool :=
  inList N (AllocatorFunctions env)
  || String.eqb N "malloc" || String.eqb N "calloc" || String.eqb N "realloc".

(** Modelled from the spec: [PVConstraint::getWildPVConstraint],
    [getNonPtrPVConstraint] and [getNamedNonPtrPVConstraint]
    (ConstraintVariables.cpp): the variable whose only atom is the constant
    WILD, and the "distinguished no-indirection marker" of spec 3. *)
Definition getWildPVConstraint : ConstraintVariable :=
  PVConstraint [getWild] None (defaultPVInfo "wildvar" "unsigned" false).

Definition getNonPtrPVConstraint : ConstraintVariable :=
  PVConstraint [] None (defaultPVInfo "basevar" "basevar" false).

Definition getNamedNonPtrPVConstraint (N : string) : ConstraintVariable :=
  PVConstraint [] None (defaultPVInfo N "basevar" false).

(** [ConstraintResolver::PVConstraintFromType]. *)
Definition PVConstraintFromType (TypE : QualType) : CVarSet :=
  if isRecordType TypE || isArithmeticType TypE then [getNonPtrPVConstraint]
  else if isPointerType TypE then [getWildPVConstraint]
  else [].

(** [ConstraintResolver::getBaseVarPVConstraint]. *)
Definition getBaseVarPVConstraint (TypE : QualType) (D : Decl)
    : option CVarSet :=
  if isRecordType TypE || isArithmeticType TypE
  then Some [getNamedNonPtrPVConstraint (getNameAsString D)]
  else None.

Definition castSourceType (E : Expr) : QualType :=
  match E with
  | ImplicitCastExpr _ Sub => getType Sub
  | CStyleCastExpr _ Sub => getType Sub
  | _ => getType E
  end.

(** [ConstraintResolver::getInvalidCastPVCons]. *)
Definition getInvalidCastPVCons (E : Expr) : M CVarSet :=
  let* s := getState in
  if hasPersistentConstraints E s then
    let* r := getPersistentConstraints E in ret r.1
  else
    let DstType := getType E in
    let SrcType := castSourceType E in
    let* P := withCS (newPVConstraint DstType "Invalid cast" false) in
    let Rsn :=
      "Cast from " +:+ getAsString SrcType +:+ " to "
        +:+ getAsString DstType in
    do* modifyCS (constrainToWild P Rsn (Some (ePSL (getInfo E)))) in
    do* storePersistentConstraints E ([P], []) in
    ret [P].

(** [ProgramInfo::constrainWildIfMacro], as the same test at the end of
    [addVariable]. *)
Definition constrainWildIfMacro (P : ConstraintVariable) (E : Expr) : M unit :=
  if negb (eRewritable (getInfo E)) then
    modifyCS (constrainToWild P "Pointer in Macro declaration." None)
  else ret tt.

(** [ConstraintResolver::getRewritablePVConstraint]. *)
Definition getRewritablePVConstraint (E : Expr) : M ConstraintVariable :=
  let* P := withCS (newPVConstraint (getType E) (getStmtClassName E) false) in
  do* constrainWildIfMacro P E in
  ret P.

Definition setBoundsKey (C : ConstraintVariable) (K : BoundsKey)
    : ConstraintVariable :=
  match C with
  | PVConstraint vs fv i =>
      PVConstraint vs fv
        (mkPVInfo (pvName i) (pvBaseType i) (pvArrPresent i) (pvItype i)
           (Some K) (pvIsOriginallyChecked i) (pvIsGeneric i))
  | FVConstraint _ _ _ _ _ => C
  end.

Definition getBoundsKey (C : ConstraintVariable) : option BoundsKey :=
  match C with
  | PVConstraint _ _ i => pvBoundsKey i
  | FVConstraint _ _ _ _ _ => None
  end.

Definition getIsOriginallyChecked (C : ConstraintVariable) : bool :=
  match C with
  | PVConstraint _ _ i => pvIsOriginallyChecked i
  | FVConstraint _ _ _ _ _ => false
  end.

Definition getIsGeneric (C : ConstraintVariable) : bool :=
  match C with
  | PVConstraint _ _ i => pvIsGeneric i
  | FVConstraint _ _ _ _ _ => false
  end.

(** The body of the loop that copies the return variables of a call
    ("This is R-Value, we need to make a copy"). *)
Definition copyReturnVar (env : ResolverEnv) (CE : ExprInfo)
    (ReallocFlow : CVarSet) (CV : ConstraintVariable)
    : M ConstraintVariable :=
  let* NewCV0 :=
    (if isPV CV && getIsOriginallyChecked CV then
       let* N := withCS (newPVConstraint (eType CE) (getName CV)
                      (getIsGeneric CV)) in
       ret (match getBoundsKey CV with
            | Some K => setBoundsKey N K
            | None => N
            end)
     else withCS (getCopy CV)) in
  let NewCV :=
    match getBoundsKey NewCV0 with
    | Some K =>
        setBoundsKey NewCV0 (getContextSensitiveBoundsKey env (eId CE) K)
    | None => NewCV0
    end in
  do* modifyCS (constrainConsVarGeq [NewCV] [CV] None Safe_to_Wild) in
  do* (match ReallocFlow with
   | [] => ret tt
   | _ :: _ =>
       modifyCS (constrainConsVarGeq [NewCV] ReallocFlow None Wild_to_Safe)
   end) in
  ret NewCV.

Fixpoint copyReturnVars (env : ResolverEnv) (CE : ExprInfo)
    (ReallocFlow : CVarSet) (ReturnCVs : CVarSet) (TmpCVs : CVarSet)
    : M CVarSet :=
  match ReturnCVs with
  | [] => ret TmpCVs
  | CV :: Rest =>
      let* NewCV := copyReturnVar env CE ReallocFlow CV in
      copyReturnVars env CE ReallocFlow Rest (insertCV NewCV TmpCVs)
  end.

(** The return variables reached through the constraint variables of a
    callee expression. *)
Fixpoint calleeReturnVars (Cs : CVarSet) (ReturnCVs : CVarSet) : CVarSet :=
  match Cs with
  | [] => ReturnCVs
  | C :: Cs' =>
      calleeReturnVars Cs'
        (match C with
         | FVConstraint _ _ _ _ _ => insertCVs (getReturnVars C) ReturnCVs
         | PVConstraint _ (Some FV) _ =>
             insertCVs (getReturnVars FV) ReturnCVs
         | PVConstraint _ None _ => ReturnCVs
         end)
  end.

Definition isExplicitCastExpr (E : Expr) : bool :=
  match E with CStyleCastExpr _ _ => true | _ => false end.

(** The frame around the expressions whose constraints "can be cached":
    the persistent constraints of [E] are returned when there are some,
    otherwise [body] computes the result, which is stored and returned. *)
Definition cachedAt (E : Expr) (body : M CSetBkeyPair) : M CSetBkeyPair :=
  let* s := getState in
  if hasPersistentConstraints E s then getPersistentConstraints E
  else
    let* Ret := body in
    do* storePersistentConstraints E Ret in
    ret Ret.

(** The expression classes whose result [getExprConstraintVars] stores:
    all but implicit casts, declaration references, member accesses, bound
    temporaries and statement expressions that end in an expression;
    parentheses are looked through. *)
Fixpoint isMemoised (E : Expr) : bool :=
  match E with
  | ParenExpr _ Sub => isMemoised Sub
  | ImplicitCastExpr _ _ | DeclRefExpr _ _ | MemberExpr _ _ _
  | CHKCBindTemporaryExpr _ _ | StmtExpr _ (Some (Some _)) => false
  | _ => true
  end.

Section GetExprConstraintVars.

Variable env : ResolverEnv.

(** [ConstraintResolver::getExprConstraintVars], for a non-null expression
    [E] whose type before [IgnoreParens] was [TypE].  A [FunctionVariable]'s
    single return variable of the resolver's revision is the set of return
    variables of the revision of ProgramInfo.cpp at hand. *)
Fixpoint resolveExpr (TypE : QualType) (E : Expr) {struct E}
    : M CSetBkeyPair :=
  let getAll :=
    fix getAll (Exprs : list Expr) : M CSetBkeyPair :=
      match Exprs with
      | [] => ret ([], [])
      | X :: Exprs' =>
          let* ECons := resolveExpr (getType X) X in
          let* Agg := getAll Exprs' in
          ret (insertCVs Agg.1 ECons.1, ECons.2 ++ Agg.2)
      end in
  let cached := cachedAt E in
  match E with
  | ParenExpr _ Sub => resolveExpr TypE Sub
  | _ =>
  if isRecordType TypE || isArithmeticType TypE then
    match E with
    | DeclRefExpr _ D =>
        match getBaseVarPVConstraint (getType E) D with
        | Some R => ret (R, [])
        | None => fail
        end
    | _ => ret (PVConstraintFromType TypE, [])
    end
  else if negb (isExplicitCastExpr E) && isNULLExpression env E then
    ret EmptyCSBKeySet
  else
    match E with
    | ParenExpr _ Sub => resolveExpr TypE Sub
    | ImplicitCastExpr _ Sub =>
        let SubTypE := getType Sub in
        let* CVs := resolveExpr (getType Sub) Sub in
        if isPointerType TypE
           && negb (isFunctionType SubTypE || isArrayType SubTypE
                    || isVoidPointerType SubTypE)
           && negb (isCastSafe env TypE SubTypE)
        then
          let Rsn :=
            "Cast from " +:+ getAsString SubTypE +:+ " to "
              +:+ getAsString TypE in
          do* constraintAllCVarsToWild CVs.1 Rsn (Some E) in
          let* R := getInvalidCastPVCons E in
          ret (R, [])
        else ret CVs
    | DeclRefExpr _ D =>
        match getVariable env D with
        | Some CV => ret (convertToCSetBKeyPair [CV])
        | None => fail
        end
    | MemberExpr _ _ D =>
        match getVariable env D with
        | Some CV => ret (convertToCSetBKeyPair [CV])
        | None => fail
        end
    | CHKCBindTemporaryExpr _ Sub => resolveExpr (getType Sub) Sub
    | CStyleCastExpr _ TmpE =>
        cached
          (if negb (QualType_eqb (getType E) TypE) then fail
           else if negb (isNULLExpression env E) && isPointerType TypE
                   && negb (isCastSafe env TypE (getType TmpE))
           then
             let* R := getInvalidCastPVCons E in
             ret (convertToCSetBKeyPair R)
           else
             let* Vars := resolveExpr (getType TmpE) TmpE in
             let* P := getRewritablePVConstraint E in
             do* (if negb (isNULLExpression env E) then
                modifyCS (constrainConsVarGeq [P] Vars.1
                            (Some (ePSL (getInfo E))) Same_to_Same)
              else ret tt) in
             ret (convertToCSetBKeyPair [P]))
    | BinaryOperator _ Opc L R =>
        cached
          (match Opc with
           | BO_Assign | BO_AddAssign | BO_SubAssign =>
               resolveExpr (getType L) L
           | BO_Comma => resolveExpr (getType R) R
           | BO_Add | BO_Sub =>
               if isPointerType (getType L) then resolveExpr (getType L) L
               else if isPointerType (getType R)
               then resolveExpr (getType R) R
               else ret (convertToCSetBKeyPair (PVConstraintFromType TypE))
           | BO_PtrMemD | BO_PtrMemI => fail
           | _ => ret (convertToCSetBKeyPair (PVConstraintFromType TypE))
           end)
    | ArraySubscriptExpr _ Base _ =>
        cached
          (let* T := resolveExpr (getType Base) Base in
           match handleDeref T.1 with
           | Some tmp => ret (tmp, T.2)
           | None => fail
           end)
    | UnaryOperator _ Opc UOExpr =>
        cached
          (match Opc with
           | UO_AddrOf =>
               (* the expression [UOExpr->IgnoreParenImpCasts()] *)
               (fix addrOf (U : Expr) : M CSetBkeyPair :=
                  match U with
                  | ParenExpr _ U' => addrOf U'
                  | ImplicitCastExpr _ U' => addrOf U'
                  | UnaryOperator _ UO_Deref SubE =>
                      resolveExpr (getType SubE) SubE
                  | UnaryOperator _ _ _ => ret EmptyCSBKeySet
                  | ArraySubscriptExpr _ Base _ =>
                      resolveExpr (getType Base) Base
                  | _ =>
                      let* T := resolveExpr (getType U) U in
                      match T.1 with
                      | [] => fail
                      | _ :: _ =>
                          let* R := withCS (addAtomAll T.1 getPtr) in
                          ret (R, T.2)
                      end
                  end) UOExpr
           | UO_Deref =>
               let* T := resolveExpr (getType UOExpr) UOExpr in
               match handleDeref T.1 with
               | Some tmp => ret (tmp, T.2)
               | None => fail
               end
           | UO_PostInc | UO_PostDec | UO_PreInc | UO_PreDec =>
               resolveExpr (getType UOExpr) UOExpr
           | UO_Plus | UO_Minus | UO_LNot | UO_Not =>
               ret (convertToCSetBKeyPair (PVConstraintFromType TypE))
           | UO_Coawait | UO_Real | UO_Imag | UO_Extension => fail
           end)
    | CallExpr H CalleeDecl CalledExpr Args =>
        cached
          (let* RR :=
             match CalleeDecl with
             | None =>
                 let* tmp := resolveExpr (getType CalledExpr) CalledExpr in
                 ret (calleeReturnVars tmp.1 [], tmp.2, [])
             | Some FD =>
                 if negb (isDeclaratorDecl FD) then fail
                 else if isFunctionAllocator env (getNameAsString FD) then
                   match
                     (if decide (0 < length Args) then
                        option_map Some
                          (analyzeAllocExpr env Args (getNameAsString FD))
                      else Some None)
                   with
                   | None => fail
                   | Some (Some (Some (A, ArgTy))) =>
                       let* PVC := withCS (newPVConstraint (getPointerType ArgTy)
                                        ("&" +:+ getNameAsString FD) true) in
                       do* modifyCS (constrainOuterTo PVC A true) in
                       let* ReallocFlow :=
                         (if String.eqb (getNameAsString FD) "realloc" then
                            match Args with
                            | [] => fail
                            | Arg0 :: _ =>
                                (fix strip (U : Expr) : M CVarSet :=
                                   match U with
                                   | ParenExpr _ U' => strip U'
                                   | ImplicitCastExpr _ U' => strip U'
                                   | _ =>
                                       let* r := resolveExpr (getType U) U in
                                       ret r.1
                                   end) Arg0
                            end
                          else ret []) in
                       ret ([PVC], [], ReallocFlow)
                   | Some _ => ret ([getWildPVConstraint], [], [])
                   end
                 else
                   match getVariable env FD with
                   | None => fail
                   | Some (FVConstraint _ _ _ _ _ as FVC) =>
                       ret (getReturnVars FVC, [], [])
                   | Some (PVConstraint _ (Some FVC) _) =>
                       ret (getReturnVars FVC, [], [])
                   | Some (PVConstraint _ None _) =>
                       ret ([FVConstraint "" [] [] false false], [], [])
                   end
             end in
           let '(ReturnCVs, ReturnBSet, ReallocFlow) := RR in
           let* TmpCVs := copyReturnVars env H ReallocFlow ReturnCVs [] in
           ret (TmpCVs, ReturnBSet))
    | ConditionalOperator _ _ L R => cached (getAll [L; R])
    | InitListExpr _ Inits =>
        cached
          (let* CVars := getAll Inits in
           if isArrayType (getType E) then
             let* R := withCS (addAtomAll CVars.1 getArr) in
             ret (R, CVars.2)
           else if isPointerType (getType E) then ret CVars
           else fail)
    | CompoundLiteralExpr _ Init =>
        cached
          (let* Vars := resolveExpr (getType Init) Init in
           let* P := getRewritablePVConstraint E in
           do* modifyCS (constrainConsVarGeq [P] Vars.1
                       (Some (ePSL (getInfo E))) Same_to_Same) in
           ret ([P], Vars.2))
    | StringLiteral _ _ =>
        cached
          (let* P := withCS (newPVConstraint (getType E) (getStmtClassName E)
                          false) in
           do* modifyCS (constrainOuterTo P getNTArr false) in
           ret (convertToCSetBKeyPair [P]))
    | StmtExpr _ (Some (Some ESE)) =>
        let* s := getState in
        if hasPersistentConstraints E s then getPersistentConstraints E
        else resolveExpr (getType ESE) ESE
    | StmtExpr _ (Some None) => cached (ret EmptyCSBKeySet)
    | StmtExpr _ None =>
        (* [dyn_cast<Expr>] of the null pointer *)
        cached fail
    | UnaryExprOrTypeTraitExpr _ _ _ | IntegerLiteral _ _ | OtherExpr _ =>
        cached (ret EmptyCSBKeySet)
    end
  end.

(** [getExprConstraintVars(E)]. *)
Definition getExprConstraintVars (E : Expr) : M CSetBkeyPair :=
  resolveExpr (getType E) E.

(** [getExprConstraintVars] on a possibly null expression. *)
Definition getExprConstraintVarsOpt (E : option Expr) : M CSetBkeyPair :=
  match E with
  | Some X => getExprConstraintVars X
  | None => ret EmptyCSBKeySet
  end.

End GetExprConstraintVars.

End Resolver.

Export Resolver.

(** ** Array bounds inference *)

Module Bounds.

(** [ABounds]: [CountBound] is the element count of the spec, [ByteBound]
    its byte count. *)
Inductive ABounds : Type :=
| CountBound (K : BoundsKey)
| ByteBound (K : BoundsKey).

(** The sets of [AVarBoundsStats]. *)
Inductive BoundsStat : Type :=
| AllocatorMatch | NamePrefixMatch | VariableNameMatch | NeighbourParamMatch.

(** [AVarBoundsInfo] (AVarBoundsInfo.cpp) is not part of the sources at
    hand: what the visitors do to it is kept as the sequence of their calls,
    oldest first. *)
Inductive ABCall : Type :=
| mergeBounds (K : BoundsKey) (B : ABounds)
| replaceBounds (K : BoundsKey) (B : ABounds)
| statInsert (Stat : BoundsStat) (K : BoundsKey)
| lengthNotFound (Name : string).

(** [ProgramVar]: the scope of a bounds variable and whether it is a numeric
    constant. *)
Record ProgramVar : Type := mkProgramVar {
  getScope : nat;
  IsNumConstant : bool
}.

(** The queries to [AVarBoundsInfo], [ProgramInfo] and Utils.cpp that the
    visitors make, taken as given; [Env] is the solved assignment
    [Constraints::getVariables]. *)
Record BoundsEnv : Type := mkBoundsEnv {
  getVariableD : Decl -> option BoundsKey;
  getVariableE : Expr -> option BoundsKey;
  getProgramVar : BoundsKey -> ProgramVar;
  getConstKey : nat -> BoundsKey;
  infoGetVariable : Decl -> CVarSet;
  Env : ConstraintKey -> ConstAtom;
  removeAuxillaryCasts : Expr -> Expr
}.

(** *** Name heuristics *)

(** [std::tolower] on one character. *)
Definition tolower (c : ascii) : ascii :=
  let n := nat_of_ascii c in
  if (65 <=? n)%nat && (n <=? 90)%nat then ascii_of_nat (n + 32) else c.

Fixpoint toLower (s : string) : string :=
  match s with
  | EmptyString => EmptyString
  | String c s' => String (tolower c) (toLower s')
  end.

(** [Str.rfind(P, 0) == 0]: [Str] starts with [P]. *)
Definition startsWith (P Str : string) : bool := String.prefix P Str.

(** [Str.find(P) != npos]. *)
Fixpoint contains (P Str : string) : bool :=
  String.prefix P Str
  || match Str with
     | EmptyString => false
     | String _ Str' => contains P Str'
     end.

Definition LengthVarNamesPrefixes : list string :=
  ["count"; "len"; "num"; "siz"; "size"].
Definition LengthVarNamesSubstring : list string := ["length"].
Definition COMMONSUBSEQUENCEPERCMATCH : nat := 80.

(** [hasNameMatch]. *)
Definition hasNameMatch (PtrName FieldName : string) : bool :=
  startsWith PtrName FieldName.

(** Modelled from the spec: [longestCommonSubsequence] (Utils.cpp), the
    length of the "longest-common-subsequence between the two names" of
    spec 4.6. *)
Fixpoint longestCommonSubsequence (a b : string) : nat :=
  match a with
  | EmptyString => 0
  | String x a' =>
      (fix inner (b : string) : nat :=
         match b with
         | EmptyString => 0
         | String y b' =>
             if Ascii.eqb x y then S (longestCommonSubsequence a' b')
             else Nat.max (longestCommonSubsequence a' b) (inner b')
         end) b
  end.

(** [nameSubStringMatch].  The comparison of the two doubles
    [(SubSeqLen * 100.0) / (PtrName.length() * 1.0) >= 80.0] is the
    comparison of the integers [SubSeqLen * 100 >= 80 * length]: both
    products are exact, and the rounded quotient of two such integers is
    below 80 exactly when the exact one is. *)
Definition nameSubStringMatch (PtrName FieldName : string) : bool :=
  let P := toLower PtrName in
  let F := toLower FieldName in
  let SubSeqLen := longestCommonSubsequence P F in
  if (0 <? SubSeqLen)%nat then
    (COMMONSUBSEQUENCEPERCMATCH * String.length P <=? SubSeqLen * 100)%nat
  else false.

(** [fieldNameMatch]. *)
Definition fieldNameMatch (FieldName : string) : bool :=
  let F := toLower FieldName in
  existsb (fun PName => startsWith PName F) LengthVarNamesPrefixes
  || existsb (fun TmpName => contains TmpName F) LengthVarNamesSubstring.

(** [hasLengthKeyword]. *)
Definition hasLengthKeyword (VarName : string) : bool :=
  let V := toLower VarName in
  existsb (fun PName => contains PName V)
    (LengthVarNamesPrefixes ++ LengthVarNamesSubstring).

(** *** Which variables need bounds *)

(** [Constraints::getAssignment] on the solved assignment. *)
Definition getAssignment (E : ConstraintKey -> ConstAtom) (A : Atom)
    : ConstAtom :=
  match A with VarAtom k => E k | ConstA c => c end.

(** Modelled from the spec: [ConstraintVariable::hasArr] and [hasNtArr]
    (ConstraintVariables.cpp): the variable is "ultimately classified
    Array/NTArray" (spec 4.6) at one of its levels. *)
Definition hasArr (CV : ConstraintVariable) (E : ConstraintKey -> ConstAtom)
    : bool :=
  existsb (fun A => ConstAtom_eqb (getAssignment E A) A_Arr) (getCvars CV).

Definition hasNtArr (CV : ConstraintVariable) (E : ConstraintKey -> ConstAtom)
    : bool :=
  existsb (fun A => ConstAtom_eqb (getAssignment E A) A_NTArr) (getCvars CV).

Definition getArrPresent (CV : ConstraintVariable) : bool :=
  match CV with
  | PVConstraint _ _ i => pvArrPresent i
  | FVConstraint _ _ _ _ _ => false
  end.

(** [needArrayBounds(ConstraintVariable *, EnvironmentMap &)]. *)
Definition needArrayBoundsCV (CV : ConstraintVariable)
    (E : ConstraintKey -> ConstAtom) : bool :=
  if hasArr CV E then
    if isPV CV && getArrPresent CV then false else true
  else false.

(** [needNTArrayBounds]. *)
Definition needNTArrayBounds (CV : ConstraintVariable)
    (E : ConstraintKey -> ConstAtom) : bool :=
  if hasNtArr CV E then
    if isPV CV && getArrPresent CV then false else true
  else false.

(** [needArrayBounds(Decl *, ...)]: only the first variable of the set is
    looked at. *)
Definition needArrayBounds (env : BoundsEnv) (D : Decl) (IsNtArr : bool)
    : bool :=
  match infoGetVariable env D with
  | [] => false
  | CurrCVar :: _ =>
      (negb IsNtArr && needArrayBoundsCV CurrCVar (Env env))
      || (IsNtArr && needNTArrayBounds CurrCVar (Env env))
  end.

(** [needArrayBounds(Expr *, ...)], on the constraint variables the
    resolver returned for the expression. *)
Definition needArrayBoundsE (env : BoundsEnv) (ConsVar : CVarSet) : bool :=
  match ConsVar with
  | [] => false
  | CurrCVar :: _ => needArrayBoundsCV CurrCVar (Env env)
  end.

(** *** Allocation sites *)

(** [AllocatorSizeAssoc]. *)
Definition AllocatorSizeAssoc (FName : string) : option (list nat) :=
  if String.eqb FName "malloc" then Some [0]
  else if String.eqb FName "calloc" then Some [0; 1]
  else None.

(** [getCalledFunctionName], on the callee declaration of a call. *)
Definition getCalledFunctionName (CalleeDecl : Decl) : string :=
  if isFunctionDecl CalleeDecl && fIsIdentifier (getDeclFlags CalleeDecl)
  then getNameAsString CalleeDecl
  else "".

Definition isSizeOf (E : Expr) : bool :=
  match E with
  | UnaryExprOrTypeTraitExpr _ UETT_SizeOf _ => true
  | _ => false
  end.

Definition isDeclRefExpr (E : Expr) : bool :=
  match E with DeclRefExpr _ _ => true | _ => false end.

(** The first loop of [isAllocatorCall]: the base expressions of the size
    arguments; [Some None] is the [break] with [RetVal = false], [None] an
    argument index out of range. *)
Fixpoint collectBaseExprs (Args : list Expr) (Pidxs : list nat)
    : option (option (list Expr)) :=
  match Pidxs with
  | [] => Some (Some [])
  | Pidx :: Pidxs' =>
      match Args !! Pidx with
      | None => None
      | Some PExpr =>
          let here :=
            match PExpr with
            | BinaryOperator _ Opc L R =>
                if isMultiplicativeOp Opc then Some [L; R] else None
            | UnaryExprOrTypeTraitExpr _ UETT_SizeOf _ => Some [PExpr]
            | _ => None
            end in
          match here with
          | None => Some None
          | Some Bs =>
              match collectBaseExprs Args Pidxs' with
              | None => None
              | Some None => Some None
              | Some (Some Rest) => Some (Some (Bs ++ Rest))
              end
          end
      end
  end.

(** The second loop: every base expression is a [sizeof] or a
    [DeclRefExpr]. *)
Definition checkBaseExprs (BaseExprs : list Expr) : bool :=
  forallb (fun TmpE => isDeclRefExpr TmpE || isSizeOf TmpE) BaseExprs.

(** [isAllocatorCall]: the result is [RetVal] with [FName] and, when
    [RetVal] holds, [ArgVals]. *)
Definition isAllocatorCall (env : BoundsEnv) (E : Expr)
    : option (bool * string * list Expr) :=
  match removeAuxillaryCasts env E with
  | CallExpr _ (Some CalleeDecl) _ Args =>
      let FName := getCalledFunctionName CalleeDecl in
      match AllocatorSizeAssoc FName with
      | None => Some (false, FName, [])
      | Some Pidxs =>
          match collectBaseExprs Args Pidxs with
          | None => None
          | Some None => Some (false, FName, [])
          | Some (Some BaseExprs) =>
              if checkBaseExprs BaseExprs then Some (true, FName, BaseExprs)
              else Some (false, FName, [])
          end
      end
  | _ => Some (false, "", [])
  end.

(** The loop of [handleAllocatorCall] over [ArgVals]: the final values of
    [FoundKey], [IsByteBound] and [RK]. *)
Fixpoint scanArgVals (env : BoundsEnv) (LHSType : QualType)
    (ArgVals : list Expr) (FoundKey IsByteBound : bool)
    (RK : option BoundsKey) : bool * bool * option BoundsKey :=
  match ArgVals with
  | [] => (FoundKey, IsByteBound, RK)
  | TmpE :: Rest =>
      match TmpE with
      | UnaryExprOrTypeTraitExpr _ UETT_SizeOf ArgTy =>
          if QualType_eqb LHSType (getPointerType ArgTy)
          then scanArgVals env LHSType Rest FoundKey false RK
          else (false, IsByteBound, RK)
      | _ =>
          match getVariableE env TmpE with
          | Some K =>
              if negb FoundKey
              then scanArgVals env LHSType Rest true IsByteBound (Some K)
              else (false, IsByteBound, Some K)
          | None => (false, IsByteBound, RK)
          end
      end
  end.

(** [handleAllocatorCall]: the calls it makes on the bounds information. *)
Definition handleAllocatorCall (env : BoundsEnv) (LHSType : QualType)
    (LK : BoundsKey) (E : Expr) : option (list ABCall) :=
  match isAllocatorCall env E with
  | None => None
  | Some (false, _, _) => Some []
  | Some (true, _, ArgVals) =>
      match scanArgVals env LHSType ArgVals false true None with
      | (true, IsByteBound, Some RK) =>
          let PrgLVar := getProgramVar env LK in
          let PrgRVar := getProgramVar env RK in
          if Nat.eqb (getScope PrgLVar) (getScope PrgRVar)
             || IsNumConstant PrgRVar
          then
            Some [statInsert AllocatorMatch LK;
                  mergeBounds LK
                    (if IsByteBound then ByteBound RK else CountBound RK)]
          else Some []
      | _ => Some []
      end
  end.

(** [LocalVarABVisitor::VisitDeclStmt], for one declared variable [VD] with
    initializer [InitE]. *)
Definition VisitDeclStmt1 (env : BoundsEnv) (VD : Decl)
    (InitE : option Expr) : option (list ABCall) :=
  match InitE with
  | None => Some []
  | Some Init =>
      match getVariableD env VD with
      | None => Some []
      | Some DeclKey =>
          match handleAllocatorCall env (getDeclType VD) DeclKey Init with
          | None => None
          | Some Cs =>
              match IgnoreParenCasts Init with
              | StringLiteral _ ByteLength =>
                  Some (Cs ++ [mergeBounds DeclKey
                                 (ByteBound (getConstKey env ByteLength))])
              | _ => Some Cs
              end
          end
      end
  end.

(** [LocalVarABVisitor::VisitBinAssign], up to the call of
    [handleAllocatorCall]; [LCons] are the constraint variables the resolver
    returns for the left-hand side. *)
Definition VisitBinAssign (env : BoundsEnv) (LCons : CVarSet)
    (OL OR : Expr) : option (list ABCall) :=
  let LHS := IgnoreParenCasts OL in
  let RHS := IgnoreParenCasts OR in
  if needArrayBoundsE env LCons then
    match getVariableE env LHS with
    | Some LK => handleAllocatorCall env (getType LHS) LK RHS
    | None => Some []
    end
  else Some [].

(** *** Structure fields *)

(** A [RecordDecl]: struct or union, and its fields. *)
Record RecordDecl : Type := mkRecordDecl {
  isStructOrUnion : bool;
  fields : list Decl
}.

Definition pairLt (a b : string * BoundsKey) : bool :=
  match String.compare a.1 b.1 with
  | Lt => true
  | Eq => (a.2 <? b.2)%nat
  | Gt => false
  end.

(** [std::set<std::pair<std::string, BoundsKey>>::insert]: the set is kept
    in the order of its elements. *)
Fixpoint insertPair (x : string * BoundsKey) (Set_ : list (string * BoundsKey))
    : list (string * BoundsKey) :=
  match Set_ with
  | [] => [x]
  | y :: Rest =>
      if pairLt x y then x :: y :: Rest
      else if pairLt y x then y :: insertPair x Rest
      else y :: Rest
  end.

(** The loop of [VisitRecordDecl] over the fields. *)
Fixpoint collectFields (env : BoundsEnv) (Flds : list Decl)
    (PotLenFields IdentifiedArrVars : list (string * BoundsKey))
    : list (string * BoundsKey) * list (string * BoundsKey) :=
  match Flds with
  | [] => (PotLenFields, IdentifiedArrVars)
  | FldDecl :: Flds' =>
      let FldName := getNameAsString FldDecl in
      let P1 :=
        match getVariableD env FldDecl with
        | Some FldKey =>
            if isIntegerType (getDeclType FldDecl)
            then insertPair (FldName, FldKey) PotLenFields
            else PotLenFields
        | None => PotLenFields
        end in
      let A1 :=
        if needArrayBounds env FldDecl false then
          match getVariableD env FldDecl with
          | Some FldKey => insertPair (FldName, FldKey) IdentifiedArrVars
          | None => IdentifiedArrVars
          end
        else IdentifiedArrVars in
      collectFields env Flds' P1 A1
  end.

(** A field is a length candidate, respectively an array in need of
    bounds, under the name and the key it is collected with. *)
Definition lengthField (env : BoundsEnv) (F : Decl) (x : string * BoundsKey)
    : Prop :=
  x.1 = getNameAsString F /\ getVariableD env F = Some x.2
  /\ isIntegerType (getDeclType F) = true.

Definition arrayField (env : BoundsEnv) (F : Decl) (x : string * BoundsKey)
    : Prop :=
  x.1 = getNameAsString F /\ getVariableD env F = Some x.2
  /\ needArrayBounds env F false = true.

(** The inner loop of [VisitRecordDecl] over the length fields, for one
    array field; it stops at the first field that matches both the name and
    the keyword heuristic. *)
Fixpoint matchLenFields (PtrField : string * BoundsKey)
    (LenFields : list (string * BoundsKey)) : list ABCall :=
  match LenFields with
  | [] => []
  | LenField :: Rest =>
      if hasNameMatch PtrField.1 LenField.1 then
        if hasLengthKeyword LenField.1 then
          [statInsert NamePrefixMatch PtrField.2;
           replaceBounds PtrField.2 (CountBound LenField.2)]
        else
          [statInsert VariableNameMatch PtrField.2;
           replaceBounds PtrField.2 (CountBound LenField.2)]
          ++ matchLenFields PtrField Rest
      else matchLenFields PtrField Rest
  end.

(** [GlobalABVisitor::VisitRecordDecl]. *)
Definition VisitRecordDecl (env : BoundsEnv) (RD : RecordDecl)
    : list ABCall :=
  if isStructOrUnion RD then
    let '(PotLenFields, IdentifiedArrVars) :=
      collectFields env (fields RD) [] [] in
    match IdentifiedArrVars, PotLenFields with
    | _ :: _, _ :: _ =>
        flat_map (fun PtrField => matchLenFields PtrField PotLenFields)
          IdentifiedArrVars
    | _, _ => []
    end
  else [].

(** *** Function parameters *)

(** [LocalVarABVisitor::isNonLengthParameter]; [NonLengthParameters] is the
    set the local visitor collected. *)
Definition isNonLengthParameter (NonLengthParameters : Decl -> bool)
    (PVD : Decl) : bool :=
  if isEnumeralType (getDeclType PVD) then true
  else NonLengthParameters PVD.

(** [GlobalABVisitor::IsPotentialLengthVar]; [ParamInfo] is the possibly
    null local visitor. *)
Definition IsPotentialLengthVar (ParamInfo : option (Decl -> bool))
    (PVD : Decl) : bool :=
  if isIntegerType (getDeclType PVD) then
    match ParamInfo with
    | None => true
    | Some NLP => negb (isNonLengthParameter NLP PVD)
    end
  else false.

Abbreviation ParamMap := (list (nat * (string * nat))) (only parsing).

(** [std::map::find] on a parameter index. *)
Fixpoint findParam (M : ParamMap) (i : nat) : option (string * BoundsKey) :=
  match M with
  | [] => None
  | (j, v) :: M' => if Nat.eqb i j then Some v else findParam M' i
  end.

(** The three maps of [VisitFunctionDecl], filled in the order of the
    parameters from index [i] on. *)
Fixpoint collectParams (env : BoundsEnv) (ParamInfo : option (Decl -> bool))
    (i : nat) (Ps : list Decl) : ParamMap * ParamMap * ParamMap :=
  match Ps with
  | [] => ([], [], [])
  | PVD :: Ps' =>
      let '(ParamArrays, ParamNtArrays, LengthParams) :=
        collectParams env ParamInfo (S i) Ps' in
      match getVariableD env PVD with
      | None => (ParamArrays, ParamNtArrays, LengthParams)
      | Some PK =>
          let PVal := (getNameAsString PVD, PK) in
          (if needArrayBounds env PVD false
           then (i, PVal) :: ParamArrays else ParamArrays,
           if needArrayBounds env PVD true
           then (i, PVal) :: ParamNtArrays else ParamNtArrays,
           if IsPotentialLengthVar ParamInfo PVD
           then (i, PVal) :: LengthParams else LengthParams)
      end
  end.

(** The loop over the length parameters that tries the two
    name-correspondence heuristics for one array parameter; the result is
    [FoundLen] with the calls made. *)
Fixpoint matchLenParams (ArrName : string) (PBKey : BoundsKey)
    (LengthParams : ParamMap) : bool * list ABCall :=
  match LengthParams with
  | [] => (false, [])
  | (_, (LenName, LenKey)) :: Rest =>
      if hasNameMatch ArrName LenName then
        (true, [replaceBounds PBKey (CountBound LenKey);
                statInsert NamePrefixMatch PBKey])
      else if nameSubStringMatch ArrName LenName then
        let '(_, Cs) := matchLenParams ArrName PBKey Rest in
        (true, [replaceBounds PBKey (CountBound LenKey);
                statInsert NamePrefixMatch PBKey] ++ Cs)
      else matchLenParams ArrName PBKey Rest
  end.

(** The loop that applies the keyword heuristic to every length
    parameter. *)
Fixpoint keywordLenParams (PBKey : BoundsKey) (LengthParams : ParamMap)
    : bool * list ABCall :=
  match LengthParams with
  | [] => (false, [])
  | (_, (LenName, LenKey)) :: Rest =>
      let '(F, Cs) := keywordLenParams PBKey Rest in
      if fieldNameMatch LenName then
        (true, [replaceBounds PBKey (CountBound LenKey);
                statInsert VariableNameMatch PBKey] ++ Cs)
      else (F, Cs)
  end.

(** The body of the loop of [VisitFunctionDecl] over [ParamArrays]. *)
Definition handleArrParam (LengthParams : ParamMap)
    (ArrParamPair : nat * (string * BoundsKey)) : list ABCall :=
  let PIdx := ArrParamPair.1 in
  let PBKey := ArrParamPair.2.2 in
  match findParam LengthParams (PIdx + 1) with
  | Some Len =>
      [replaceBounds PBKey (CountBound Len.2);
       statInsert NeighbourParamMatch PBKey]
  | None =>
      let '(FoundLen1, Cs1) :=
        matchLenParams ArrParamPair.2.1 PBKey LengthParams in
      let '(FoundLen2, Cs2) :=
        if negb FoundLen1 then keywordLenParams PBKey LengthParams
        else (FoundLen1, []) in
      Cs1 ++ Cs2
      ++ (if negb FoundLen2 then [lengthNotFound ArrParamPair.2.1] else [])
  end.

(** The body of the loop over [ParamNtArrays]. *)
Definition handleNtArrParam (LengthParams : ParamMap)
    (CurrNtArr : nat * (string * BoundsKey)) : list ABCall :=
  let PIdx := CurrNtArr.1 in
  let PBKey := CurrNtArr.2.2 in
  match findParam LengthParams (PIdx + 1) with
  | Some Len =>
      if fieldNameMatch Len.1 then
        [replaceBounds PBKey (CountBound Len.2);
         statInsert VariableNameMatch PBKey]
      else []
  | None => []
  end.

(** [GlobalABVisitor::VisitFunctionDecl]. *)
Definition VisitFunctionDecl (env : BoundsEnv)
    (ParamInfo : option (Decl -> bool)) (FD : Decl) : list ABCall :=
  if isThisDeclarationADefinition FD && declHasBody FD then
    if typeHasProto (getDeclType FD) then
      let '(ParamArrays, ParamNtArrays, LengthParams) :=
        collectParams env ParamInfo 0 (getParamDecls FD) in
      (match ParamArrays, LengthParams with
       | _ :: _, _ :: _ => flat_map (handleArrParam LengthParams) ParamArrays
       | _, _ => []
       end)
      ++ flat_map (handleNtArrParam LengthParams) ParamNtArrays
    else []
  else [].

End Bounds.

Export Bounds.

(** ** The solver and the call boundary *)

Module Solver.








(** Modelled from the spec: the constraint builder's treatment of the
    arguments of a call (ConstraintBuilder.cpp is not part of the sources at
    hand).  Spec 4.5: an edge "keyed by the caller-specified policy
    ([...] SafeToWild/WildToSafe for call-boundary [...] flows)": every
    argument is linked to the parameter it is passed to with the policy
    [Wild_to_Safe], so that an argument is never safer than the
    parameter. *)
Definition constrainCallArguments (ParamVars ArgVars : list CVarSet)
    (PL : option PersistentSourceLoc) (cs : Constraints) : Constraints :=
  foldl (fun c PA => constrainConsVarGeq PA.1 PA.2 PL Wild_to_Safe c)
    cs (zip ParamVars ArgVars).

End Solver.

Export Solver.

(** ** Programs used in the examples *)

Module Examples.

Definition charPtr : QualType := PointerType CPK_Unchecked (BuiltinType BK_Char).
Definition intPtr : QualType := PointerType CPK_Unchecked (BuiltinType BK_Int).
Definition intTy : QualType := BuiltinType BK_Int.
Definition voidPtr : QualType := PointerType CPK_Unchecked (BuiltinType BK_Void).

Definition plainFlags : DeclFlags := mkDeclFlags false false false true false true.
Definition globalDeclFlags : DeclFlags :=
  mkDeclFlags true false false true false true.
Definition globalDefFlags : DeclFlags :=
  mkDeclFlags true true true true false true.

(** [char *strcpy(char *dst, const char *src);
     void f(char *p) { strcpy(p, "hi"); }] *)
Definition dstDecl : Decl :=
  mkDecl DK_ParmVar "dst" charPtr ("t.c", 1, 20) [] plainFlags.
Definition srcDecl : Decl :=
  mkDecl DK_ParmVar "src" charPtr ("t.c", 1, 37) [] plainFlags.
Definition strcpyDecl : Decl :=
  mkDecl DK_Function "strcpy" (FunctionType charPtr [charPtr; charPtr] true)
    ("t.c", 1, 7) [dstDecl; srcDecl] globalDeclFlags.
Definition pDecl : Decl :=
  mkDecl DK_ParmVar "p" charPtr ("t.c", 2, 14) [] plainFlags.
Definition fDecl : Decl :=
  mkDecl DK_Function "f" (FunctionType (BuiltinType BK_Void) [charPtr] true)
    ("t.c", 2, 6) [pDecl] globalDefFlags.

Definition pRef : Expr :=
  ImplicitCastExpr (mkExprInfo 11 charPtr ("t.c", 2, 26) true)
    (DeclRefExpr (mkExprInfo 10 charPtr ("t.c", 2, 26) true) pDecl).
Definition hiLit : Expr :=
  ImplicitCastExpr (mkExprInfo 13 charPtr ("t.c", 2, 29) true)
    (StringLiteral
       (mkExprInfo 12 (ArrayType (BuiltinType BK_Char)) ("t.c", 2, 29) true) 3).

(** The program information after both declarations were registered. *)
Definition registered : option ProgramInfo :=
  match addVariable strcpyDecl emptyProgramInfo with
  | None => None
  | Some I1 =>
      match addVariable fDecl (seeFunctionDecl strcpyDecl I1) with
      | None => None
      | Some I2 => Some (seeFunctionDecl fDecl I2)
      end
  end.

(** The resolver's view of the declarations: the first variable registered
    at the declaration's position. *)
Definition envOf (I : ProgramInfo) : ResolverEnv :=
  mkResolverEnv (fun _ => false)
    (fun D S => QualType_eqb D S)
    (fun D => head (lookupVars (Variables I) (mkPSL D)))
    (fun E => match E with IntegerLiteral _ v => Some v | _ => None end)
    [] (fun _ K => K).

(** The program information after the call [strcpy(p, "hi")] was
    processed: both arguments are resolved and linked to the parameters of
    the declaration of [strcpy]. *)
Definition afterCall : option ProgramInfo :=
  match registered with
  | None => None
  | Some I2 =>
      match getExprConstraintVars (envOf I2) pRef (mkRS (CS I2) ∅) with
      | None => None
      | Some (ArgP, s1) =>
          match getExprConstraintVars (envOf I2) hiLit s1 with
          | None => None
          | Some (ArgHi, s2) =>
              match ExternalFunctionDeclFVCons I2 !! "strcpy" with
              | Some [G] =>
                  Some (setCS I2
                          (constrainCallArguments (getParamVars G)
                             [ArgP.1; ArgHi.1] (Some ("t.c", 2, 19))
                             (rCS s2)))
              | _ => None
              end
          end
      end
  end.

Definition linked : option ProgramInfo :=
  match afterCall with
  | None => None
  | Some I3 => link false I3
  end.

(** The values of [afterCall] and [linked]. *)
Definition afterCallInfo : ProgramInfo :=
  Eval vm_compute in default emptyProgramInfo afterCall.
Definition linkedInfo : ProgramInfo :=
  Eval vm_compute in default emptyProgramInfo linked.

(** Declarations of one external symbol with different parameter counts:
    [g1] and [g2] are [int *g(int *a)] and [int *g(int *a, int *b)]. *)
Definition pv (N : string) (k : nat) : ConstraintVariable :=
  PVConstraint [VarAtom k] None (defaultPVInfo N "int" false).
Definition g1 : ConstraintVariable :=
  FVConstraint "g" [pv "g" 0] [[pv "a" 1]] false true.
Definition g2 : ConstraintVariable :=
  FVConstraint "g" [pv "g" 2] [[pv "a" 3]; [pv "b" 4]] false true.

(** Program information in which [g] has a body in some other
    translation unit and the declarations above are recorded. *)
Definition twoDeclsInfo : ProgramInfo :=
  mkProgramInfo false (mkCS [] 5) ∅ ∅ (<["g" := true]> ∅)
    (<["g" := [g1; g2] ]> ∅) ∅ ∅ ∅ false.
Definition twoDeclsLinked : ProgramInfo :=
  Eval vm_compute in default emptyProgramInfo (link false twoDeclsInfo).

(** The parameter [p] registered on its own, and then the function [f]
    it belongs to. *)
Definition pRegistered : ProgramInfo :=
  Eval vm_compute in
    default emptyProgramInfo (addVariable pDecl emptyProgramInfo).
Definition pfRegistered : ProgramInfo :=
  Eval vm_compute in default emptyProgramInfo (addVariable fDecl pRegistered).

(** A constraint system in which the unknowns 0, 1, 2 are chained, 2 is
    constrained to WILD, and 3 and 4 are linked to each other only. *)
Definition rootCauseInfo : ProgramInfo :=
  mkProgramInfo false
    (mkCS [CGeq (mkGeq (VarAtom 0) (VarAtom 1) "" None);
           CGeq (mkGeq (VarAtom 1) (VarAtom 2) "" None);
           CGeq (mkGeq (VarAtom 2) getWild "Pointer in Macro declaration."
                   (Some ("t.c", 4, 2)));
           CGeq (mkGeq (VarAtom 3) (VarAtom 4) "" None)] 5)
    ∅ ∅ ∅ ∅ ∅ ∅ ∅ false.
Definition rootCauseSet : DisjointSet :=
  Eval vm_compute in
    default Clear (computePointerDisjointSet (fun _ => true) rootCauseInfo).

(** [int *q] with the unknown 0, the explicit cast [(char * ) q] and the
    implicit conversion of [q] to [char *]. *)
Definition qDecl : Decl :=
  mkDecl DK_Var "q" intPtr ("t.c", 6, 8) [] plainFlags.
Definition qVar : ConstraintVariable :=
  PVConstraint [VarAtom 0] None (defaultPVInfo "q" "int" false).
Definition qRef : Expr :=
  DeclRefExpr (mkExprInfo 20 intPtr ("t.c", 7, 20) true) qDecl.
Definition explicitCast : Expr :=
  CStyleCastExpr (mkExprInfo 21 charPtr ("t.c", 7, 12) true) qRef.
Definition implicitCast : Expr :=
  ImplicitCastExpr (mkExprInfo 22 charPtr ("t.c", 8, 12) true) qRef.
Definition castEnv : ResolverEnv :=
  mkResolverEnv (fun _ => false) (fun D S => QualType_eqb D S)
    (fun _ => Some qVar)
    (fun E => match E with IntegerLiteral _ v => Some v | _ => None end)
    [] (fun _ K => K).
Definition castState : ResolverState := mkRS (mkCS [] 1) ∅.

Definition explicitOnce : CSetBkeyPair * ResolverState :=
  Eval vm_compute in
    default (EmptyCSBKeySet, castState)
      (getExprConstraintVars castEnv explicitCast castState).
Definition implicitOnce : CSetBkeyPair * ResolverState :=
  Eval vm_compute in
    default (EmptyCSBKeySet, castState)
      (getExprConstraintVars castEnv implicitCast castState).
Definition implicitTwice : CSetBkeyPair * ResolverState :=
  Eval vm_compute in
    default (EmptyCSBKeySet, castState)
      (getExprConstraintVars castEnv implicitCast implicitOnce.2).

(** [void *calloc(int, int);] and three calls of it:
    [calloc(1, sizeof(int))], [calloc(n, sizeof(int))] and [calloc(n, n)],
    with [int n]. *)
Definition callocDecl : Decl :=
  mkDecl DK_Function "calloc" (FunctionType voidPtr [intTy; intTy] true)
    ("stdlib.h", 1, 7) [] globalDeclFlags.
Definition callocRef : Expr :=
  ImplicitCastExpr (mkExprInfo 31 voidPtr ("t.c", 9, 12) true)
    (DeclRefExpr
       (mkExprInfo 30 (FunctionType voidPtr [intTy; intTy] true)
          ("t.c", 9, 12) true) callocDecl).
Definition nDecl : Decl :=
  mkDecl DK_Var "n" intTy ("t.c", 3, 7) [] plainFlags.
Definition nRef : Expr :=
  DeclRefExpr (mkExprInfo 32 intTy ("t.c", 9, 19) true) nDecl.
Definition nValue : Expr :=
  ImplicitCastExpr (mkExprInfo 33 intTy ("t.c", 9, 19) true) nRef.
Definition oneLit : Expr :=
  IntegerLiteral (mkExprInfo 34 intTy ("t.c", 9, 19) true) 1.
Definition sizeofInt : Expr :=
  UnaryExprOrTypeTraitExpr (mkExprInfo 35 intTy ("t.c", 9, 22) true)
    UETT_SizeOf intTy.
Definition sizeofChar : Expr :=
  UnaryExprOrTypeTraitExpr (mkExprInfo 36 intTy ("t.c", 9, 22) true)
    UETT_SizeOf (BuiltinType BK_Char).
Definition callocOf (Id : nat) (Args : list Expr) : Expr :=
  CallExpr (mkExprInfo Id voidPtr ("t.c", 9, 12) true) (Some callocDecl)
    callocRef Args.
Definition callocOne : Expr := callocOf 37 [oneLit; sizeofInt].
Definition callocMany : Expr := callocOf 38 [nValue; sizeofInt].
Definition callocPlain : Expr := callocOf 39 [nValue; nValue].

(** [void *malloc(int);] and the initializers of
    [int *arr = malloc(n * sizeof(int));] and
    [int *arr = malloc(n * sizeof(char));], where the operand [n] is the
    reference itself, and the first one again where the reference is below
    a conversion node. *)
Definition mallocDecl : Decl :=
  mkDecl DK_Function "malloc" (FunctionType voidPtr [intTy] true)
    ("stdlib.h", 2, 7) [] globalDeclFlags.
Definition mallocRef : Expr :=
  ImplicitCastExpr (mkExprInfo 41 voidPtr ("t.c", 4, 14) true)
    (DeclRefExpr
       (mkExprInfo 40 (FunctionType voidPtr [intTy] true) ("t.c", 4, 14) true)
       mallocDecl).
Definition arrDecl : Decl :=
  mkDecl DK_Var "arr" intPtr ("t.c", 4, 8) [] plainFlags.
Definition mallocOf (Count Size : Expr) : Expr :=
  ImplicitCastExpr (mkExprInfo 44 intPtr ("t.c", 4, 14) true)
    (CallExpr (mkExprInfo 43 voidPtr ("t.c", 4, 14) true) (Some mallocDecl)
       mallocRef
       [BinaryOperator (mkExprInfo 42 intTy ("t.c", 4, 21) true) BO_Mul
          Count Size]).
Definition mallocInts : Expr := mallocOf nRef sizeofInt.
Definition mallocChars : Expr := mallocOf nRef sizeofChar.
Definition mallocIntsConverted : Expr := mallocOf nValue sizeofInt.

(** [struct s { int *data; int count; };],
    [struct t { int *buf; int buf_len; };] and
    [void fill(int *buf, int n, int buf_len) { }]. *)
Definition dataDecl : Decl :=
  mkDecl DK_Field "data" intPtr ("t.c", 10, 19) [] plainFlags.
Definition countDecl : Decl :=
  mkDecl DK_Field "count" intTy ("t.c", 10, 29) [] plainFlags.
Definition bufField : Decl :=
  mkDecl DK_Field "buf" intPtr ("t.c", 11, 19) [] plainFlags.
Definition bufLenField : Decl :=
  mkDecl DK_Field "buf_len" intTy ("t.c", 11, 28) [] plainFlags.
Definition dataCount : RecordDecl := mkRecordDecl true [dataDecl; countDecl].
Definition bufBufLen : RecordDecl := mkRecordDecl true [bufField; bufLenField].
Definition bufParm : Decl :=
  mkDecl DK_ParmVar "buf" intPtr ("t.c", 12, 16) [] plainFlags.
Definition nParm : Decl :=
  mkDecl DK_ParmVar "n" intTy ("t.c", 12, 25) [] plainFlags.
Definition bufLenParm : Decl :=
  mkDecl DK_ParmVar "buf_len" intTy ("t.c", 12, 32) [] plainFlags.
Definition fillDecl : Decl :=
  mkDecl DK_Function "fill"
    (FunctionType (BuiltinType BK_Void) [intPtr; intTy; intTy] true)
    ("t.c", 12, 6) [bufParm; nParm; bufLenParm] globalDefFlags.

(** The bounds information of these declarations: one bounds key per
    name, all of them in one scope; the pointers [arr], [buf] and [data]
    are solved to ARR.  Here [removeAuxillaryCasts] looks through
    parentheses and casts. *)
Definition keyOfName (N : string) : option BoundsKey :=
  if String.eqb N "arr" then Some 1
  else if String.eqb N "n" then Some 2
  else if String.eqb N "buf" then Some 10
  else if String.eqb N "buf_len" then Some 12
  else if String.eqb N "data" then Some 20
  else if String.eqb N "count" then Some 21
  else None.
Definition boundsEnv : BoundsEnv :=
  mkBoundsEnv
    (fun D => keyOfName (getNameAsString D))
    (fun E => match E with
              | DeclRefExpr _ D => keyOfName (getNameAsString D)
              | _ => None
              end)
    (fun _ => mkProgramVar 1 false)
    (fun n => 100 + n)
    (fun D => if isPointerType (getDeclType D)
              then [PVConstraint [VarAtom 0] None
                      (defaultPVInfo (getNameAsString D) "int" false)]
              else [])
    (fun _ => A_Arr)
    IgnoreParenCasts.

End Examples.

(* ================================================================== *)
(** * Further code of the engine *)
(* ================================================================== *)

(** ** ProgramInfo.cpp: casts, symbols and look-ups *)

Module Symbols.

(** [Type::isScalarType], [isCharType] and [isFloatingType] on the types
    at hand. *)
Definition isScalarType (T : QualType) : bool :=
  match T with
  | BuiltinType BK_Void => false
  | BuiltinType _ | EnumType _ | PointerType _ _ => true
  | _ => false
  end.

Definition isCharType (T : QualType) : bool :=
  match T with BuiltinType BK_Char => true | _ => false end.

Definition isFloatingType (T : QualType) : bool :=
  match T with BuiltinType BK_Float => true | _ => false end.

(** [ProgramInfo::isExplicitCastSafe].  The comparison of the two
    [Type *] is the comparison of the types, which have no qualifiers
    here. *)
Fixpoint isExplicitCastSafe (DstType SrcType : QualType) {struct DstType}
    : bool :=
  if QualType_eqb SrcType DstType then true
  else
    match SrcType, DstType with
    | PointerType _ SrcPointee, PointerType _ DstPointee =>
        isExplicitCastSafe DstPointee SrcPointee
    | PointerType _ _, _ => false
    | _, PointerType _ _ => false
    | _, _ =>
        if negb (isScalarType SrcType && isScalarType DstType)
        then QualType_eqb SrcType DstType
        else
          let BothNotChar := xorb (isCharType SrcType) (isCharType DstType) in
          let BothNotInt :=
            xorb (isIntegerType SrcType) (isIntegerType DstType) in
          let BothNotFloat :=
            xorb (isFloatingType SrcType) (isFloatingType DstType) in
          negb (BothNotChar || BothNotInt || BothNotFloat)
    end.

(** [ProgramInfo::checkStructuralEquality(QualType, QualType)]. *)
Definition checkStructuralEquality (D Src : QualType) : bool :=
  if QualType_eqb D Src then true
  else Bool.eqb (isPointerType D) (isPointerType Src).

Definition setExternFunctions (I : ProgramInfo) (E : gmap string bool)
    : ProgramInfo :=
  mkProgramInfo (persisted I) (CS I) (Variables I) (GlobalVariableSymbols I)
    E (ExternalFunctionDeclFVCons I) (ExternalFunctionDefnFVCons I)
    (StaticFunctionDeclFVCons I) (StaticFunctionDefnFVCons I)
    (MultipleRewrites I).

(** [ProgramInfo::isAnExternFunction]: [operator[]] enters a name that is
    not in the map with the value [false]. *)
Definition isAnExternFunction (FName : string) (Info : ProgramInfo)
    : bool * ProgramInfo :=
  let seen := default false (ExternFunctions Info !! FName) in
  (negb seen, setExternFunctions Info (<[FName := seen]> (ExternFunctions Info))).

Definition setGlobalVariableSymbols (I : ProgramInfo)
    (G : gmap string CVarSet) : ProgramInfo :=
  mkProgramInfo (persisted I) (CS I) (Variables I) G (ExternFunctions I)
    (ExternalFunctionDeclFVCons I) (ExternalFunctionDefnFVCons I)
    (StaticFunctionDeclFVCons I) (StaticFunctionDefnFVCons I)
    (MultipleRewrites I).

(** [ProgramInfo::seeGlobalDecl]; the [assert] on [ToAdd] is the [None]
    result.  [Variables.find] does not create an entry. *)
Definition seeGlobalDecl (G : Decl) (Info : ProgramInfo)
    : option ProgramInfo :=
  let VarName := getNameAsString G in
  let K := default [] (Variables Info !! mkPSL G) in
  let ToAdd := insertCVs (List.filter isPV K) [] in
  match ToAdd with
  | [] => None
  | _ :: _ =>
      Some (setGlobalVariableSymbols Info
              (match GlobalVariableSymbols Info !! VarName with
               | Some Old =>
                   <[VarName := insertCVs ToAdd Old]>
                     (GlobalVariableSymbols Info)
               | None => <[VarName := ToAdd]> (GlobalVariableSymbols Info)
               end))
  end.

(** [ProgramInfo::enterCompilationUnit] and [exitCompilationUnit], as far
    as the flag [persisted] goes. *)
Definition setPersisted (I : ProgramInfo) (b : bool) : ProgramInfo :=
  mkProgramInfo b (CS I) (Variables I) (GlobalVariableSymbols I)
    (ExternFunctions I) (ExternalFunctionDeclFVCons I)
    (ExternalFunctionDefnFVCons I) (StaticFunctionDeclFVCons I)
    (StaticFunctionDefnFVCons I) (MultipleRewrites I).

Definition enterCompilationUnit (Info : ProgramInfo) : option ProgramInfo :=
  if persisted Info then Some (setPersisted Info false) else None.

Definition exitCompilationUnit (Info : ProgramInfo) : option ProgramInfo :=
  if persisted Info then None else Some (setPersisted Info true).

(** [getExtFuncDeclConstraintSet] and its three siblings: [None] is the
    null pointer. *)
Definition getExtFuncDeclConstraintSet (Info : ProgramInfo)
    (FuncName : string) : option CVarSet :=
  ExternalFunctionDeclFVCons Info !! FuncName.

Definition getExtFuncDefnConstraintSet (Info : ProgramInfo)
    (FuncName : string) : option CVarSet :=
  ExternalFunctionDefnFVCons Info !! FuncName.

Definition getStaticFuncDefnConstraintSet (Info : ProgramInfo)
    (FuncName FileName : string) : option CVarSet :=
  match StaticFunctionDefnFVCons Info !! FuncName with
  | Some Files => Files !! FileName
  | None => None
  end.

Definition getStaticFuncDeclConstraintSet (Info : ProgramInfo)
    (FuncName FileName : string) : option CVarSet :=
  match StaticFunctionDeclFVCons Info !! FuncName with
  | Some Files => Files !! FileName
  | None => None
  end.

(** [ProgramInfo::getFuncDeclConstraints] and [getFuncDefnConstraints]. *)
Definition getFuncDeclConstraints (D : Decl) (Info : ProgramInfo)
    : option CVarSet :=
  if isGlobal D then getExtFuncDeclConstraintSet Info (getNameAsString D)
  else getStaticFuncDeclConstraintSet Info (getNameAsString D)
         (getFileName (mkPSL D)).

Definition getFuncDefnConstraints (D : Decl) (Info : ProgramInfo)
    : option CVarSet :=
  if isGlobal D then getExtFuncDefnConstraintSet Info (getNameAsString D)
  else getStaticFuncDefnConstraintSet Info (getNameAsString D)
         (getFileName (mkPSL D)).

(** [FVConstraint::setHasBody]. *)
Definition setHasBody (C : ConstraintVariable) (b : bool)
    : ConstraintVariable :=
  match C with
  | FVConstraint n r p _ q => FVConstraint n r p b q
  | PVConstraint _ _ _ => C
  end.

Definition setDeclMaps (I : ProgramInfo) (C : Constraints)
    (E : gmap string CVarSet) (St : gmap string (gmap string CVarSet))
    : ProgramInfo :=
  mkProgramInfo (persisted I) C (Variables I) (GlobalVariableSymbols I)
    (ExternFunctions I) E (ExternalFunctionDefnFVCons I)
    St (StaticFunctionDefnFVCons I) (MultipleRewrites I).

(** [ProgramInfo::getOnDemandFuncDeclarationConstraint]. *)
Definition getOnDemandFuncDeclarationConstraint (D : Decl)
    (Info : ProgramInfo) : CVarSet * ProgramInfo :=
  let FuncName := getNameAsString D in
  if isGlobal D then
    match ExternalFunctionDeclFVCons Info !! FuncName with
    | Some Fs => (Fs, Info)
    | None =>
        let '(F, cs) := newFVConstraint D (CS Info) in
        let Fs := insertCV (setHasBody F false) [] in
        (Fs, setDeclMaps Info cs
              (<[FuncName := Fs]> (ExternalFunctionDeclFVCons Info))
              (StaticFunctionDeclFVCons Info))
    end
  else
    let FileName := getFileName (mkPSL D) in
    match getStaticFuncDeclConstraintSet Info FuncName FileName with
    | Some Fs => (Fs, Info)
    | None =>
        let '(F, cs) := newFVConstraint D (CS Info) in
        let Fs := insertCV (setHasBody F false) [] in
        let Files := default ∅ (StaticFunctionDeclFVCons Info !! FuncName) in
        (Fs, setDeclMaps Info cs (ExternalFunctionDeclFVCons Info)
              (<[FuncName := <[FileName := Fs]> Files]>
                 (StaticFunctionDeclFVCons Info)))
    end.

(** [getFuncFVConstraints]. *)
Definition getFuncFVConstraints (FD : Decl) (Info : ProgramInfo)
    (Defn : bool) : CVarSet * ProgramInfo :=
  let FunFVars :=
    if Defn then
      if isGlobal FD
      then getExtFuncDefnConstraintSet Info (getNameAsString FD)
      else getStaticFuncDefnConstraintSet Info (getNameAsString FD)
             (getFileName (mkPSL FD))
    else None in
  match FunFVars with
  | Some Fs => (Fs, Info)
  | None => getOnDemandFuncDeclarationConstraint FD Info
  end.

Definition PSL_eqb (a b : PersistentSourceLoc) : bool :=
  String.eqb (getFileName a) (getFileName b)
  && Nat.eqb (getLineNo a) (getLineNo b)
  && Nat.eqb (getColNo a) (getColNo b).

Definition DeclFlags_eqb (a b : DeclFlags) : bool :=
  Bool.eqb (fIsGlobal a) (fIsGlobal b)
  && Bool.eqb (fIsThisDeclarationADefinition a)
       (fIsThisDeclarationADefinition b)
  && Bool.eqb (fHasBody a) (fHasBody b)
  && Bool.eqb (fIsRewritable a) (fIsRewritable b)
  && Bool.eqb (fHasGlobalStorage a) (fHasGlobalStorage b)
  && Bool.eqb (fIsIdentifier a) (fIsIdentifier b).

(** Identity of two declaration nodes, as equality of contents: a node is
    known by its class, name, type and position. *)
Fixpoint Decl_eqb (a b : Decl) {struct a} : bool :=
  match a, b with
  | mkDecl k n t l ps f, mkDecl k' n' t' l' ps' f' =>
      DeclKind_eqb k k' && String.eqb n n' && QualType_eqb t t'
      && PSL_eqb l l'
      && (fix go (x y : list Decl) : bool :=
            match x, y with
            | [], [] => true
            | c :: x', d :: y' => Decl_eqb c d && go x' y'
            | _, _ => false
            end) ps ps'
      && DeclFlags_eqb f f'
  end.

(** The loop of [getVariableOnDemand] that looks for the index of a
    parameter among the parameters of its function. *)
Fixpoint findParamIndex (Ps : list Decl) (D : Decl) (i : nat) : option nat :=
  match Ps with
  | [] => None
  | tmp :: Ps' =>
      if Decl_eqb tmp D then Some i else findParamIndex Ps' D (1 + i)
  end.

(** The parameter variables at position [PIdx] of all the function
    variables of a set; a position past the parameters of one of them is the
    [None] result. *)
Fixpoint collectParamCons (FunFVars : CVarSet) (PIdx : nat)
    (ParameterCons : CVarSet) : option CVarSet :=
  match FunFVars with
  | [] => Some ParameterCons
  | fv :: Rest =>
      match getParamVar fv PIdx with
      | None => None
      | Some currParamConstraint =>
          collectParamCons Rest PIdx
            (insertCVs currParamConstraint ParameterCons)
      end
  end.

(** [ProgramInfo::getVariableOnDemand].  [Parent] is the function that
    [getParentFunctionOrMethod] gives for a parameter. *)
Definition getVariableOnDemand (D : Decl) (Parent : option Decl)
    (InFuncCtx : bool) (Info : ProgramInfo)
    : option (CVarSet * ProgramInfo) :=
  if persisted Info then None
  else if isParmVarDecl D || isFunctionDecl D then
    let FDPIdx :=
      if isParmVarDecl D then
        match Parent with
        | None => None
        | Some FD =>
            if isFunctionDecl FD
            then Some (FD, findParamIndex (getParamDecls FD) D 0)
            else None
        end
      else Some (D, None) in
    match FDPIdx with
    | None => None
    | Some (FD, PIdx) =>
        let '(FunFVars, Info') := getFuncFVConstraints FD Info InFuncCtx in
        match PIdx with
        | Some i =>
            match collectParamCons FunFVars i [] with
            | Some ParameterCons => Some (ParameterCons, Info')
            | None => None
            end
        | None => Some (insertCVs FunFVars [], Info')
        end
    end
  else Some (default [] (Variables Info !! mkPSL D), Info).

(** [ProgramInfo::getVariable(Decl *, ASTContext *, bool)]. *)
Definition getVariableInCtx (D : Decl) (Parent : option Decl)
    (InFuncCtx : bool) (Info : ProgramInfo)
    : option (CVarSet * ProgramInfo) :=
  getVariableOnDemand D Parent
    (if isFunctionDecl D then false else InFuncCtx) Info.

(** [ProgramInfo::getVariable(Decl *, ASTContext *, FunctionDecl *, int)]:
    [PIdx] is [None] for a negative index. *)
Definition getVariableAt (FD : Decl) (PIdx : option nat)
    (Info : ProgramInfo) : option CVarSet :=
  match (match PIdx with
         | Some i => getParamDecls FD !! i
         | None => Some FD
         end) with
  | None => None
  | Some D => Variables Info !! mkPSL D
  end.

(** [ProgramInfo::isAValidPVConstraint]. *)
Definition isAValidPVConstraint (C : option ConstraintVariable) : bool :=
  match C with
  | Some (PVConstraint (_ :: _) _ _) => true
  | _ => false
  end.

(** The loop over the parameters in [applyFunctionDefnDeclsConstraints]. *)
Fixpoint constrainParams (DePs DelPs : list CVarSet) (cs : Constraints)
    : Constraints :=
  match DePs, DelPs with
  | DeP :: DePs', DelP :: DelPs' =>
      constrainParams DePs' DelPs'
        (constrainConsVarGeq DeP DelP None Wild_to_Safe cs)
  | _, _ => cs
  end.

(** [ProgramInfo::applyFunctionDefnDeclsConstraints]; the failed [assert]
    is the [None] result. *)
Definition applyDefnDecl (DeFV DelFV : ConstraintVariable)
    (cs : Constraints) : option Constraints :=
  let cs1 :=
    constrainConsVarGeq (getReturnVars DelFV) (getReturnVars DeFV) None
      Safe_to_Wild cs in
  if Nat.eqb (numParams DeFV) (numParams DelFV)
  then Some (constrainParams (getParamVars DeFV) (getParamVars DelFV) cs1)
  else None.

Fixpoint applyDefnDecls (DeFV : ConstraintVariable) (DeclCVars : CVarSet)
    (cs : Constraints) : option Constraints :=
  match DeclCVars with
  | [] => Some cs
  | DelFV :: Rest =>
      match applyDefnDecl DeFV DelFV cs with
      | None => None
      | Some cs' => applyDefnDecls DeFV Rest cs'
      end
  end.

Fixpoint applyFunctionDefnDeclsConstraints (DefCVars DeclCVars : CVarSet)
    (cs : Constraints) : option Constraints :=
  match DefCVars with
  | [] => Some cs
  | DeFV :: Rest =>
      match applyDefnDecls DeFV DeclCVars cs with
      | None => None
      | Some cs' => applyFunctionDefnDeclsConstraints Rest DeclCVars cs'
      end
  end.

(** The two loops of [addFunctionDefDeclConstraints], over the entries of
    a map of definitions. *)
Fixpoint linkExternalDefs (Defs : list (string * CVarSet))
    (Decls : gmap string CVarSet) (cs : Constraints) : option Constraints :=
  match Defs with
  | [] => Some cs
  | CurrFDef :: Rest =>
      match Decls !! CurrFDef.1 with
      | None => linkExternalDefs Rest Decls cs
      | Some DeclFVs =>
          match applyFunctionDefnDeclsConstraints CurrFDef.2 DeclFVs cs with
          | None => None
          | Some cs' => linkExternalDefs Rest Decls cs'
          end
      end
  end.

Fixpoint linkStaticFiles (FuncName : string) (Files : list (string * CVarSet))
    (Decls : gmap string (gmap string CVarSet)) (cs : Constraints)
    : option Constraints :=
  match Files with
  | [] => Some cs
  | StI :: Rest =>
      match (match Decls !! FuncName with
             | Some DF => DF !! StI.1
             | None => None
             end) with
      | None => linkStaticFiles FuncName Rest Decls cs
      | Some DeclFVs =>
          match applyFunctionDefnDeclsConstraints StI.2 DeclFVs cs with
          | None => None
          | Some cs' => linkStaticFiles FuncName Rest Decls cs'
          end
      end
  end.

Fixpoint linkStaticDefs (Defs : list (string * gmap string CVarSet))
    (Decls : gmap string (gmap string CVarSet)) (cs : Constraints)
    : option Constraints :=
  match Defs with
  | [] => Some cs
  | StFDef :: Rest =>
      match linkStaticFiles StFDef.1 (inNameOrder StFDef.2) Decls cs with
      | None => None
      | Some cs' => linkStaticDefs Rest Decls cs'
      end
  end.

(** [ProgramInfo::addFunctionDefDeclConstraints]. *)
Definition addFunctionDefDeclConstraints (Info : ProgramInfo)
    : option ProgramInfo :=
  match linkExternalDefs (inNameOrder (ExternalFunctionDefnFVCons Info))
          (ExternalFunctionDeclFVCons Info) (CS Info) with
  | None => None
  | Some cs1 =>
      match linkStaticDefs (inNameOrder (StaticFunctionDefnFVCons Info))
              (StaticFunctionDeclFVCons Info) cs1 with
      | None => None
      | Some cs2 => Some (setCS Info cs2)
      end
  end.

(** [ProgramInfo::ProgramInfo()]. *)
Definition newProgramInfo : ProgramInfo :=
  mkProgramInfo true emptyCS ∅ ∅ ∅ ∅ ∅ ∅ ∅ false.

(** [cs'] holds the constraints of [cs] in their order, followed by new
    ones, and no key was created on the way. *)
Definition onlyAdds (cs cs' : Constraints) : Prop :=
  getConstraints cs `prefix_of` getConstraints cs'
  /\ freshKey cs' = freshKey cs.

(** The map of the declarations of global functions holds at most one
    declaration per name. *)
Definition singleDecls (Info : ProgramInfo) : Prop :=
  forall N Gs, ExternalFunctionDeclFVCons Info !! N = Some Gs ->
               length Gs <= 1.

End Symbols.

Export Symbols.

(** ** ProgramInfo.cpp: the atoms of a constraint variable *)

Module Statistics.

(** [getVarsFromConstraint]; [CAtoms] is a vector, and
    [R.insert(R.begin(), ...)] puts the new atoms in front. *)
Fixpoint getVarsFromConstraint (V : ConstraintVariable) (T : list Atom)
    {struct V} : list Atom :=
  match V with
  | PVConstraint vs fv _ =>
      let R := vs ++ T in
      match fv with
      | Some FVC => getVarsFromConstraint FVC R
      | None => R
      end
  | FVConstraint _ rets params _ _ =>
      let R1 :=
        (fix overSet (Cs : list ConstraintVariable) (R : list Atom)
           : list Atom :=
           match Cs with
           | [] => R
           | C :: Cs' => overSet Cs' (getVarsFromConstraint C R ++ R)
           end) rets T in
      (fix overParams (Ps : list (list ConstraintVariable)) (R : list Atom)
         : list Atom :=
         match Ps with
         | [] => R
         | P :: Ps' =>
             overParams Ps'
               ((fix overSet (Cs : list ConstraintVariable) (R : list Atom)
                   : list Atom :=
                   match Cs with
                   | [] => R
                   | C :: Cs' => overSet Cs' (getVarsFromConstraint C R ++ R)
                   end) P R)
         end) params R1
  end.

End Statistics.

Export Statistics.

(** ** ArrayBoundsInferenceConsumer.cpp: the parameters that are no lengths *)

Module LocalVisitor.

(** [std::set<ParmVarDecl *>::insert]. *)
Definition insertDecl (D : Decl) (Ds : list Decl) : list Decl :=
  if existsb (Decl_eqb D) Ds then Ds else Ds ++ [D].

(** [NonLengthParameters.find(PVD) != NonLengthParameters.end()]. *)
Definition inNonLengthParameters (NonLengthParameters : list Decl)
    (PVD : Decl) : bool :=
  existsb (Decl_eqb PVD) NonLengthParameters.

(** [LocalVarABVisitor::addUsedParmVarDecl]. *)
Definition addUsedParmVarDecl (CE : Expr) (NonLengthParameters : list Decl)
    : list Decl :=
  match IgnoreParenCasts CE with
  | DeclRefExpr _ D =>
      if isParmVarDecl D then insertDecl D NonLengthParameters
      else NonLengthParameters
  | _ => NonLengthParameters
  end.

(** [LocalVarABVisitor::VisitIfStmt], on the condition of the statement. *)
Definition VisitIfStmt (Cond : Expr) (NonLengthParameters : list Decl)
    : list Decl :=
  match Cond with
  | BinaryOperator _ BOpcode L R =>
      match BOpcode with
      | BO_EQ | BO_NE =>
          addUsedParmVarDecl R (addUsedParmVarDecl L NonLengthParameters)
      | _ => NonLengthParameters
      end
  | _ => NonLengthParameters
  end.

(** [LocalVarABVisitor::VisitSwitchStmt], on the condition variable of the
    statement. *)
Definition VisitSwitchStmt (CondVar : option Decl)
    (NonLengthParameters : list Decl) : list Decl :=
  match CondVar with
  | Some PD =>
      if isParmVarDecl PD then insertDecl PD NonLengthParameters
      else NonLengthParameters
  | None => NonLengthParameters
  end.

(** The end of [LocalVarABVisitor::VisitBinAssign], on the right-hand side
    of the assignment: "Any parameter directly used as a condition in
    ternary expression cannot be length." *)
Definition VisitBinAssignCond (OR : Expr) (NonLengthParameters : list Decl)
    : list Decl :=
  match IgnoreParenCasts OR with
  | ConditionalOperator _ Cond _ _ =>
      addUsedParmVarDecl Cond NonLengthParameters
  | _ => NonLengthParameters
  end.

(** One call of a method of the local visitor that writes
    [NonLengthParameters]. *)
Inductive LocalVisit : Type :=
| OnIfStmt (Cond : Expr)
| OnSwitchStmt (CondVar : option Decl)
| OnBinAssign (OR : Expr).

Definition visit (NonLengthParameters : list Decl) (V : LocalVisit)
    : list Decl :=
  match V with
  | OnIfStmt Cond => VisitIfStmt Cond NonLengthParameters
  | OnSwitchStmt CondVar => VisitSwitchStmt CondVar NonLengthParameters
  | OnBinAssign OR => VisitBinAssignCond OR NonLengthParameters
  end.

(** The bounds key a call on the bounds information is about; the
    diagnostic names a parameter, not a key. *)
Definition boundsKeyOf (c : ABCall) : option BoundsKey :=
  match c with
  | mergeBounds K _ | replaceBounds K _ | statInsert _ K => Some K
  | lengthNotFound _ => None
  end.

(** The calls of a log that are about the key [K], in their order. *)
Definition callsAbout (K : BoundsKey) (Cs : list ABCall) : list ABCall :=
  List.filter (fun c => bool_decide (boundsKeyOf c = Some K)) Cs.

End LocalVisitor.

Export LocalVisitor.

(** ** ConstraintResolver.cpp: what a resolution leaves behind *)

Module Resolving.

(** The number of nodes of an expression. *)
Fixpoint esize (E : Expr) : nat :=
  match E with
  | ParenExpr _ Sub | ImplicitCastExpr _ Sub | CStyleCastExpr _ Sub
  | CHKCBindTemporaryExpr _ Sub | UnaryOperator _ _ Sub
  | CompoundLiteralExpr _ Sub | MemberExpr _ Sub _ => S (esize Sub)
  | BinaryOperator _ _ L R | ArraySubscriptExpr _ L R => S (esize L + esize R)
  | CallExpr _ _ Callee Args =>
      S (esize Callee + list_sum (map esize Args))
  | ConditionalOperator _ C L R => S (esize C + esize L + esize R)
  | InitListExpr _ Inits => S (list_sum (map esize Inits))
  | StmtExpr _ (Some (Some R)) => S (esize R)
  | DeclRefExpr _ _ | StringLiteral _ _ | StmtExpr _ _
  | UnaryExprOrTypeTraitExpr _ _ _ | IntegerLiteral _ _ | OtherExpr _ => 1
  end.

(** [cs'] holds the constraints of [cs] in their order, followed by new
    ones, and no key of [cs] is given out again. *)
Definition grows (cs cs' : Constraints) : Prop :=
  getConstraints cs `prefix_of` getConstraints cs'
  /\ freshKey cs <= freshKey cs'.

(** The state [s'] comes after [s]: the constraint system has grown and
    every node with persistent constraints still has some. *)
Definition extends (s s' : ResolverState) : Prop :=
  grows (rCS s) (rCS s')
  /\ forall k, is_Some (ExprConstraintVars s !! k) ->
               is_Some (ExprConstraintVars s' !! k).

(** No persistent result holds a bounds key. *)
Definition keyless (s : ResolverState) : Prop :=
  forall k r, ExprConstraintVars s !! k = Some r -> r.2 = [].

(** Every run of [m] from a state without stored bounds keys ends in a
    later state without stored bounds keys, with a result in [Q]. *)
Definition preserves {A} (Q : A -> Prop) (m : M A) : Prop :=
  forall s x s', keyless s -> m s = Some (x, s') ->
                 extends s s' /\ keyless s' /\ Q x.

(** [ConstraintResolver::isValidCons]. *)
Definition isValidCons (CV : ConstraintVariable) : bool :=
  match CV with
  | PVConstraint (_ :: _) _ _ => true
  | _ => false
  end.

(** [ConstraintResolver::containsValidCons]. *)
Definition containsValidCons (CVs : CVarSet) : bool :=
  existsb isValidCons CVs.

(** The identities of the nodes of an expression, the node itself
    first. *)
Fixpoint nodeIds (E : Expr) : list nat :=
  getExprId E ::
  match E with
  | ParenExpr _ Sub | ImplicitCastExpr _ Sub | CStyleCastExpr _ Sub
  | CHKCBindTemporaryExpr _ Sub | UnaryOperator _ _ Sub
  | CompoundLiteralExpr _ Sub | MemberExpr _ Sub _ => nodeIds Sub
  | BinaryOperator _ _ L R | ArraySubscriptExpr _ L R =>
      nodeIds L ++ nodeIds R
  | CallExpr _ _ Callee Args => nodeIds Callee ++ concat (map nodeIds Args)
  | ConditionalOperator _ C L R => nodeIds C ++ nodeIds L ++ nodeIds R
  | InitListExpr _ Inits => concat (map nodeIds Inits)
  | StmtExpr _ (Some (Some R)) => nodeIds R
  | DeclRefExpr _ _ | StringLiteral _ _ | StmtExpr _ _
  | UnaryExprOrTypeTraitExpr _ _ _ | IntegerLiteral _ _ | OtherExpr _ => []
  end.

(** A run of [m] changes the stored results at the keys in [K] only. *)
Definition storesWithin {A} (K : nat -> Prop) (m : M A) : Prop :=
  forall s x s', m s = Some (x, s') ->
    forall k, ~ K k ->
      ExprConstraintVars s' !! k = ExprConstraintVars s !! k.

(** Two constraint systems hold the same constraints: as graphs they have
    the same edges, however often a constraint was handed over. *)
Definition sameEdges (cs cs' : Constraints) : Prop :=
  forall c, c ∈ getConstraints cs <-> c ∈ getConstraints cs'.

(** Nothing new came of the run from [s] to [s']: the same stored
    results, no new key, and every constraint handed over on the way was
    there before. *)
Definition nothingNew (s s' : ResolverState) : Prop :=
  ExprConstraintVars s' = ExprConstraintVars s
  /\ freshKey (rCS s') = freshKey (rCS s)
  /\ exists again,
       getConstraints (rCS s') = getConstraints (rCS s) ++ again
       /\ forall c, c ∈ again -> c ∈ getConstraints (rCS s).

End Resolving.

Export Resolving.

(** ** TypeVariableAnalysis.cpp: the entry of a type variable *)

Module TypeVariables.

(** [isTypeAnonymous] (Utils.cpp) and clang's
    [Type::getPointeeOrArrayElementType] are not part of the sources at
    hand: they are taken as given. *)
Record TypeVarEnv : Type := mkTypeVarEnv {
  isTypeAnonymous : QualType -> bool;
  getPointeeOrArrayElementType : QualType -> QualType
}.

(** [TypeVariableEntry]; a null [TypeParamConsVar] is [None]. *)
Record TypeVariableEntry : Type := mkTypeVariableEntry {
  IsConsistent : bool;
  TyVarType : QualType;
  ArgConsVars : CVarSet;
  TypeParamConsVar : option ConstraintVariable
}.

Definition setIsConsistent (e : TypeVariableEntry) (b : bool)
    : TypeVariableEntry :=
  mkTypeVariableEntry b (TyVarType e) (ArgConsVars e) (TypeParamConsVar e).

(** [TypeVariableEntry::getConstraintVariables]; [None] is the failed
    [assert]. *)
Definition getConstraintVariables (e : TypeVariableEntry) : option CVarSet :=
  if IsConsistent e then Some (ArgConsVars e) else None.

(** [TypeVariableEntry::insertConstraintVariables]. *)
Definition insertConstraintVariables (CVs : CVarSet) (e : TypeVariableEntry)
    : option TypeVariableEntry :=
  if IsConsistent e then
    Some (mkTypeVariableEntry (IsConsistent e) (TyVarType e)
            (insertCVs CVs (ArgConsVars e)) (TypeParamConsVar e))
  else None.

(** [TypeVariableEntry::setTypeParamConsVar], for a variable that is not
    null. *)
Definition setTypeParamConsVar (CV : ConstraintVariable)
    (e : TypeVariableEntry) : option TypeVariableEntry :=
  if IsConsistent e then
    match TypeParamConsVar e with
    | None =>
        Some (mkTypeVariableEntry (IsConsistent e) (TyVarType e)
                (ArgConsVars e) (Some CV))
    | Some _ => None
    end
  else None.

(** [TypeVariableEntry::getTypeParamConsVar]. *)
Definition getTypeParamConsVar (e : TypeVariableEntry)
    : option ConstraintVariable :=
  if IsConsistent e then TypeParamConsVar e else None.

(** [TypeVariableEntry::getType]. *)
Definition getTyVarType (e : TypeVariableEntry) : option QualType :=
  if IsConsistent e then Some (TyVarType e) else None.

(** [TypeVariableEntry::getIsConsistent]. *)
Definition getIsConsistent (e : TypeVariableEntry) : bool := IsConsistent e.

(** [TypeVariableEntry::updateEntry]. *)
Definition updateEntry (env : TypeVarEnv) (Ty : QualType) (CVs : CVarSet)
    (e : TypeVariableEntry) : option TypeVariableEntry :=
  let PtrTy := getPointeeOrArrayElementType env Ty in
  if isTypeAnonymous env PtrTy then Some (setIsConsistent e false)
  else if IsConsistent e then
    match getTyVarType e with
    | None => None
    | Some T =>
        if negb (QualType_eqb (getPointeeOrArrayElementType env T) PtrTy)
        then Some (setIsConsistent e false)
        else insertConstraintVariables CVs e
    end
  else Some e.

(** A sequence of updates of one entry, in their order. *)
Fixpoint updateEntries (env : TypeVarEnv)
    (Us : list (QualType * CVarSet)) (e : TypeVariableEntry)
    : option TypeVariableEntry :=
  match Us with
  | [] => Some e
  | U :: Us' =>
      match updateEntry env U.1 U.2 e with
      | None => None
      | Some e' => updateEntries env Us' e'
      end
  end.

End TypeVariables.

Export TypeVariables.

(** ** Further examples *)

Module MoreExamples.

Import Examples.

(** [char *buf = "hi";] in a function body. *)
Definition bufVar : Decl :=
  mkDecl DK_Var "buf" charPtr ("t.c", 14, 9) [] plainFlags.
Definition hiLiteral : Expr :=
  ImplicitCastExpr (mkExprInfo 51 charPtr ("t.c", 14, 15) true)
    (StringLiteral
       (mkExprInfo 50 (ArrayType (BuiltinType BK_Char)) ("t.c", 14, 15) true)
       2).

(** [if (n == 0)] in the body of [fill]. *)
Definition nParmRef : Expr :=
  ImplicitCastExpr (mkExprInfo 61 intTy ("t.c", 13, 7) true)
    (DeclRefExpr (mkExprInfo 60 intTy ("t.c", 13, 7) true) nParm).
Definition nIsZero : Expr :=
  BinaryOperator (mkExprInfo 63 intTy ("t.c", 13, 9) true) BO_EQ nParmRef
    (IntegerLiteral (mkExprInfo 62 intTy ("t.c", 13, 12) true) 0).

(** Two translation units that declare [g] with different numbers of
    parameters: [int *g(int *a);] in a.c and [int *g(int *a, int *b);] in
    b.c, neither with a body. *)
Definition gParmA : Decl :=
  mkDecl DK_ParmVar "a" intPtr ("a.c", 1, 13) [] plainFlags.
Definition gDeclA : Decl :=
  mkDecl DK_Function "g" (FunctionType intPtr [intPtr] true)
    ("a.c", 1, 6) [gParmA] globalDeclFlags.
Definition gParmB1 : Decl :=
  mkDecl DK_ParmVar "a" intPtr ("b.c", 1, 13) [] plainFlags.
Definition gParmB2 : Decl :=
  mkDecl DK_ParmVar "b" intPtr ("b.c", 1, 21) [] plainFlags.
Definition gDeclB : Decl :=
  mkDecl DK_Function "g" (FunctionType intPtr [intPtr; intPtr] true)
    ("b.c", 1, 6) [gParmB1; gParmB2] globalDeclFlags.

(** One translation unit: enter, register the declaration, leave. *)
Definition oneUnit (D : Decl) (Info : ProgramInfo) : option ProgramInfo :=
  match enterCompilationUnit Info with
  | None => None
  | Some I1 =>
      match addVariable D I1 with
      | None => None
      | Some I2 => exitCompilationUnit (seeFunctionDecl D I2)
      end
  end.

(** The program information after both units, and after [link]. *)
Definition twoUnits : option ProgramInfo :=
  match oneUnit gDeclA newProgramInfo with
  | None => None
  | Some Info => oneUnit gDeclB Info
  end.
Definition twoUnitsInfo : ProgramInfo :=
  Eval vm_compute in default newProgramInfo twoUnits.
Definition twoUnitsLinked : ProgramInfo :=
  Eval vm_compute in default newProgramInfo (link false twoUnitsInfo).

(** The variables the two declarations of [g] were given. *)
Definition gVarA : ConstraintVariable :=
  FVConstraint "g" [pv "g" 0] [[pv "a" 1]] false true.
Definition gVarB : ConstraintVariable :=
  FVConstraint "g" [pv "g" 2] [[pv "a" 3]; [pv "b" 4]] false true.

(** [void put(char **names, int len) { }]: the outer level of [names] is
    solved to ARR and the inner one to NTARR. *)
Definition charPtrPtr : QualType := PointerType CPK_Unchecked charPtr.
Definition namesParm : Decl :=
  mkDecl DK_ParmVar "names" charPtrPtr ("t.c", 15, 17) [] plainFlags.
Definition lenParm : Decl :=
  mkDecl DK_ParmVar "len" intTy ("t.c", 15, 28) [] plainFlags.
Definition putDecl : Decl :=
  mkDecl DK_Function "put"
    (FunctionType (BuiltinType BK_Void) [charPtrPtr; intTy] true)
    ("t.c", 15, 6) [namesParm; lenParm] globalDefFlags.
Definition ntBoundsEnv : BoundsEnv :=
  mkBoundsEnv
    (fun D => if String.eqb (getNameAsString D) "names" then Some 30
              else if String.eqb (getNameAsString D) "len" then Some 31
              else None)
    (fun _ => None)
    (fun _ => mkProgramVar 1 false)
    (fun n => 100 + n)
    (fun D => if isPointerType (getDeclType D)
              then [PVConstraint [VarAtom 0; VarAtom 1] None
                      (defaultPVInfo (getNameAsString D) "char" false)]
              else [])
    (fun k => if Nat.eqb k 0 then A_Arr else A_NTArr)
    IgnoreParenCasts.

End MoreExamples.

(* ================================================================== *)
(** * Properties *)
(* ================================================================== *)

(** ** The constraint log only grows *)

Section Log.

Implicit Types (cs : Constraints) (c : Constraint).

Lemma addConstraints_log l cs :
  getConstraints (addConstraints l cs) = getConstraints cs ++ l.
Proof. reflexivity. Qed.

Lemma addConstraint_log c cs :
  getConstraints (addConstraint c cs) = getConstraints cs ++ [c].
Proof. reflexivity. Qed.

Lemma constrainToWild_log C rsn PL cs :
  getConstraints (constrainToWild C rsn PL cs)
  = getConstraints cs
    ++ map (fun A => CGeq (createGeq A getWild rsn PL)) (atomsOf C).
Proof. reflexivity. Qed.

Lemma constrainToWild_fresh C rsn PL cs :
  freshKey (constrainToWild C rsn PL cs) = freshKey cs.
Proof. reflexivity. Qed.

Lemma constrainToWild_prefix C rsn PL cs :
  getConstraints cs `prefix_of` getConstraints (constrainToWild C rsn PL cs).
Proof. rewrite constrainToWild_log. apply prefix_app_r. done. Qed.

Lemma constrainToWild_in C rsn PL cs A :
  A ∈ atomsOf C ->
  CGeq (mkGeq A getWild rsn PL) ∈ getConstraints (constrainToWild C rsn PL cs).
Proof.
  intros HA. rewrite constrainToWild_log, elem_of_app. right.
  apply list_elem_of_fmap. exists A. done.
Qed.

(** A fold of steps that each extend the log extends the log, and keeps
    whatever one of its steps is sure to add. *)
Lemma foldl_log_prefix {A} (f : Constraints -> A -> Constraints) l :
  (forall cs x, getConstraints cs `prefix_of` getConstraints (f cs x)) ->
  forall cs, getConstraints cs `prefix_of` getConstraints (foldl f cs l).
Proof.
  intros Hf. induction l as [|x l IH]; intros cs; simpl; [done|].
  etrans; [apply (Hf cs x)|apply IH].
Qed.

Lemma foldl_log_in {A} (f : Constraints -> A -> Constraints) l x e :
  (forall cs y, getConstraints cs `prefix_of` getConstraints (f cs y)) ->
  x ∈ l ->
  (forall cs, e ∈ getConstraints (f cs x)) ->
  forall cs, e ∈ getConstraints (foldl f cs l).
Proof.
  intros Hf Hx He. induction l as [|y l IH]; intros cs; simpl.
  - by apply elem_of_nil in Hx.
  - apply elem_of_cons in Hx as [->|Hx].
    + pose proof (foldl_log_prefix f l Hf (f cs y)) as [k Hk].
      rewrite Hk, elem_of_app. left. apply He.
    + by apply IH.
Qed.

(** The entries visited in the order of the names are the entries of the
    map. *)
Lemma elem_of_inNameOrder {A} (m : gmap string A) k v :
  (k, v) ∈ inNameOrder m <-> m !! k = Some v.
Proof.
  unfold inNameOrder. rewrite merge_sort_Permutation.
  apply elem_of_map_to_list.
Qed.

Lemma forallb_inNameOrder {A} (f : string * A -> bool) (m : gmap string A) :
  forallb f (map_to_list m) = true -> forallb f (inNameOrder m) = true.
Proof.
  rewrite !forallb_forall. intros Hf [k v] Hkv%list_elem_of_In.
  apply Hf, list_elem_of_In, elem_of_map_to_list.
  by apply elem_of_inNameOrder.
Qed.

Lemma prefix_elem_of {A} (l1 l2 : list A) x :
  l1 `prefix_of` l2 -> x ∈ l1 -> x ∈ l2.
Proof. intros [k ->] ?. apply elem_of_app. by left. Qed.

Lemma constrainConsVarGeq1_prefix L R PL CA cs :
  getConstraints cs
    `prefix_of` getConstraints (constrainConsVarGeq1 L R PL CA cs).
Proof. unfold constrainConsVarGeq1. rewrite addConstraints_log. by apply prefix_app_r. Qed.

Lemma constrainConsVarGeq_prefix Ls Rs PL CA cs :
  getConstraints cs
    `prefix_of` getConstraints (constrainConsVarGeq Ls Rs PL CA cs).
Proof.
  unfold constrainConsVarGeq. apply foldl_log_prefix. intros c x.
  apply foldl_log_prefix. intros c' y. apply constrainConsVarGeq1_prefix.
Qed.

End Log.

(** ** Linking: unresolved external functions *)

Section LinkExterns.







End LinkExterns.

(** ** The solver lowers what is linked to a WILD atom *)

Section SolverFacts.

Implicit Types (env : gmap ConstraintKey ConstAtom).









End SolverFacts.

(** ** C1 *)

(** *** [link] returns *)

Section LinkReturns.

(** The loop over the declarations of one symbol ends within the steps it
    is given: [J] or the pending [Gap] decreases at every step, and [I]
    stays behind [J]. *)
Lemma mergeDeclsLoop_total fuel (P : list ConstraintVariable) VI VJ
    (Gap : bool) cs :
  VI + (if Gap then 1 else 0) <= VJ ->
  2 * (length P - VJ) + (if Gap then 1 else 0) <= fuel ->
  is_Some (mergeDeclsLoop fuel P VI VJ Gap cs).
Proof.
  revert VI VJ Gap cs.
  induction fuel as [|fuel IH]; intros VI VJ Gap cs HI Hm.
  - cbn [mergeDeclsLoop].
    destruct (P !! VJ) as [P2|] eqn:HJ; [|by eexists].
    apply lookup_lt_Some in HJ. destruct Gap; lia.
  - cbn [mergeDeclsLoop].
    destruct (P !! VJ) as [P2|] eqn:HJ; [|by eexists].
    pose proof (lookup_lt_Some _ _ _ HJ) as HJl.
    destruct (P !! VI) as [P1|] eqn:HIl.
    2: { apply lookup_ge_None in HIl. destruct Gap; lia. }
    destruct (hasBody P2).
    + apply IH; [destruct Gap; lia|destruct Gap; lia].
    + destruct Gap; cbn [negb]; apply IH; lia.
Qed.

Lemma mergeDecls_total P Gap cs : is_Some (mergeDecls P Gap cs).
Proof.
  unfold mergeDecls. destruct (decide (1 < length P)); [|by eexists].
  apply mergeDeclsLoop_total; destruct Gap; lia.
Qed.

Lemma mergeAllDecls_total Ps Gap cs : is_Some (mergeAllDecls Ps Gap cs).
Proof.
  revert Gap cs. induction Ps as [|Sym Ps IH]; intros Gap cs;
    cbn [mergeAllDecls]; [by eexists|].
  destruct (mergeDecls_total Sym.2 Gap cs) as [[cs' Gap'] ->]. apply IH.
Qed.

Lemma constrainExterns_total Us Decls cs :
  forallb
    (fun U : string * bool =>
       implb (negb U.2 && negb (isExternOkay U.1))
         (bool_decide (is_Some (Decls !! U.1)))) Us = true ->
  is_Some (constrainExterns Us Decls cs).
Proof.
  revert cs. induction Us as [|U Us IH]; intros cs; cbn [forallb constrainExterns];
    [by eexists|].
  intros [HU HUs]%andb_true_iff.
  destruct (negb U.2 && negb (isExternOkay U.1)); [|by apply IH].
  cbn [implb] in HU. apply bool_decide_eq_true in HU as [Gs ->]. by apply IH.
Qed.

(** With the [assert] of its last block granted, [link] returns. *)
Lemma link_total sep Info :
  externsDeclared Info = true -> is_Some (link sep Info).
Proof.
  intros HD. unfold link.
  match goal with
  | |- context [if negb sep then mergeAllDecls ?Ps false ?c else _] =>
      assert (H3 : is_Some (if negb sep then mergeAllDecls Ps false c
                            else Some (c, false)))
  end.
  { destruct sep; cbn [negb]; [by eexists|apply mergeAllDecls_total]. }
  destruct H3 as [[cs3 g] ->].
  destruct (constrainExterns_total (inNameOrder (ExternFunctions Info))
              (ExternalFunctionDeclFVCons Info) cs3
              (forallb_inNameOrder _ _ HD)) as [cs4 ->].
  by eexists.
Qed.

End LinkReturns.




(** ** Linking: several declarations of one symbol *)

Section LinkMerge.

Lemma mergePair_forces P1 P2 cs A :
  numParams P1 <> numParams P2 ->
  hasProtoType P1 = true -> hasProtoType P2 = true ->
  A ∈ atomsOf P1 ++ atomsOf P2 ->
  CGeq (mkGeq A getWild ("Return value of function:" +:+ getName P1) None)
    ∈ getConstraints (mergePair P1 P2 cs).
Proof.
  intros Hn H1 H2 HA. unfold mergePair.
  apply Nat.eqb_neq in Hn. rewrite Hn, H1, H2. cbn [andb].
  apply elem_of_app in HA as [HA|HA].
  - eapply prefix_elem_of; [apply constrainToWild_prefix|].
    by apply constrainToWild_in.
  - by apply constrainToWild_in.
Qed.

End LinkMerge.

(** ** Registering declarations *)

Section AddVariable.

Implicit Types (S : list ConstraintVariable)
  (V : gmap PersistentSourceLoc (list ConstraintVariable)).

Lemma countType_app isT S S' :
  countType isT (S ++ S') = countType isT S + countType isT S'.
Proof. unfold countType. by rewrite List.filter_app, length_app. Qed.

Lemma countType_none isT S :
  existsb isT S = false -> countType isT S = 0.
Proof.
  unfold countType. induction S as [|C S IH]; [done|]. cbn.
  destruct (isT C); [done|]. exact IH.
Qed.

Lemma CV_eqb_kind a b :
  CV_eqb a b = true -> isFV a = isFV b /\ isPV a = isPV b.
Proof. destruct a, b; cbn; try done. Qed.

Lemma existsb_CV_eqb_kind isT C S :
  (forall a b, CV_eqb a b = true -> isT a = isT b) ->
  existsb (CV_eqb C) S = true -> isT C = true -> existsb isT S = true.
Proof.
  intros Hk. induction S as [|X S IH]; cbn; [done|].
  intros [H|H]%orb_true_iff HC.
  - apply Hk in H. rewrite <- H, HC. done.
  - rewrite (IH H HC). apply orb_true_r.
Qed.

Lemma insertCV_cases C S : insertCV C S = S \/ insertCV C S = S ++ [C].
Proof. unfold insertCV. destruct (existsb _ S); auto. Qed.

Lemma countType_insertCV_other isT C S :
  isT C = false -> countType isT (insertCV C S) = countType isT S.
Proof.
  intros HC. destruct (insertCV_cases C S) as [->| ->]; [done|].
  rewrite countType_app. unfold countType at 2. cbn. rewrite HC. cbn. lia.
Qed.

Lemma countType_insertCVs_other isT Cs S :
  (forall C, C ∈ Cs -> isT C = false) ->
  countType isT (insertCVs Cs S) = countType isT S.
Proof.
  unfold insertCVs. revert S. induction Cs as [|C Cs IH]; intros S H; [done|].
  cbn [foldl]. rewrite IH.
  - apply countType_insertCV_other, H, list_elem_of_here.
  - intros X HX. apply H. by apply list_elem_of_further.
Qed.

Lemma existsb_insertCV_mono isT C S :
  existsb isT S = true -> existsb isT (insertCV C S) = true.
Proof.
  intros H. destruct (insertCV_cases C S) as [->| ->]; [done|].
  rewrite existsb_app, H. done.
Qed.

Lemma existsb_insertCVs_mono isT Cs S :
  existsb isT S = true -> existsb isT (insertCVs Cs S) = true.
Proof.
  unfold insertCVs. revert S. induction Cs as [|C Cs IH]; intros S H; [done|].
  cbn [foldl]. by apply IH, existsb_insertCV_mono.
Qed.

Lemma existsb_insertCV_new isT C S :
  (forall a b, CV_eqb a b = true -> isT a = isT b) ->
  isT C = true -> existsb isT (insertCV C S) = true.
Proof.
  intros Hk HC. unfold insertCV.
  destruct (existsb (CV_eqb C) S) eqn:E.
  - by apply (existsb_CV_eqb_kind isT C).
  - rewrite existsb_app. cbn. rewrite HC. by rewrite orb_true_r.
Qed.

Lemma isFV_kind a b : CV_eqb a b = true -> isFV a = isFV b.
Proof. intros H. by apply CV_eqb_kind in H as [? ?]. Qed.

Lemma isPV_kind a b : CV_eqb a b = true -> isPV a = isPV b.
Proof. intros H. by apply CV_eqb_kind in H as [? ?]. Qed.

Lemma isPV_not_isFV C : isPV C = true -> isFV C = false.
Proof. by destruct C. Qed.

Lemma isFV_not_isPV C : isFV C = true -> isPV C = false.
Proof. by destruct C. Qed.

Lemma pushAtom_isPV A upd C : isPV (pushAtom A upd C) = isPV C.
Proof. by destruct C. Qed.

(** The constructor from a type always builds a pointer variable. *)
Lemma newPVConstraint_isPV T N G cs :
  isPV (newPVConstraint T N G cs).1 = true.
Proof.
  revert cs. induction T as [| | |K P IH|E IH|R _ Ps Proto]; intros cs;
    cbn [newPVConstraint]; try done.
  - destruct (levelAtom K cs) as [A cs1].
    specialize (IH cs1). destruct (newPVConstraint P N G cs1) as [C cs2].
    cbn in *. by rewrite pushAtom_isPV.
  - destruct (getFreshVar cs) as [A cs1].
    specialize (IH cs1). destruct (newPVConstraint E N G cs1) as [C cs2].
    cbn in *. by rewrite pushAtom_isPV.
  - destruct (newPVConstraint R "" false cs) as [RV cs1].
    match goal with |- context [?f Ps cs1] =>
      destruct (f Ps cs1) as [PVs cs2] end.
    done.
Qed.

Lemma newParamVars_isPV Ps cs PS C :
  PS ∈ (newParamVars Ps cs).1 -> C ∈ PS -> isPV C = true.
Proof.
  revert cs. induction Ps as [|P Ps IH]; intros cs; cbn [newParamVars].
  - intros H. by apply elem_of_nil in H.
  - pose proof (newPVConstraint_isPV (getDeclType P) (getNameAsString P)
                  false cs) as HP.
    destruct (newPVConstraint _ _ _ cs) as [X cs1].
    specialize (IH cs1). destruct (newParamVars Ps cs1) as [Vs cs2].
    cbn in *. intros [->|H]%elem_of_cons HC.
    + apply list_elem_of_singleton in HC as ->. exact HP.
    + by apply IH.
Qed.

Lemma newFVConstraint_params_isPV D cs PS C :
  PS ∈ getParamVars (newFVConstraint D cs).1 -> C ∈ PS -> isPV C = true.
Proof.
  unfold newFVConstraint.
  destruct (newPVConstraint _ _ _ cs) as [RV cs1].
  pose proof (newParamVars_isPV (getParamDecls D) cs1 PS C) as H.
  destruct (newParamVars _ cs1) as [PVs cs2]. exact H.
Qed.

Lemma newFVConstraint_isFV D cs : isFV (newFVConstraint D cs).1 = true.
Proof.
  unfold newFVConstraint.
  destruct (newPVConstraint _ _ _ cs) as [RV cs1].
  by destruct (newParamVars _ cs1) as [PVs cs2].
Qed.

Lemma lookupVars_insert L L' S V :
  lookupVars (<[L' := S]> V) L = if decide (L' = L) then S else lookupVars V L.
Proof.
  unfold lookupVars. rewrite lookup_insert. by destruct (decide (L' = L)).
Qed.

Lemma lookupVars_insertVars L L' S V :
  lookupVars (insertVars L' S V) L
  = if decide (L' = L) then insertCVs S (lookupVars V L) else lookupVars V L.
Proof.
  unfold insertVars. rewrite lookupVars_insert.
  by destruct (decide (L' = L)) as [->|].
Qed.

Lemma lookupVars_touch L L' V :
  lookupVars (<[L' := lookupVars V L']> V) L = lookupVars V L.
Proof. rewrite lookupVars_insert. by destruct (decide (L' = L)) as [->|]. Qed.

Lemma addParamMappings_countFV Ps PVs V L :
  (forall PS C, PS ∈ PVs -> C ∈ PS -> isPV C = true) ->
  countType isFV (lookupVars (addParamMappings Ps PVs V) L)
  = countType isFV (lookupVars V L).
Proof.
  revert PVs V. induction Ps as [|P Ps IH]; intros [|PS PVs] V H;
    cbn [addParamMappings]; try done.
  rewrite IH by (intros X C HX; apply H; by apply list_elem_of_further).
  destruct PS as [|C0 PS']; [done|].
  rewrite lookupVars_insertVars. destruct (decide (mkPSL P = L)); [|done].
  apply countType_insertCVs_other. intros C HC.
  apply isPV_not_isFV. apply (H (C0 :: PS')); [apply list_elem_of_here|done].
Qed.

Lemma addParamMappings_mono isT Ps PVs V L :
  existsb isT (lookupVars V L) = true ->
  existsb isT (lookupVars (addParamMappings Ps PVs V) L) = true.
Proof.
  revert PVs V. induction Ps as [|P Ps IH]; intros [|PS PVs] V H;
    cbn [addParamMappings]; try done.
  apply IH. destruct PS as [|C0 PS']; [done|].
  rewrite lookupVars_insertVars. destruct (decide (mkPSL P = L)); [|done].
  by apply existsb_insertCVs_mono.
Qed.

Lemma addParamMappings_is_Some Ps PVs V L :
  is_Some (V !! L) -> is_Some (addParamMappings Ps PVs V !! L).
Proof.
  revert PVs V. induction Ps as [|P Ps IH]; intros [|PS PVs] V H;
    cbn [addParamMappings]; try done.
  apply IH. destruct PS as [|C0 PS']; [done|].
  unfold insertVars. rewrite lookup_insert.
  destruct (decide (mkPSL P = L)); [by eexists|done].
Qed.

Lemma Variables_insertNewFVConstraints FD Fs Info :
  Variables (insertNewFVConstraints FD Fs Info) = Variables Info.
Proof.
  unfold insertNewFVConstraints.
  repeat match goal with
         | |- context [if ?b then _ else _] => destruct b
         | |- context [let '(_, _) := ?x in _] => destruct x
         end; reflexivity.
Qed.

Lemma persisted_insertNewFVConstraints FD Fs Info :
  persisted (insertNewFVConstraints FD Fs Info) = persisted Info.
Proof.
  unfold insertNewFVConstraints.
  repeat match goal with
         | |- context [if ?b then _ else _] => destruct b
         | |- context [let '(_, _) := ?x in _] => destruct x
         end; reflexivity.
Qed.

(** The part of [addVariable] before the test for macros, read off its
    result. *)
Lemma addVariable_inv D Info Info' :
  addVariable D Info = Some Info' ->
  persisted Info = false /\ valid (mkPSL D) = true
  /\ persisted Info' = false
  /\ let PLoc := mkPSL D in
     let V0 := <[PLoc := lookupVars (Variables Info) PLoc]> (Variables Info) in
     (isFunctionDecl D = true /\ isFunctionType (getDeclType D) = true
      /\ ((hasConstraintType isFV (lookupVars (Variables Info) PLoc) = true
           /\ Variables Info' = V0)
          \/ (hasConstraintType isFV (lookupVars (Variables Info) PLoc) = false
              /\ Variables Info'
                 = addParamMappings (getParamDecls D)
                     (getParamVars (newFVConstraint D (CS Info)).1)
                     (insertVars PLoc [(newFVConstraint D (CS Info)).1] V0))))
     \/ (isFunctionDecl D = false
         /\ ((((isPointerType (getDeclType D) || isArrayType (getDeclType D))
               = false
               \/ hasConstraintType isPV (lookupVars (Variables Info) PLoc)
                  = true)
              /\ Variables Info' = V0)
             \/ ((isPointerType (getDeclType D) || isArrayType (getDeclType D))
                 = true
                 /\ hasConstraintType isPV (lookupVars (Variables Info) PLoc)
                    = false
                 /\ Variables Info'
                    = insertVars PLoc
                        [(newPVConstraint (getDeclType D) (getNameAsString D)
                            false (CS Info)).1] V0))).
Proof.
  unfold addVariable.
  destruct (persisted Info) eqn:Hp; [done|].
  destruct (valid (mkPSL D)) eqn:Hv; [|done]. cbn [negb].
  cbn [Variables setVariables CS persisted].
  rewrite lookupVars_touch.
  destruct (isFunctionDecl D) eqn:HF.
  - destruct (isFunctionType (getDeclType D)) eqn:HT; [|done]. cbn [negb].
    destruct (hasConstraintType isFV _) eqn:Hh; cbn [negb].
    + destruct (isRewritable D); cbn [negb]; intros [= <-];
        (split; [done|]); (split; [done|]); (split; [done|]);
        left; (split; [done|]); (split; [done|]); left; done.
    + destruct (newFVConstraint D (CS Info)) as [F cs1] eqn:EF.
      cbn [Variables setVariables CS setCS persisted].
      destruct (Nat.eqb _ _); [|done]. cbn [negb].
      cbn [fst].
      destruct (isRewritable D); cbn [negb]; intros [= <-];
        cbn [Variables setVariables CS setCS persisted];
        rewrite ?Variables_insertNewFVConstraints,
          ?persisted_insertNewFVConstraints;
        (split; [done|]); (split; [done|]); (split; [done|]);
        left; (split; [done|]); (split; [done|]); right; done.
  - destruct (isVarDecl D || isFieldDecl D); [|done].
    destruct (isPointerType (getDeclType D) || isArrayType (getDeclType D))
      eqn:HT.
    + destruct (hasConstraintType isPV _) eqn:Hh; cbn [negb].
      * destruct (isRewritable D); cbn [negb]; intros [= <-];
          (split; [done|]); (split; [done|]); (split; [done|]);
          right; (split; [done|]); left; split; [by right|done| by right|done].
      * destruct (newPVConstraint _ _ _ (CS Info)) as [P cs1] eqn:EP.
        cbn [fst].
        destruct (isRewritable D); cbn [negb]; intros [= <-];
          (split; [done|]); (split; [done|]); (split; [done|]);
          right; (split; [done|]); right; done.
    + destruct (isRewritable D); cbn [negb]; intros [= <-];
        (split; [done|]); (split; [done|]); (split; [done|]);
        right; (split; [done|]); left; split; [by left|done|by left|done].
Qed.

Lemma countType_insertCV_le isT C S :
  countType isT (insertCV C S) <= 1 + countType isT S.
Proof.
  destruct (insertCV_cases C S) as [->| ->]; [lia|].
  rewrite countType_app. unfold countType at 2. cbn.
  destruct (isT C); cbn; lia.
Qed.

(** After a call the entry of the declaration's position exists and holds
    a variable of the declaration's kind. *)
Lemma addVariable_registered D Info Info' :
  addVariable D Info = Some Info' ->
  is_Some (Variables Info' !! mkPSL D)
  /\ (isFunctionDecl D = true ->
      hasConstraintType isFV (lookupVars (Variables Info') (mkPSL D)) = true)
  /\ (isFunctionDecl D = false ->
      (isPointerType (getDeclType D) || isArrayType (getDeclType D)) = true ->
      hasConstraintType isPV (lookupVars (Variables Info') (mkPSL D)) = true).
Proof.
  intros H. apply addVariable_inv in H as (_ & _ & _ & H). cbn zeta in H.
  unfold hasConstraintType in *.
  destruct H as [(HF & HT & [[Hh ->]|[Hh ->]])
                |(HF & [[Hc ->]|(HT & Hh & ->)])].
  - split; [rewrite lookup_insert_eq; by eexists|].
    split; [|congruence]. intros _. by rewrite lookupVars_touch.
  - split.
    { apply addParamMappings_is_Some. unfold insertVars.
      rewrite lookup_insert_eq. by eexists. }
    split; [|congruence]. intros _. apply addParamMappings_mono.
    rewrite lookupVars_insertVars, decide_True by done.
    unfold insertCVs. cbn [foldl]. apply existsb_insertCV_new.
    + apply isFV_kind.
    + apply newFVConstraint_isFV.
  - split; [rewrite lookup_insert_eq; by eexists|].
    split; [congruence|]. intros _ HT. rewrite lookupVars_touch.
    destruct Hc as [Hc|Hc]; [congruence|done].
  - split; [unfold insertVars; rewrite lookup_insert_eq; by eexists|].
    split; [congruence|]. intros _ _.
    rewrite lookupVars_insertVars, decide_True by done.
    unfold insertCVs. cbn [foldl]. apply existsb_insertCV_new.
    + apply isPV_kind.
    + apply newPVConstraint_isPV.
Qed.

End AddVariable.

(** ** C10 *)

(** C10, as the code has it.  [addVariable] adds a function-shaped variable
    to the entry of a function declaration's position only when that entry
    holds none, so that no entry of [Variables] ever holds more than one
    [FVConstraint]; for a variable or field declarator it adds a
    pointer-shaped variable only when the entry of its position holds none,
    so that such a call never takes an entry beyond one [PVConstraint]; and
    a call repeated with the same declaration leaves [Variables] as it
    is. *)
Theorem addVariable_guards_its_own_entry
    (D : Decl) (Info Info' : ProgramInfo) :
  addVariable D Info = Some Info' ->
  ((forall L, countType isFV (lookupVars (Variables Info) L) <= 1) ->
   forall L, countType isFV (lookupVars (Variables Info') L) <= 1)
  /\ (isFunctionDecl D = false ->
      forall L, countType isPV (lookupVars (Variables Info') L)
                <= Nat.max 1 (countType isPV (lookupVars (Variables Info) L)))
  /\ (forall Info'', addVariable D Info' = Some Info'' ->
                     Variables Info'' = Variables Info').
Proof.
  intros Hadd. split; [|split].
  - intros Hinv L.
    apply addVariable_inv in Hadd as (_ & _ & _ & H). cbn zeta in H.
    unfold hasConstraintType in *.
    destruct H as [(HF & HT & [[Hh ->]|[Hh ->]])
                  |(HF & [[Hc ->]|(HT & Hh & ->)])].
    + rewrite lookupVars_touch. apply Hinv.
    + rewrite addParamMappings_countFV
        by (intros PS C; apply newFVConstraint_params_isPV).
      rewrite lookupVars_insertVars, lookupVars_touch.
      destruct (decide (mkPSL D = L)) as [<-|]; [|apply Hinv].
      unfold insertCVs. cbn [foldl].
      etrans; [apply countType_insertCV_le|].
      rewrite (countType_none isFV) by done. lia.
    + rewrite lookupVars_touch. apply Hinv.
    + rewrite lookupVars_insertVars, lookupVars_touch.
      destruct (decide (mkPSL D = L)) as [<-|]; [|apply Hinv].
      rewrite countType_insertCVs_other; [apply Hinv|].
      intros C ->%list_elem_of_singleton.
      apply isPV_not_isFV, newPVConstraint_isPV.
  - intros HnF L.
    apply addVariable_inv in Hadd as (_ & _ & _ & H). cbn zeta in H.
    unfold hasConstraintType in *.
    destruct H as [(HF & _)|(_ & [[Hc ->]|(HT & Hh & ->)])]; [congruence| |].
    + rewrite lookupVars_touch. lia.
    + rewrite lookupVars_insertVars, lookupVars_touch.
      destruct (decide (mkPSL D = L)) as [<-|]; [|lia].
      unfold insertCVs. cbn [foldl].
      etrans; [apply countType_insertCV_le|].
      rewrite (countType_none isPV) by done. lia.
  - intros Info'' Hagain.
    destruct (addVariable_registered _ _ _ Hadd) as ([S HS] & HFV & HPV).
    apply addVariable_inv in Hagain as (_ & _ & _ & H). cbn zeta in H.
    assert (Htouch :
              <[mkPSL D := lookupVars (Variables Info') (mkPSL D)]>
                (Variables Info') = Variables Info').
    { apply insert_id. unfold lookupVars. by rewrite HS. }
    rewrite Htouch in H.
    destruct H as [(HF & HT & [[Hh ->]|[Hh _]])
                  |(HF & [[Hc ->]|(HT & Hh & _)])]; try done.
    + rewrite (HFV HF) in Hh. done.
    + rewrite (HPV HF HT) in Hh. done.
Qed.

(** The function [f] is registered after its parameter [p]: no entry holds
    more than one function-shaped variable, and registering [f] once more
    changes nothing. *)
Lemma addVariable_guards_its_own_entry_witness :
  addVariable Examples.fDecl Examples.pRegistered
  = Some Examples.pfRegistered
  /\ ((forall L, countType isFV
                   (lookupVars (Variables Examples.pRegistered) L) <= 1) ->
      forall L, countType isFV
                  (lookupVars (Variables Examples.pfRegistered) L) <= 1)
  /\ (forall Info'',
        addVariable Examples.fDecl Examples.pfRegistered = Some Info'' ->
        Variables Info'' = Variables Examples.pfRegistered).
Proof.
  assert (H : addVariable Examples.fDecl Examples.pRegistered
              = Some Examples.pfRegistered) by (vm_compute; reflexivity).
  split; [exact H|].
  pose proof (addVariable_guards_its_own_entry Examples.fDecl
                Examples.pRegistered Examples.pfRegistered H) as (H1 & _ & H3).
  split; [exact H1|exact H3].
Defined.

(** C10 as stated does not hold: registering a function inserts the
    variables of its parameters at the parameters' positions without
    looking at what the entry holds.  After the parameter [p] and then the
    function [f] it belongs to were registered, the entry of the position
    of [p] holds two pointer-shaped variables. *)
Lemma addVariable_two_pointer_variables_counterexample :
  addVariable Examples.pDecl emptyProgramInfo = Some Examples.pRegistered
  /\ addVariable Examples.fDecl Examples.pRegistered
     = Some Examples.pfRegistered
  /\ isPointerType (getDeclType Examples.pDecl) = true
  /\ lookupVars (Variables Examples.pfRegistered) (mkPSL Examples.pDecl)
     = [PVConstraint [VarAtom 0] None (defaultPVInfo "p" "char" false);
        PVConstraint [VarAtom 1] None (defaultPVInfo "p" "char" false)]
  /\ countType isPV
       (lookupVars (Variables Examples.pfRegistered) (mkPSL Examples.pDecl))
     = 2.
Proof. repeat split; vm_compute; reflexivity. Qed.

(** ** The disjoint set of pointer groups *)

Section DisjointSetFacts.

Implicit Types (D : DisjointSet) (a b k l : nat).

Lemma group_lookup G l (g : gset nat) :
  G !! l = Some g -> group G l = g.
Proof. unfold group. by intros ->. Qed.

Lemma consistent_group D k l :
  consistent D -> Leaders D !! k = Some l ->
  Groups D !! l = Some (group (Groups D) l) /\ k ∈ group (Groups D) l.
Proof.
  intros [H _] Hk. apply H in Hk as (g & Hg & Hmem).
  by rewrite (group_lookup _ _ _ Hg).
Qed.

Lemma consistent_leader_self D l g :
  consistent D -> Groups D !! l = Some g -> Leaders D !! l = Some l.
Proof. intros [HL HS] Hg. apply HL. exists g. split; [done|]. by apply HS. Qed.

Lemma consistent_no_group D k :
  consistent D -> Leaders D !! k = None -> Groups D !! k = None.
Proof.
  intros HC Hk. destruct (Groups D !! k) as [g|] eqn:Hg; [|done].
  rewrite (consistent_leader_self D k g HC Hg) in Hk. done.
Qed.

Lemma lookup_replaceLeader Old New (L : gmap nat nat) k :
  replaceLeader Old New L !! k
  = (fun l => if decide (l = Old) then New else l) <$> L !! k.
Proof. unfold replaceLeader. apply lookup_fmap. Qed.

Lemma consistent_Clear : consistent Clear.
Proof.
  split.
  - intros k l. cbn. rewrite lookup_empty. split; [done|].
    intros (g & Hg & _). by rewrite lookup_empty in Hg.
  - intros l g. cbn. by rewrite lookup_empty.
Qed.

(** Uniting two groups keeps the maps in agreement. *)
Lemma consistent_merge D la lb :
  consistent D -> la <> lb ->
  is_Some (Groups D !! la) -> is_Some (Groups D !! lb) ->
  consistent
    (setLG D (replaceLeader lb la (Leaders D))
       (delete lb
          (<[la := group (Groups D) la ∪ group (Groups D) lb]> (Groups D)))).
Proof.
  intros HC Hne [ga Hga] [gb Hgb].
  rewrite (group_lookup _ _ _ Hga), (group_lookup _ _ _ Hgb).
  destruct HC as [HL HS]. split; cbn [Leaders Groups setLG].
  - intros k l. rewrite lookup_replaceLeader. split.
    + intros Hk. destruct (Leaders D !! k) as [l0|] eqn:Hl0; [|done].
      cbn in Hk. injection Hk as <-.
      apply HL in Hl0 as (g & Hg & Hmem).
      destruct (decide (l0 = lb)) as [->|Hnb].
      * exists (ga ∪ gb). rewrite lookup_delete_ne, lookup_insert_eq by done.
        split; [done|]. rewrite Hgb in Hg. injection Hg as <-. set_solver.
      * rewrite lookup_delete_ne by done.
        destruct (decide (l0 = la)) as [->|Hna].
        -- exists (ga ∪ gb). rewrite lookup_insert_eq. split; [done|].
           rewrite Hga in Hg. injection Hg as <-. set_solver.
        -- exists g. by rewrite lookup_insert_ne.
    + intros (g & Hg & Hmem).
      destruct (decide (l = lb)) as [->|Hnb];
        [by rewrite lookup_delete_eq in Hg|].
      rewrite lookup_delete_ne in Hg by done.
      destruct (decide (l = la)) as [->|Hna].
      * rewrite lookup_insert_eq in Hg. injection Hg as <-.
        apply elem_of_union in Hmem as [Hmem|Hmem].
        -- assert (Leaders D !! k = Some la) as -> by (apply HL; eauto).
           cbn. by rewrite decide_False.
        -- assert (Leaders D !! k = Some lb) as -> by (apply HL; eauto).
           cbn. by rewrite decide_True.
      * rewrite lookup_insert_ne in Hg by done.
        assert (Leaders D !! k = Some l) as -> by (apply HL; eauto).
        cbn. by rewrite decide_False.
  - intros l g Hg.
    destruct (decide (l = lb)) as [->|Hnb];
      [by rewrite lookup_delete_eq in Hg|].
    rewrite lookup_delete_ne in Hg by done.
    destruct (decide (l = la)) as [->|Hna].
    + rewrite lookup_insert_eq in Hg. injection Hg as <-.
      apply elem_of_union. left. by apply HS.
    + rewrite lookup_insert_ne in Hg by done. by apply HS.
Qed.

(** A new key joins an existing group. *)
Lemma consistent_join D la b :
  consistent D -> is_Some (Groups D !! la) -> Leaders D !! b = None ->
  consistent
    (setLG D (<[b := la]> (Leaders D))
       (<[la := group (Groups D) la ∪ {[b]}]> (Groups D))).
Proof.
  intros HC [ga Hga] Hb. rewrite (group_lookup _ _ _ Hga).
  destruct HC as [HL HS]. split; cbn [Leaders Groups setLG].
  - intros k l. split.
    + intros Hk. destruct (decide (k = b)) as [->|Hkb].
      * rewrite lookup_insert_eq in Hk. injection Hk as <-.
        exists (ga ∪ {[b]}). rewrite lookup_insert_eq. split; [done|].
        set_solver.
      * rewrite lookup_insert_ne in Hk by done.
        apply HL in Hk as (g & Hg & Hmem).
        destruct (decide (l = la)) as [->|Hna].
        -- exists (ga ∪ {[b]}). rewrite lookup_insert_eq. split; [done|].
           rewrite Hga in Hg. injection Hg as <-. set_solver.
        -- exists g. by rewrite lookup_insert_ne.
    + intros (g & Hg & Hmem). destruct (decide (l = la)) as [->|Hna].
      * rewrite lookup_insert_eq in Hg. injection Hg as <-.
        destruct (decide (k = b)) as [->|Hkb];
          [by rewrite lookup_insert_eq|].
        rewrite lookup_insert_ne by done. apply HL. exists ga.
        split; [done|]. set_solver.
      * rewrite lookup_insert_ne in Hg by done.
        assert (Leaders D !! k = Some l) as Hk by (apply HL; eauto).
        destruct (decide (k = b)) as [->|Hkb]; [congruence|].
        by rewrite lookup_insert_ne.
  - intros l g Hg. destruct (decide (l = la)) as [->|Hna].
    + rewrite lookup_insert_eq in Hg. injection Hg as <-.
      apply elem_of_union. left. by apply HS.
    + rewrite lookup_insert_ne in Hg by done. by apply HS.
Qed.

(** Two new keys form a group. *)
Lemma consistent_fresh D a b :
  consistent D -> Leaders D !! a = None -> Leaders D !! b = None ->
  consistent
    (setLG D (<[b := a]> (<[a := a]> (Leaders D)))
       (<[a := {[a; b]}]> (Groups D))).
Proof.
  intros HC Ha Hb. pose proof (consistent_no_group D a HC Ha) as HGa.
  destruct HC as [HL HS]. split; cbn [Leaders Groups setLG].
  - intros k l. split.
    + intros Hk.
      destruct (decide (k = b)) as [->|Hkb];
        [rewrite lookup_insert_eq in Hk; injection Hk as <-;
         exists {[a; b]}; rewrite lookup_insert_eq; split; [done|set_solver]|].
      rewrite lookup_insert_ne in Hk by done.
      destruct (decide (k = a)) as [->|Hka];
        [rewrite lookup_insert_eq in Hk; injection Hk as <-;
         exists {[a; b]}; rewrite lookup_insert_eq; split; [done|set_solver]|].
      rewrite lookup_insert_ne in Hk by done.
      apply HL in Hk as (g & Hg & Hmem).
      exists g. rewrite lookup_insert_ne; [done|]. congruence.
    + intros (g & Hg & Hmem). destruct (decide (l = a)) as [->|Hna].
      * rewrite lookup_insert_eq in Hg. injection Hg as <-.
        destruct (decide (k = b)) as [->|Hkb];
          [by rewrite lookup_insert_eq|].
        rewrite lookup_insert_ne by done.
        assert (k = a) as -> by set_solver. by rewrite lookup_insert_eq.
      * rewrite lookup_insert_ne in Hg by done.
        assert (Leaders D !! k = Some l) as Hk by (apply HL; eauto).
        rewrite !lookup_insert_ne by congruence. done.
  - intros l g Hg. destruct (decide (l = a)) as [->|Hna].
    + rewrite lookup_insert_eq in Hg. injection Hg as <-. set_solver.
    + rewrite lookup_insert_ne in Hg by done. by apply HS.
Qed.

Lemma AddElements_consistent a b D :
  consistent D -> consistent (AddElements a b D).
Proof.
  intros HC. unfold AddElements.
  destruct (Leaders D !! a) as [la|] eqn:Ha;
    destruct (Leaders D !! b) as [lb|] eqn:Hb.
  - destruct (decide (la = lb)); [done|].
    apply consistent_merge; [done..| |].
    + destruct (consistent_group D a la HC Ha) as [-> _]. by eexists.
    + destruct (consistent_group D b lb HC Hb) as [-> _]. by eexists.
  - apply consistent_join; [done| |done].
    destruct (consistent_group D a la HC Ha) as [-> _]. by eexists.
  - apply consistent_join; [done| |done].
    destruct (consistent_group D b lb HC Hb) as [-> _]. by eexists.
  - by apply consistent_fresh.
Qed.

Lemma AddElements_unites a b D : sameGroup (AddElements a b D) a b.
Proof.
  unfold AddElements, sameGroup.
  destruct (Leaders D !! a) as [la|] eqn:Ha;
    destruct (Leaders D !! b) as [lb|] eqn:Hb.
  - destruct (decide (la = lb)) as [->|Hne]; [eauto|].
    exists la. cbn [Leaders setLG]. rewrite !lookup_replaceLeader, Ha, Hb.
    cbn. rewrite decide_False by done. by rewrite decide_True.
  - exists la. cbn [Leaders setLG]. rewrite lookup_insert_eq.
    rewrite lookup_insert_ne by congruence. done.
  - exists lb. cbn [Leaders setLG]. rewrite lookup_insert_eq.
    rewrite lookup_insert_ne by congruence. done.
  - exists a. cbn [Leaders setLG]. rewrite lookup_insert_eq.
    destruct (decide (a = b)) as [->|Hne]; [by rewrite lookup_insert_eq|].
    rewrite lookup_insert_ne by done. by rewrite lookup_insert_eq.
Qed.

Lemma AddElements_keeps a b D x y :
  sameGroup D x y -> sameGroup (AddElements a b D) x y.
Proof.
  intros (l & Hx & Hy). unfold AddElements, sameGroup.
  destruct (Leaders D !! a) as [la|] eqn:Ha;
    destruct (Leaders D !! b) as [lb|] eqn:Hb.
  - destruct (decide (la = lb)); [eauto|].
    cbn [Leaders setLG]. rewrite !lookup_replaceLeader, Hx, Hy. cbn. eauto.
  - exists l. cbn [Leaders setLG]. rewrite !lookup_insert_ne by congruence.
    done.
  - exists l. cbn [Leaders setLG]. rewrite !lookup_insert_ne by congruence.
    done.
  - exists l. cbn [Leaders setLG]. rewrite !lookup_insert_ne by congruence.
    done.
Qed.

Lemma AddElements_RealWild a b D :
  RealWildPtrsWithReasons (AddElements a b D) = RealWildPtrsWithReasons D.
Proof.
  unfold AddElements.
  destruct (Leaders D !! a); destruct (Leaders D !! b);
    try destruct (decide _); reflexivity.
Qed.

(** Making the directly WILD key [w] the leader of its group. *)
Lemma adjustLeader_consistent w D :
  consistent D -> is_Some (RealWildPtrsWithReasons D !! w) ->
  consistent (adjustLeader w D).
Proof.
  intros HC Hw. unfold adjustLeader.
  destruct (Leaders D !! w) as [Old|] eqn:HwL; [|done].
  destruct (RealWildPtrsWithReasons D !! Old) eqn:HOld; [done|].
  assert (w <> Old) as Hne.
  { intros ->. rewrite HOld in Hw. by destruct Hw. }
  destruct (consistent_group D w Old HC HwL) as [HgO HwO].
  set (gO := group (Groups D) Old) in *.
  assert (Groups D !! w = None) as HGw.
  { destruct (Groups D !! w) as [g|] eqn:Hg; [|done].
    rewrite (consistent_leader_self D w g HC Hg) in HwL. congruence. }
  assert (group (Groups D) w = ∅) as -> by (unfold group; by rewrite HGw).
  destruct HC as [HL HS]. split; cbn [Leaders Groups setLG].
  - intros k l. rewrite lookup_replaceLeader. split.
    + intros Hk. destruct (Leaders D !! k) as [l0|] eqn:Hl0; [|done].
      cbn in Hk. injection Hk as <-.
      apply HL in Hl0 as (g & Hg & Hmem).
      destruct (decide (l0 = Old)) as [->|HnO].
      * exists (∅ ∪ gO ∪ {[w]}).
        rewrite lookup_delete_ne, lookup_insert_eq by done.
        split; [done|]. rewrite HgO in Hg. injection Hg as <-. set_solver.
      * rewrite lookup_delete_ne by done.
        exists g. rewrite lookup_insert_ne; [done|]. congruence.
    + intros (g & Hg & Hmem).
      destruct (decide (l = Old)) as [->|HnO];
        [by rewrite lookup_delete_eq in Hg|].
      rewrite lookup_delete_ne in Hg by done.
      destruct (decide (l = w)) as [->|Hnw].
      * rewrite lookup_insert_eq in Hg. injection Hg as <-.
        assert (Leaders D !! k = Some Old) as ->.
        { destruct (decide (k = w)) as [->|]; [done|].
          apply HL. exists gO. split; [done|]. set_solver. }
        cbn. by rewrite decide_True.
      * rewrite lookup_insert_ne in Hg by done.
        assert (Leaders D !! k = Some l) as -> by (apply HL; eauto).
        cbn. by rewrite decide_False.
  - intros l g Hg.
    destruct (decide (l = Old)) as [->|HnO];
      [by rewrite lookup_delete_eq in Hg|].
    rewrite lookup_delete_ne in Hg by done.
    destruct (decide (l = w)) as [->|Hnw].
    + rewrite lookup_insert_eq in Hg. injection Hg as <-. set_solver.
    + rewrite lookup_insert_ne in Hg by done. by apply HS.
Qed.

Lemma adjustLeader_RealWild w D :
  RealWildPtrsWithReasons (adjustLeader w D) = RealWildPtrsWithReasons D.
Proof.
  unfold adjustLeader. destruct (Leaders D !! w); [|done].
  by destruct (RealWildPtrsWithReasons D !! _).
Qed.

Lemma adjustLeader_keeps w D x y :
  sameGroup D x y -> sameGroup (adjustLeader w D) x y.
Proof.
  intros (l & Hx & Hy). unfold adjustLeader, sameGroup.
  destruct (Leaders D !! w) as [Old|]; [|eauto].
  destruct (RealWildPtrsWithReasons D !! Old); [eauto|].
  cbn [Leaders setLG]. rewrite !lookup_replaceLeader, Hx, Hy. cbn. eauto.
Qed.

(** After the adjustment the leader of [w] is directly WILD. *)
Lemma adjustLeader_leader w D l :
  is_Some (RealWildPtrsWithReasons D !! w) ->
  Leaders (adjustLeader w D) !! w = Some l ->
  is_Some (RealWildPtrsWithReasons D !! l).
Proof.
  intros Hw. unfold adjustLeader.
  destruct (Leaders D !! w) as [Old|] eqn:HwL; [|by rewrite HwL].
  destruct (RealWildPtrsWithReasons D !! Old) eqn:HOld.
  - rewrite HwL. intros [= <-]. by rewrite HOld.
  - cbn [Leaders setLG]. rewrite lookup_replaceLeader, HwL. cbn.
    rewrite decide_True by done. by intros [= <-].
Qed.

(** A leader that is directly WILD is never replaced. *)
Lemma adjustLeader_wild_leader_stays w D k l :
  Leaders D !! k = Some l -> is_Some (RealWildPtrsWithReasons D !! l) ->
  Leaders (adjustLeader w D) !! k = Some l.
Proof.
  intros Hk Hl. unfold adjustLeader.
  destruct (Leaders D !! w) as [Old|] eqn:HwL; [|done].
  destruct (RealWildPtrsWithReasons D !! Old) eqn:HOld; [done|].
  cbn [Leaders setLG]. rewrite lookup_replaceLeader, Hk. cbn.
  rewrite decide_False; [done|]. intros ->. rewrite HOld in Hl.
  by destruct Hl.
Qed.

Lemma adjustLeader_dom w D k :
  is_Some (Leaders (adjustLeader w D) !! k) <-> is_Some (Leaders D !! k).
Proof.
  unfold adjustLeader.
  destruct (Leaders D !! w) as [Old|]; [|done].
  destruct (RealWildPtrsWithReasons D !! Old); [done|].
  cbn [Leaders setLG]. rewrite lookup_replaceLeader.
  by rewrite fmap_is_Some.
Qed.

Lemma adjustLeaders_dom ws D k :
  is_Some (Leaders (foldl (fun d k => adjustLeader k d) D ws) !! k)
  <-> is_Some (Leaders D !! k).
Proof.
  revert D. induction ws as [|v ws IH]; intros D; cbn [foldl]; [done|].
  rewrite IH. apply adjustLeader_dom.
Qed.

(** The second loop. *)
Lemma adjustLeaders_spec ws D :
  consistent D ->
  (forall w, w ∈ ws -> is_Some (RealWildPtrsWithReasons D !! w)) ->
  let D' := foldl (fun d k => adjustLeader k d) D ws in
  consistent D'
  /\ RealWildPtrsWithReasons D' = RealWildPtrsWithReasons D
  /\ (forall x y, sameGroup D x y -> sameGroup D' x y)
  /\ (forall k l, Leaders D !! k = Some l ->
                  is_Some (RealWildPtrsWithReasons D !! l) ->
                  Leaders D' !! k = Some l)
  /\ (forall w l, w ∈ ws -> Leaders D' !! w = Some l ->
                  is_Some (RealWildPtrsWithReasons D !! l)).
Proof.
  revert D. induction ws as [|w ws IH]; intros D HC Hws; cbn [foldl].
  - split; [done|]. split; [done|]. split; [done|]. split; [done|].
    intros w l Hw. by apply elem_of_nil in Hw.
  - assert (is_Some (RealWildPtrsWithReasons D !! w)) as Hw
      by apply Hws, list_elem_of_here.
    destruct (IH (adjustLeader w D)) as (HC' & HRW & Hsame & Hstay & Hlead).
    { by apply adjustLeader_consistent. }
    { intros w' Hw'. rewrite adjustLeader_RealWild.
      by apply Hws, list_elem_of_further. }
    rewrite adjustLeader_RealWild in HRW, Hstay, Hlead.
    split; [exact HC'|]. split; [exact HRW|]. split; [|split].
    + intros x y Hxy. by apply Hsame, adjustLeader_keeps.
    + intros k l Hk Hl. apply Hstay; [|done].
      by apply adjustLeader_wild_leader_stays.
    + intros w' l [->|Hw']%elem_of_cons Hl; [|by apply (Hlead w')].
      destruct (Leaders (adjustLeader w D) !! w) as [l0|] eqn:Hl0.
      * pose proof (adjustLeader_leader w D l0 Hw Hl0) as Hwild.
        rewrite (Hstay w l0 Hl0 Hwild) in Hl. by injection Hl as <-.
      * exfalso.
        assert (is_Some (Leaders (adjustLeader w D) !! w)) as [? ?];
          [|congruence].
        apply (adjustLeaders_dom ws). rewrite Hl. by eexists.
Qed.

End DisjointSetFacts.

(** ** The root-cause analysis *)

Section RootCauseFacts.

Implicit Types (D : DisjointSet) (W : gset nat).

(** The first loop, for one constraint. *)
Lemma recordConstraint_spec c D W D' W' :
  recordConstraint c (D, W) = Some (D', W') ->
  consistent D ->
  (forall k, k ∈ W <-> is_Some (RealWildPtrsWithReasons D !! k)) ->
  consistent D'
  /\ (forall k, k ∈ W' <-> is_Some (RealWildPtrsWithReasons D' !! k))
  /\ (forall k, k ∈ W'
                <-> k ∈ W \/ exists rsn PL,
                             c = CGeq (mkGeq (VarAtom k) getWild rsn PL))
  /\ (forall x y, sameGroup D x y -> sameGroup D' x y)
  /\ (forall a b rsn PL, c = CGeq (mkGeq (VarAtom a) (VarAtom b) rsn PL) ->
                         sameGroup D' a b).
Proof.
  intros Hrec HC HW. unfold recordConstraint in Hrec.
  destruct c as [[L R rsn PL]|p q]; cbn [getLHS getRHS] in Hrec.
  - destruct R as [r|[]]; destruct L as [l|cl]; try done;
      try (injection Hrec as <- <-;
           split; [done|]; split; [done|]; split;
           [intros k; split; [by left|intros [?|(? & ? & ?)]; [done|done]]|];
           split; [done|]; intros; done).
    + (* variable >= variable *)
      injection Hrec as <- <-.
      split; [by apply AddElements_consistent|].
      split; [intros k; by rewrite AddElements_RealWild|].
      split; [intros k; split; [by left|intros [?|(? & ? & ?)]; done]|].
      split; [intros x y; apply AddElements_keeps|].
      intros a b rsn' PL' [= -> ->]. apply AddElements_unites.
    + (* variable >= WILD *)
      injection Hrec as <- <-. cbn [RealWildPtrsWithReasons Leaders Groups].
      split; [exact HC|].
      split.
      { intros k. rewrite elem_of_union, elem_of_singleton, lookup_insert.
        destruct (decide (l = k)) as [->|Hne].
        - split; [by eexists|by left].
        - rewrite <- HW. split; [intros [?|?]; [congruence|done]|by right]. }
      split.
      { intros k. rewrite elem_of_union, elem_of_singleton. split.
        - intros [->|?]; [right; by exists rsn, PL|by left].
        - intros [?|(r' & P' & [= -> _ _])]; [by right|by left]. }
      split; [done|]. intros; done.
  - injection Hrec as <- <-.
    split; [done|]. split; [done|]. split;
      [intros k; split; [by left|intros [?|(? & ? & ?)]; done]|].
    split; [done|]. intros; done.
Qed.

(** The first loop. *)
Lemma recordConstraints_spec Cs D W D' W' :
  recordConstraints Cs (D, W) = Some (D', W') ->
  consistent D ->
  (forall k, k ∈ W <-> is_Some (RealWildPtrsWithReasons D !! k)) ->
  consistent D'
  /\ (forall k, k ∈ W' <-> is_Some (RealWildPtrsWithReasons D' !! k))
  /\ (forall k, k ∈ W'
                <-> k ∈ W \/ exists rsn PL,
                             CGeq (mkGeq (VarAtom k) getWild rsn PL) ∈ Cs)
  /\ (forall x y, sameGroup D x y -> sameGroup D' x y)
  /\ (forall a b rsn PL,
        CGeq (mkGeq (VarAtom a) (VarAtom b) rsn PL) ∈ Cs ->
        sameGroup D' a b).
Proof.
  revert D W. induction Cs as [|c Cs IH]; intros D W; cbn [recordConstraints].
  - intros [= <- <-] HC HW. split; [done|]. split; [done|]. split.
    + intros k. split; [by left|]. intros [?|(? & ? & H)]; [done|].
      by apply elem_of_nil in H.
    + split; [done|]. intros a b rsn PL H. by apply elem_of_nil in H.
  - destruct (recordConstraint c (D, W)) as [[D1 W1]|] eqn:Hc; [|done].
    intros Hrec HC HW.
    destruct (recordConstraint_spec _ _ _ _ _ Hc HC HW)
      as (HC1 & HW1 & Hchar1 & Hkeep1 & Hun1).
    destruct (IH _ _ Hrec HC1 HW1) as (HC' & HW' & Hchar & Hkeep & Hun).
    split; [done|]. split; [done|]. split; [|split].
    + intros k. rewrite Hchar, Hchar1. split.
      * intros [[?|(r & P & ->)]|(r & P & ?)]; [by left|right..].
        -- exists r, P. apply list_elem_of_here.
        -- exists r, P. by apply list_elem_of_further.
      * intros [?|(r & P & [<-|?]%elem_of_cons)].
        -- by left; left.
        -- left; right. by exists r, P.
        -- right. by exists r, P.
    + intros x y ?. by apply Hkeep, Hkeep1.
    + intros a b rsn PL [<-|?]%elem_of_cons.
      * by apply Hkeep, (Hun1 a b rsn PL).
      * by apply (Hun a b rsn PL).
Qed.

Lemma elem_of_wildGroups_fold (RW : gmap nat WildPointerInferenceInfo)
    (Gs : list (nat * gset nat)) (acc : gset nat) x :
  x ∈ foldl (fun acc (Gm : nat * gset nat) =>
               match RW !! Gm.1 with
               | Some _ => Gm.2 ∪ acc
               | None => acc
               end) acc Gs
  <-> x ∈ acc \/ exists l g, (l, g) ∈ Gs /\ is_Some (RW !! l) /\ x ∈ g.
Proof.
  revert acc. induction Gs as [|[l0 g0] Gs IH]; intros acc; cbn [foldl].
  - split; [by left|]. intros [?|(l & g & H & _)]; [done|].
    by apply elem_of_nil in H.
  - rewrite IH. cbn [fst snd]. split.
    + intros [Hacc|(l & g & Hlg & Hw & Hx)].
      * destruct (RW !! l0) eqn:E; [|by left].
        apply elem_of_union in Hacc as [?|?]; [|by left].
        right. exists l0, g0. split; [apply list_elem_of_here|].
        split; [by rewrite E|done].
      * right. exists l, g. split; [by apply list_elem_of_further|done].
    + intros [Hacc|(l & g & [[= -> ->]|Hlg]%elem_of_cons & Hw & Hx)].
      * left. destruct (RW !! l0); [|done].
        apply elem_of_union. by right.
      * left. destruct Hw as [? ->]. apply elem_of_union. by left.
      * right. by exists l, g.
Qed.

(** The third loop collects the groups whose leader is directly WILD. *)
Lemma elem_of_wildGroupMembers D x :
  x ∈ wildGroupMembers D
  <-> exists l g, Groups D !! l = Some g
                  /\ is_Some (RealWildPtrsWithReasons D !! l) /\ x ∈ g.
Proof.
  unfold wildGroupMembers. rewrite elem_of_wildGroups_fold. split.
  - intros [?|(l & g & Hlg & ?)]; [set_solver|].
    exists l, g. split; [by apply elem_of_map_to_list|done].
  - intros (l & g & Hlg & ?). right. exists l, g.
    split; [by apply elem_of_map_to_list|done].
Qed.

Lemma recordSources_keeps canWrite Vars D :
  Leaders (recordSources canWrite Vars D) = Leaders D
  /\ Groups (recordSources canWrite Vars D) = Groups D
  /\ RealWildPtrsWithReasons (recordSources canWrite Vars D)
     = RealWildPtrsWithReasons D
  /\ TotalNonDirectWildPointers (recordSources canWrite Vars D)
     = TotalNonDirectWildPointers D.
Proof.
  unfold recordSources. revert D.
  induction Vars as [|LS Vars IH]; intros D; cbn [foldl]; [done|].
  destruct (canWrite _); [|apply IH].
  match goal with |- context [foldl _ ?d Vars] =>
    destruct (IH d) as (-> & -> & -> & ->) end.
  done.
Qed.

End RootCauseFacts.

(** [computePointerDisjointSet] returns on every constraint system in
    which the left sides it reads are unknowns. *)
Lemma recordConstraints_total Cs st :
  forallb leftIsVar Cs = true -> is_Some (recordConstraints Cs st).
Proof.
  revert st. induction Cs as [|C Cs IH]; intros st; cbn [forallb recordConstraints];
    [by eexists|].
  intros [HC HCs]%andb_true_iff.
  assert (HS : is_Some (recordConstraint C st)).
  { destruct st as [D W]. destruct C as [[L R rsn PL]|]; [|by eexists].
    cbn [recordConstraint leftIsVar getRHS getLHS] in *.
    destruct R as [r|[]], L as [l|c]; try discriminate HC; by eexists. }
  destruct HS as [st' ->]. by apply IH.
Qed.

Lemma computePointerDisjointSet_total canWrite Info :
  forallb leftIsVar (getConstraints (CS Info)) = true ->
  is_Some (computePointerDisjointSet canWrite Info).
Proof.
  intros HC. unfold computePointerDisjointSet.
  destruct (recordConstraints_total _ (Clear, ∅) HC) as [[D1 W] ->].
  by eexists.
Qed.

(** What a returned [computePointerDisjointSet] has computed. *)
Lemma computePointerDisjointSet_sound
    (canWrite : string -> bool) (Info : ProgramInfo) (D : DisjointSet) :
  computePointerDisjointSet canWrite Info = Some D ->
  let directly (k : nat) : Prop :=
    exists rsn PL,
      CGeq (mkGeq (VarAtom k) getWild rsn PL) ∈ getConstraints (CS Info) in
  (forall a b rsn PL,
     CGeq (mkGeq (VarAtom a) (VarAtom b) rsn PL) ∈ getConstraints (CS Info) ->
     exists l, Leaders D !! a = Some l /\ Leaders D !! b = Some l)
  /\ (forall k l, Leaders D !! k = Some l
                  <-> exists g, Groups D !! l = Some g /\ k ∈ g)
  /\ (forall k, is_Some (RealWildPtrsWithReasons D !! k) <-> directly k)
  /\ (forall l g w, Groups D !! l = Some g -> w ∈ g -> directly w ->
                    l ∈ g /\ directly l)
  /\ (forall x, x ∈ TotalNonDirectWildPointers D
                <-> (exists l g w, Groups D !! l = Some g /\ x ∈ g
                                   /\ w ∈ g /\ directly w)
                    /\ ~ directly x).
Proof.
  intros Hrun directly. unfold computePointerDisjointSet in Hrun.
  destruct (recordConstraints _ _) as [[D1 W]|] eqn:Hrec; [|done].
  destruct (recordConstraints_spec _ _ _ _ _ Hrec consistent_Clear)
    as (HC1 & HW1 & Hchar & _ & Hun).
  { intros k. cbn. rewrite lookup_empty. split; [set_solver|].
    by intros [? ?]. }
  assert (Hdir : forall k, k ∈ W <-> directly k).
  { intros k. rewrite Hchar. split; [intros [?|?]; [set_solver|done]|].
    by right. }
  set (ws := ascending (dom (RealWildPtrsWithReasons D1))) in Hrun.
  assert (Hws : forall w, w ∈ ws
                          <-> is_Some (RealWildPtrsWithReasons D1 !! w)).
  { intros w. unfold ws, ascending.
    rewrite (merge_sort_Permutation Nat.le), elem_of_elements.
    apply elem_of_dom. }
  destruct (adjustLeaders_spec ws D1 HC1) as (HC2 & HRW & Hsame & _ & Hlead).
  { intros w. apply Hws. }
  set (D2 := foldl (fun d k => adjustLeader k d) D1 ws) in *.
  match type of Hrun with context [recordSources canWrite ?Vs ?D3] =>
    destruct (recordSources_keeps canWrite Vs D3) as (HL4 & HG4 & HR4 & HT4)
  end.
  injection Hrun as <-. cbn [Leaders Groups RealWildPtrsWithReasons
                              TotalNonDirectWildPointers] in *.
  rewrite HL4, HG4, HR4, HT4. clear HL4 HG4 HR4 HT4.
  assert (HRWdir : forall k, is_Some (RealWildPtrsWithReasons D2 !! k)
                             <-> directly k).
  { intros k. by rewrite HRW, <- HW1, Hdir. }
  assert (Hleader : forall l g w, Groups D2 !! l = Some g -> w ∈ g ->
                                  directly w -> l ∈ g /\ directly l).
  { intros l g w Hg Hw Hdw. destruct HC2 as [HL HS].
    split; [by apply HS|].
    assert (Leaders D2 !! w = Some l) as Hwl by (apply HL; eauto).
    apply Hdir, HW1. apply (Hlead w l); [|done].
    apply Hws, HW1, Hdir, Hdw. }
  split; [|split; [|split; [|split]]].
  - intros a b rsn PL Hab. apply Hsame. by apply (Hun a b rsn PL).
  - apply HC2.
  - exact HRWdir.
  - exact Hleader.
  - intros x. rewrite elem_of_difference, elem_of_wildGroupMembers, Hdir.
    split.
    + intros [(l & g & Hg & Hl & Hx) Hnd]. split; [|done].
      exists l, g, l. destruct HC2 as [HL HS].
      split; [done|]. split; [done|]. split; [by apply HS|].
      by apply HRWdir.
    + intros [(l & g & w & Hg & Hx & Hw & Hdw) Hnd]. split; [|done].
      exists l, g. split; [done|]. split; [|done].
      apply HRWdir. by apply (Hleader l g w).
Qed.

(** ** The resolver: memoised results *)

Section Memoised.

Variable env : ResolverEnv.

Lemma hasPersistentConstraints_store E R s :
  hasPersistentConstraints E
    (mkRS (rCS s) (<[getExprId E := R]> (ExprConstraintVars s))) = true.
Proof.
  unfold hasPersistentConstraints. cbn. apply bool_decide_eq_true.
  rewrite lookup_insert_eq. by eexists.
Qed.

(** A result returned by the frame is returned again, with no further
    change of the state, whatever the body. *)
Lemma cachedAt_again E body body' s r s' :
  cachedAt E body s = Some (r, s') ->
  cachedAt E body' s' = Some (r, s').
Proof.
  unfold cachedAt, bind, getState, getPersistentConstraints,
    storePersistentConstraints, ret.
  destruct (hasPersistentConstraints E s) eqn:Hhas.
  - destruct (ExprConstraintVars s !! getExprId E) as [r0|] eqn:Hr0; [|done].
    intros [= <- <-]. by rewrite Hhas, Hr0.
  - destruct (body s) as [[Ret sb]|]; [|done].
    intros [= <- <-].
    rewrite hasPersistentConstraints_store. cbn.
    by rewrite lookup_insert_eq.
Qed.

(** An expression whose result is stored resolves a second time to the
    stored result, without any change of the state. *)
Lemma resolveExpr_again TypE E s r s' :
  isMemoised E = true ->
  resolveExpr env TypE E s = Some (r, s') ->
  resolveExpr env TypE E s' = Some (r, s').
Proof.
  induction E; cbn [isMemoised]; intros Hm; try discriminate Hm;
    try (destruct Result as [[?|]|]; try discriminate Hm);
    cbn [resolveExpr];
    try (by apply IHE);
    (destruct (isRecordType TypE || isArithmeticType TypE);
     [unfold ret; by intros [= <- <-]|]);
    (destruct (negb (isExplicitCastExpr _) && isNULLExpression env _);
     [unfold ret; by intros [= <- <-]|]);
    apply cachedAt_again.
Qed.

End Memoised.

(** ** Fresh constraint variables *)

Section Fresh.

(** Induction on a type that also covers the parameter types of a function
    type. *)
Lemma QualType_nested_ind (P : QualType -> Prop) :
  (forall K, P (BuiltinType K)) ->
  (forall N, P (EnumType N)) ->
  (forall N, P (RecordType N)) ->
  (forall K T, P T -> P (PointerType K T)) ->
  (forall T, P T -> P (ArrayType T)) ->
  (forall R Ps b, P R -> Forall P Ps -> P (FunctionType R Ps b)) ->
  forall T, P T.
Proof.
  intros HB HE HR HP HA HF.
  fix IH 1. intros [K|N|N|K T|T|R Ps b].
  - apply HB.
  - apply HE.
  - apply HR.
  - apply HP, IH.
  - apply HA, IH.
  - apply HF; [apply IH|].
    induction Ps as [|T Ps IHPs]; constructor; [apply IH|exact IHPs].
Qed.

Lemma atomsOf_pushAtom A upd C :
  isPV C = true -> atomsOf (pushAtom A upd C) = A :: atomsOf C.
Proof. by destruct C. Qed.

Lemma getCvars_pushAtom A upd C :
  isPV C = true -> getCvars (pushAtom A upd C) = A :: getCvars C.
Proof. by destruct C. Qed.

Lemma freshFrom_nil cs : freshFrom cs cs [].
Proof. split; [done|]. split; [done|]. intros k H. by apply elem_of_nil in H. Qed.

Lemma freshFrom_app cs cs1 cs2 As Bs :
  freshFrom cs cs1 As -> freshFrom cs1 cs2 Bs -> freshFrom cs cs2 (As ++ Bs).
Proof.
  intros (H1 & H2 & H3) (H4 & H5 & H6). split; [congruence|].
  split; [lia|]. intros k [Hk|Hk]%elem_of_app.
  - specialize (H3 k Hk). lia.
  - specialize (H6 k Hk). lia.
Qed.

Lemma freshFrom_levelAtom K cs :
  freshFrom cs (levelAtom K cs).2 [(levelAtom K cs).1].
Proof.
  unfold freshFrom, levelAtom, getFreshVar.
  destruct K; cbn [fst snd freshKey getConstraints];
    (split; [done|]); (split; [lia|]);
    intros k Hk%list_elem_of_singleton; try discriminate.
  injection Hk as ->. lia.
Qed.

Lemma freshFrom_getFreshVar cs :
  freshFrom cs (getFreshVar cs).2 [(getFreshVar cs).1].
Proof. apply (freshFrom_levelAtom CPK_Unchecked). Qed.

Lemma newPVConstraint_fresh T :
  forall N G cs,
    freshFrom cs (newPVConstraint T N G cs).2
      (atomsOf (newPVConstraint T N G cs).1).
Proof.
  induction T as [K|N0|N0|K T IH|T IH|R Ps b IHR IHPs]
    using QualType_nested_ind; intros N G cs; cbn [newPVConstraint];
    try apply freshFrom_nil.
  - pose proof (freshFrom_levelAtom K cs) as HA.
    destruct (levelAtom K cs) as [A cs1]. cbn [fst snd] in HA.
    pose proof (IH N G cs1) as HC.
    pose proof (newPVConstraint_isPV T N G cs1) as HPV.
    destruct (newPVConstraint T N G cs1) as [C cs2]. cbn [fst snd] in *.
    rewrite atomsOf_pushAtom by done.
    apply (freshFrom_app cs cs1 cs2 [A] (atomsOf C)); done.
  - pose proof (freshFrom_getFreshVar cs) as HA.
    destruct (getFreshVar cs) as [A cs1]. cbn [fst snd] in HA.
    pose proof (IH N G cs1) as HC.
    pose proof (newPVConstraint_isPV T N G cs1) as HPV.
    destruct (newPVConstraint T N G cs1) as [C cs2]. cbn [fst snd] in *.
    rewrite atomsOf_pushAtom by done.
    apply (freshFrom_app cs cs1 cs2 [A] (atomsOf C)); done.
  - pose proof (IHR "" false cs) as HR.
    destruct (newPVConstraint R "" false cs) as [RV cs1]. cbn [fst snd] in HR.
    match goal with |- context [?f Ps cs1] =>
      assert (Hgo : freshFrom cs1 (f Ps cs1).2
                      (flat_map (flat_map atomsOf) (f Ps cs1).1));
      [|destruct (f Ps cs1) as [PVs cs2]] end.
    { clear HR. revert cs1. induction IHPs as [|T Ps HT _ IHl]; intros cs1.
      - apply freshFrom_nil.
      - pose proof (HT "" false cs1) as HV.
        destruct (newPVConstraint T "" false cs1) as [V c1].
        cbn [fst snd] in HV. specialize (IHl c1).
        match goal with |- context [?f Ps c1] =>
          change (f Ps c1) with (f Ps c1) in IHl;
          destruct (f Ps c1) as [Vs c2] end.
        cbn [fst snd flat_map] in *. rewrite app_nil_r.
        by apply (freshFrom_app cs1 c1 c2). }
    cbn [fst snd atomsOf flat_map] in *. rewrite app_nil_l, app_nil_r.
    by apply (freshFrom_app cs cs1 cs2).
Qed.

Lemma getCvars_atomsOf C A : A ∈ getCvars C -> A ∈ atomsOf C.
Proof.
  destruct C; cbn; [|by intros H%elem_of_nil].
  intros H. apply elem_of_app. by left.
Qed.

(** The variable built for a pointer to [T]: its outermost atom is the
    first unknown taken from the counter. *)
Lemma newPVConstraint_pointer_outer T N G cs :
  exists rest,
    getCvars (newPVConstraint (getPointerType T) N G cs).1
    = VarAtom (freshKey cs) :: rest.
Proof.
  unfold getPointerType. cbn [newPVConstraint levelAtom getFreshVar].
  pose proof (newPVConstraint_isPV T N G
                (mkCS (getConstraints cs) (S (freshKey cs)))) as HPV.
  destruct (newPVConstraint T N G _) as [C cs2]. cbn [fst snd] in *.
  rewrite getCvars_pushAtom by done. by eexists.
Qed.

Lemma newPVConstraint_pointer_nonempty T N G cs :
  isPointerType T = true -> getCvars (newPVConstraint T N G cs).1 <> [].
Proof.
  destruct T as [| | |K P| |]; try discriminate. intros _.
  cbn [newPVConstraint].
  destruct (levelAtom K cs) as [A cs1].
  pose proof (newPVConstraint_isPV P N G cs1) as HPV.
  destruct (newPVConstraint P N G cs1) as [C cs2]. cbn [fst snd] in *.
  by rewrite getCvars_pushAtom.
Qed.

End Fresh.

(** ** C4 *)

Section Casts.

Variable env : ResolverEnv.

Lemma isPointerType_not_scalar T :
  isPointerType T = true -> isRecordType T || isArithmeticType T = false.
Proof. by destruct T. Qed.

Lemma foldl_constrainToWild_log Cs rsn PL cs :
  getConstraints (foldl (fun c A => constrainToWild A rsn PL c) cs Cs)
  = getConstraints cs
    ++ flat_map (fun C => map (fun A => CGeq (mkGeq A getWild rsn PL))
                            (atomsOf C)) Cs.
Proof.
  revert cs. induction Cs as [|C Cs IH]; intros cs; cbn [foldl flat_map].
  - by rewrite app_nil_r.
  - rewrite IH, constrainToWild_log. by rewrite <- app_assoc.
Qed.

Lemma foldl_constrainToWild_fresh Cs rsn PL cs :
  freshKey (foldl (fun c A => constrainToWild A rsn PL c) cs Cs) = freshKey cs.
Proof.
  revert cs. induction Cs as [|C Cs IH]; intros cs; cbn [foldl]; [done|].
  by rewrite IH.
Qed.

(** [getInvalidCastPVCons] on a node without persistent constraints. *)
Lemma getInvalidCastPVCons_new E s :
  hasPersistentConstraints E s = false ->
  let P := (newPVConstraint (getType E) "Invalid cast" false (rCS s)).1 in
  let cs1 := (newPVConstraint (getType E) "Invalid cast" false (rCS s)).2 in
  let Rsn := "Cast from " +:+ getAsString (castSourceType E) +:+ " to "
             +:+ getAsString (getType E) in
  getInvalidCastPVCons E s
  = Some ([P],
          mkRS (constrainToWild P Rsn (Some (ePSL (getInfo E))) cs1)
            (<[getExprId E := ([P], [])]> (ExprConstraintVars s))).
Proof.
  intros Hhas. unfold getInvalidCastPVCons, bind, getState.
  rewrite Hhas. unfold withCS.
  destruct (newPVConstraint (getType E) "Invalid cast" false (rCS s))
    as [P cs1]. reflexivity.
Qed.

End Casts.

(** ** The resolver: unsafe casts *)

Section UnsafeCasts.

Variable env : ResolverEnv.

(** An explicit cast that is not safe: only [getInvalidCastPVCons] runs. *)
Lemma resolveExpr_explicit_unsafe TypE H Sub s :
  let E := CStyleCastExpr H Sub in
  isPointerType TypE = true ->
  isCastSafe env TypE (getType Sub) = false ->
  QualType_eqb (getType E) TypE = true ->
  isNULLExpression env E = false ->
  hasPersistentConstraints E s = false ->
  let P := (newPVConstraint (getType E) "Invalid cast" false (rCS s)).1 in
  let cs1 := (newPVConstraint (getType E) "Invalid cast" false (rCS s)).2 in
  let Rsn := "Cast from " +:+ getAsString (getType Sub) +:+ " to "
             +:+ getAsString (getType E) in
  resolveExpr env TypE E s
  = Some (([P], []),
          mkRS (constrainToWild P Rsn (Some (ePSL H)) cs1)
            (<[eId H := ([P], [])]>
               (<[eId H := ([P], [])]> (ExprConstraintVars s)))).
Proof.
  intros E Hptr Hcast Hty Hnull Hhas P cs1 Rsn.
  pose proof (getInvalidCastPVCons_new E s Hhas) as HI.
  subst P cs1 Rsn. subst E.
  cbn [resolveExpr]. rewrite (isPointerType_not_scalar _ Hptr).
  cbn [isExplicitCastExpr negb andb].
  unfold cachedAt, bind at 1, getState. rewrite Hhas.
  rewrite Hty, Hnull, Hptr, Hcast. cbn [negb andb].
  unfold bind. rewrite HI. reflexivity.
Qed.

(** An implicit conversion between pointers that is not safe: the
    variables of the operand are constrained, then
    [getInvalidCastPVCons] runs. *)
Lemma resolveExpr_implicit_unsafe TypE H Sub s CVs s1 :
  let E := ImplicitCastExpr H Sub in
  isPointerType TypE = true ->
  isCastSafe env TypE (getType Sub) = false ->
  isFunctionType (getType Sub) || isArrayType (getType Sub)
    || isVoidPointerType (getType Sub) = false ->
  isNULLExpression env E = false ->
  resolveExpr env (getType Sub) Sub s = Some (CVs, s1) ->
  hasPersistentConstraints E s1 = false ->
  let Rsn1 := "Cast from " +:+ getAsString (getType Sub) +:+ " to "
              +:+ getAsString TypE in
  let cs1 := foldl (fun c A => constrainToWild A Rsn1 (Some (ePSL H)) c)
               (rCS s1) CVs.1 in
  let P := (newPVConstraint (getType E) "Invalid cast" false cs1).1 in
  let cs2 := (newPVConstraint (getType E) "Invalid cast" false cs1).2 in
  let Rsn2 := "Cast from " +:+ getAsString (getType Sub) +:+ " to "
              +:+ getAsString (getType E) in
  resolveExpr env TypE E s
  = Some (([P], []),
          mkRS (constrainToWild P Rsn2 (Some (ePSL H)) cs2)
            (<[eId H := ([P], [])]> (ExprConstraintVars s1))).
Proof.
  intros E Hptr Hcast Hsub Hnull Hres Hhas Rsn1 cs1 P cs2 Rsn2.
  subst P cs2 Rsn2. subst E.
  cbn [resolveExpr]. rewrite (isPointerType_not_scalar _ Hptr).
  cbn [isExplicitCastExpr negb andb]. rewrite Hnull.
  unfold bind at 1. rewrite Hres.
  rewrite Hptr, Hsub, Hcast. cbn [negb andb].
  unfold bind at 1. unfold constraintAllCVarsToWild, modifyCS.
  cbn [option_map getInfo].
  fold Rsn1. fold cs1.
  set (s2 := mkRS cs1 (ExprConstraintVars s1)).
  assert (hasPersistentConstraints (ImplicitCastExpr H Sub) s2 = false)
    as Hhas2 by exact Hhas.
  pose proof (getInvalidCastPVCons_new (ImplicitCastExpr H Sub) s2 Hhas2)
    as HI.
  unfold bind. rewrite HI. reflexivity.
Qed.

End UnsafeCasts.

(** C4.  Resolving, for the first time, a cast to a pointer type [TypE]
    whose operand type is not a safe source ([isCastSafe] fails), on a
    cast node that is not a null-pointer expression.

    Explicit cast: the resolver succeeds and returns exactly one
    variable [P], newly built for the cast's type; the constraints it adds
    are exactly [P]'s atoms [>= WILD], the unknowns among [P]'s atoms are
    keys that did not exist before the call (so no constraint is added on
    any atom of a variable that existed before, the operand's included),
    and no other expression gets persistent constraints: the operand is
    not even resolved.

    Implicit conversion (operand not of function, array or [void *] type,
    and resolving to [CVs] in state [s1]): the resolver succeeds, every
    atom of every variable of the operand gets a constraint [>= WILD]
    with the reason "Cast from .. to ..", and the result is exactly one
    variable [P] built after that from fresh keys, whose atoms get
    [>= WILD] in turn; nothing else is added. *)
Theorem unsafe_cast_constraints (env : ResolverEnv) (TypE : QualType)
    (H : ExprInfo) (Sub : Expr) (s : ResolverState) :
  isPointerType TypE = true ->
  isCastSafe env TypE (getType Sub) = false ->
  (let E := CStyleCastExpr H Sub in
   QualType_eqb (getType E) TypE = true ->
   isNULLExpression env E = false ->
   hasPersistentConstraints E s = false ->
   exists P s',
     resolveExpr env TypE E s = Some (([P], []), s')
     /\ getCvars P <> []
     /\ (forall k, VarAtom k ∈ atomsOf P ->
           freshKey (rCS s) <= k < freshKey (rCS s'))
     /\ getConstraints (rCS s')
        = getConstraints (rCS s)
          ++ map (fun A => CGeq (createGeq A getWild
                    ("Cast from " +:+ getAsString (getType Sub) +:+ " to "
                       +:+ getAsString (getType E))
                    (Some (ePSL H)))) (atomsOf P)
     /\ (forall i, i <> getExprId E ->
           ExprConstraintVars s' !! i = ExprConstraintVars s !! i))
  /\ (let E := ImplicitCastExpr H Sub in
      forall CVs s1,
      isFunctionType (getType Sub) || isArrayType (getType Sub)
        || isVoidPointerType (getType Sub) = false ->
      isNULLExpression env E = false ->
      resolveExpr env (getType Sub) Sub s = Some (CVs, s1) ->
      hasPersistentConstraints E s1 = false ->
      exists P s',
        resolveExpr env TypE E s = Some (([P], []), s')
        /\ (forall k, VarAtom k ∈ atomsOf P ->
              freshKey (rCS s1) <= k < freshKey (rCS s'))
        /\ getConstraints (rCS s')
           = getConstraints (rCS s1)
             ++ flat_map (fun C =>
                  map (fun A => CGeq (createGeq A getWild
                         ("Cast from " +:+ getAsString (getType Sub)
                            +:+ " to " +:+ getAsString TypE)
                         (Some (ePSL H)))) (atomsOf C)) CVs.1
             ++ map (fun A => CGeq (createGeq A getWild
                       ("Cast from " +:+ getAsString (getType Sub)
                          +:+ " to " +:+ getAsString (getType E))
                       (Some (ePSL H)))) (atomsOf P)
        /\ (forall C A, C ∈ CVs.1 -> A ∈ atomsOf C ->
              CGeq (createGeq A getWild
                      ("Cast from " +:+ getAsString (getType Sub)
                         +:+ " to " +:+ getAsString TypE)
                      (Some (ePSL H))) ∈ getConstraints (rCS s'))).
Proof.
  intros Hptr Hcast. split.
  - intros E Hty Hnull Hhas.
    pose proof (resolveExpr_explicit_unsafe env TypE H Sub s
                  Hptr Hcast Hty Hnull Hhas) as HR.
    cbv zeta in HR. fold E in HR.
    pose proof (newPVConstraint_fresh (getType E) "Invalid cast" false
                  (rCS s)) as (Hlog & Hle & Hk).
    assert (isPointerType (getType E) = true) as HptrE.
    { clear -Hty Hptr. destruct (getType E), TypE; done. }
    eexists _, _. split; [exact HR|].
    cbn [rCS ExprConstraintVars]. repeat split.
    + by apply newPVConstraint_pointer_nonempty.
    + by apply Hk.
    + rewrite constrainToWild_fresh. by apply Hk.
    + rewrite constrainToWild_log, Hlog. reflexivity.
    + intros i Hi. cbn [getExprId getInfo E] in Hi.
      by rewrite !lookup_insert_ne.
  - intros E CVs s1 Hsub Hnull Hres Hhas.
    pose proof (resolveExpr_implicit_unsafe env TypE H Sub s CVs s1
                  Hptr Hcast Hsub Hnull Hres Hhas) as HR.
    cbv zeta in HR. fold E in HR.
    match type of HR with
    | context [newPVConstraint ?T ?N ?G ?c] =>
        pose proof (newPVConstraint_fresh T N G c) as (Hlog & Hle & Hk);
        set (cs1 := c) in *
    end.
    assert (getConstraints
              (constrainToWild
                 (newPVConstraint (getType E) "Invalid cast" false cs1).1
                 ("Cast from " +:+ getAsString (getType Sub) +:+ " to "
                    +:+ getAsString (getType E)) (Some (ePSL H))
                 (newPVConstraint (getType E) "Invalid cast" false cs1).2)
            = getConstraints (rCS s1)
              ++ flat_map (fun C =>
                   map (fun A => CGeq (createGeq A getWild
                          ("Cast from " +:+ getAsString (getType Sub)
                             +:+ " to " +:+ getAsString TypE)
                          (Some (ePSL H)))) (atomsOf C)) CVs.1
              ++ map (fun A => CGeq (createGeq A getWild
                        ("Cast from " +:+ getAsString (getType Sub)
                           +:+ " to " +:+ getAsString (getType E))
                        (Some (ePSL H))))
                   (atomsOf (newPVConstraint (getType E) "Invalid cast"
                               false cs1).1)) as Hfull.
    { rewrite constrainToWild_log, Hlog. unfold cs1.
      rewrite foldl_constrainToWild_log. by rewrite <- app_assoc. }
    assert (freshKey cs1 = freshKey (rCS s1)) as Hfk
      by apply foldl_constrainToWild_fresh.
    eexists _, _. split; [exact HR|].
    cbn [rCS ExprConstraintVars]. repeat split.
    + rewrite <- Hfk. by apply Hk.
    + rewrite constrainToWild_fresh. by apply Hk.
    + exact Hfull.
    + intros C A HC HA. rewrite Hfull.
      apply elem_of_app. right. apply elem_of_app. left.
      apply list_elem_of_In, in_flat_map. exists C. split.
      * by apply list_elem_of_In.
      * apply list_elem_of_In, list_elem_of_fmap. by exists A.
Qed.

(** The conversions of [q], an [int *], to [char *]: [(char * ) q] written
    as a cast, and the same conversion left implicit. *)
Lemma unsafe_cast_constraints_witness :
  (exists P s',
     getExprConstraintVars Examples.castEnv Examples.explicitCast
       Examples.castState = Some (([P], []), s')
     /\ getCvars P <> []
     /\ getConstraints (rCS s')
        = map (fun A => CGeq (createGeq A getWild "Cast from int * to char *"
                                (Some ("t.c", 7, 12)))) (atomsOf P))
  /\ (exists P s',
        getExprConstraintVars Examples.castEnv Examples.implicitCast
          Examples.castState = Some (([P], []), s')
        /\ CGeq (createGeq (VarAtom 0) getWild "Cast from int * to char *"
                   (Some ("t.c", 8, 12))) ∈ getConstraints (rCS s')).
Proof.
  split.
  - destruct (unsafe_cast_constraints Examples.castEnv Examples.charPtr
                (mkExprInfo 21 Examples.charPtr ("t.c", 7, 12) true)
                Examples.qRef Examples.castState)
      as [HE _]; [vm_compute; reflexivity | vm_compute; reflexivity |].
    destruct HE as (P & s' & HR & Hne & _ & Hlog & _);
      [vm_compute; reflexivity | vm_compute; reflexivity
      | vm_compute; reflexivity |].
    exists P, s'. split; [exact HR|]. split; [exact Hne|]. exact Hlog.
  - destruct (unsafe_cast_constraints Examples.castEnv Examples.charPtr
                (mkExprInfo 22 Examples.charPtr ("t.c", 8, 12) true)
                Examples.qRef Examples.castState)
      as [_ HI]; [vm_compute; reflexivity | vm_compute; reflexivity |].
    destruct (HI ([Examples.qVar], []) Examples.castState)
      as (P & s' & HR & _ & _ & Hin);
      [vm_compute; reflexivity | vm_compute; reflexivity
      | vm_compute; reflexivity | vm_compute; reflexivity |].
    exists P, s'. split; [exact HR|].
    apply (Hin Examples.qVar (VarAtom 0)); vm_compute; repeat constructor.
Defined.

(** ** The resolver: calls of [calloc] *)

Section Calloc.

Variable env : ResolverEnv.

Lemma isFunctionAllocator_calloc : isFunctionAllocator env "calloc" = true.
Proof.
  unfold isFunctionAllocator.
  by destruct (inList "calloc" (AllocatorFunctions env)).
Qed.

Lemma copyAtoms_fresh vs cs :
  freshFrom cs (copyAtoms vs cs).2 (copyAtoms vs cs).1.
Proof.
  revert cs. induction vs as [|[k|c] vs IH]; intros cs; cbn [copyAtoms].
  - apply freshFrom_nil.
  - pose proof (freshFrom_getFreshVar cs) as HF.
    destruct (getFreshVar cs) as [A cs1]. specialize (IH cs1).
    destruct (copyAtoms vs cs1) as [As cs2]. cbn [fst snd] in *.
    apply (freshFrom_app cs cs1 cs2 [A] As HF IH).
  - specialize (IH cs). destruct (copyAtoms vs cs) as [As cs1].
    cbn [fst snd] in *. destruct IH as (H1 & H2 & H3).
    split; [done|]. split; [done|].
    intros k [Hk|Hk]%elem_of_cons; [discriminate|]. by apply H3.
Qed.

Lemma getCopy_fresh C cs :
  freshFrom cs (getCopy C cs).2 (getCvars (getCopy C cs).1).
Proof.
  destruct C as [vs fv i|]; cbn [getCopy].
  - pose proof (copyAtoms_fresh vs cs) as HF.
    by destruct (copyAtoms vs cs) as [vs' cs'].
  - apply freshFrom_nil.
Qed.

Lemma getCvars_setBoundsKey C K : getCvars (setBoundsKey C K) = getCvars C.
Proof. by destruct C. Qed.

Lemma freshFrom_sub cs cs' As Bs :
  (forall A, A ∈ Bs -> A ∈ As) -> freshFrom cs cs' As -> freshFrom cs cs' Bs.
Proof.
  intros Hsub (H1 & H2 & H3). split; [done|]. split; [done|].
  intros k Hk. apply H3. by apply Hsub.
Qed.

(** The copy made of one return variable of a call that is not a
    [realloc]: a variable whose own unknowns are new, related to the
    return variable level by level. *)
Lemma copyReturnVar_noflow CE CV s :
  exists NewCV cs',
    copyReturnVar env CE [] CV s
    = Some (NewCV,
            mkRS (constrainConsVarGeq1 NewCV CV None Safe_to_Wild cs')
              (ExprConstraintVars s))
    /\ freshFrom (rCS s) cs' (getCvars NewCV).
Proof.
  unfold copyReturnVar.
  set (wrap := fun NewCV0 : ConstraintVariable =>
    match getBoundsKey NewCV0 with
    | Some K =>
        setBoundsKey NewCV0 (getContextSensitiveBoundsKey env (eId CE) K)
    | None => NewCV0
    end).
  assert (Hwrap : forall C, getCvars (wrap C) = getCvars C).
  { intros C. unfold wrap. destruct (getBoundsKey C); [|done].
    apply getCvars_setBoundsKey. }
  destruct (isPV CV && getIsOriginallyChecked CV).
  - pose proof (newPVConstraint_fresh (eType CE) (getName CV)
                  (getIsGeneric CV) (rCS s)) as HF.
    unfold bind, withCS, ret, modifyCS.
    destruct (newPVConstraint (eType CE) (getName CV) (getIsGeneric CV)
                (rCS s)) as [N cs'].
    cbn [fst snd rCS ExprConstraintVars] in *.
    eexists _, cs'. split; [reflexivity|].
    fold (wrap (match getBoundsKey CV with
                | Some K => setBoundsKey N K | None => N end)).
    rewrite Hwrap.
    apply (freshFrom_sub _ _ (atomsOf N)); [|exact HF].
    intros A HA. apply getCvars_atomsOf.
    destruct (getBoundsKey CV); [by rewrite getCvars_setBoundsKey in HA|done].
  - pose proof (getCopy_fresh CV (rCS s)) as HF.
    unfold bind, withCS, ret, modifyCS.
    destruct (getCopy CV (rCS s)) as [N cs'].
    cbn [fst snd rCS ExprConstraintVars] in *.
    eexists _, cs'. split; [reflexivity|].
    fold (wrap N). by rewrite Hwrap.
Qed.

Lemma analyzeAllocExpr_calloc Args Arg0 Arg1 :
  Args !! 0 = Some Arg0 -> Args !! 1 = Some Arg1 ->
  analyzeAllocExpr env Args "calloc"
  = match getSizeOfArg Arg1 with
    | None => Some None
    | Some ArgTy =>
        match evaluateToInt env Arg0 with
        | Some 1%Z => Some (Some (getPtr, ArgTy))
        | _ => Some (Some (getArr, ArgTy))
        end
    end.
Proof.
  intros H0 H1. unfold analyzeAllocExpr. cbn [String.eqb Ascii.eqb].
  change (("calloc" =? "calloc")%string) with true. cbv iota.
  by rewrite H1, H0.
Qed.

End Calloc.

Section CallocCall.

Variable env : ResolverEnv.

(** A call of an allocator whose analysis gave the class [A] and the type
    [T], other than [realloc]. *)
Lemma resolveExpr_calloc TypE H FD Callee Args s R :
  let E := CallExpr H (Some FD) Callee Args in
  getNameAsString FD = "calloc" ->
  isDeclaratorDecl FD = true ->
  0 < length Args ->
  isRecordType TypE || isArithmeticType TypE = false ->
  isNULLExpression env E = false ->
  hasPersistentConstraints E s = false ->
  analyzeAllocExpr env Args "calloc" = Some R ->
  resolveExpr env TypE E s
  = (let* Ret :=
       (let* RR :=
          match R with
          | Some (A, ArgTy) =>
              let* PVC := withCS (newPVConstraint (getPointerType ArgTy)
                                    "&calloc" true) in
              do* modifyCS (constrainOuterTo PVC A true) in
              ret ([PVC], [], [])
          | None => ret ([getWildPVConstraint], [], [])
          end in
        let '(ReturnCVs, ReturnBSet, ReallocFlow) := RR in
        let* TmpCVs := copyReturnVars env H ReallocFlow ReturnCVs [] in
        ret (TmpCVs, ReturnBSet)) in
     do* storePersistentConstraints E Ret in
     ret Ret) s.
Proof.
  intros E Hname HD Hlen Hrec Hnull Hhas HA. subst E.
  cbn [resolveExpr]. rewrite Hrec.
  cbn [isExplicitCastExpr negb andb]. rewrite Hnull.
  unfold cachedAt, bind at 1, getState. rewrite Hhas.
  rewrite HD, Hname, isFunctionAllocator_calloc. cbn [negb].
  destruct (decide (0 < length Args)) as [_|Hn]; [|by destruct Hn].
  rewrite HA. cbn [option_map].
  destruct R as [[A ArgTy]|]; [|reflexivity].
  replace (String.eqb "calloc" "realloc") with false by reflexivity.
  change ("&" +:+ "calloc") with "&calloc".
  unfold bind, withCS, modifyCS, ret.
  by destruct (newPVConstraint (getPointerType ArgTy) "&calloc" true (rCS s)).
Qed.

End CallocCall.

(** C9.  Resolving, for the first time, a call of [calloc] with at least
    two arguments, at a non-scalar expected type.

    When the second argument is [sizeof(T)]: [analyzeAllocExpr] answers PTR
    if the first argument evaluates to the integer 1 and ARR otherwise,
    never NTARR.  The resolver builds a variable for [T *] whose outermost
    atom is the next unused key [k], adds the constraint [k >= A] for that
    answer [A], and returns one copy of that variable, related to it level
    by level; these are all the constraints it adds, and none of the
    others has [k] on its left-hand side.

    When the second argument is not a [sizeof]: [analyzeAllocExpr] gives
    no answer and the result of the call is the WILD variable. *)
Theorem calloc_call_classification (env : ResolverEnv) (TypE : QualType)
    (H : ExprInfo) (FD : Decl) (Callee : Expr) (Args : list Expr)
    (Arg0 Arg1 : Expr) (s : ResolverState) :
  let E := CallExpr H (Some FD) Callee Args in
  getNameAsString FD = "calloc" ->
  isDeclaratorDecl FD = true ->
  Args !! 0 = Some Arg0 ->
  Args !! 1 = Some Arg1 ->
  isRecordType TypE || isArithmeticType TypE = false ->
  isNULLExpression env E = false ->
  hasPersistentConstraints E s = false ->
  (forall T, getSizeOfArg Arg1 = Some T ->
     let A := match evaluateToInt env Arg0 with
              | Some 1%Z => getPtr
              | _ => getArr
              end in
     let k := freshKey (rCS s) in
     let PVC := (newPVConstraint (getPointerType T) "&calloc" true
                   (rCS s)).1 in
     analyzeAllocExpr env Args "calloc" = Some (Some (A, T))
     /\ A <> getNTArr
     /\ (evaluateToInt env Arg0 = Some 1%Z -> A = getPtr)
     /\ (evaluateToInt env Arg0 <> Some 1%Z -> A = getArr)
     /\ (exists Tl, getCvars PVC = VarAtom k :: Tl)
     /\ exists NewCV s',
          resolveExpr env TypE E s = Some (([NewCV], []), s')
          /\ getConstraints (rCS s')
             = getConstraints (rCS s)
               ++ CGeq (createGeq (VarAtom k) A "" None)
                  :: flat_map
                       (fun LR => createAtomGeq LR.1 LR.2 "" None Safe_to_Wild)
                       (zipAtoms (getCvars NewCV) (getCvars PVC))
          /\ (forall L, L ∈ getCvars NewCV -> L <> VarAtom k))
  /\ (getSizeOfArg Arg1 = None ->
      analyzeAllocExpr env Args "calloc" = Some None
      /\ exists s',
           resolveExpr env TypE E s = Some (([getWildPVConstraint], []), s')
           /\ freshKey (rCS s') = freshKey (rCS s)).
Proof.
  intros E Hname HD H0 H1 Hrec Hnull Hhas. subst E.
  assert (Hlen : 0 < length Args).
  { destruct Args; [discriminate H0|cbn; lia]. }
  pose proof (analyzeAllocExpr_calloc env Args Arg0 Arg1 H0 H1) as HA.
  split.
  - intros T HT A k PVC. rewrite HT in HA.
    assert (HA' : analyzeAllocExpr env Args "calloc" = Some (Some (A, T))).
    { rewrite HA. subst A. destruct (evaluateToInt env Arg0) as [z|]; [|done].
      destruct z as [|p|p]; try done. by destruct p. }
    split; [exact HA'|].
    split.
    { subst A. destruct (evaluateToInt env Arg0) as [[|[p|p|]|p]|]; done. }
    split.
    { intros Hz. subst A. by rewrite Hz. }
    split.
    { intros Hz. subst A.
      destruct (evaluateToInt env Arg0) as [[|[p|p|]|p]|]; done. }
    pose proof (newPVConstraint_pointer_outer T "&calloc" true (rCS s))
      as Houter.
    pose proof (newPVConstraint_fresh (getPointerType T) "&calloc" true
                  (rCS s)) as (Hlog & Hle & Hk).
    split; [exact Houter|].
    destruct Houter as [Tl HTl].
    rewrite (resolveExpr_calloc env TypE H FD Callee Args s (Some (A, T))
               Hname HD Hlen Hrec Hnull Hhas HA').
    unfold bind at 1. unfold bind at 1. unfold bind at 1.
    unfold withCS at 1.
    fold PVC in HTl, Hlog, Hle, Hk |- *.
    destruct (newPVConstraint (getPointerType T) "&calloc" true (rCS s))
      as [PVC' cs1] eqn:HPVC.
    cbn [fst snd] in *. subst PVC.
    unfold bind at 1, modifyCS at 1, ret at 1.
    cbn [rCS ExprConstraintVars copyReturnVars].
    unfold bind at 1.
    set (s1 := mkRS (constrainOuterTo PVC' A true cs1) (ExprConstraintVars s)).
    destruct (copyReturnVar_noflow env H PVC' s1)
      as (NewCV & cs2 & HC & Hlog2 & Hle2 & Hk2).
    unfold bind at 1. rewrite HC.
    unfold ret at 1. unfold bind, storePersistentConstraints, ret.
    exists NewCV. eexists. split; [reflexivity|].
    cbn [rCS s1] in *. split.
    + unfold constrainConsVarGeq1. rewrite addConstraints_log, Hlog2.
      unfold constrainOuterTo. rewrite HTl. cbn [getConstraints addConstraint].
      rewrite Hlog, <- app_assoc. reflexivity.
    + intros L HL ->. specialize (Hk2 _ HL).
      unfold constrainOuterTo in Hk2. rewrite HTl in Hk2.
      cbn [freshKey addConstraint] in Hk2.
      assert (freshKey (rCS s) < freshKey cs1); [|lia].
      apply (Hk (freshKey (rCS s))). apply getCvars_atomsOf.
      rewrite HTl. apply elem_of_cons. by left.
  - intros HT. rewrite HT in HA. split; [exact HA|].
    rewrite (resolveExpr_calloc env TypE H FD Callee Args s None
               Hname HD Hlen Hrec Hnull Hhas HA).
    eexists. split; [reflexivity|]. reflexivity.
Qed.

(** The calls [calloc(1, sizeof(int))], [calloc(n, sizeof(int))] and
    [calloc(n, n)]. *)
Lemma calloc_call_classification_witness :
  (analyzeAllocExpr Examples.castEnv [Examples.oneLit; Examples.sizeofInt]
     "calloc" = Some (Some (getPtr, Examples.intTy))
   /\ exists NewCV s',
        getExprConstraintVars Examples.castEnv Examples.callocOne
          Examples.castState = Some (([NewCV], []), s')
        /\ CGeq (createGeq (VarAtom 1) getPtr "" None)
             ∈ getConstraints (rCS s'))
  /\ (analyzeAllocExpr Examples.castEnv [Examples.nValue; Examples.sizeofInt]
        "calloc" = Some (Some (getArr, Examples.intTy))
      /\ exists NewCV s',
           getExprConstraintVars Examples.castEnv Examples.callocMany
             Examples.castState = Some (([NewCV], []), s')
           /\ CGeq (createGeq (VarAtom 1) getArr "" None)
                ∈ getConstraints (rCS s'))
  /\ (analyzeAllocExpr Examples.castEnv [Examples.nValue; Examples.nValue]
        "calloc" = Some None
      /\ exists s',
           getExprConstraintVars Examples.castEnv Examples.callocPlain
             Examples.castState
           = Some (([getWildPVConstraint], []), s')).
Proof.
  split; [|split].
  - destruct (calloc_call_classification Examples.castEnv Examples.voidPtr
                (mkExprInfo 37 Examples.voidPtr ("t.c", 9, 12) true)
                Examples.callocDecl Examples.callocRef
                [Examples.oneLit; Examples.sizeofInt]
                Examples.oneLit Examples.sizeofInt Examples.castState)
      as [HS _]; try (vm_compute; reflexivity).
    destruct (HS Examples.intTy eq_refl)
      as (HA & _ & _ & _ & _ & NewCV & s' & HR & Hlog & _).
    split; [exact HA|]. exists NewCV, s'. split; [exact HR|].
    rewrite Hlog. apply elem_of_app. right. apply elem_of_cons. by left.
  - destruct (calloc_call_classification Examples.castEnv Examples.voidPtr
                (mkExprInfo 38 Examples.voidPtr ("t.c", 9, 12) true)
                Examples.callocDecl Examples.callocRef
                [Examples.nValue; Examples.sizeofInt]
                Examples.nValue Examples.sizeofInt Examples.castState)
      as [HS _]; try (vm_compute; reflexivity).
    destruct (HS Examples.intTy eq_refl)
      as (HA & _ & _ & _ & _ & NewCV & s' & HR & Hlog & _).
    split; [exact HA|]. exists NewCV, s'. split; [exact HR|].
    rewrite Hlog. apply elem_of_app. right. apply elem_of_cons. by left.
  - destruct (calloc_call_classification Examples.castEnv Examples.voidPtr
                (mkExprInfo 39 Examples.voidPtr ("t.c", 9, 12) true)
                Examples.callocDecl Examples.callocRef
                [Examples.nValue; Examples.nValue]
                Examples.nValue Examples.nValue Examples.castState)
      as [_ HN]; try (vm_compute; reflexivity).
    destruct (HN eq_refl) as (HA & s' & HR & _).
    split; [exact HA|]. exists s'. exact HR.
Defined.

(** ** Array bounds: allocation sites *)

Section AllocatorCalls.

Variable env : BoundsEnv.

Lemma scanArgVals_count LHSType Vs fk rk f ib r :
  scanArgVals env LHSType Vs fk false rk = (f, ib, r) -> ib = false.
Proof.
  revert fk rk. induction Vs as [|v Vs IH]; intros fk rk; cbn [scanArgVals].
  - by intros [= _ <- _].
  - destruct v; try destruct Kind;
      repeat match goal with
      | |- context [QualType_eqb ?a ?b] => destruct (QualType_eqb a b)
      | |- context [getVariableE env ?e] => destruct (getVariableE env e)
      | |- context [negb fk] => destruct fk; cbn [negb]
      end;
      first [ by intros [= _ <- _] | by apply IH ].
Qed.

(** The byte-count flag survives the scan with a key found only when the
    arguments are one expression, which is not a [sizeof]. *)
Lemma scanArgVals_byte LHSType Vs fk rk r :
  scanArgVals env LHSType Vs fk true rk = (true, true, r) ->
  (fk = true /\ Vs = []) \/ (fk = false /\ exists v, Vs = [v] /\ isSizeOf v = false).
Proof.
  revert fk rk. induction Vs as [|v Vs IH]; intros fk rk; cbn [scanArgVals].
  - intros [= -> _]. by left.
  - assert (Hvar : forall K,
              (if negb fk
               then scanArgVals env LHSType Vs true true (Some K)
               else (false, true, Some K)) = (true, true, r) ->
              fk = false /\ Vs = []).
    { intros K. destruct fk; cbn [negb]; [discriminate|].
      intros HS. destruct (IH _ _ HS) as [[_ ->]|[? _]]; done. }
    destruct v; try destruct Kind; cbn [isSizeOf];
      try (destruct (getVariableE env _) as [K|]; [|discriminate];
           intros HS; destruct (Hvar K HS) as [-> ->]; right;
           split; [done|]; eexists; split; reflexivity).
    destruct (QualType_eqb LHSType (getPointerType ArgTy)); [|discriminate].
    intros HS. by apply scanArgVals_count in HS.
Qed.

Lemma collectBaseExprs_single Args Pidxs v :
  collectBaseExprs Args Pidxs = Some (Some [v]) -> isSizeOf v = true.
Proof.
  destruct Pidxs as [|Pidx Pidxs]; cbn [collectBaseExprs]; [discriminate|].
  destruct (Args !! Pidx) as [PExpr|]; [|discriminate].
  destruct (collectBaseExprs Args Pidxs) as [[Rest|]|];
    destruct PExpr; try destruct Kind; try discriminate;
    try (destruct (isMultiplicativeOp Opc); discriminate).
  cbn [app]. by intros [= <- _].
Qed.

Lemma isAllocatorCall_args E F Vs :
  isAllocatorCall env E = Some (true, F, Vs) ->
  exists Args Pidxs, collectBaseExprs Args Pidxs = Some (Some Vs).
Proof.
  unfold isAllocatorCall.
  destruct (removeAuxillaryCasts env E); try discriminate.
  destruct CalleeDecl as [CalleeDecl|]; [|discriminate].
  destruct (AllocatorSizeAssoc _) as [Pidxs|]; [|discriminate].
  destruct (collectBaseExprs Args Pidxs) as [[Bs|]|] eqn:HB; try discriminate.
  destruct (checkBaseExprs Bs); [|discriminate].
  intros [= _ <-]. by exists Args, Pidxs.
Qed.

(** [handleAllocatorCall] never binds a byte count. *)
Lemma handleAllocatorCall_no_ByteBound LHSType LK E Cs K1 K2 :
  handleAllocatorCall env LHSType LK E = Some Cs ->
  mergeBounds K1 (ByteBound K2) ∉ Cs.
Proof.
  unfold handleAllocatorCall.
  destruct (isAllocatorCall env E) as [[[[] F] Vs]|] eqn:HI; try discriminate.
  2: { intros [= <-]. apply not_elem_of_nil. }
  destruct (scanArgVals env LHSType Vs false true None)
    as [[[] ib] [RK|]] eqn:HS;
    try (intros [= <-]; apply not_elem_of_nil).
  destruct (_ || _); [|intros [= <-]; apply not_elem_of_nil].
  intros [= <-]. destruct ib.
  - apply scanArgVals_byte in HS as [[? _]|[_ (v & -> & Hv)]]; [done|].
    apply isAllocatorCall_args in HI as (Args & Pidxs & HC).
    apply collectBaseExprs_single in HC. congruence.
  - intros [Hc|Hc%elem_of_cons]%elem_of_cons; [done|].
    destruct Hc as [Hc|Hc%elem_of_nil]; [done|done].
Qed.

(** The call [malloc(a op b)], where [op] is multiplicative and the
    operands are a reference to a variable and a [sizeof], in this or in
    the other order. *)
Lemma handleAllocatorCall_product LHSType LK E H Callee CE HB Opc HN ND HS T
    RK (swap : bool) :
  let n := DeclRefExpr HN ND in
  let sz := UnaryExprOrTypeTraitExpr HS UETT_SizeOf T in
  removeAuxillaryCasts env E
  = CallExpr H (Some Callee) CE
      [BinaryOperator HB Opc (if swap then sz else n) (if swap then n else sz)] ->
  getCalledFunctionName Callee = "malloc" ->
  isMultiplicativeOp Opc = true ->
  getVariableE env n = Some RK ->
  handleAllocatorCall env LHSType LK E
  = Some (if QualType_eqb LHSType (getPointerType T)
             && (Nat.eqb (getScope (getProgramVar env LK))
                   (getScope (getProgramVar env RK))
                 || IsNumConstant (getProgramVar env RK))
          then [statInsert AllocatorMatch LK; mergeBounds LK (CountBound RK)]
          else []).
Proof.
  intros n sz HE HF HM HV.
  unfold handleAllocatorCall, isAllocatorCall. rewrite HE, HF.
  change (AllocatorSizeAssoc "malloc") with (Some [0]).
  cbv beta iota.
  assert (HL : forall x : Expr, [x] !! 0 = Some x) by reflexivity.
  cbn [collectBaseExprs]. rewrite HL.
  rewrite HM. cbn [app].
  destruct swap; cbn [checkBaseExprs forallb isDeclRefExpr isSizeOf
                        orb andb n sz scanArgVals negb];
    subst n; rewrite ?HV;
    destruct (QualType_eqb LHSType (getPointerType T));
    cbn [scanArgVals negb andb]; rewrite ?HV; cbn [negb andb];
    try reflexivity;
    by destruct (_ || _).
Qed.

End AllocatorCalls.

(** ** Array bounds: structure fields *)

Section RecordFields.

Variable env : BoundsEnv.

Lemma elem_of_insertPair x y Set_ :
  x ∈ insertPair y Set_ -> x = y \/ x ∈ Set_.
Proof.
  induction Set_ as [|z Rest IH]; cbn [insertPair].
  - intros Hx%list_elem_of_singleton. by left.
  - destruct (pairLt y z).
    + intros [Hx|Hx]%elem_of_cons; [by left|by right].
    + destruct (pairLt z y).
      * intros [Hx|Hx]%elem_of_cons.
        -- right. apply elem_of_cons. by left.
        -- destruct (IH Hx) as [?|?]; [by left|].
           right. apply elem_of_cons. by right.
      * intros Hx. by right.
Qed.

Lemma collectFields_sound Flds P A :
  (forall x, x ∈ (collectFields env Flds P A).1 ->
     x ∈ P \/ exists F, F ∈ Flds /\ lengthField env F x)
  /\ (forall x, x ∈ (collectFields env Flds P A).2 ->
        x ∈ A \/ exists F, F ∈ Flds /\ arrayField env F x).
Proof.
  revert P A. induction Flds as [|F Flds IH]; intros P A;
    cbn [collectFields fst snd].
  - split; intros x Hx; by left.
  - match goal with
    | |- context [collectFields env Flds ?P1 ?A1] =>
        destruct (IH P1 A1) as [IHP IHA]
    end.
    split; intros x Hx.
    + destruct (IHP x Hx) as [HP|(G & HG & HL)].
      * destruct (getVariableD env F) as [K|] eqn:HK; [|by left].
        destruct (isIntegerType (getDeclType F)) eqn:HI; [|by left].
        apply elem_of_insertPair in HP as [->|HP]; [|by left].
        right. exists F. split; [apply elem_of_cons; by left|].
        by repeat split.
      * right. exists G. split; [apply elem_of_cons; by right|done].
    + destruct (IHA x Hx) as [HA|(G & HG & HL)].
      * destruct (needArrayBounds env F false) eqn:HN; [|by left].
        destruct (getVariableD env F) as [K|] eqn:HK; [|by left].
        apply elem_of_insertPair in HA as [->|HA]; [|by left].
        right. exists F. split; [apply elem_of_cons; by left|].
        by repeat split.
      * right. exists G. split; [apply elem_of_cons; by right|done].
Qed.

Lemma matchLenFields_sound PtrField LenFields c :
  c ∈ matchLenFields PtrField LenFields ->
  exists LenField,
    LenField ∈ LenFields
    /\ hasNameMatch PtrField.1 LenField.1 = true
    /\ (c = replaceBounds PtrField.2 (CountBound LenField.2)
        \/ (c = statInsert NamePrefixMatch PtrField.2
            /\ hasLengthKeyword LenField.1 = true)
        \/ (c = statInsert VariableNameMatch PtrField.2
            /\ hasLengthKeyword LenField.1 = false)).
Proof.
  induction LenFields as [|L Rest IH]; cbn [matchLenFields].
  - by intros ?%elem_of_nil.
  - assert (Hrest : c ∈ matchLenFields PtrField Rest ->
              exists LenField,
                LenField ∈ L :: Rest
                /\ hasNameMatch PtrField.1 LenField.1 = true
                /\ (c = replaceBounds PtrField.2 (CountBound LenField.2)
                    \/ (c = statInsert NamePrefixMatch PtrField.2
                        /\ hasLengthKeyword LenField.1 = true)
                    \/ (c = statInsert VariableNameMatch PtrField.2
                        /\ hasLengthKeyword LenField.1 = false))).
    { intros Hc. destruct (IH Hc) as (LF & HLF & HM).
      exists LF. split; [apply elem_of_cons; by right|done]. }
    destruct (hasNameMatch PtrField.1 L.1) eqn:HN; [|exact Hrest].
    destruct (hasLengthKeyword L.1) eqn:HK.
    + intros [->|Hc%list_elem_of_singleton]%elem_of_cons;
        (exists L; split; [apply elem_of_cons; by left|]);
        (split; [done|]); [right; left; done|left; done].
    + cbn [app].
      intros [->|[->|Hc]%elem_of_cons]%elem_of_cons;
        [| |by apply Hrest];
        (exists L; split; [apply elem_of_cons; by left|]);
        (split; [done|]); [right; right; done|left; done].
Qed.

(** Every call [VisitRecordDecl] makes comes from an array field and an
    integer field whose name starts with the name of the array field. *)
Lemma VisitRecordDecl_sound RD c :
  c ∈ VisitRecordDecl env RD ->
  exists PtrFld LenFld K L,
    PtrFld ∈ fields RD /\ LenFld ∈ fields RD
    /\ arrayField env PtrFld (getNameAsString PtrFld, K)
    /\ lengthField env LenFld (getNameAsString LenFld, L)
    /\ hasNameMatch (getNameAsString PtrFld) (getNameAsString LenFld) = true
    /\ (c = replaceBounds K (CountBound L)
        \/ (c = statInsert NamePrefixMatch K
            /\ hasLengthKeyword (getNameAsString LenFld) = true)
        \/ (c = statInsert VariableNameMatch K
            /\ hasLengthKeyword (getNameAsString LenFld) = false)).
Proof.
  unfold VisitRecordDecl. destruct (isStructOrUnion RD); [|by intros ?%elem_of_nil].
  pose proof (collectFields_sound (fields RD) [] []) as [HP HA].
  destruct (collectFields env (fields RD) [] []) as [PotLenFields Arrs].
  cbn [fst snd] in *.
  intros Hc.
  assert (Hc' : c ∈ flat_map (fun PtrField => matchLenFields PtrField PotLenFields)
                      Arrs).
  { destruct Arrs; [by apply elem_of_nil in Hc|].
    destruct PotLenFields; [by apply elem_of_nil in Hc|]. exact Hc. }
  apply list_elem_of_In, in_flat_map in Hc' as (Ptr & HPtr & HcP).
  apply list_elem_of_In in HPtr, HcP.
  apply matchLenFields_sound in HcP as (Len & HLen & HNM & Hkind).
  destruct (HA Ptr HPtr) as [?%elem_of_nil|(PF & HPF & HPa)]; [done|].
  destruct (HP Len HLen) as [?%elem_of_nil|(LF & HLF & HLl)]; [done|].
  destruct Ptr as [PN PK], Len as [LN LKey].
  destruct HPa as (HPn & HPk & HPneed), HLl as (HLn & HLk & HLint).
  cbn [fst snd] in *. subst PN LN.
  exists PF, LF, PK, LKey. repeat split; try done.
Qed.

End RecordFields.

(** ** Array bounds: function parameters *)

Section Parameters.

Variable env : BoundsEnv.
Variable ParamInfo : option (Decl -> bool).

Lemma matchLenParams_none ArrName PBKey LP :
  (matchLenParams ArrName PBKey LP).1 = false ->
  (matchLenParams ArrName PBKey LP).2 = [].
Proof.
  induction LP as [|[j [LenName LenKey]] Rest IH]; cbn [matchLenParams];
    [done|].
  destruct (hasNameMatch ArrName LenName); [done|].
  destruct (nameSubStringMatch ArrName LenName); [|exact IH].
  by destruct (matchLenParams ArrName PBKey Rest).
Qed.

Lemma matchLenParams_calls ArrName PBKey LP c :
  c ∈ (matchLenParams ArrName PBKey LP).2 ->
  (exists LenKey, c = replaceBounds PBKey (CountBound LenKey))
  \/ c = statInsert NamePrefixMatch PBKey.
Proof.
  induction LP as [|[j [LenName LenKey]] Rest IH]; cbn [matchLenParams].
  - by intros ?%elem_of_nil.
  - destruct (hasNameMatch ArrName LenName).
    + cbn [snd].
      intros [->|[->|?%elem_of_nil]%elem_of_cons]%elem_of_cons;
        [left; by eexists|by right|done].
    + destruct (nameSubStringMatch ArrName LenName); [|exact IH].
      destruct (matchLenParams ArrName PBKey Rest) as [F Cs]. cbn [snd app] in *.
      intros [->|[->|Hc]%elem_of_cons]%elem_of_cons;
        [left; by eexists|by right|by apply IH].
Qed.

(** Without a length parameter next to the array parameter, a match of
    the names keeps the keyword loop from running. *)
Lemma handleArrParam_names_first LP Arr :
  findParam LP (Arr.1 + 1) = None ->
  (matchLenParams Arr.2.1 Arr.2.2 LP).1 = true ->
  handleArrParam LP Arr = (matchLenParams Arr.2.1 Arr.2.2 LP).2.
Proof.
  intros HF HM. unfold handleArrParam. rewrite HF.
  destruct (matchLenParams Arr.2.1 Arr.2.2 LP) as [F Cs].
  cbn [fst snd] in *. subst F. cbn [negb]. by rewrite !app_nil_r.
Qed.

Lemma handleArrParam_keyword_last LP Arr :
  findParam LP (Arr.1 + 1) = None ->
  (matchLenParams Arr.2.1 Arr.2.2 LP).1 = false ->
  handleArrParam LP Arr
  = (keywordLenParams Arr.2.2 LP).2
    ++ (if (keywordLenParams Arr.2.2 LP).1 then []
        else [lengthNotFound Arr.2.1]).
Proof.
  intros HF HM. unfold handleArrParam. rewrite HF.
  pose proof (matchLenParams_none _ _ _ HM) as HN.
  destruct (matchLenParams Arr.2.1 Arr.2.2 LP) as [F Cs].
  cbn [fst snd] in *. subst F Cs. cbn [negb app].
  by destruct (keywordLenParams Arr.2.2 LP) as [[] Cs].
Qed.

Lemma collectParams_find i0 Ps j PVD PK :
  Ps !! j = Some PVD ->
  getVariableD env PVD = Some PK ->
  IsPotentialLengthVar ParamInfo PVD = true ->
  findParam (collectParams env ParamInfo i0 Ps).2 (i0 + j)
  = Some (getNameAsString PVD, PK).
Proof.
  revert i0 j. induction Ps as [|P Ps IH]; intros i0 j; [done|].
  destruct j as [|j]; cbn [lookup list_lookup collectParams].
  - intros [= ->] HK HL.
    destruct (collectParams env ParamInfo (S i0) Ps) as [[PA PNA] LP].
    rewrite HK, HL. cbn [snd findParam]. rewrite Nat.add_0_r.
    by rewrite Nat.eqb_refl.
  - intros HP HK HL. specialize (IH (S i0) j HP HK HL).
    replace (S i0 + j) with (i0 + S j) in IH by lia.
    destruct (collectParams env ParamInfo (S i0) Ps) as [[PA PNA] LP].
    cbn [snd] in IH.
    destruct (getVariableD env P) as [K|]; [|exact IH].
    cbn [snd]. destruct (IsPotentialLengthVar ParamInfo P); [|exact IH].
    cbn [findParam].
    destruct (Nat.eqb_spec (i0 + S j) i0) as [?|_]; [lia|exact IH].
Qed.

Lemma collectParams_arrays i0 Ps k v :
  (k, v) ∈ (collectParams env ParamInfo i0 Ps).1.1 <->
  exists j PVD,
    k = i0 + j /\ Ps !! j = Some PVD
    /\ v.1 = getNameAsString PVD /\ getVariableD env PVD = Some v.2
    /\ needArrayBounds env PVD false = true.
Proof.
  revert i0. induction Ps as [|P Ps IH]; intros i0; cbn [collectParams].
  - cbn [fst]. split; [by intros ?%elem_of_nil|by intros (j & PVD & _ & ? & _)].
  - specialize (IH (S i0)).
    destruct (collectParams env ParamInfo (S i0) Ps) as [[PA PNA] LP].
    cbn [fst] in IH.
    assert (Hrest : (k, v) ∈ PA <->
              exists j PVD,
                k = i0 + S j /\ (P :: Ps) !! S j = Some PVD
                /\ v.1 = getNameAsString PVD /\ getVariableD env PVD = Some v.2
                /\ needArrayBounds env PVD false = true).
    { rewrite IH. split; intros (j & PVD & -> & HR);
        exists j, PVD; (split; [lia|exact HR]). }
    assert (Hsplit : (exists j PVD,
                k = i0 + j /\ (P :: Ps) !! j = Some PVD
                /\ v.1 = getNameAsString PVD /\ getVariableD env PVD = Some v.2
                /\ needArrayBounds env PVD false = true)
              <-> (k = i0 /\ v.1 = getNameAsString P
                   /\ getVariableD env P = Some v.2
                   /\ needArrayBounds env P false = true)
                  \/ (k, v) ∈ PA).
    { rewrite Hrest. split.
      - intros ([|j] & PVD & -> & HP & HR).
        + injection HP as <-. left. split; [lia|exact HR].
        + right. by exists j, PVD.
      - intros [(-> & HR)|(j & PVD & HR)].
        + exists 0, P. split; [lia|]. split; [done|exact HR].
        + by exists (S j), PVD. }
    rewrite Hsplit.
    destruct (getVariableD env P) as [K|] eqn:HK; cbn [fst].
    + destruct (needArrayBounds env P false) eqn:HN.
      * rewrite elem_of_cons. split.
        -- intros [[= -> ->]|?]; [left|by right]. by repeat split.
        -- intros [(-> & Hn & [= HK'] & _)|?]; [left|by right].
           destruct v as [vn vk]. cbn [fst snd] in *. by subst.
      * split; [by right|]. intros [(_ & _ & _ & ?)|?]; done.
    + split; [by right|]. intros [(_ & _ & ? & _)|?]; done.
Qed.

End Parameters.

(** C7, as the code has it.  [VisitRecordDecl] binds the key of an array
    field only to the key of an integer field whose name starts with the
    name of the array field; the length keywords only select the
    statistic.  For fields named [data] and [count] nothing is bound,
    although [count] is a length keyword.  For parameters, the keyword
    loop runs only when the name loop (prefix, then common subsequence)
    found nothing: a match of the names comes first. *)
Theorem record_fields_bound_by_name_prefix (env : BoundsEnv) :
  (forall RD c,
     c ∈ VisitRecordDecl env RD ->
     exists PtrFld LenFld K L,
       PtrFld ∈ fields RD /\ LenFld ∈ fields RD
       /\ arrayField env PtrFld (getNameAsString PtrFld, K)
       /\ lengthField env LenFld (getNameAsString LenFld, L)
       /\ hasNameMatch (getNameAsString PtrFld) (getNameAsString LenFld)
          = true
       /\ (c = replaceBounds K (CountBound L)
           \/ (c = statInsert NamePrefixMatch K
               /\ hasLengthKeyword (getNameAsString LenFld) = true)
           \/ (c = statInsert VariableNameMatch K
               /\ hasLengthKeyword (getNameAsString LenFld) = false)))
  /\ (forall DataD CountD b,
        getNameAsString DataD = "data" ->
        getNameAsString CountD = "count" ->
        isIntegerType (getDeclType DataD) = false ->
        needArrayBounds env CountD false = false ->
        fieldNameMatch (getNameAsString CountD) = true
        /\ VisitRecordDecl env (mkRecordDecl b [DataD; CountD]) = [])
  /\ (forall LP Arr,
        findParam LP (Arr.1 + 1) = None ->
        (matchLenParams Arr.2.1 Arr.2.2 LP).1 = true ->
        handleArrParam LP Arr = (matchLenParams Arr.2.1 Arr.2.2 LP).2
        /\ forall K, statInsert VariableNameMatch K ∉ handleArrParam LP Arr)
  /\ (forall LP Arr,
        findParam LP (Arr.1 + 1) = None ->
        (matchLenParams Arr.2.1 Arr.2.2 LP).1 = false ->
        handleArrParam LP Arr
        = (keywordLenParams Arr.2.2 LP).2
          ++ (if (keywordLenParams Arr.2.2 LP).1 then []
              else [lengthNotFound Arr.2.1])).
Proof.
  split; [|split; [|split]].
  - intros RD c. apply VisitRecordDecl_sound.
  - intros DataD CountD b HD HC HI HN. split; [by rewrite HC|].
    destruct (VisitRecordDecl env (mkRecordDecl b [DataD; CountD]))
      as [|c Cs] eqn:HV; [done|].
    assert (Hc : c ∈ VisitRecordDecl env (mkRecordDecl b [DataD; CountD])).
    { rewrite HV. apply elem_of_cons. by left. }
    apply VisitRecordDecl_sound in Hc
      as (PF & LF & K & L & HPF & HLF & HA & HL & HM & _).
    cbn [fields] in HPF, HLF.
    destruct HA as (_ & _ & HAn), HL as (_ & _ & HLi).
    apply elem_of_cons in HPF as [->|HPF%list_elem_of_singleton].
    + apply elem_of_cons in HLF as [->|HLF%list_elem_of_singleton].
      * congruence.
      * subst LF. rewrite HD, HC in HM. discriminate HM.
    + subst PF. congruence.
  - intros LP Arr HF HM.
    pose proof (handleArrParam_names_first LP Arr HF HM) as HE.
    split; [exact HE|]. intros K HK. rewrite HE in HK.
    apply matchLenParams_calls in HK as [[? ?]|?]; discriminate.
  - intros LP Arr. apply handleArrParam_keyword_last.
Qed.

(** [struct t { int *buf; int buf_len; }] gets its bound from the name
    prefix; [struct s { int *data; int count; }] gets none. *)
Lemma record_fields_bound_by_name_prefix_witness :
  (exists PtrFld LenFld,
     PtrFld ∈ fields Examples.bufBufLen /\ LenFld ∈ fields Examples.bufBufLen
     /\ hasNameMatch (getNameAsString PtrFld) (getNameAsString LenFld) = true)
  /\ VisitRecordDecl Examples.boundsEnv Examples.dataCount = [].
Proof.
  destruct (record_fields_bound_by_name_prefix Examples.boundsEnv)
    as (HA & HB & _).
  split.
  - destruct (HA Examples.bufBufLen (replaceBounds 10 (CountBound 12)))
      as (PF & LF & K & L & HPF & HLF & _ & _ & HM & _).
    + vm_compute. apply elem_of_cons. right. apply elem_of_cons. by left.
    + exists PF, LF. split; [exact HPF|]. split; [exact HLF|exact HM].
  - apply (HB Examples.dataDecl Examples.countDecl true);
      vm_compute; reflexivity.
Defined.

(** C7 as stated does not hold: for [struct s { int *data; int count; }],
    with [data] solved to ARR, nothing is bound, where the statement
    expects the element count [count]; and for parameters [arr] and
    [a_r_r_x], [size], the common-subsequence match wins over the keyword
    [size]. *)
Lemma record_fields_keyword_counterexample :
  VisitRecordDecl Examples.boundsEnv Examples.dataCount = []
  /\ (replaceBounds 20 (CountBound 21)
        ∉ VisitRecordDecl Examples.boundsEnv Examples.dataCount)
  /\ fieldNameMatch "count" = true
  /\ nameSubStringMatch "arr" "a_r_r_x" = true
  /\ fieldNameMatch "size" = true
  /\ handleArrParam [(2, ("a_r_r_x", 7)); (3, ("size", 8))] (0, ("arr", 5))
     = [replaceBounds 5 (CountBound 7); statInsert NamePrefixMatch 5].
Proof.
  split; [vm_compute; reflexivity|].
  split; [|repeat split; vm_compute; reflexivity].
  assert (H : VisitRecordDecl Examples.boundsEnv Examples.dataCount = [])
    by (vm_compute; reflexivity).
  rewrite H. apply not_elem_of_nil.
Qed.

(** ** Explicit casts between types *)

Section ExplicitCasts.

Lemma BuiltinKind_eqb_eq a b : BuiltinKind_eqb a b = true <-> a = b.
Proof. destruct a, b; cbn; split; (done || discriminate). Qed.

Lemma CheckedPointerKind_eqb_eq a b :
  CheckedPointerKind_eqb a b = true <-> a = b.
Proof. destruct a, b; cbn; split; (done || discriminate). Qed.

(** [QualType_eqb] decides the equality of types. *)
Lemma QualType_eqb_eq a b : QualType_eqb a b = true <-> a = b.
Proof.
  revert b. induction a as [K|N|N|K T IH|T IH|R Ps p IHR IHPs]
    using QualType_nested_ind; intros b; destruct b as [K'|N'|N'|K' T'|T'|R' Ps' p'];
    cbn [QualType_eqb]; try (split; (done || discriminate)).
  - rewrite BuiltinKind_eqb_eq. split; [by intros ->|by intros [= ->]].
  - rewrite String.eqb_eq. split; [by intros ->|by intros [= ->]].
  - rewrite String.eqb_eq. split; [by intros ->|by intros [= ->]].
  - rewrite andb_true_iff, CheckedPointerKind_eqb_eq, IH.
    split; [by intros [-> ->]|by intros [= -> ->]].
  - rewrite IH. split; [by intros ->|by intros [= ->]].
  - rewrite !andb_true_iff, IHR, Bool.eqb_true_iff.
    assert (Hgo : (fix go (x y : list QualType) : bool :=
                     match x, y with
                     | [], [] => true
                     | c :: x', d :: y' => QualType_eqb c d && go x' y'
                     | _, _ => false
                     end) Ps Ps' = true <-> Ps = Ps').
    { clear IHR. revert Ps'.
      induction IHPs as [|c Ps Hc _ IHgo]; intros [|d Ps'];
        try (split; (done || discriminate)).
      rewrite andb_true_iff, Hc, IHgo.
      split; [by intros [-> ->]|by intros [= -> ->]]. }
    rewrite Hgo. split; [by intros [[-> ->] ->]|by intros [= -> -> ->]].
Qed.

Lemma QualType_eqb_refl a : QualType_eqb a a = true.
Proof. by apply QualType_eqb_eq. Qed.

Lemma QualType_eqb_sym a b : QualType_eqb a b = QualType_eqb b a.
Proof.
  destruct (QualType_eqb a b) eqn:H1, (QualType_eqb b a) eqn:H2; try done.
  - apply QualType_eqb_eq in H1 as ->. by rewrite QualType_eqb_refl in H2.
  - apply QualType_eqb_eq in H2 as ->. by rewrite QualType_eqb_refl in H1.
Qed.

Lemma isExplicitCastSafe_refl T : isExplicitCastSafe T T = true.
Proof. destruct T; cbn [isExplicitCastSafe]; by rewrite QualType_eqb_refl. Qed.

(** Between two pointer types the answer is the answer for the
    pointees. *)
Lemma isExplicitCastSafe_pointers K L D S :
  isExplicitCastSafe (PointerType K D) (PointerType L S)
  = isExplicitCastSafe D S.
Proof.
  cbn [isExplicitCastSafe].
  destruct (QualType_eqb (PointerType L S) (PointerType K D)) eqn:HE; [|done].
  apply QualType_eqb_eq in HE as [= -> ->].
  by rewrite isExplicitCastSafe_refl.
Qed.

(** Between two types that are not pointers. *)
Lemma isExplicitCastSafe_others D S :
  isPointerType D = false -> isPointerType S = false ->
  isExplicitCastSafe D S
  = QualType_eqb S D
    || (isScalarType S && isScalarType D
        && Bool.eqb (isCharType S) (isCharType D)
        && Bool.eqb (isIntegerType S) (isIntegerType D)
        && Bool.eqb (isFloatingType S) (isFloatingType D)).
Proof.
  intros HD HS.
  assert (HU : isExplicitCastSafe D S
               = if QualType_eqb S D then true
                 else if negb (isScalarType S && isScalarType D)
                      then QualType_eqb S D
                      else negb (xorb (isCharType S) (isCharType D)
                                 || xorb (isIntegerType S) (isIntegerType D)
                                 || xorb (isFloatingType S) (isFloatingType D))).
  { destruct D; try discriminate HD; destruct S; try discriminate HS;
      reflexivity. }
  rewrite HU. destruct (QualType_eqb S D); [done|]. cbn [orb].
  destruct (isScalarType S), (isScalarType D); cbn [andb negb]; try done.
  by destruct (isCharType S), (isCharType D), (isIntegerType S),
    (isIntegerType D), (isFloatingType S), (isFloatingType D).
Qed.

Lemma isExplicitCastSafe_mixed D S :
  isPointerType D <> isPointerType S -> isExplicitCastSafe D S = false.
Proof.
  intros HN.
  destruct (QualType_eqb S D) eqn:HE.
  { apply QualType_eqb_eq in HE as ->. by destruct HN. }
  destruct D; destruct S; try (by destruct HN);
    cbn [isExplicitCastSafe]; by rewrite HE.
Qed.

Lemma isExplicitCastSafe_sym_others D S :
  isPointerType D = false ->
  isExplicitCastSafe D S = isExplicitCastSafe S D.
Proof.
  intros HD. destruct (isPointerType S) eqn:HS.
  { rewrite !isExplicitCastSafe_mixed by congruence. done. }
  rewrite !isExplicitCastSafe_others by done.
  rewrite (QualType_eqb_sym S). destruct (QualType_eqb D S); [done|].
  by destruct (isScalarType S), (isScalarType D), (isCharType S),
    (isCharType D), (isIntegerType S), (isIntegerType D),
    (isFloatingType S), (isFloatingType D).
Qed.

Lemma isExplicitCastSafe_sym D S :
  isExplicitCastSafe D S = isExplicitCastSafe S D.
Proof.
  revert S. induction D as [K|N|N|K T IH|T IH|R Ps p IHR IHPs]
    using QualType_nested_ind; intros S;
    try (by apply isExplicitCastSafe_sym_others).
  destruct S as [K'|N'|N'|K' T'|T'|R' Ps' p'];
    try (rewrite !isExplicitCastSafe_mixed by (cbn; congruence); done).
  rewrite !isExplicitCastSafe_pointers. apply IH.
Qed.

Lemma isExplicitCastSafe_trans_others A B C :
  isPointerType A = false ->
  isExplicitCastSafe A B = true -> isExplicitCastSafe B C = true ->
  isExplicitCastSafe A C = true.
Proof.
  intros HA HAB HBC.
  assert (HB : isPointerType B = false).
  { destruct (isPointerType B) eqn:E; [|done].
    rewrite isExplicitCastSafe_mixed in HAB by congruence.
    discriminate HAB. }
  assert (HC : isPointerType C = false).
  { destruct (isPointerType C) eqn:E; [|done].
    rewrite isExplicitCastSafe_mixed in HBC by congruence.
    discriminate HBC. }
  rewrite isExplicitCastSafe_others in HAB, HBC |- * by done.
  apply orb_true_iff in HAB as [HAB|HAB].
  { apply QualType_eqb_eq in HAB as ->. exact HBC. }
  apply orb_true_iff in HBC as [HBC|HBC].
  { apply QualType_eqb_eq in HBC as ->. rewrite HAB. apply orb_true_r. }
  repeat (apply andb_true_iff in HAB as [HAB ?]).
  repeat (apply andb_true_iff in HBC as [HBC ?]).
  repeat match goal with
         | H : Bool.eqb _ _ = true |- _ => apply Bool.eqb_prop in H
         end.
  apply orb_true_iff. right.
  repeat (apply andb_true_iff; split);
    first [congruence | apply Bool.eqb_true_iff; congruence].
Qed.

Lemma isExplicitCastSafe_trans A B C :
  isExplicitCastSafe A B = true -> isExplicitCastSafe B C = true ->
  isExplicitCastSafe A C = true.
Proof.
  revert B C. induction A as [K|N|N|K T IH|T IH|R Ps p IHR IHPs]
    using QualType_nested_ind; intros B C HAB HBC;
    try (by apply (isExplicitCastSafe_trans_others _ B C)).
  destruct B as [| | |K' T'| |];
    try (rewrite isExplicitCastSafe_mixed in HAB by (cbn; congruence);
         discriminate HAB).
  destruct C as [| | |K'' T''| |];
    try (rewrite isExplicitCastSafe_mixed in HBC by (cbn; congruence);
         discriminate HBC).
  rewrite isExplicitCastSafe_pointers in *. by apply (IH T' T'').
Qed.

End ExplicitCasts.

(** X1.  [isExplicitCastSafe] is an equivalence on types: every type can
    be cast to itself, the answer does not depend on the direction of the
    cast, and two safe casts in a row make a safe cast. *)
Theorem isExplicitCastSafe_equivalence :
  (forall T, isExplicitCastSafe T T = true)
  /\ (forall D S, isExplicitCastSafe D S = isExplicitCastSafe S D)
  /\ (forall A B C,
        isExplicitCastSafe A B = true -> isExplicitCastSafe B C = true ->
        isExplicitCastSafe A C = true).
Proof.
  split; [exact isExplicitCastSafe_refl|].
  split; [exact isExplicitCastSafe_sym|exact isExplicitCastSafe_trans].
Qed.

(** From a checked pointer to [int] over [int *] to a pointer to an
    enumeration. *)
Lemma isExplicitCastSafe_equivalence_witness :
  isExplicitCastSafe (PointerType CPK_Ptr (BuiltinType BK_Int))
    (PointerType CPK_Unchecked (EnumType "e")) = true.
Proof.
  apply (proj2 (proj2 isExplicitCastSafe_equivalence)
           _ (PointerType CPK_Unchecked (BuiltinType BK_Int)) _);
    vm_compute; reflexivity.
Defined.

(** X2.  A cast between two pointer types is safe exactly when the cast
    between the pointees is, whatever the two pointer kinds; a cast
    between a pointer type and a type that is not one is never safe; and
    between [char], the integer types and the floating types no cast
    across two of the three is safe. *)
Theorem isExplicitCastSafe_pointer_levels :
  (forall K L D S,
     isExplicitCastSafe (PointerType K D) (PointerType L S)
     = isExplicitCastSafe D S)
  /\ (forall D S, isPointerType D <> isPointerType S ->
                  isExplicitCastSafe D S = false)
  /\ (forall D S,
        isPointerType D = false -> isPointerType S = false ->
        isExplicitCastSafe D S = true ->
        S = D
        \/ (isCharType S = isCharType D
            /\ isIntegerType S = isIntegerType D
            /\ isFloatingType S = isFloatingType D)).
Proof.
  split; [exact isExplicitCastSafe_pointers|].
  split; [exact isExplicitCastSafe_mixed|].
  intros D S HD HS H. rewrite isExplicitCastSafe_others in H by done.
  apply orb_true_iff in H as [H|H]; [left; by apply QualType_eqb_eq|].
  right. repeat (apply andb_true_iff in H as [H ?]).
  repeat match goal with
         | H : Bool.eqb _ _ = true |- _ => apply Bool.eqb_prop in H
         end.
  done.
Qed.

(** [char **] against [int **], [int *] against [int], and [int] against
    an enumeration. *)
Lemma isExplicitCastSafe_pointer_levels_witness :
  isExplicitCastSafe
    (PointerType CPK_Unchecked (PointerType CPK_Unchecked (BuiltinType BK_Char)))
    (PointerType CPK_Unchecked (PointerType CPK_Unchecked (BuiltinType BK_Int)))
  = false
  /\ isExplicitCastSafe (PointerType CPK_Unchecked (BuiltinType BK_Int))
       (BuiltinType BK_Int) = false
  /\ (EnumType "e" = BuiltinType BK_Int
      \/ (isCharType (EnumType "e") = isCharType (BuiltinType BK_Int)
          /\ isIntegerType (EnumType "e") = isIntegerType (BuiltinType BK_Int)
          /\ isFloatingType (EnumType "e")
             = isFloatingType (BuiltinType BK_Int))).
Proof.
  destruct isExplicitCastSafe_pointer_levels as (HP & HM & HO).
  split; [rewrite !HP; vm_compute; reflexivity|].
  split; [apply HM; vm_compute; discriminate|].
  apply HO; vm_compute; reflexivity.
Defined.

(** ** Sets of constraint variables *)

Section CVarSets.

(** Induction on a constraint variable that also covers the variables
    nested in it. *)
Lemma ConstraintVariable_nested_ind (P : ConstraintVariable -> Prop) :
  (forall vs i, P (PVConstraint vs None i)) ->
  (forall vs f i, P f -> P (PVConstraint vs (Some f) i)) ->
  (forall n rs ps b q, Forall P rs -> Forall (Forall P) ps ->
                       P (FVConstraint n rs ps b q)) ->
  forall C, P C.
Proof.
  intros HN HS HF. fix IH 1. intros [vs [f|] i|n rs ps b q].
  - apply HS, IH.
  - apply HN.
  - apply HF.
    + induction rs as [|r rs IHrs]; constructor; [apply IH|exact IHrs].
    + induction ps as [|p ps IHps]; constructor; [|exact IHps].
      induction p as [|r p IHp]; constructor; [apply IH|exact IHp].
Qed.

Lemma ConstAtom_eqb_eq a b : ConstAtom_eqb a b = true <-> a = b.
Proof. destruct a, b; cbn; split; (done || discriminate). Qed.

Lemma Atom_eqb_eq a b : Atom_eqb a b = true <-> a = b.
Proof.
  destruct a as [x|x], b as [y|y]; cbn; try (split; (done || discriminate)).
  - rewrite Nat.eqb_eq. split; [by intros ->|by intros [= ->]].
  - rewrite ConstAtom_eqb_eq. split; [by intros ->|by intros [= ->]].
Qed.

Lemma list_eqb_eq {A} (f : A -> A -> bool) (x y : list A) :
  (forall a b, f a b = true <-> a = b) ->
  list_eqb f x y = true <-> x = y.
Proof.
  intros Hf. revert y. induction x as [|a x IH]; intros [|b y]; cbn;
    try (split; (done || discriminate)).
  rewrite andb_true_iff, Hf, IH.
  split; [by intros [-> ->]|by intros [= -> ->]].
Qed.

Lemma option_eqb_eq {A} (f : A -> A -> bool) (x y : option A) :
  (forall a b, f a b = true <-> a = b) ->
  option_eqb f x y = true <-> x = y.
Proof.
  intros Hf. destruct x as [a|], y as [b|]; cbn;
    try (split; (done || discriminate)).
  rewrite Hf. split; [by intros ->|by intros [= ->]].
Qed.

Lemma PVInfo_eqb_eq a b : PVInfo_eqb a b = true <-> a = b.
Proof.
  destruct a as [n t p i k c g], b as [n' t' p' i' k' c' g'].
  unfold PVInfo_eqb. cbn [pvName pvBaseType pvArrPresent pvItype pvBoundsKey
                            pvIsOriginallyChecked pvIsGeneric].
  rewrite !andb_true_iff, !String.eqb_eq, !Bool.eqb_true_iff,
    (option_eqb_eq String.eqb i i' String.eqb_eq),
    (option_eqb_eq Nat.eqb k k' Nat.eqb_eq).
  split.
  - by intros [[[[[[-> ->] ->] ->] ->] ->] ->].
  - by intros [= -> -> -> -> -> -> ->].
Qed.

(** [CV_eqb] decides the equality of constraint variables. *)
Lemma CV_eqb_eq a b : CV_eqb a b = true <-> a = b.
Proof.
  revert b. induction a as [vs i|vs f i IH|n rs ps hb hp IHrs IHps]
    using ConstraintVariable_nested_ind;
    intros [vs' [f'|] i'|n' rs' ps' hb' hp']; cbn [CV_eqb];
    try (split; (done || discriminate));
    try (rewrite ?andb_true_iff, ?andb_false_r; split;
         [intros; tauto || (intuition discriminate)|discriminate]).
  - rewrite !andb_true_iff, (list_eqb_eq Atom_eqb _ _ Atom_eqb_eq),
      PVInfo_eqb_eq.
    split; [by intros [[-> _] ->]|by intros [= -> ->]].
  - rewrite !andb_true_iff, (list_eqb_eq Atom_eqb _ _ Atom_eqb_eq),
      PVInfo_eqb_eq, IH.
    split; [by intros [[-> ->] ->]|by intros [= -> -> ->]].
  - assert (Hgo : forall xs ys,
              Forall (fun a => forall b, CV_eqb a b = true <-> a = b) xs ->
              (fix go (x y : list ConstraintVariable) : bool :=
                 match x, y with
                 | [], [] => true
                 | c :: x', d :: y' => CV_eqb c d && go x' y'
                 | _, _ => false
                 end) xs ys = true <-> xs = ys).
    { intros xs ys Hxs. revert ys.
      induction Hxs as [|c xs Hc _ IHgo]; intros [|d ys];
        try (split; (done || discriminate)).
      rewrite andb_true_iff, Hc, IHgo.
      split; [by intros [-> ->]|by intros [= -> ->]]. }
    assert (Hgos : (fix gos (x y : list (list ConstraintVariable)) : bool :=
                      match x, y with
                      | [], [] => true
                      | c :: x', d :: y' =>
                          (fix go (x y : list ConstraintVariable) : bool :=
                             match x, y with
                             | [], [] => true
                             | c :: x', d :: y' => CV_eqb c d && go x' y'
                             | _, _ => false
                             end) c d && gos x' y'
                      | _, _ => false
                      end) ps ps' = true <-> ps = ps').
    { clear IHrs. revert ps'.
      induction IHps as [|c xs Hc _ IHgos]; intros [|d ys];
        try (split; (done || discriminate)).
      rewrite andb_true_iff, (Hgo c d Hc), IHgos.
      split; [by intros [-> ->]|by intros [= -> ->]]. }
    rewrite !andb_true_iff, String.eqb_eq, (Hgo rs rs' IHrs), Hgos,
      !Bool.eqb_true_iff.
    split; [by intros [[[[-> ->] ->] ->] ->]|by intros [= -> -> -> -> ->]].
Qed.

Lemma existsb_CV_eqb C Set_ : existsb (CV_eqb C) Set_ = true <-> C ∈ Set_.
Proof.
  rewrite existsb_exists. split.
  - intros (X & HX & HE). apply CV_eqb_eq in HE as ->.
    by apply list_elem_of_In.
  - intros HC. exists C. split; [by apply list_elem_of_In|by apply CV_eqb_eq].
Qed.

Lemma elem_of_insertCV X C Set_ : X ∈ insertCV C Set_ <-> X = C \/ X ∈ Set_.
Proof.
  unfold insertCV. destruct (existsb (CV_eqb C) Set_) eqn:HE.
  - apply existsb_CV_eqb in HE. split; [by right|].
    intros [->|?]; done.
  - rewrite elem_of_app, list_elem_of_singleton. tauto.
Qed.

Lemma elem_of_insertCVs X Cs Set_ :
  X ∈ insertCVs Cs Set_ <-> X ∈ Set_ \/ X ∈ Cs.
Proof.
  unfold insertCVs. revert Set_.
  induction Cs as [|C Cs IH]; intros Set_; cbn [foldl].
  - rewrite elem_of_nil. tauto.
  - rewrite IH, elem_of_insertCV, elem_of_cons. tauto.
Qed.

Lemma NoDup_insertCV C Set_ : NoDup Set_ -> NoDup (insertCV C Set_).
Proof.
  intros HN. unfold insertCV. destruct (existsb (CV_eqb C) Set_) eqn:HE;
    [done|].
  apply NoDup_app. split; [done|]. split; [|apply NoDup_singleton].
  intros X HX ->%list_elem_of_singleton.
  apply existsb_CV_eqb in HX. congruence.
Qed.

Lemma NoDup_insertCVs Cs Set_ : NoDup Set_ -> NoDup (insertCVs Cs Set_).
Proof.
  unfold insertCVs. revert Set_.
  induction Cs as [|C Cs IH]; intros Set_ HN; cbn [foldl]; [done|].
  by apply IH, NoDup_insertCV.
Qed.

End CVarSets.

(** ** Global symbols *)

Section GlobalSymbols.

(** A global definition with a body. *)
Lemma seeFunctionDecl_step F Info N :
  ExternFunctions (seeFunctionDecl F Info) !! N = Some true
  <-> ExternFunctions Info !! N = Some true
      \/ (isGlobal F = true /\ getNameAsString F = N
          /\ isThisDeclarationADefinition F && declHasBody F = true).
Proof.
  unfold seeFunctionDecl. destruct (isGlobal F); cbn [negb ExternFunctions].
  2: { split; [by left|]. by intros [?|[? _]]. }
  destruct (decide (getNameAsString F = N)) as [<-|Hne].
  - destruct (ExternFunctions Info !! getNameAsString F) as [[]|] eqn:HE;
      cbn [from_option id negb]; rewrite lookup_insert_eq.
    + split; [by left|done].
    + split; [intros [= ->]; by right|].
      intros [?|(_ & _ & ->)]; done.
    + split; [intros [= ->]; by right|].
      intros [?|(_ & _ & ->)]; done.
  - destruct (negb _); rewrite lookup_insert_ne by done;
      (split; [by left|]); by intros [?|(_ & ? & _)].
Qed.

Lemma seeFunctionDecl_seen F Info N :
  is_Some (ExternFunctions (seeFunctionDecl F Info) !! N)
  <-> is_Some (ExternFunctions Info !! N)
      \/ (isGlobal F = true /\ getNameAsString F = N).
Proof.
  unfold seeFunctionDecl. destruct (isGlobal F); cbn [negb ExternFunctions].
  2: { split; [by left|]. by intros [?|[? _]]. }
  destruct (decide (getNameAsString F = N)) as [<-|Hne].
  - split; [by right|]. intros _.
    destruct (negb _); rewrite lookup_insert_eq; by eexists.
  - destruct (negb _); rewrite lookup_insert_ne by done;
      (split; [by left|]); by intros [?|[_ ?]].
Qed.

Lemma seeFunctionDecl_others F Info :
  persisted (seeFunctionDecl F Info) = persisted Info
  /\ CS (seeFunctionDecl F Info) = CS Info
  /\ Variables (seeFunctionDecl F Info) = Variables Info
  /\ ExternalFunctionDeclFVCons (seeFunctionDecl F Info)
     = ExternalFunctionDeclFVCons Info.
Proof. unfold seeFunctionDecl. by destruct (isGlobal F). Qed.

End GlobalSymbols.

(** X3.  After any sequence of calls of [seeFunctionDecl], a name is
    recorded with a body exactly when it was before or one of the calls was
    for a global definition of that name with a body, whatever the order
    of the calls; a name is in the map exactly when it was before or a
    global function of that name was seen; and [isAnExternFunction]
    answers yes exactly for the names not recorded with a body, the names
    never seen included. *)
Theorem seeFunctionDecl_records_bodies (Fs : list Decl)
    (Info : ProgramInfo) (N : string) :
  let Info' := foldl (fun I F => seeFunctionDecl F I) Info Fs in
  (ExternFunctions Info' !! N = Some true
   <-> ExternFunctions Info !! N = Some true
       \/ exists F, F ∈ Fs /\ isGlobal F = true /\ getNameAsString F = N
                    /\ isThisDeclarationADefinition F && declHasBody F = true)
  /\ (is_Some (ExternFunctions Info' !! N)
      <-> is_Some (ExternFunctions Info !! N)
          \/ exists F, F ∈ Fs /\ isGlobal F = true /\ getNameAsString F = N)
  /\ ((isAnExternFunction N Info').1 = true
      <-> ExternFunctions Info' !! N <> Some true)
  /\ CS Info' = CS Info /\ Variables Info' = Variables Info.
Proof.
  cbv zeta. revert Info. induction Fs as [|F Fs IH]; intros Info; cbn [foldl].
  - split; [|split; [|split]].
    + split; [by left|]. intros [?|(F & ?%elem_of_nil & _)]; done.
    + split; [by left|]. intros [?|(F & ?%elem_of_nil & _)]; done.
    + unfold isAnExternFunction. cbn [fst].
      destruct (ExternFunctions Info !! N) as [[]|]; cbn; split; done.
    + done.
  - destruct (IH (seeFunctionDecl F Info)) as (IH1 & IH2 & IH3 & IH4 & IH5).
    destruct (seeFunctionDecl_others F Info) as (_ & HC & HV & _).
    split; [|split; [|split]].
    + rewrite IH1, seeFunctionDecl_step. split.
      * intros [[?|(? & ? & ?)]|(G & HG & ?)]; [by left| |].
        -- right. exists F. split; [apply elem_of_cons; by left|done].
        -- right. exists G. split; [apply elem_of_cons; by right|done].
      * intros [?|(G & [->|HG]%elem_of_cons & ?)].
        -- left. by left.
        -- left. by right.
        -- right. by exists G.
    + rewrite IH2, seeFunctionDecl_seen. split.
      * intros [[?|(? & ?)]|(G & HG & ?)]; [by left| |].
        -- right. exists F. split; [apply elem_of_cons; by left|done].
        -- right. exists G. split; [apply elem_of_cons; by right|done].
      * intros [?|(G & [->|HG]%elem_of_cons & ?)].
        -- left. by left.
        -- left. by right.
        -- right. by exists G.
    + exact IH3.
    + split; congruence.
Qed.

(** X4.  [seeGlobalDecl] fails exactly when no pointer variable is
    registered at the position of the declaration.  When it returns, the
    set recorded for the name of the variable holds what it held before
    and the pointer variables of the position, and nothing else; the other
    names, the variables and the constraints are as before. *)
Theorem seeGlobalDecl_collects_pointer_variables (G : Decl)
    (Info : ProgramInfo) :
  let PVs := List.filter isPV (default [] (Variables Info !! mkPSL G)) in
  (seeGlobalDecl G Info = None <-> PVs = [])
  /\ forall Info',
       seeGlobalDecl G Info = Some Info' ->
       Variables Info' = Variables Info
       /\ CS Info' = CS Info
       /\ (forall N, N <> getNameAsString G ->
             GlobalVariableSymbols Info' !! N = GlobalVariableSymbols Info !! N)
       /\ exists New,
            GlobalVariableSymbols Info' !! getNameAsString G = Some New
            /\ forall C,
                 C ∈ New
                 <-> C ∈ default [] (GlobalVariableSymbols Info
                                       !! getNameAsString G)
                     \/ C ∈ PVs.
Proof.
  intros PVs. unfold seeGlobalDecl. fold PVs.
  assert (Hnil : insertCVs PVs [] = [] <-> PVs = []).
  { split; [|by intros ->].
    destruct PVs as [|C PVs']; [done|]. intros HE.
    assert (C ∈ insertCVs (C :: PVs') []) as HC
      by (apply elem_of_insertCVs; right; apply elem_of_cons; by left).
    rewrite HE in HC. by apply elem_of_nil in HC. }
  destruct (insertCVs PVs []) as [|C0 ToAdd] eqn:HT.
  - split; [split; [intros _; by apply Hnil|done]|]. intros Info' [=].
  - split.
    { split; [done|]. intros HE. apply Hnil in HE. discriminate HE. }
    intros Info' [= <-]. cbn [Variables CS GlobalVariableSymbols
                               setGlobalVariableSymbols].
    split; [done|]. split; [done|].
    assert (HAdd : forall C, C ∈ C0 :: ToAdd <-> C ∈ PVs).
    { intros C. rewrite <- HT, elem_of_insertCVs, elem_of_nil. tauto. }
    destruct (GlobalVariableSymbols Info !! getNameAsString G) as [Old|] eqn:HO.
    + split; [intros N HN; by rewrite lookup_insert_ne|].
      eexists. split; [by rewrite lookup_insert_eq|].
      intros C. cbn [from_option id].
      rewrite elem_of_insertCVs, elem_of_insertCV, <- HAdd, elem_of_cons. tauto.
    + split; [intros N HN; by rewrite lookup_insert_ne|].
      eexists. split; [by rewrite lookup_insert_eq|].
      intros C. cbn [from_option id]. rewrite HAdd, elem_of_nil. tauto.
Qed.

(** ** Linking only adds constraints *)

Section OnlyAdds.

Implicit Types (cs : Constraints).

Lemma onlyAdds_refl cs : onlyAdds cs cs.
Proof. by split. Qed.

Lemma onlyAdds_trans cs1 cs2 cs3 :
  onlyAdds cs1 cs2 -> onlyAdds cs2 cs3 -> onlyAdds cs1 cs3.
Proof. intros [H1 H2] [H3 H4]. split; [by etrans|congruence]. Qed.

Lemma onlyAdds_addConstraints l cs : onlyAdds cs (addConstraints l cs).
Proof. split; [by apply prefix_app_r|done]. Qed.

Lemma onlyAdds_foldl {A} (f : Constraints -> A -> Constraints) l :
  (forall cs x, onlyAdds cs (f cs x)) ->
  forall cs, onlyAdds cs (foldl f cs l).
Proof.
  intros Hf. induction l as [|x l IH]; intros cs; cbn [foldl];
    [apply onlyAdds_refl|].
  eapply onlyAdds_trans; [apply (Hf cs x)|apply IH].
Qed.

Lemma onlyAdds_constrainToWild C rsn PL cs :
  onlyAdds cs (constrainToWild C rsn PL cs).
Proof. apply onlyAdds_addConstraints. Qed.

Lemma onlyAdds_constrainConsVarGeq1 L R PL CA cs :
  onlyAdds cs (constrainConsVarGeq1 L R PL CA cs).
Proof. apply onlyAdds_addConstraints. Qed.

Lemma onlyAdds_constrainConsVarGeq Ls Rs PL CA cs :
  onlyAdds cs (constrainConsVarGeq Ls Rs PL CA cs).
Proof.
  unfold constrainConsVarGeq. apply onlyAdds_foldl. intros c x.
  apply onlyAdds_foldl. intros c' y. apply onlyAdds_constrainConsVarGeq1.
Qed.

Lemma onlyAdds_constrainNeighbours C cs :
  onlyAdds cs (constrainNeighbours C cs).
Proof.
  revert cs. induction C as [|V1 C IH]; intros cs; [apply onlyAdds_refl|].
  destruct C as [|V2 C]; [apply onlyAdds_refl|].
  cbn [constrainNeighbours].
  eapply onlyAdds_trans; [|apply IH]. apply onlyAdds_constrainConsVarGeq.
Qed.

Lemma onlyAdds_mergePair P1 P2 cs : onlyAdds cs (mergePair P1 P2 cs).
Proof.
  unfold mergePair.
  eapply onlyAdds_trans;
    [apply (onlyAdds_constrainConsVarGeq (getReturnVars P1)
              (getReturnVars P2) None Same_to_Same)|].
  destruct (Nat.eqb _ _).
  - apply onlyAdds_foldl. intros c x. apply onlyAdds_constrainConsVarGeq.
  - destruct (_ && _); [|apply onlyAdds_refl].
    eapply onlyAdds_trans; apply onlyAdds_constrainToWild.
Qed.

Lemma onlyAdds_mergeDeclsLoop fuel P VI VJ Gap cs cs' Gap' :
  mergeDeclsLoop fuel P VI VJ Gap cs = Some (cs', Gap') -> onlyAdds cs cs'.
Proof.
  revert VI VJ Gap cs. induction fuel as [|fuel IH]; intros VI VJ Gap cs;
    cbn [mergeDeclsLoop].
  - destruct (P !! VJ); [discriminate|]. intros [= <- _]. apply onlyAdds_refl.
  - destruct (P !! VJ) as [P2|]; [|intros [= <- _]; apply onlyAdds_refl].
    destruct (P !! VI) as [P1|]; [|discriminate].
    destruct (hasBody P2); [apply IH|].
    assert (HS : onlyAdds cs
                   (if negb (hasBody P1) && negb false
                    then mergePair P1 P2 cs else cs)).
    { destruct (_ && _); [apply onlyAdds_mergePair|apply onlyAdds_refl]. }
    destruct (negb Gap); intros HR; apply IH in HR;
      by eapply onlyAdds_trans.
Qed.

Lemma onlyAdds_mergeAllDecls Ps Gap cs cs' Gap' :
  mergeAllDecls Ps Gap cs = Some (cs', Gap') -> onlyAdds cs cs'.
Proof.
  revert Gap cs. induction Ps as [|Sym Ps IH]; intros Gap cs;
    cbn [mergeAllDecls].
  - intros [= <- _]. apply onlyAdds_refl.
  - destruct (mergeDecls Sym.2 Gap cs) as [[cs1 g1]|] eqn:HM; [|discriminate].
    intros HR. apply IH in HR.
    eapply onlyAdds_trans; [|exact HR].
    unfold mergeDecls in HM. destruct (decide _).
    + by apply onlyAdds_mergeDeclsLoop in HM.
    + injection HM as <- _. apply onlyAdds_refl.
Qed.

Lemma onlyAdds_constrainExternToWild F G cs :
  onlyAdds cs (constrainExternToWild F G cs).
Proof.
  unfold constrainExternToWild.
  eapply onlyAdds_trans.
  - apply (onlyAdds_foldl
             (fun c U => constrainToWild U
                ("Return value of an external function:" +:+ F) None c)).
    intros c U. apply onlyAdds_constrainToWild.
  - apply onlyAdds_foldl. intros c Ps. apply onlyAdds_foldl.
    intros c' PVar. apply onlyAdds_constrainToWild.
Qed.

Lemma onlyAdds_constrainExterns Us Decls cs cs' :
  constrainExterns Us Decls cs = Some cs' -> onlyAdds cs cs'.
Proof.
  revert cs. induction Us as [|U Us IH]; intros cs; cbn [constrainExterns].
  - intros [= <-]. apply onlyAdds_refl.
  - destruct (_ && _); [|apply IH].
    destruct (Decls !! U.1) as [Gs|]; [|discriminate].
    intros HR. apply IH in HR. eapply onlyAdds_trans; [|exact HR].
    apply onlyAdds_foldl. intros c G. apply onlyAdds_constrainExternToWild.
Qed.

(** The constraints of two neighbours of a set, after the loop over the
    set. *)
Lemma constrainNeighbours_in C cs i V1 V2 e :
  C !! i = Some V1 -> C !! S i = Some V2 ->
  (forall c, e ∈ getConstraints
                   (constrainConsVarGeq [V1] [V2] None Same_to_Same c)) ->
  e ∈ getConstraints (constrainNeighbours C cs).
Proof.
  revert cs i. induction C as [|W1 C IH]; intros cs i; [done|].
  destruct C as [|W2 C]; [by destruct i|].
  intros H1 H2 He. cbn [constrainNeighbours].
  destruct i as [|i].
  - injection H1 as ->. injection H2 as ->.
    eapply prefix_elem_of;
      [apply (onlyAdds_constrainNeighbours (V2 :: C))|apply He].
  - by apply (IH _ i).
Qed.

Lemma link_steps sep Info Info' :
  link sep Info = Some Info' ->
  let cs1 :=
    foldl (fun c V => constrainNeighbours V.2 c) (CS Info)
      (map_to_list (Variables Info)) in
  let cs2 :=
    foldl (fun c V => constrainNeighbours V.2 c) cs1
      (inNameOrder (GlobalVariableSymbols Info)) in
  Info' = setCS Info (CS Info') /\ onlyAdds cs2 (CS Info').
Proof.
  unfold link. intros H.
  destruct (if negb sep then _ else _) as [[cs3 g]|] eqn:H3; [|done].
  destruct (constrainExterns _ _ cs3) as [cs4|] eqn:E; [|done].
  injection H as <-. split; [done|]. cbn [CS setCS].
  eapply onlyAdds_trans; [|by apply onlyAdds_constrainExterns in E].
  destruct sep; cbn [negb] in H3.
  - injection H3 as <- _. apply onlyAdds_refl.
  - by apply onlyAdds_mergeAllDecls in H3.
Qed.

End OnlyAdds.

(** X5.  When the [assert] of its last block holds, [link] returns, and
    all it does is add constraints: the constraints it was given are kept
    in their order at the front, no key is created, and every other
    member of the program information is as before. *)
Theorem link_only_adds_constraints (sep : bool) (Info : ProgramInfo) :
  externsDeclared Info = true ->
  exists Info',
    link sep Info = Some Info'
    /\ Info' = setCS Info (CS Info')
    /\ getConstraints (CS Info) `prefix_of` getConstraints (CS Info')
    /\ freshKey (CS Info') = freshKey (CS Info).
Proof.
  intros HD. destruct (link_total sep Info HD) as [Info' HL].
  exists Info'. split; [exact HL|].
  destruct (link_steps sep Info Info' HL) as [HI HA].
  split; [exact HI|].
  assert (HO : onlyAdds (CS Info) (CS Info')).
  { eapply onlyAdds_trans; [|exact HA].
    eapply onlyAdds_trans.
    - apply (onlyAdds_foldl
               (fun c (V : PersistentSourceLoc * list ConstraintVariable) =>
                  constrainNeighbours V.2 c)).
      intros c V. apply onlyAdds_constrainNeighbours.
    - apply (onlyAdds_foldl
               (fun c (V : string * list ConstraintVariable) =>
                  constrainNeighbours V.2 c)).
      intros c V. apply onlyAdds_constrainNeighbours. }
  exact HO.
Qed.

(** X6.  [link] makes the neighbours of every set of variables equal: for
    two variables that follow each other in the set registered at one
    position, or in the set of one global variable name, every two atoms
    at the same level get the constraints [A >= B] and [B >= A]. *)
Theorem link_equates_neighbours (sep : bool) (Info : ProgramInfo) :
  externsDeclared Info = true ->
  exists Info',
    link sep Info = Some Info'
    /\ forall C i V1 V2 A B,
         ((exists L, Variables Info !! L = Some C)
          \/ (exists N, GlobalVariableSymbols Info !! N = Some C)) ->
         C !! i = Some V1 -> C !! S i = Some V2 ->
         (A, B) ∈ zipAtoms (getCvars V1) (getCvars V2) ->
         CGeq (createGeq A B "" None) ∈ getConstraints (CS Info')
         /\ CGeq (createGeq B A "" None) ∈ getConstraints (CS Info').
Proof.
  intros HD. destruct (link_total sep Info HD) as [Info' HL].
  exists Info'. split; [exact HL|].
  destruct (link_steps sep Info Info' HL) as [_ [HA _]].
  intros C i V1 V2 A B HC H1 H2 HAB.
  assert (Hpair : forall e,
            e ∈ [CGeq (createGeq A B "" None); CGeq (createGeq B A "" None)] ->
            forall c, e ∈ getConstraints
                            (constrainConsVarGeq [V1] [V2] None Same_to_Same c)).
  { intros e He c. unfold constrainConsVarGeq. cbn [foldl].
    unfold constrainConsVarGeq1. rewrite addConstraints_log, elem_of_app.
    right. apply list_elem_of_In, in_flat_map. exists (A, B).
    split; [by apply list_elem_of_In|]. by apply list_elem_of_In. }
  assert (Hn : forall (X : Type) (l : list (X * list ConstraintVariable)) x cs e,
            x ∈ l -> x.2 = C ->
            e ∈ [CGeq (createGeq A B "" None); CGeq (createGeq B A "" None)] ->
            e ∈ getConstraints
                  (foldl (fun c V => constrainNeighbours V.2 c) cs l)).
  { intros X l x cs e Hx HxC He.
    apply (foldl_log_in (fun c (V : X * list ConstraintVariable) =>
                           constrainNeighbours V.2 c) l x e).
    - intros c y. apply onlyAdds_constrainNeighbours.
    - exact Hx.
    - intros c. rewrite HxC. apply (constrainNeighbours_in C c i V1 V2 e H1 H2).
      by apply Hpair. }
  assert (Hboth : forall e,
            e ∈ [CGeq (createGeq A B "" None); CGeq (createGeq B A "" None)] ->
            e ∈ getConstraints (CS Info')).
  { intros e He. eapply prefix_elem_of; [exact HA|].
    destruct HC as [[L HLC]|[N HNC]].
    - eapply prefix_elem_of.
      + apply (onlyAdds_foldl
                 (fun c (V : string * list ConstraintVariable) =>
                    constrainNeighbours V.2 c)).
        intros c V. apply onlyAdds_constrainNeighbours.
      + apply (Hn _ _ (L, C)); [by apply elem_of_map_to_list|done|exact He].
    - apply (Hn _ _ (N, C)); [by apply elem_of_inNameOrder|done|exact He]. }
  split; apply Hboth.
  - apply elem_of_cons. by left.
  - apply elem_of_cons. right. apply elem_of_cons. by left.
Qed.

(** Linking the registered [f] and its parameter [p] adds two constraints
    to a system that had none, and creates no key. *)
Lemma link_only_adds_constraints_witness :
  exists Info',
    link false Examples.pfRegistered = Some Info'
    /\ getConstraints (CS Examples.pfRegistered)
       `prefix_of` getConstraints (CS Info')
    /\ freshKey (CS Info') = 2.
Proof.
  destruct (link_only_adds_constraints false Examples.pfRegistered)
    as (Info' & HL & _ & HP & HF); [vm_compute; reflexivity|].
  exists Info'. split; [exact HL|]. split; [exact HP|].
  rewrite HF. vm_compute. reflexivity.
Defined.

(** The position of [p] holds the variable registered for the parameter
    and the one of the function: their unknowns 0 and 1 are made equal. *)
Lemma link_equates_neighbours_witness :
  exists Info',
    link false Examples.pfRegistered = Some Info'
    /\ CGeq (createGeq (VarAtom 0) (VarAtom 1) "" None)
       ∈ getConstraints (CS Info')
    /\ CGeq (createGeq (VarAtom 1) (VarAtom 0) "" None)
       ∈ getConstraints (CS Info').
Proof.
  destruct (link_equates_neighbours false Examples.pfRegistered)
    as (Info' & HL & H); [vm_compute; reflexivity|].
  exists Info'. split; [exact HL|].
  apply (H [PVConstraint [VarAtom 0] None (defaultPVInfo "p" "char" false);
            PVConstraint [VarAtom 1] None (defaultPVInfo "p" "char" false)]
           0
           (PVConstraint [VarAtom 0] None (defaultPVInfo "p" "char" false))
           (PVConstraint [VarAtom 1] None (defaultPVInfo "p" "char" false))).
  - left. exists ("t.c", 2, 14). vm_compute. reflexivity.
  - reflexivity.
  - reflexivity.
  - apply list_elem_of_here.
Defined.

(** ** The maps of function variables *)

Section FunctionMaps.

Lemma insertIntoExternalFunctionMap_spec Map N ToIns MR M' MR' :
  insertIntoExternalFunctionMap Map N ToIns MR = (M', MR') ->
  (forall N' Old, Map !! N' = Some Old -> M' !! N' = Some Old)
  /\ (forall N', N' <> N -> M' !! N' = Map !! N')
  /\ match Map !! N with
     | Some Old => M' = Map /\ MR' = true
     | None => M' !! N = Some ToIns /\ MR' = MR
     end.
Proof.
  unfold insertIntoExternalFunctionMap.
  destruct (Map !! N) as [Old|] eqn:HN; intros [= <- <-].
  - done.
  - split; [|split].
    + intros N' Old HO. rewrite lookup_insert_ne; [done|]. congruence.
    + intros N' HN'. by rewrite lookup_insert_ne.
    + by rewrite lookup_insert_eq.
Qed.

(** The entry of a name and a file in a map of static functions. *)
Lemma insertIntoStaticFunctionMap_spec Map N File ToIns MR M' MR' :
  let at_ (M : gmap string (gmap string (list ConstraintVariable))) n f :=
    match M !! n with Some Files => Files !! f | None => None end in
  insertIntoStaticFunctionMap Map N File ToIns MR = (M', MR') ->
  (forall n f Old, at_ Map n f = Some Old -> at_ M' n f = Some Old)
  /\ (forall n f, (n, f) <> (N, File) -> at_ M' n f = at_ Map n f)
  /\ match at_ Map N File with
     | Some Old => M' = Map /\ MR' = true
     | None => at_ M' N File = Some ToIns /\ MR' = MR
     end.
Proof.
  intros at_. unfold insertIntoStaticFunctionMap. subst at_. cbv beta.
  destruct (Map !! N) as [Files|] eqn:HN.
  - destruct (Files !! File) as [Old|] eqn:HF; intros [= <- <-].
    + rewrite ?HN, ?HF. done.
    + rewrite ?HN, ?HF, ?lookup_insert_eq.
      assert (Hne : forall n f, (n, f) <> (N, File) ->
                match <[N := <[File := ToIns]> Files]> Map !! n with
                | Some Fs => Fs !! f | None => None end
                = match Map !! n with Some Fs => Fs !! f | None => None end).
      { intros n f Hnf. destruct (decide (n = N)) as [->|Hn].
        - rewrite lookup_insert_eq, HN. rewrite lookup_insert_ne; [done|].
          congruence.
        - by rewrite lookup_insert_ne. }
      split; [|split; [exact Hne|done]].
      intros n f Old HO. rewrite Hne; [done|].
      intros [= -> ->]. rewrite HN, HF in HO. discriminate HO.
  - intros [= <- <-]. rewrite ?HN, ?lookup_insert_eq, ?lookup_singleton_eq.
    assert (Hne : forall n f, (n, f) <> (N, File) ->
              match <[N := {[File := ToIns]}]> Map !! n with
              | Some Fs => Fs !! f | None => None end
              = match Map !! n with Some Fs => Fs !! f | None => None end).
    { intros n f Hnf. destruct (decide (n = N)) as [->|Hn].
      - rewrite lookup_insert_eq, HN. rewrite lookup_singleton_ne; [done|].
        congruence.
      - by rewrite lookup_insert_ne. }
    split; [|split; [exact Hne|done]].
    intros n f Old HO. rewrite Hne; [done|].
    intros [= -> ->]. rewrite HN in HO. discriminate HO.
Qed.

End FunctionMaps.

(** What [insertNewFVConstraints] does to the four maps. *)
Lemma insertNewFVConstraints_look (FD : Decl)
    (FVs : list ConstraintVariable) (Info : ProgramInfo) :
  let Info' := insertNewFVConstraints FD FVs Info in
  let defn := isThisDeclarationADefinition FD && declHasBody FD in
  let look D I :=
    if defn then getFuncDefnConstraints D I else getFuncDeclConstraints D I in
  let other D I :=
    if defn then getFuncDeclConstraints D I else getFuncDefnConstraints D I in
  match look FD Info with
  | Some Old => look FD Info' = Some Old /\ MultipleRewrites Info' = true
  | None =>
      look FD Info' = Some FVs
      /\ MultipleRewrites Info' = MultipleRewrites Info
  end
  /\ (forall D Old, look D Info = Some Old -> look D Info' = Some Old)
  /\ (forall D, other D Info' = other D Info)
  /\ CS Info' = CS Info /\ Variables Info' = Variables Info.
Proof.
  cbv zeta. unfold insertNewFVConstraints, getFuncDefnConstraints,
    getFuncDeclConstraints, getExtFuncDefnConstraintSet,
    getExtFuncDeclConstraintSet, getStaticFuncDefnConstraintSet,
    getStaticFuncDeclConstraintSet.
  destruct (isGlobal FD) eqn:HG;
    destruct (isThisDeclarationADefinition FD && declHasBody FD) eqn:HDef.
  - destruct (insertIntoExternalFunctionMap _ _ _ _) as [M MR] eqn:HI.
    apply insertIntoExternalFunctionMap_spec in HI as (Hkeep & Hne & Hat).
    cbn [ExternalFunctionDefnFVCons ExternalFunctionDeclFVCons
           StaticFunctionDefnFVCons StaticFunctionDeclFVCons
           MultipleRewrites CS Variables].
    split; [|split; [|split; [|done]]].
    + destruct (ExternalFunctionDefnFVCons Info !! getNameAsString FD)
        as [Old|] eqn:HO; [|exact Hat].
      destruct Hat as [-> ->]. by rewrite HO.
    + intros D Old. destruct (isGlobal D); [apply Hkeep|done].
    + intros D. by destruct (isGlobal D).
  - destruct (insertIntoExternalFunctionMap _ _ _ _) as [M MR] eqn:HI.
    apply insertIntoExternalFunctionMap_spec in HI as (Hkeep & Hne & Hat).
    cbn [ExternalFunctionDefnFVCons ExternalFunctionDeclFVCons
           StaticFunctionDefnFVCons StaticFunctionDeclFVCons
           MultipleRewrites CS Variables].
    split; [|split; [|split; [|done]]].
    + destruct (ExternalFunctionDeclFVCons Info !! getNameAsString FD)
        as [Old|] eqn:HO; [|exact Hat].
      destruct Hat as [-> ->]. by rewrite HO.
    + intros D Old. destruct (isGlobal D); [apply Hkeep|done].
    + intros D. by destruct (isGlobal D).
  - destruct (insertIntoStaticFunctionMap _ _ _ _ _) as [M MR] eqn:HI.
    apply insertIntoStaticFunctionMap_spec in HI as (Hkeep & Hne & Hat).
    cbn [ExternalFunctionDefnFVCons ExternalFunctionDeclFVCons
           StaticFunctionDefnFVCons StaticFunctionDeclFVCons
           MultipleRewrites CS Variables].
    split; [|split; [|split; [|done]]].
    + destruct (match StaticFunctionDefnFVCons Info !! getNameAsString FD with
                | Some Files => Files !! getFileName (mkPSL FD)
                | None => None
                end) as [Old|] eqn:HO; [|exact Hat].
      destruct Hat as [-> ->]. by rewrite HO.
    + intros D Old. destruct (isGlobal D); [done|apply Hkeep].
    + intros D. by destruct (isGlobal D).
  - destruct (insertIntoStaticFunctionMap _ _ _ _ _) as [M MR] eqn:HI.
    apply insertIntoStaticFunctionMap_spec in HI as (Hkeep & Hne & Hat).
    cbn [ExternalFunctionDefnFVCons ExternalFunctionDeclFVCons
           StaticFunctionDefnFVCons StaticFunctionDeclFVCons
           MultipleRewrites CS Variables].
    split; [|split; [|split; [|done]]].
    + destruct (match StaticFunctionDeclFVCons Info !! getNameAsString FD with
                | Some Files => Files !! getFileName (mkPSL FD)
                | None => None
                end) as [Old|] eqn:HO; [|exact Hat].
      destruct Hat as [-> ->]. by rewrite HO.
    + intros D Old. destruct (isGlobal D); [done|apply Hkeep].
    + intros D. by destruct (isGlobal D).
Qed.

(** X7.  [insertNewFVConstraints] never replaces a set of function
    variables: when the function (a global name, or a static name in its
    file) already has a set of the kind at hand (definition or
    declaration), that set stays and [MultipleRewrites] is raised;
    otherwise the new set is what [getFuncDefnConstraints], respectively
    [getFuncDeclConstraints], finds afterwards.  Every set found before is
    found afterwards, the sets of the other kind, the variables and the
    constraints are untouched. *)
Theorem insertNewFVConstraints_first_wins (FD : Decl)
    (FVs : list ConstraintVariable) (Info : ProgramInfo) :
  let Info' := insertNewFVConstraints FD FVs Info in
  let defn := isThisDeclarationADefinition FD && declHasBody FD in
  let look D I :=
    if defn then getFuncDefnConstraints D I else getFuncDeclConstraints D I in
  let other D I :=
    if defn then getFuncDeclConstraints D I else getFuncDefnConstraints D I in
  match look FD Info with
  | Some Old => look FD Info' = Some Old /\ MultipleRewrites Info' = true
  | None =>
      look FD Info' = Some FVs
      /\ MultipleRewrites Info' = MultipleRewrites Info
  end
  /\ (forall D Old, look D Info = Some Old -> look D Info' = Some Old)
  /\ (forall D, other D Info' = other D Info)
  /\ CS Info' = CS Info /\ Variables Info' = Variables Info.
Proof. apply insertNewFVConstraints_look. Qed.

Section OnDemand.

Lemma newFVConstraint_log D cs :
  getConstraints (newFVConstraint D cs).2 = getConstraints cs.
Proof.
  unfold newFVConstraint.
  pose proof (newPVConstraint_fresh (getReturnType (getDeclType D))
                (getNameAsString D) false cs) as (H1 & _ & _).
  destruct (newPVConstraint _ _ _ cs) as [RV cs1]. cbn [snd] in H1.
  assert (HP : forall Ps c, getConstraints (newParamVars Ps c).2
                            = getConstraints c).
  { induction Ps as [|P Ps IH]; intros c; cbn [newParamVars]; [done|].
    pose proof (newPVConstraint_fresh (getDeclType P) (getNameAsString P)
                  false c) as (H2 & _ & _).
    destruct (newPVConstraint _ _ _ c) as [V c1]. cbn [snd] in H2.
    specialize (IH c1). destruct (newParamVars Ps c1) as [Vs c2].
    cbn [snd] in *. congruence. }
  specialize (HP (getParamDecls D) cs1).
  destruct (newParamVars _ cs1) as [PVs cs2]. cbn [snd] in *. congruence.
Qed.

End OnDemand.

(** X8.  [getOnDemandFuncDeclarationConstraint] returns the set that
    [getFuncDeclConstraints] finds from then on, and asking again returns
    the same set and changes nothing.  When the function had a set of
    declaration variables already, that set is returned and nothing
    changes at all; otherwise the set is one new function variable marked
    as having no body, and no constraint is added for it.  The sets of
    definition variables and the registered variables are never touched. *)
Theorem getOnDemandFuncDeclarationConstraint_idempotent (D : Decl)
    (Info : ProgramInfo) :
  let Fs := (getOnDemandFuncDeclarationConstraint D Info).1 in
  let Info' := (getOnDemandFuncDeclarationConstraint D Info).2 in
  getFuncDeclConstraints D Info' = Some Fs
  /\ getOnDemandFuncDeclarationConstraint D Info' = (Fs, Info')
  /\ match getFuncDeclConstraints D Info with
     | Some Old => Fs = Old /\ Info' = Info
     | None =>
         Fs = [setHasBody (newFVConstraint D (CS Info)).1 false]
         /\ forallb (fun F => negb (hasBody F)) Fs = true
         /\ getConstraints (CS Info') = getConstraints (CS Info)
     end
  /\ (forall D', getFuncDefnConstraints D' Info'
                 = getFuncDefnConstraints D' Info)
  /\ Variables Info' = Variables Info.
Proof.
  cbv zeta.
  assert (HOne : forall F : ConstraintVariable, insertCV F [] = [F])
    by reflexivity.
  unfold getOnDemandFuncDeclarationConstraint, getFuncDeclConstraints,
    getFuncDefnConstraints, getExtFuncDeclConstraintSet,
    getExtFuncDefnConstraintSet.
  destruct (isGlobal D) eqn:HG.
  - destruct (ExternalFunctionDeclFVCons Info !! getNameAsString D)
      as [Old|] eqn:HO; cbn [fst snd].
    + rewrite HO. done.
    + pose proof (newFVConstraint_log D (CS Info)) as HL.
      destruct (newFVConstraint D (CS Info)) as [F cs]. cbn [fst snd] in *.
      cbn [ExternalFunctionDeclFVCons setDeclMaps CS Variables].
      rewrite lookup_insert_eq, HOne.
      split; [done|]. split; [done|]. split; [|done].
      split; [done|]. split; [|done]. by destruct F.
  - unfold getStaticFuncDeclConstraintSet, getStaticFuncDefnConstraintSet.
    destruct (match StaticFunctionDeclFVCons Info !! getNameAsString D with
              | Some Files => Files !! getFileName (mkPSL D)
              | None => None
              end) as [Old|] eqn:HO; cbn [fst snd].
    + rewrite HO. done.
    + pose proof (newFVConstraint_log D (CS Info)) as HL.
      destruct (newFVConstraint D (CS Info)) as [F cs]. cbn [fst snd] in *.
      cbn [StaticFunctionDeclFVCons setDeclMaps CS Variables].
      rewrite !lookup_insert_eq, HOne.
      split; [done|]. split; [done|]. split; [|done].
      split; [done|]. split; [|done]. by destruct F.
Qed.

(** ** Looking up the variables of a declaration *)

Section LookUp.

Lemma newParamVars_lookup Ps cs i P :
  Ps !! i = Some P ->
  exists V, (newParamVars Ps cs).1 !! i = Some [V] /\ isPV V = true.
Proof.
  revert cs i. induction Ps as [|Q Ps IH]; intros cs i; [done|].
  cbn [newParamVars].
  pose proof (newPVConstraint_isPV (getDeclType Q) (getNameAsString Q)
                false cs) as HQ.
  destruct (newPVConstraint _ _ _ cs) as [X cs1]. cbn [fst] in HQ.
  specialize (IH cs1). destruct (newParamVars Ps cs1) as [Vs cs2].
  cbn [fst] in *. destruct i as [|i]; cbn [lookup list_lookup].
  - intros _. by exists X.
  - apply IH.
Qed.

Lemma newFVConstraint_param D cs i P :
  getParamDecls D !! i = Some P ->
  exists V,
    getParamVar (newFVConstraint D cs).1 i = Some [V] /\ isPV V = true.
Proof.
  intros HP. unfold newFVConstraint, getParamVar.
  destruct (newPVConstraint _ _ _ cs) as [RV cs1].
  pose proof (newParamVars_lookup (getParamDecls D) cs1 i P HP) as H.
  by destruct (newParamVars _ cs1) as [PVs cs2].
Qed.

Lemma addParamMappings_keeps Ps PVs V L C :
  C ∈ lookupVars V L -> C ∈ lookupVars (addParamMappings Ps PVs V) L.
Proof.
  revert PVs V. induction Ps as [|P Ps IH]; intros [|PS PVs] V H;
    cbn [addParamMappings]; try done.
  apply IH. destruct PS as [|C0 PS']; [done|].
  rewrite lookupVars_insertVars. destruct (decide (mkPSL P = L)) as [<-|];
    [|done].
  apply elem_of_insertCVs. by left.
Qed.

Lemma addParamMappings_registered Ps PVs V i P PS C :
  Ps !! i = Some P -> PVs !! i = Some PS -> C ∈ PS ->
  C ∈ lookupVars (addParamMappings Ps PVs V) (mkPSL P).
Proof.
  revert PVs V i. induction Ps as [|Q Ps IH]; intros PVs V i HP HPV HC.
  { rewrite lookup_nil in HP. discriminate HP. }
  destruct PVs as [|QS PVs].
  { rewrite lookup_nil in HPV. discriminate HPV. }
  destruct i as [|i]; cbn [lookup list_lookup addParamMappings] in *.
  - injection HP as ->. injection HPV as ->. apply addParamMappings_keeps.
    destruct PS as [|C0 PS']; [by apply elem_of_nil in HC|].
    rewrite lookupVars_insertVars, decide_True by done.
    apply elem_of_insertCVs. by right.
  - by apply (IH PVs _ i).
Qed.

(** The state after a function was registered for the first time at its
    position. *)
Lemma addVariable_function_state D Info Info' :
  addVariable D Info = Some Info' ->
  isFunctionDecl D = true ->
  hasConstraintType isFV (lookupVars (Variables Info) (mkPSL D)) = false ->
  let F := (newFVConstraint D (CS Info)).1 in
  persisted Info' = false
  /\ (forall D', getFuncDeclConstraints D' Info'
                 = getFuncDeclConstraints D'
                     (insertNewFVConstraints D [F] Info))
  /\ (forall D', getFuncDefnConstraints D' Info'
                 = getFuncDefnConstraints D'
                     (insertNewFVConstraints D [F] Info))
  /\ Variables Info'
     = addParamMappings (getParamDecls D) (getParamVars F)
         (insertVars (mkPSL D) [F]
            (<[mkPSL D := lookupVars (Variables Info) (mkPSL D)]>
               (Variables Info))).
Proof.
  intros H HF Hh. cbv zeta.
  assert (HM : forall X : ProgramInfo,
            ExternalFunctionDeclFVCons X = ExternalFunctionDeclFVCons Info ->
            ExternalFunctionDefnFVCons X = ExternalFunctionDefnFVCons Info ->
            StaticFunctionDeclFVCons X = StaticFunctionDeclFVCons Info ->
            StaticFunctionDefnFVCons X = StaticFunctionDefnFVCons Info ->
            MultipleRewrites X = MultipleRewrites Info ->
            forall Fs,
              (forall D', getFuncDeclConstraints D'
                            (insertNewFVConstraints D Fs X)
                          = getFuncDeclConstraints D'
                              (insertNewFVConstraints D Fs Info))
              /\ (forall D', getFuncDefnConstraints D'
                               (insertNewFVConstraints D Fs X)
                             = getFuncDefnConstraints D'
                                 (insertNewFVConstraints D Fs Info))).
  { intros X H1 H2 H3 H4 H5 Fs.
    unfold insertNewFVConstraints, getFuncDeclConstraints,
      getFuncDefnConstraints, getExtFuncDeclConstraintSet,
      getExtFuncDefnConstraintSet, getStaticFuncDeclConstraintSet,
      getStaticFuncDefnConstraintSet.
    rewrite H1, H2, H3, H4, H5.
    destruct (isGlobal D), (isThisDeclarationADefinition D && declHasBody D);
      repeat match goal with
             | |- context [let '(_, _) := ?x in _] => destruct x
             end;
      cbn [ExternalFunctionDeclFVCons ExternalFunctionDefnFVCons
             StaticFunctionDeclFVCons StaticFunctionDefnFVCons];
      rewrite ?H1, ?H2, ?H3, ?H4; done. }
  unfold addVariable in H.
  destruct (persisted Info) eqn:Hp; [done|].
  destruct (valid (mkPSL D)) eqn:Hv; [|done]. cbn [negb] in H.
  cbn [Variables setVariables CS persisted] in H.
  rewrite lookupVars_touch, HF, Hh in H.
  destruct (isFunctionType (getDeclType D)); [|done]. cbn [negb] in H.
  destruct (newFVConstraint D (CS Info)) as [F cs1] eqn:EF.
  cbn [Variables setVariables CS setCS persisted fst] in H |- *.
  destruct (Nat.eqb _ _); [|done]. cbn [negb] in H.
  match type of H with
  | context [insertNewFVConstraints D [F] ?X] =>
      destruct (HM X eq_refl eq_refl eq_refl eq_refl eq_refl [F])
        as [HDecl HDefn];
      pose proof (Variables_insertNewFVConstraints D [F] X) as HV;
      pose proof (persisted_insertNewFVConstraints D [F] X) as HPers
  end.
  cbn [Variables setVariables CS setCS persisted] in HV, HPers.
  destruct (isRewritable D); cbn [negb] in H; injection H as <-;
    cbn [Variables setVariables CS setCS persisted];
    (split; [by rewrite HPers|]);
    (split; [exact HDecl|]);
    (split; [exact HDefn|]);
    by rewrite HV.
Qed.

End LookUp.

(** X9.  A function registered for the first time, and its parameters:
    looking a parameter up through the function (in the context of the
    function for a definition, outside it for a declaration) finds exactly
    one pointer variable, changes nothing, and that variable is registered
    at the position of the parameter, where the look-up by position finds
    it. *)
Theorem getVariableOnDemand_finds_registered_parameter (FD : Decl)
    (Info Info' : ProgramInfo) (i : nat) (PVD : Decl) :
  let defn := isThisDeclarationADefinition FD && declHasBody FD in
  addVariable FD Info = Some Info' ->
  isFunctionDecl FD = true ->
  hasConstraintType isFV (lookupVars (Variables Info) (mkPSL FD)) = false ->
  (if defn then getFuncDefnConstraints FD Info
   else getFuncDeclConstraints FD Info) = None ->
  getParamDecls FD !! i = Some PVD ->
  isParmVarDecl PVD = true ->
  findParamIndex (getParamDecls FD) PVD 0 = Some i ->
  exists V,
    getVariableOnDemand PVD (Some FD) defn Info' = Some ([V], Info')
    /\ isPV V = true
    /\ V ∈ lookupVars (Variables Info') (mkPSL PVD)
    /\ getVariableAt FD (Some i) Info'
       = Some (lookupVars (Variables Info') (mkPSL PVD)).
Proof.
  intros defn HA HF Hh Hnone HP HPk Hidx.
  destruct (addVariable_function_state FD Info Info' HA HF Hh)
    as (Hpers & HDecl & HDefn & HV).
  destruct (newFVConstraint_param FD (CS Info) i PVD HP) as (V & HPV & HVpv).
  set (F := (newFVConstraint FD (CS Info)).1) in *.
  pose proof (insertNewFVConstraints_look FD [F] Info) as (Hlook & _).
  cbv zeta in Hlook. fold defn in Hlook. rewrite Hnone in Hlook.
  destruct Hlook as [Hlook _].
  assert (HFs : getFuncFVConstraints FD Info' defn = ([F], Info')).
  { unfold getFuncFVConstraints. destruct defn eqn:Hd.
    - rewrite <- HDefn in Hlook. unfold getFuncDefnConstraints in Hlook.
      by rewrite Hlook.
    - rewrite <- HDecl in Hlook.
      unfold getOnDemandFuncDeclarationConstraint.
      unfold getFuncDeclConstraints, getExtFuncDeclConstraintSet in Hlook.
      destruct (isGlobal FD); by rewrite Hlook. }
  assert (HReg : V ∈ lookupVars (Variables Info') (mkPSL PVD)).
  { rewrite HV. apply (addParamMappings_registered _ _ _ i PVD [V]);
      [exact HP|exact HPV|]. apply elem_of_cons. by left. }
  exists V. split; [|split; [exact HVpv|split; [exact HReg|]]].
  - unfold getVariableOnDemand. rewrite Hpers, HPk, HF, Hidx. cbn [orb].
    rewrite HFs. cbn [collectParamCons]. rewrite HPV. reflexivity.
  - unfold getVariableAt. rewrite HP. unfold lookupVars in HReg |- *.
    destruct (Variables Info' !! mkPSL PVD) as [Vs|]; [done|].
    by apply elem_of_nil in HReg.
Qed.

(** After the definition of [f] is registered, its parameter [p] is found
    on demand, and it is the variable at position 0 of [f]. *)
Lemma getVariableOnDemand_finds_registered_parameter_witness :
  exists V,
    getVariableOnDemand Examples.pDecl (Some Examples.fDecl) true
      Examples.pfRegistered
    = Some ([V], Examples.pfRegistered)
    /\ isPV V = true.
Proof.
  destruct (getVariableOnDemand_finds_registered_parameter Examples.fDecl
              Examples.pRegistered Examples.pfRegistered 0 Examples.pDecl)
    as (V & HV & HP & _); try (vm_compute; reflexivity).
  exists V. split; [exact HV|exact HP].
Defined.

(** ** Definitions against declarations *)

Section DefnDecl.

Implicit Types (cs : Constraints).

Lemma onlyAdds_constrainParams DePs DelPs cs :
  onlyAdds cs (constrainParams DePs DelPs cs).
Proof.
  revert DelPs cs. induction DePs as [|P DePs IH]; intros [|Q DelPs] cs;
    cbn [constrainParams]; try apply onlyAdds_refl.
  eapply onlyAdds_trans; [apply onlyAdds_constrainConsVarGeq|apply IH].
Qed.

Lemma applyDefnDecl_spec DeFV DelFV cs :
  (is_Some (applyDefnDecl DeFV DelFV cs)
   <-> numParams DeFV = numParams DelFV)
  /\ forall cs', applyDefnDecl DeFV DelFV cs = Some cs' -> onlyAdds cs cs'.
Proof.
  unfold applyDefnDecl. destruct (Nat.eqb_spec (numParams DeFV) (numParams DelFV)).
  - split; [split; [done|by eexists]|]. intros cs' [= <-].
    eapply onlyAdds_trans; [apply onlyAdds_constrainConsVarGeq|].
    apply onlyAdds_constrainParams.
  - split; [split; [by intros [? ?]|done]|]. intros cs' [=].
Qed.

Lemma applyDefnDecls_spec DeFV Decls cs :
  (is_Some (applyDefnDecls DeFV Decls cs)
   <-> forall DelFV, DelFV ∈ Decls -> numParams DeFV = numParams DelFV)
  /\ forall cs', applyDefnDecls DeFV Decls cs = Some cs' -> onlyAdds cs cs'.
Proof.
  revert cs. induction Decls as [|D Decls IH]; intros cs;
    cbn [applyDefnDecls].
  - split; [split; [by intros _ ? ?%elem_of_nil|by eexists]|].
    intros cs' [= <-]. apply onlyAdds_refl.
  - destruct (applyDefnDecl_spec DeFV D cs) as [H1 H2].
    destruct (applyDefnDecl DeFV D cs) as [cs1|].
    + destruct (IH cs1) as [IH1 IH2]. split.
      * rewrite IH1. split.
        -- intros HA X [->|HX]%elem_of_cons; [|by apply HA].
           apply H1. by eexists.
        -- intros HA X HX. apply HA, elem_of_cons. by right.
      * intros cs' HR. eapply onlyAdds_trans; [by apply H2|by apply IH2].
    + split; [|intros cs' [=]]. split; [by intros [? ?]|].
      intros HA. exfalso.
      assert (is_Some (@None Constraints)) as [? ?]; [|done].
      apply H1, HA, elem_of_cons. by left.
Qed.

Lemma applyFunctionDefnDeclsConstraints_spec Defs Decls cs :
  (is_Some (applyFunctionDefnDeclsConstraints Defs Decls cs)
   <-> forall DeFV DelFV, DeFV ∈ Defs -> DelFV ∈ Decls ->
                          numParams DeFV = numParams DelFV)
  /\ forall cs',
       applyFunctionDefnDeclsConstraints Defs Decls cs = Some cs' ->
       onlyAdds cs cs'.
Proof.
  revert cs. induction Defs as [|D Defs IH]; intros cs;
    cbn [applyFunctionDefnDeclsConstraints].
  - split; [split; [by intros _ ? ? ?%elem_of_nil|by eexists]|].
    intros cs' [= <-]. apply onlyAdds_refl.
  - destruct (applyDefnDecls_spec D Decls cs) as [H1 H2].
    destruct (applyDefnDecls D Decls cs) as [cs1|].
    + destruct (IH cs1) as [IH1 IH2]. split.
      * rewrite IH1. split.
        -- intros HA X Y [->|HX]%elem_of_cons HY; [|by apply HA].
           apply H1; [by eexists|done].
        -- intros HA X Y HX HY. apply HA; [|done]. apply elem_of_cons.
           by right.
      * intros cs' HR. eapply onlyAdds_trans; [by apply H2|by apply IH2].
    + split; [|intros cs' [=]]. split; [by intros [? ?]|].
      intros HA. exfalso.
      assert (is_Some (@None Constraints)) as [? ?]; [|done].
      apply H1. intros Y HY. apply HA; [|done]. apply elem_of_cons. by left.
Qed.

Lemma linkExternalDefs_spec Defs Decls cs :
  (is_Some (linkExternalDefs Defs Decls cs)
   <-> forall Def DeclFVs DeFV DelFV,
         Def ∈ Defs -> Decls !! Def.1 = Some DeclFVs ->
         DeFV ∈ Def.2 -> DelFV ∈ DeclFVs ->
         numParams DeFV = numParams DelFV)
  /\ forall cs', linkExternalDefs Defs Decls cs = Some cs' -> onlyAdds cs cs'.
Proof.
  revert cs. induction Defs as [|D Defs IH]; intros cs;
    cbn [linkExternalDefs].
  - split; [split; [by intros _ ? ? ? ? ?%elem_of_nil|by eexists]|].
    intros cs' [= <-]. apply onlyAdds_refl.
  - destruct (Decls !! D.1) as [DeclFVs|] eqn:HD.
    + destruct (applyFunctionDefnDeclsConstraints_spec D.2 DeclFVs cs)
        as [H1 H2].
      destruct (applyFunctionDefnDeclsConstraints D.2 DeclFVs cs) as [cs1|].
      * destruct (IH cs1) as [IH1 IH2]. split.
        -- rewrite IH1. split.
           ++ intros HA X Ds De Del [->|HX]%elem_of_cons HDs HDe HDel;
                [|by apply (HA X Ds)].
              rewrite HD in HDs. injection HDs as <-.
              apply H1; [by eexists|done|done].
           ++ intros HA X Ds De Del HX. apply HA, elem_of_cons. by right.
        -- intros cs' HR. eapply onlyAdds_trans; [by apply H2|by apply IH2].
      * split; [|intros cs' [=]]. split; [by intros [? ?]|].
        intros HA. exfalso.
        assert (is_Some (@None Constraints)) as [? ?]; [|done].
        apply H1. intros X Y HX HY.
        apply (HA D DeclFVs); [apply elem_of_cons; by left|done|done|done].
    + destruct (IH cs) as [IH1 IH2]. split; [|exact IH2].
      rewrite IH1. split.
      * intros HA X Ds De Del [->|HX]%elem_of_cons HDs; [congruence|].
        by apply (HA X Ds).
      * intros HA X Ds De Del HX. apply HA, elem_of_cons. by right.
Qed.

Lemma linkStaticFiles_spec N Files Decls cs :
  (is_Some (linkStaticFiles N Files Decls cs)
   <-> forall StI DF DeclFVs DeFV DelFV,
         StI ∈ Files -> Decls !! N = Some DF -> DF !! StI.1 = Some DeclFVs ->
         DeFV ∈ StI.2 -> DelFV ∈ DeclFVs ->
         numParams DeFV = numParams DelFV)
  /\ forall cs', linkStaticFiles N Files Decls cs = Some cs' -> onlyAdds cs cs'.
Proof.
  revert cs. induction Files as [|D Files IH]; intros cs;
    cbn [linkStaticFiles].
  - split; [split; [by intros _ ? ? ? ? ? ?%elem_of_nil|by eexists]|].
    intros cs' [= <-]. apply onlyAdds_refl.
  - destruct (match Decls !! N with Some DF => DF !! D.1 | None => None end)
      as [DeclFVs|] eqn:HD.
    + destruct (applyFunctionDefnDeclsConstraints_spec D.2 DeclFVs cs)
        as [H1 H2].
      destruct (applyFunctionDefnDeclsConstraints D.2 DeclFVs cs) as [cs1|].
      * destruct (IH cs1) as [IH1 IH2]. split.
        -- rewrite IH1. split.
           ++ intros HA X DF Ds De Del [->|HX]%elem_of_cons HDF HDs HDe HDel;
                [|by apply (HA X DF Ds)].
              rewrite HDF, HDs in HD. injection HD as <-.
              apply H1; [by eexists|done|done].
           ++ intros HA X DF Ds De Del HX. apply HA, elem_of_cons. by right.
        -- intros cs' HR. eapply onlyAdds_trans; [by apply H2|by apply IH2].
      * split; [|intros cs' [=]]. split; [by intros [? ?]|].
        intros HA. exfalso.
        assert (is_Some (@None Constraints)) as [? ?]; [|done].
        apply H1. intros X Y HX HY.
        destruct (Decls !! N) as [DF|] eqn:HN; [|done].
        apply (HA D DF DeclFVs); [apply elem_of_cons; by left|done..].
    + destruct (IH cs) as [IH1 IH2]. split; [|exact IH2].
      rewrite IH1. split.
      * intros HA X DF Ds De Del [->|HX]%elem_of_cons HDF HDs;
          [rewrite HDF, HDs in HD; discriminate HD|].
        by apply (HA X DF Ds).
      * intros HA X DF Ds De Del HX. apply HA, elem_of_cons. by right.
Qed.

Lemma linkStaticDefs_spec Defs Decls cs :
  (is_Some (linkStaticDefs Defs Decls cs)
   <-> forall Def File DefFVs DF DeclFVs DeFV DelFV,
         Def ∈ Defs -> Def.2 !! File = Some DefFVs ->
         Decls !! Def.1 = Some DF -> DF !! File = Some DeclFVs ->
         DeFV ∈ DefFVs -> DelFV ∈ DeclFVs ->
         numParams DeFV = numParams DelFV)
  /\ forall cs', linkStaticDefs Defs Decls cs = Some cs' -> onlyAdds cs cs'.
Proof.
  revert cs. induction Defs as [|D Defs IH]; intros cs;
    cbn [linkStaticDefs].
  - split; [split; [by intros _ ? ? ? ? ? ? ? ?%elem_of_nil|by eexists]|].
    intros cs' [= <-]. apply onlyAdds_refl.
  - destruct (linkStaticFiles_spec D.1 (inNameOrder D.2) Decls cs)
      as [H1 H2].
    destruct (linkStaticFiles D.1 (inNameOrder D.2) Decls cs) as [cs1|].
    + destruct (IH cs1) as [IH1 IH2]. split.
      * rewrite IH1. split.
        -- intros HA X File DFs DF Ds De Del [->|HX]%elem_of_cons
             HFile HDF HDs HDe HDel; [|by apply (HA X File DFs DF Ds)].
           assert (HS : is_Some (Some cs1)) by by eexists.
           apply (proj1 H1 HS (File, DFs) DF Ds);
             [by apply elem_of_inNameOrder|done..].
        -- intros HA X File DFs DF Ds De Del HX. apply HA, elem_of_cons.
           by right.
      * intros cs' HR. eapply onlyAdds_trans; [by apply H2|by apply IH2].
    + split; [|intros cs' [=]]. split; [by intros [? ?]|].
      intros HA. exfalso.
      assert (is_Some (@None Constraints)) as [? ?]; [|done].
      apply H1. intros [File DFs] DF Ds De Del HX%elem_of_inNameOrder.
      cbn [fst snd]. intros HDF HDs HDe HDel.
      apply (HA D File DFs DF Ds); [apply elem_of_cons; by left|done..].
Qed.

End DefnDecl.

(** X10.  [addFunctionDefDeclConstraints] returns exactly when every
    definition agrees in its number of parameters with every declaration
    of the same function (of the same name for global functions, of the
    same name and file for static ones); otherwise its [assert] fails.
    When it returns it has only added constraints: the earlier ones are
    kept at the front, no key is created and nothing else changes. *)
Theorem addFunctionDefDeclConstraints_arity (Info : ProgramInfo) :
  (is_Some (addFunctionDefDeclConstraints Info)
   <-> (forall N DefFVs DeclFVs DeFV DelFV,
          ExternalFunctionDefnFVCons Info !! N = Some DefFVs ->
          ExternalFunctionDeclFVCons Info !! N = Some DeclFVs ->
          DeFV ∈ DefFVs -> DelFV ∈ DeclFVs ->
          numParams DeFV = numParams DelFV)
       /\ (forall N File DefFVs DeclFVs DeFV DelFV,
             getStaticFuncDefnConstraintSet Info N File = Some DefFVs ->
             getStaticFuncDeclConstraintSet Info N File = Some DeclFVs ->
             DeFV ∈ DefFVs -> DelFV ∈ DeclFVs ->
             numParams DeFV = numParams DelFV))
  /\ forall Info',
       addFunctionDefDeclConstraints Info = Some Info' ->
       Info' = setCS Info (CS Info')
       /\ getConstraints (CS Info) `prefix_of` getConstraints (CS Info')
       /\ freshKey (CS Info') = freshKey (CS Info).
Proof.
  unfold addFunctionDefDeclConstraints, getStaticFuncDefnConstraintSet,
    getStaticFuncDeclConstraintSet.
  destruct (linkExternalDefs_spec
              (inNameOrder (ExternalFunctionDefnFVCons Info))
              (ExternalFunctionDeclFVCons Info) (CS Info)) as [HE1 HE2].
  assert (HExt : (forall Def DeclFVs DeFV DelFV,
                    Def ∈ inNameOrder (ExternalFunctionDefnFVCons Info) ->
                    ExternalFunctionDeclFVCons Info !! Def.1 = Some DeclFVs ->
                    DeFV ∈ Def.2 -> DelFV ∈ DeclFVs ->
                    numParams DeFV = numParams DelFV)
                 <-> (forall N DefFVs DeclFVs DeFV DelFV,
                        ExternalFunctionDefnFVCons Info !! N = Some DefFVs ->
                        ExternalFunctionDeclFVCons Info !! N = Some DeclFVs ->
                        DeFV ∈ DefFVs -> DelFV ∈ DeclFVs ->
                        numParams DeFV = numParams DelFV)).
  { split.
    - intros HA N DefFVs DeclFVs De Del HN HD.
      apply (HA (N, DefFVs) DeclFVs); [by apply elem_of_inNameOrder|done].
    - intros HA [N DefFVs] DeclFVs De Del HN%elem_of_inNameOrder HD.
      by apply (HA N DefFVs DeclFVs). }
  assert (HSta : forall cs : Constraints,
            (forall Def File DefFVs DF DeclFVs DeFV DelFV,
               Def ∈ inNameOrder (StaticFunctionDefnFVCons Info) ->
               Def.2 !! File = Some DefFVs ->
               StaticFunctionDeclFVCons Info !! Def.1 = Some DF ->
               DF !! File = Some DeclFVs ->
               DeFV ∈ DefFVs -> DelFV ∈ DeclFVs ->
               numParams DeFV = numParams DelFV)
            <-> (forall N File DefFVs DeclFVs DeFV DelFV,
                   match StaticFunctionDefnFVCons Info !! N with
                   | Some Files => Files !! File
                   | None => None
                   end = Some DefFVs ->
                   match StaticFunctionDeclFVCons Info !! N with
                   | Some Files => Files !! File
                   | None => None
                   end = Some DeclFVs ->
                   DeFV ∈ DefFVs -> DelFV ∈ DeclFVs ->
                   numParams DeFV = numParams DelFV)).
  { intros _. split.
    - intros HA N File DefFVs DeclFVs De Del HN HD.
      destruct (StaticFunctionDefnFVCons Info !! N) as [Fs|] eqn:HFs; [|done].
      destruct (StaticFunctionDeclFVCons Info !! N) as [DF|] eqn:HDF; [|done].
      apply (HA (N, Fs) File DefFVs DF DeclFVs);
        [by apply elem_of_inNameOrder|done..].
    - intros HA [N Fs] File DefFVs DF DeclFVs De Del HN%elem_of_inNameOrder.
      cbn [fst snd]. intros HFile HDF HDs.
      apply (HA N File DefFVs DeclFVs); [by rewrite HN|by rewrite HDF]. }
  destruct (linkExternalDefs _ _ (CS Info)) as [cs1|] eqn:HL1.
  - destruct (linkStaticDefs_spec
                (inNameOrder (StaticFunctionDefnFVCons Info))
                (StaticFunctionDeclFVCons Info) cs1) as [HS1 HS2].
    destruct (linkStaticDefs _ _ cs1) as [cs2|] eqn:HL2.
    + split.
      * split; [|by eexists]. intros _. split.
        -- apply HExt, HE1. by eexists.
        -- apply (HSta cs1), HS1. by eexists.
      * intros Info' [= <-]. cbn [CS setCS]. split; [done|].
        apply (onlyAdds_trans _ cs1); [by apply HE2|by apply HS2].
    + split; [|intros Info' [=]]. split; [by intros [? ?]|].
      intros [_ HA]. exfalso.
      assert (is_Some (@None Constraints)) as [? ?]; [|done].
      by apply HS1, (HSta cs1).
  - split; [|intros Info' [=]]. split; [by intros [? ?]|].
    intros [HA _]. exfalso.
    assert (is_Some (@None Constraints)) as [? ?]; [|done].
    by apply HE1, HExt.
Qed.

(** ** The remaining sets of the root-cause analysis *)

Section RootCauseSets.

Implicit Types (D : DisjointSet) (W : gset nat).

(** The two first loops never write the three remaining sets. *)
Lemma AddElements_sources a b D :
  AllWildPtrs (AddElements a b D) = AllWildPtrs D
  /\ PtrSourceMap (AddElements a b D) = PtrSourceMap D
  /\ ValidSourceFiles (AddElements a b D) = ValidSourceFiles D.
Proof.
  unfold AddElements.
  destruct (Leaders D !! a), (Leaders D !! b); try done.
  by destruct (decide _).
Qed.

Lemma recordConstraints_sources Cs D W D' W' :
  recordConstraints Cs (D, W) = Some (D', W') ->
  AllWildPtrs D' = AllWildPtrs D
  /\ PtrSourceMap D' = PtrSourceMap D
  /\ ValidSourceFiles D' = ValidSourceFiles D.
Proof.
  revert D W. induction Cs as [|c Cs IH]; intros D W; cbn [recordConstraints].
  - by intros [= <- <-].
  - destruct (recordConstraint c (D, W)) as [[D1 W1]|] eqn:Hc; [|done].
    intros Hrec. apply IH in Hrec. destruct Hrec as (-> & -> & ->).
    unfold recordConstraint in Hc.
    destruct c as [[L R rsn PL]|p q]; cbn [getLHS getRHS] in Hc.
    + destruct R as [r|[]], L as [l|cl]; try done;
        injection Hc as <- <-; try done.
      apply AddElements_sources.
    + by injection Hc as <- <-.
Qed.

Lemma adjustLeaders_sources ws D :
  AllWildPtrs (foldl (fun d k => adjustLeader k d) D ws) = AllWildPtrs D
  /\ PtrSourceMap (foldl (fun d k => adjustLeader k d) D ws) = PtrSourceMap D
  /\ ValidSourceFiles (foldl (fun d k => adjustLeader k d) D ws) = ValidSourceFiles D.
Proof.
  revert D. induction ws as [|w ws IH]; intros D; cbn [foldl]; [done|].
  destruct (IH (adjustLeader w D)) as (-> & -> & ->).
  unfold adjustLeader. destruct (Leaders D !! w); [|done].
  by destruct (RealWildPtrsWithReasons D !! _).
Qed.

Lemma elem_of_allWild_fold W (Gs : list (nat * gset nat)) (acc : gset nat) x :
  x ∈ foldl (fun acc (G : nat * gset nat) =>
               let WildCkeys := G.2 ∩ W in
               if decide (WildCkeys = ∅) then acc else WildCkeys ∪ acc)
        acc Gs
  <-> x ∈ acc \/ exists l g, (l, g) ∈ Gs /\ x ∈ g /\ x ∈ W.
Proof.
  revert acc. induction Gs as [|[l g] Gs IH]; intros acc; cbn [foldl].
  - split; [by left|]. intros [?|(? & ? & H & _)]; [done|].
    by apply elem_of_nil in H.
  - rewrite IH. cbn [snd]. split.
    + intros [Hx|(l' & g' & Hin & ? & ?)].
      * destruct (decide (g ∩ W = ∅)); [by left|].
        apply elem_of_union in Hx as [[? ?]%elem_of_intersection|?];
          [right|by left].
        exists l, g. split; [apply list_elem_of_here|done].
      * right. exists l', g'. split; [by apply list_elem_of_further|done].
    + intros [Hx|(l' & g' & [[= -> ->]|Hin]%elem_of_cons & Hg & HW)].
      * left. destruct (decide _); set_solver.
      * left. destruct (decide _); set_solver.
      * right. by exists l', g'.
Qed.

Lemma elem_of_allWildInGroups D W x :
  x ∈ allWildInGroups D W
  <-> exists l g, Groups D !! l = Some g /\ x ∈ g /\ x ∈ W.
Proof.
  unfold allWildInGroups. rewrite elem_of_allWild_fold. split.
  - intros [?|(l & g & Hlg & ?)]; [set_solver|].
    exists l, g. split; [by apply elem_of_map_to_list|done].
  - intros (l & g & Hlg & ?). right. exists l, g.
    split; [by apply elem_of_map_to_list|done].
Qed.

Lemma recordSources_AllWildPtrs canWrite Vars D :
  AllWildPtrs (recordSources canWrite Vars D) = AllWildPtrs D.
Proof.
  unfold recordSources. revert D.
  induction Vars as [|LS Vars IH]; intros D; cbn [foldl]; [done|].
  destruct (canWrite _); [|apply IH].
  match goal with |- context [foldl _ ?d Vars] => by rewrite (IH d) end.
Qed.

(** The inner loops of the loop over [Variables]. *)
Lemma mapAtomsTo_lookup L As (M : gmap nat PersistentSourceLoc) k L' :
  mapAtomsTo L As M !! k = Some L'
  -> M !! k = Some L' \/ (L' = L /\ VarAtom k ∈ As).
Proof.
  unfold mapAtomsTo. revert M.
  induction As as [|A As IH]; intros M; cbn [foldl]; [by left|].
  intros [H|[-> H]]%IH.
  - destruct A as [k'|c]; [|by left].
    destruct (decide (k' = k)) as [->|Hne].
    + rewrite lookup_insert_eq in H. injection H as <-.
      right. split; [done|apply list_elem_of_here].
    + rewrite lookup_insert_ne in H by done. by left.
  - right. split; [done|by apply list_elem_of_further].
Qed.

Lemma mapAtomsTo_dom L As (M : gmap nat PersistentSourceLoc) k :
  is_Some (M !! k) \/ VarAtom k ∈ As -> is_Some (mapAtomsTo L As M !! k).
Proof.
  unfold mapAtomsTo. revert M.
  induction As as [|A As IH]; intros M; cbn [foldl].
  - intros [?|H]; [done|by apply elem_of_nil in H].
  - intros [HM|[<-|H]%elem_of_cons]; apply IH.
    + left. destruct A as [k'|c]; [|done].
      destruct (decide (k' = k)) as [->|Hne];
        [rewrite lookup_insert_eq; by eexists
        |by rewrite lookup_insert_ne by done].
    + left. cbn. rewrite lookup_insert_eq. by eexists.
    + by right.
Qed.

Lemma mapSet_lookup L (Cs : list ConstraintVariable)
    (M : gmap nat PersistentSourceLoc) k L' :
  foldl (fun m CV => mapAtomsTo L (sourceAtoms CV) m) M Cs !! k = Some L'
  -> M !! k = Some L'
     \/ (L' = L /\ exists CV, CV ∈ Cs /\ VarAtom k ∈ sourceAtoms CV).
Proof.
  revert M. induction Cs as [|C Cs IH]; intros M; cbn [foldl]; [by left|].
  intros [[H|[-> H]]%mapAtomsTo_lookup|[-> (CV & ? & ?)]]%IH.
  - by left.
  - right. split; [done|]. exists C. split; [apply list_elem_of_here|done].
  - right. split; [done|]. exists CV.
    split; [by apply list_elem_of_further|done].
Qed.

Lemma mapSet_dom L (Cs : list ConstraintVariable)
    (M : gmap nat PersistentSourceLoc) k :
  is_Some (M !! k) \/ (exists CV, CV ∈ Cs /\ VarAtom k ∈ sourceAtoms CV)
  -> is_Some (foldl (fun m CV => mapAtomsTo L (sourceAtoms CV) m) M Cs !! k).
Proof.
  revert M. induction Cs as [|C Cs IH]; intros M; cbn [foldl].
  - intros [?|(? & H & _)]; [done|by apply elem_of_nil in H].
  - intros [HM|(CV & [<-|H]%elem_of_cons & HA)]; apply IH.
    + left. apply mapAtomsTo_dom. by left.
    + left. apply mapAtomsTo_dom. by right.
    + right. by exists CV.
Qed.

Lemma recordSources_spec canWrite
    (Vars : list (PersistentSourceLoc * CVarSet)) D :
  let D' := recordSources canWrite Vars D in
  (forall F, F ∈ ValidSourceFiles D'
             <-> F ∈ ValidSourceFiles D
                 \/ exists LS, LS ∈ Vars /\ getFileName LS.1 = F
                               /\ canWrite F = true)
  /\ (forall k L, PtrSourceMap D' !! k = Some L ->
        PtrSourceMap D !! k = Some L
        \/ exists Cs CV, (L, Cs) ∈ Vars /\ canWrite (getFileName L) = true
                         /\ CV ∈ Cs /\ VarAtom k ∈ sourceAtoms CV)
  /\ (forall k, is_Some (PtrSourceMap D !! k)
                \/ (exists L Cs CV,
                      (L, Cs) ∈ Vars /\ canWrite (getFileName L) = true
                      /\ CV ∈ Cs /\ VarAtom k ∈ sourceAtoms CV)
                -> is_Some (PtrSourceMap D' !! k)).
Proof.
  unfold recordSources. revert D.
  induction Vars as [|[L Cs] Vars IH]; intros D; cbn [foldl].
  - split; [|split].
    + intros F. split; [by left|]. intros [?|(? & H & _)]; [done|].
      by apply elem_of_nil in H.
    + intros k L H. by left.
    + intros k [?|(? & ? & ? & H & _)]; [done|by apply elem_of_nil in H].
  - cbn [fst snd]. destruct (canWrite (getFileName L)) eqn:HW.
    + match goal with |- context [foldl _ ?d Vars] =>
        destruct (IH d) as (IH1 & IH2 & IH3) end.
      cbn [ValidSourceFiles PtrSourceMap] in IH1, IH2, IH3.
      split; [|split].
      * intros F. rewrite IH1, elem_of_union, elem_of_singleton. split.
        -- intros [[->|?]|(LS & ? & ? & ?)]; [right|by left|right].
           ++ exists (L, Cs). split; [apply list_elem_of_here|done].
           ++ exists LS. split; [by apply list_elem_of_further|done].
        -- intros [?|(LS & [->|?]%elem_of_cons & HF & HC)].
           ++ left. by right.
           ++ left. by left.
           ++ right. by exists LS.
      * intros k L' [[?|[-> (CV & ? & ?)]]%mapSet_lookup
                    |(Cs' & CV & ? & ? & ? & ?)]%IH2.
        -- by left.
        -- right. exists Cs, CV. split; [apply list_elem_of_here|done].
        -- right. exists Cs', CV. split; [by apply list_elem_of_further|done].
      * intros k [HM|(L' & Cs' & CV & [[= -> ->]|?]%elem_of_cons & ? & ? & ?)];
          apply IH3.
        -- left. apply mapSet_dom. by left.
        -- left. apply mapSet_dom. right. by exists CV.
        -- right. by exists L', Cs', CV.
    + destruct (IH D) as (IH1 & IH2 & IH3). split; [|split].
      * intros F. rewrite IH1. split.
        -- intros [?|(LS & ? & ? & ?)]; [by left|right].
           exists LS. split; [by apply list_elem_of_further|done].
        -- intros [?|(LS & [->|?]%elem_of_cons & HF & HC)]; [by left| |].
           ++ cbn [fst] in HF. congruence.
           ++ right. by exists LS.
      * intros k L' [?|(Cs' & CV & ? & ? & ? & ?)]%IH2; [by left|].
        right. exists Cs', CV. split; [by apply list_elem_of_further|done].
      * intros k [HM|(L' & Cs' & CV & [[= -> ->]|?]%elem_of_cons & ? & ? & ?)];
          [apply IH3; by left|congruence|].
        apply IH3. right. by exists L', Cs', CV.
Qed.

End RootCauseSets.

(** What [computePointerDisjointSet] leaves in the three remaining sets. *)
Lemma computePointerDisjointSet_sets
    (canWrite : string -> bool) (Info : ProgramInfo) (D : DisjointSet) :
  computePointerDisjointSet canWrite Info = Some D ->
  (forall x, x ∈ AllWildPtrs D
             <-> (exists rsn PL,
                    CGeq (mkGeq (VarAtom x) getWild rsn PL)
                    ∈ getConstraints (CS Info))
                 /\ exists l g, Groups D !! l = Some g /\ x ∈ g)
  /\ (forall F, F ∈ ValidSourceFiles D
                <-> exists L, is_Some (Variables Info !! L)
                              /\ getFileName L = F /\ canWrite F = true)
  /\ (forall k L, PtrSourceMap D !! k = Some L ->
        exists Cs CV, Variables Info !! L = Some Cs
                      /\ canWrite (getFileName L) = true
                      /\ CV ∈ Cs /\ VarAtom k ∈ sourceAtoms CV)
  /\ (forall k L Cs CV,
        Variables Info !! L = Some Cs -> canWrite (getFileName L) = true ->
        CV ∈ Cs -> VarAtom k ∈ sourceAtoms CV ->
        is_Some (PtrSourceMap D !! k)).
Proof.
  intros Hrun. unfold computePointerDisjointSet in Hrun.
  destruct (recordConstraints _ _) as [[D1 W]|] eqn:Hrec; [|done].
  destruct (recordConstraints_spec _ _ _ _ _ Hrec consistent_Clear)
    as (_ & _ & Hchar & _ & _).
  { intros k. cbn. rewrite lookup_empty. split; [set_solver|].
    by intros [? ?]. }
  destruct (recordConstraints_sources _ _ _ _ _ Hrec) as (HA1 & HP1 & HV1).
  cbn [Clear AllWildPtrs PtrSourceMap ValidSourceFiles] in HA1, HP1, HV1.
  set (ws := ascending (dom (RealWildPtrsWithReasons D1))) in Hrun.
  destruct (adjustLeaders_sources ws D1) as (HA2 & HP2 & HV2).
  set (D2 := foldl (fun d k => adjustLeader k d) D1 ws) in *.
  match type of Hrun with context [recordSources canWrite ?Vs ?D3] =>
    destruct (recordSources_keeps canWrite Vs D3) as (_ & HG4 & _ & _);
    pose proof (recordSources_AllWildPtrs canWrite Vs D3) as HA4;
    destruct (recordSources_spec canWrite Vs D3) as (HF & HM1 & HM2)
  end.
  cbn [AllWildPtrs PtrSourceMap ValidSourceFiles Groups] in *.
  injection Hrun as <-.
  cbn [AllWildPtrs PtrSourceMap ValidSourceFiles Groups].
  assert (HAe : AllWildPtrs D2 = ∅) by congruence.
  assert (HPe : PtrSourceMap D2 = ∅) by congruence.
  assert (HVe : ValidSourceFiles D2 = ∅) by congruence.
  clear HA2 HA1 HP2 HP1 HV2 HV1.
  split; [|split; [|split]].
  - intros x. rewrite elem_of_union, elem_of_allWildInGroups.
    split.
    + intros [(l & g & Hg & Hx & [?|Hd]%Hchar)|HE];
        [set_solver| |rewrite HA4, HAe in HE; set_solver].
      split; [done|by exists l, g].
    + intros [Hd (l & g & Hg & Hx)]. left. exists l, g.
      split; [done|]. split; [done|]. apply Hchar. by right.
  - intros F. rewrite HF. split.
    + intros [HE|([L Cs] & HL%elem_of_map_to_list & ? & ?)];
        [rewrite HVe in HE; set_solver|].
      exists L. split; [by eexists|done].
    + intros (L & [Cs HL] & ? & ?). right. exists (L, Cs).
      split; [by apply elem_of_map_to_list|done].
  - intros k L [H|(Cs & CV & HL%elem_of_map_to_list & ? & ? & ?)]%HM1.
    + by rewrite HPe, lookup_empty in H.
    + by exists Cs, CV.
  - intros k L Cs CV HL HW HCV HA. apply HM2. right.
    exists L, Cs, CV. split; [by apply elem_of_map_to_list|done].
Qed.

(** The keys with a leader are the unknowns of the [Geq] constraints between
    two unknowns. *)
Lemma AddElements_dom a b (D : DisjointSet) k :
  is_Some (Leaders (AddElements a b D) !! k)
  <-> is_Some (Leaders D !! k) \/ k = a \/ k = b.
Proof.
  unfold AddElements.
  destruct (Leaders D !! a) as [la|] eqn:Ha;
    destruct (Leaders D !! b) as [lb|] eqn:Hb.
  - assert (HK : is_Some (Leaders D !! k)
                 <-> is_Some (Leaders D !! k) \/ k = a \/ k = b).
    { split; [by left|]. intros [?|[->| ->]]; [done|by eexists..]. }
    destruct (decide (la = lb)); [done|].
    cbn [Leaders setLG]. by rewrite lookup_replaceLeader, fmap_is_Some.
  - cbn [Leaders setLG]. destruct (decide (k = b)) as [->|Hne].
    + rewrite lookup_insert_eq. split; [intros _; by right; right|by eexists].
    + rewrite lookup_insert_ne by done. split; [by left|].
      intros [?|[->|?]]; [done|by eexists|done].
  - cbn [Leaders setLG]. destruct (decide (k = a)) as [->|Hne].
    + rewrite lookup_insert_eq. split; [intros _; by right; left|by eexists].
    + rewrite lookup_insert_ne by done. split; [by left|].
      intros [?|[?| ->]]; [done|done|by eexists].
  - cbn [Leaders setLG]. destruct (decide (k = b)) as [->|Hnb].
    + rewrite lookup_insert_eq. split; [intros _; by right; right|by eexists].
    + rewrite lookup_insert_ne by done. destruct (decide (k = a)) as [->|Hna].
      * rewrite lookup_insert_eq.
        split; [intros _; by right; left|by eexists].
      * rewrite lookup_insert_ne by done. split; [by left|].
        intros [?|[?|?]]; done.
Qed.

Lemma recordConstraints_dom Cs (D : DisjointSet) (W : gset nat) D' W' k :
  recordConstraints Cs (D, W) = Some (D', W') ->
  is_Some (Leaders D' !! k)
  <-> is_Some (Leaders D !! k)
      \/ exists a b rsn PL,
           CGeq (mkGeq (VarAtom a) (VarAtom b) rsn PL) ∈ Cs
           /\ (k = a \/ k = b).
Proof.
  revert D W. induction Cs as [|c Cs IH]; intros D W; cbn [recordConstraints].
  - intros [= <- <-]. split; [by left|].
    intros [?|(? & ? & ? & ? & H & _)]; [done|by apply elem_of_nil in H].
  - destruct (recordConstraint c (D, W)) as [[D1 W1]|] eqn:Hc; [|done].
    intros Hrec. rewrite (IH _ _ Hrec).
    assert (Hstep : is_Some (Leaders D1 !! k)
                    <-> is_Some (Leaders D !! k)
                        \/ exists a b rsn PL,
                             c = CGeq (mkGeq (VarAtom a) (VarAtom b) rsn PL)
                             /\ (k = a \/ k = b)).
    { unfold recordConstraint in Hc.
      destruct c as [[L R rsn PL]|p q]; cbn [getLHS getRHS] in Hc.
      - destruct R as [r|[]], L as [l|cl]; try done;
          injection Hc as <- <-; cbn [Leaders];
          try (split; [by left|];
               intros [?|(? & ? & ? & ? & ? & _)]; [done|done]).
        rewrite AddElements_dom. split.
        + intros [?|?]; [by left|right]. by exists l, r, rsn, PL.
        + intros [?|(a & b & ? & ? & [= -> -> _ _] & ?)]; [by left|by right].
      - injection Hc as <- <-. split; [by left|].
        intros [?|(? & ? & ? & ? & ? & _)]; done. }
    rewrite Hstep. split.
    + intros [[?|(a & b & r & P & -> & ?)]|(a & b & r & P & ? & ?)].
      * by left.
      * right. exists a, b, r, P. split; [apply list_elem_of_here|done].
      * right. exists a, b, r, P. split; [by apply list_elem_of_further|done].
    + intros [?|(a & b & r & P & [<-|?]%elem_of_cons & ?)].
      * by left; left.
      * left; right. by exists a, b, r, P.
      * right. by exists a, b, r, P.
Qed.

Lemma computePointerDisjointSet_dom
    (canWrite : string -> bool) (Info : ProgramInfo) (D : DisjointSet) k :
  computePointerDisjointSet canWrite Info = Some D ->
  is_Some (Leaders D !! k)
  <-> exists a b rsn PL,
        CGeq (mkGeq (VarAtom a) (VarAtom b) rsn PL) ∈ getConstraints (CS Info)
        /\ (k = a \/ k = b).
Proof.
  intros Hrun. unfold computePointerDisjointSet in Hrun.
  destruct (recordConstraints _ _) as [[D1 W]|] eqn:Hrec; [|done].
  pose proof (recordConstraints_dom _ _ _ _ _ k Hrec) as Hdom.
  match type of Hrun with context [recordSources canWrite ?Vs ?D3] =>
    destruct (recordSources_keeps canWrite Vs D3) as (HL4 & _ & _ & _)
  end.
  injection Hrun as <-. cbn [Leaders] in *.
  rewrite HL4, adjustLeaders_dom, Hdom. cbn. rewrite lookup_empty.
  split; [intros [[? ?]|?]; done|by right].
Qed.

(** X11.  The set of all WILD pointers that [computePointerDisjointSet]
    reports holds exactly the directly WILD unknowns (those with a
    constraint [Geq(k, WILD)]) that occur in a [Geq] constraint between two
    unknowns: a directly WILD unknown that is linked to no other unknown is
    not in it.  The set is disjoint from the indirectly WILD pointers, and
    together the two sets are the members of the groups that hold a
    directly WILD unknown. *)
Theorem computePointerDisjointSet_all_wild
    (canWrite : string -> bool) (Info : ProgramInfo) :
  forallb leftIsVar (getConstraints (CS Info)) = true ->
  exists D,
    computePointerDisjointSet canWrite Info = Some D
    /\ (let directly (k : nat) : Prop :=
          exists rsn PL,
            CGeq (mkGeq (VarAtom k) getWild rsn PL)
            ∈ getConstraints (CS Info) in
        let linked (k : nat) : Prop :=
          exists a b rsn PL,
            CGeq (mkGeq (VarAtom a) (VarAtom b) rsn PL)
            ∈ getConstraints (CS Info)
            /\ (k = a \/ k = b) in
        (forall x, x ∈ AllWildPtrs D <-> directly x /\ linked x)
        /\ (forall x, x ∈ TotalNonDirectWildPointers D -> x ∉ AllWildPtrs D)
        /\ (forall x, x ∈ AllWildPtrs D \/ x ∈ TotalNonDirectWildPointers D
                      <-> exists l g w, Groups D !! l = Some g /\ x ∈ g
                                        /\ w ∈ g /\ directly w)).
Proof.
  intros HC.
  destruct (computePointerDisjointSet_total canWrite Info HC) as [D HD].
  exists D. split; [exact HD|]. intros directly linked.
  destruct (computePointerDisjointSet_sound canWrite Info D HD)
    as (_ & Hcons & HRW & _ & HT).
  destruct (computePointerDisjointSet_sets canWrite Info D HD)
    as (HA & _).
  assert (HAll : forall x, x ∈ AllWildPtrs D <-> directly x /\ linked x).
  { intros x. rewrite HA. unfold linked.
    rewrite <- (computePointerDisjointSet_dom canWrite Info D x HD).
    split.
    - intros [Hd (l & g & Hg & Hx)]. split; [done|]. exists l.
      apply Hcons. by exists g.
    - intros [Hd [l (g & Hg & Hx)%Hcons]]. split; [done|]. by exists l, g. }
  split; [exact HAll|]. split.
  - intros x [_ Hnd]%HT [Hd _]%HAll. by apply Hnd.
  - intros x. split.
    + intros [[Hd (l & g & Hg & Hx)]%HA|[? _]%HT]; [|done].
      by exists l, g, x.
    + intros (l & g & w & Hg & Hx & Hw & Hdw).
      destruct (RealWildPtrsWithReasons D !! x) as [r|] eqn:Hr.
      * left. apply HA. split; [apply HRW; by eexists|by exists l, g].
      * right. apply HT. split; [by exists l, g, w|].
        intros [? Hs]%HRW. congruence.
Qed.

(** In the example 2 is the only directly WILD unknown; it is linked to 1
    and so belongs to the set of all WILD pointers. *)
Lemma computePointerDisjointSet_all_wild_witness :
  exists D,
    computePointerDisjointSet (fun _ => true) Examples.rootCauseInfo = Some D
    /\ elements (AllWildPtrs D) = [2].
Proof.
  destruct (computePointerDisjointSet_all_wild (fun _ => true)
              Examples.rootCauseInfo) as (D & HD & _);
    [vm_compute; reflexivity|].
  exists D. split; [exact HD|].
  assert (HE : computePointerDisjointSet (fun _ => true)
                 Examples.rootCauseInfo = Some Examples.rootCauseSet)
    by (vm_compute; reflexivity).
  rewrite HE in HD. injection HD as <-. vm_compute. reflexivity.
Defined.

(** X12.  After [computePointerDisjointSet] the valid source files are
    exactly the file names of the positions in [Variables] that [canWrite]
    accepts.  Every entry of the pointer source map sends the key of an
    unknown to a position of [Variables] in an accepted file whose set
    holds a variable with that unknown (a level of a pointer variable, or
    of a pointer return variable of a function variable), and every such
    unknown has an entry; the unknowns of parameters of function variables
    get none through the function. *)
Theorem computePointerDisjointSet_sources
    (canWrite : string -> bool) (Info : ProgramInfo) :
  forallb leftIsVar (getConstraints (CS Info)) = true ->
  exists D,
    computePointerDisjointSet canWrite Info = Some D
    /\ (forall F, F ∈ ValidSourceFiles D
                  <-> exists L, is_Some (Variables Info !! L)
                                /\ getFileName L = F /\ canWrite F = true)
    /\ (forall k L, PtrSourceMap D !! k = Some L ->
          exists Cs CV, Variables Info !! L = Some Cs
                        /\ canWrite (getFileName L) = true
                        /\ CV ∈ Cs /\ VarAtom k ∈ sourceAtoms CV)
    /\ (forall k L Cs CV,
          Variables Info !! L = Some Cs -> canWrite (getFileName L) = true ->
          CV ∈ Cs -> VarAtom k ∈ sourceAtoms CV ->
          is_Some (PtrSourceMap D !! k)).
Proof.
  intros HC.
  destruct (computePointerDisjointSet_total canWrite Info HC) as [D HD].
  exists D. split; [exact HD|].
  by destruct (computePointerDisjointSet_sets canWrite Info D HD)
    as (_ & ? & ? & ?).
Qed.

(** With [f] and [p] registered in [t.c], that file is the valid source
    file, and the unknown 0 of [p] is mapped to the position of [p]. *)
Lemma computePointerDisjointSet_sources_witness :
  exists D,
    computePointerDisjointSet (fun F => String.eqb F "t.c")
      Examples.pfRegistered = Some D
    /\ elements (ValidSourceFiles D) = ["t.c"]
    /\ PtrSourceMap D !! 0 = Some ("t.c", 2, 14).
Proof.
  destruct (computePointerDisjointSet_sources (fun F => String.eqb F "t.c")
              Examples.pfRegistered) as (D & HD & _);
    [vm_compute; reflexivity|].
  exists D. split; [exact HD|].
  assert (HE : computePointerDisjointSet (fun F => String.eqb F "t.c")
                 Examples.pfRegistered
               = Some (default Clear
                         (computePointerDisjointSet
                            (fun F => String.eqb F "t.c")
                            Examples.pfRegistered)))
    by (vm_compute; reflexivity).
  rewrite HE in HD. apply (inj Some) in HD. subst D.
  vm_compute. split; reflexivity.
Defined.

(** ** Registering a declaration: failures, growth and macros *)

Section AddVariableResult.

Lemma newParamVars_length Ps cs :
  length (newParamVars Ps cs).1 = length Ps.
Proof.
  revert cs. induction Ps as [|P Ps IH]; intros cs; cbn [newParamVars];
    [done|].
  destruct (newPVConstraint _ _ _ cs) as [X cs1].
  specialize (IH cs1). destruct (newParamVars Ps cs1) as [Vs cs2].
  cbn [fst length] in *. by rewrite IH.
Qed.

(** The [assert] on the number of parameters of a function variable that
    was just made cannot fail. *)
Lemma newFVConstraint_numParams D cs :
  numParams (newFVConstraint D cs).1 = length (getParamDecls D).
Proof.
  unfold newFVConstraint, numParams.
  destruct (newPVConstraint _ _ _ cs) as [RV cs1].
  pose proof (newParamVars_length (getParamDecls D) cs1) as H.
  by destruct (newParamVars _ cs1) as [PVs cs2].
Qed.

Lemma newParamVars_fresh Ps cs :
  freshKey cs <= freshKey (newParamVars Ps cs).2.
Proof.
  revert cs. induction Ps as [|P Ps IH]; intros cs; cbn [newParamVars];
    [done|].
  pose proof (newPVConstraint_fresh (getDeclType P) (getNameAsString P)
                false cs) as (_ & H & _).
  destruct (newPVConstraint _ _ _ cs) as [X cs1].
  specialize (IH cs1). destruct (newParamVars Ps cs1) as [Vs cs2].
  cbn [snd] in *. lia.
Qed.

Lemma newFVConstraint_freshKey D cs :
  freshKey cs <= freshKey (newFVConstraint D cs).2.
Proof.
  unfold newFVConstraint.
  pose proof (newPVConstraint_fresh (getReturnType (getDeclType D))
                (getNameAsString D) false cs) as (_ & H & _).
  destruct (newPVConstraint _ _ _ cs) as [RV cs1].
  pose proof (newParamVars_fresh (getParamDecls D) cs1) as H2.
  destruct (newParamVars _ cs1) as [PVs cs2]. cbn [snd] in *. lia.
Qed.

Lemma CS_insertNewFVConstraints FD Fs Info :
  CS (insertNewFVConstraints FD Fs Info) = CS Info.
Proof.
  unfold insertNewFVConstraints.
  repeat match goal with
         | |- context [if ?b then _ else _] => destruct b
         | |- context [let '(_, _) := ?x in _] => destruct x
         end; reflexivity.
Qed.

End AddVariableResult.

Ltac applyMacro :=
  match goal with
  | Hmacro : forall r : option ProgramInfo, _
    |- forall _, (if _ then Some (setCS ?I _) else _) = _ -> _ =>
      apply (Hmacro (Some I))
  end.

(** X13.  [addVariable] fails exactly when the program information is
    persisted, the position of the declaration is not valid, the
    declaration is a function declaration whose type is not a function
    type, or it is neither a function, a variable nor a field; the
    [assert] on the number of parameters never fails.  When it returns, no
    registered variable is lost and no key is taken back; for a rewritable
    declaration no constraint is added, and for one in a macro the
    constraints added are exactly those forcing every atom of every
    variable at the position of the declaration to WILD, with the reason
    "Pointer in Macro declaration." and no location. *)
Theorem addVariable_failures_and_macros (D : Decl) (Info : ProgramInfo) :
  (addVariable D Info = None
   <-> persisted Info = true \/ valid (mkPSL D) = false
       \/ (isFunctionDecl D = true /\ isFunctionType (getDeclType D) = false)
       \/ isDeclaratorDecl D = false)
  /\ forall Info',
       addVariable D Info = Some Info' ->
       (forall L C, C ∈ lookupVars (Variables Info) L ->
                    C ∈ lookupVars (Variables Info') L)
       /\ freshKey (CS Info) <= freshKey (CS Info')
       /\ getConstraints (CS Info')
          = getConstraints (CS Info)
            ++ (if isRewritable D then []
                else flat_map
                       (fun C =>
                          map (fun A =>
                                 CGeq (mkGeq A getWild
                                         "Pointer in Macro declaration." None))
                            (atomsOf C))
                       (lookupVars (Variables Info') (mkPSL D))).
Proof.
  assert (Hmacro : forall (r : option ProgramInfo),
            (forall I, r = Some I ->
               (forall L C, C ∈ lookupVars (Variables Info) L ->
                            C ∈ lookupVars (Variables I) L)
               /\ freshKey (CS Info) <= freshKey (CS I)
               /\ getConstraints (CS I) = getConstraints (CS Info)) ->
            forall Info',
              match r with
              | None => None
              | Some Info3 =>
                  if negb (isRewritable D) then
                    Some (setCS Info3
                            (foldl (fun c C =>
                                      constrainToWild C
                                        "Pointer in Macro declaration." None c)
                               (CS Info3)
                               (lookupVars (Variables Info3) (mkPSL D))))
                  else Some Info3
              end = Some Info' ->
              (forall L C, C ∈ lookupVars (Variables Info) L ->
                           C ∈ lookupVars (Variables Info') L)
              /\ freshKey (CS Info) <= freshKey (CS Info')
              /\ getConstraints (CS Info')
                 = getConstraints (CS Info)
                   ++ (if isRewritable D then []
                       else flat_map
                              (fun C =>
                                 map (fun A =>
                                        CGeq (mkGeq A getWild
                                                "Pointer in Macro declaration."
                                                None))
                                   (atomsOf C))
                              (lookupVars (Variables Info') (mkPSL D)))).
  { intros [I|] HI Info'; [|done]. destruct (HI I eq_refl) as (HV & HF & HC).
    destruct (isRewritable D); cbn [negb].
    - intros [= <-]. by rewrite app_nil_r.
    - intros [= <-]. cbn [Variables CS setCS].
      by rewrite foldl_constrainToWild_log, foldl_constrainToWild_fresh, HC. }
  unfold addVariable, isDeclaratorDecl.
  destruct (persisted Info) eqn:Hp.
  { split; [split; [by left|done]|done]. }
  destruct (valid (mkPSL D)) eqn:Hv; cbn [negb].
  2: { split; [split; [by right; left|done]|done]. }
  set (Info0 := setVariables Info _).
  assert (H0 : forall L C, C ∈ lookupVars (Variables Info) L ->
                           C ∈ lookupVars (Variables Info0) L).
  { intros L C HC. unfold Info0. cbn [Variables setVariables].
    by rewrite lookupVars_touch. }
  destruct (isFunctionDecl D) eqn:HF; cbn [orb].
  - destruct (isFunctionType (getDeclType D)) eqn:HT; cbn [negb].
    2: { split; [split; [by right; right; left|done]|done]. }
    destruct (hasConstraintType isFV _) eqn:HhF; cbn [negb].
    + split.
      * split; [by destruct (negb (isRewritable D))|].
        intros [?|[?|[[_ ?]|?]]]; congruence.
      * applyMacro. by intros I [= <-].
    + pose proof (newFVConstraint_numParams D (CS Info0)) as HN.
      pose proof (newFVConstraint_freshKey D (CS Info0)) as HK.
      pose proof (newFVConstraint_log D (CS Info0)) as HL.
      destruct (newFVConstraint D (CS Info0)) as [F cs1].
      cbn [fst snd] in HN, HK, HL. rewrite HN, Nat.eqb_refl. cbn [negb].
      split.
      * split; [by destruct (negb (isRewritable D))|].
        intros [?|[?|[[_ ?]|?]]]; congruence.
      * applyMacro. intros I [= <-].
        cbn [Variables CS setVariables]. rewrite CS_insertNewFVConstraints.
        cbn [CS setVariables setCS]. split; [|done].
        intros L C HC. apply addParamMappings_keeps.
        rewrite Variables_insertNewFVConstraints.
        cbn [Variables setVariables setCS].
        rewrite lookupVars_insertVars.
        destruct (decide (mkPSL D = L)) as [<-|]; [|by apply H0].
        apply elem_of_insertCVs. left. by apply H0.
  - destruct (isVarDecl D || isFieldDecl D) eqn:HVF.
    2: { split; [split; [by right; right; right|done]|done]. }
    destruct (isPointerType (getDeclType D) || isArrayType (getDeclType D)).
    + destruct (hasConstraintType isPV _) eqn:HhP; cbn [negb].
      * split.
        -- split; [by destruct (negb (isRewritable D))|].
           intros [?|[?|[[? _]|?]]]; congruence.
        -- applyMacro. by intros I [= <-].
      * pose proof (newPVConstraint_fresh (getDeclType D) (getNameAsString D)
                      false (CS Info0)) as (HL & HK & _).
        destruct (newPVConstraint _ _ _ (CS Info0)) as [P cs1].
        cbn [snd] in HL, HK. split.
        -- split; [by destruct (negb (isRewritable D))|].
           intros [?|[?|[[? _]|?]]]; congruence.
        -- applyMacro. intros I [= <-].
           cbn [Variables CS setVariables setCS]. split; [|done].
           intros L C HC. rewrite lookupVars_insertVars.
           destruct (decide (mkPSL D = L)) as [<-|]; [|by apply H0].
           apply elem_of_insertCVs. left. by apply H0.
    + split.
      * split; [by destruct (negb (isRewritable D))|].
        intros [?|[?|[[? _]|?]]]; congruence.
      * applyMacro. by intros I [= <-].
Qed.

(** ** The name heuristics *)

Section Names.

Lemma append_cons c (A B : string) : String c A +:+ B = String c (A +:+ B).
Proof. reflexivity. Qed.

Lemma append_nil_l (B : string) : "" +:+ B = B.
Proof. reflexivity. Qed.

Lemma prefix_nil (A : string) : String.prefix "" A = true.
Proof. by destruct A. Qed.

Lemma prefix_app_right (P A B : string) :
  String.prefix P A = true -> String.prefix P (A +:+ B) = true.
Proof.
  revert P. induction A as [|d A IH]; intros [|c P].
  - intros _. apply prefix_nil.
  - done.
  - intros _. apply prefix_nil.
  - rewrite append_cons. cbn [String.prefix].
    destruct (Ascii.ascii_dec c d); [apply IH|done].
Qed.

Lemma contains_prefix (P A : string) :
  String.prefix P A = true -> contains P A = true.
Proof. intros H. destruct A; cbn [contains]; by rewrite H. Qed.

Lemma contains_app_right (P A B : string) :
  contains P A = true -> contains P (A +:+ B) = true.
Proof.
  induction A as [|d A IH].
  - cbn [contains]. rewrite orb_false_r. intros H.
    apply (prefix_app_right P "" B) in H. by apply contains_prefix.
  - rewrite append_cons. cbn [contains].
    intros [H|H]%orb_true_iff; apply orb_true_iff.
    + left. apply (prefix_app_right P (String d A) B) in H.
      by rewrite append_cons in H.
    + right. by apply IH.
Qed.

Lemma contains_app_left (P A B : string) :
  contains P B = true -> contains P (A +:+ B) = true.
Proof.
  intros H. induction A as [|d A IH]; [done|].
  rewrite append_cons. cbn [contains]. apply orb_true_iff. by right.
Qed.

Lemma toLower_app (A B : string) :
  toLower (A +:+ B) = toLower A +:+ toLower B.
Proof.
  induction A as [|c A IH]; [done|].
  rewrite append_cons. cbn [toLower]. by rewrite append_cons, IH.
Qed.

Lemma tolower_idem (c : ascii) : tolower (tolower c) = tolower c.
Proof. destruct c as [[] [] [] [] [] [] [] []]; reflexivity. Qed.

Lemma toLower_idem (A : string) : toLower (toLower A) = toLower A.
Proof.
  induction A as [|c A IH]; cbn [toLower]; [done|].
  by rewrite tolower_idem, IH.
Qed.

Lemma existsb_impl {X} (f g : X -> bool) (l k : list X) :
  (forall x, x ∈ l -> f x = true -> x ∈ k /\ g x = true) ->
  existsb f l = true -> existsb g k = true.
Proof.
  intros H (x & Hx%list_elem_of_In & Hf)%existsb_exists.
  destruct (H x Hx Hf) as [Hk Hg].
  apply existsb_exists. exists x. split; [by apply list_elem_of_In|done].
Qed.

End Names.

(** X14.  The two keyword tests on names: a name accepted by
    [fieldNameMatch] (it starts with a length prefix or holds "length") is
    accepted by [hasLengthKeyword] (it holds a length keyword somewhere),
    but not the other way round.  Both ignore the case of letters;
    [hasLengthKeyword] survives any text put before or after the name,
    [fieldNameMatch] any text put after it. *)
Theorem length_keyword_tests :
  (forall N, fieldNameMatch N = true -> hasLengthKeyword N = true)
  /\ (fieldNameMatch "buflen" = false /\ hasLengthKeyword "buflen" = true)
  /\ (forall N, fieldNameMatch (toLower N) = fieldNameMatch N
                /\ hasLengthKeyword (toLower N) = hasLengthKeyword N)
  /\ (forall A N B, hasLengthKeyword N = true ->
                    hasLengthKeyword (A +:+ N +:+ B) = true)
  /\ (forall N B, fieldNameMatch N = true ->
                  fieldNameMatch (N +:+ B) = true).
Proof.
  split; [|split; [|split; [|split]]].
  - intros N. unfold fieldNameMatch, hasLengthKeyword.
    intros [H|H]%orb_true_iff.
    + revert H. apply existsb_impl. intros P HP HS. split.
      * apply elem_of_app. by left.
      * by apply contains_prefix.
    + revert H. apply existsb_impl. intros P HP HS. split; [|done].
      apply elem_of_app. by right.
  - split; vm_compute; reflexivity.
  - intros N. unfold fieldNameMatch, hasLengthKeyword.
    by rewrite toLower_idem.
  - intros A N B. unfold hasLengthKeyword. rewrite !toLower_app.
    apply existsb_impl. intros P HP HC. split; [done|].
    by apply contains_app_left, contains_app_right.
  - intros N B. unfold fieldNameMatch. rewrite toLower_app.
    intros [H|H]%orb_true_iff; apply orb_true_iff; [left|right];
      revert H; apply existsb_impl; intros P HP HC; (split; [done|]).
    + by apply prefix_app_right.
    + by apply contains_app_right.
Qed.

(** ** Allocation sites, in general *)

Section Allocators.

Variable env : BoundsEnv.

(** The scan of the operands succeeds only when exactly one of them is not
    a [sizeof], that one has a bounds key, and every [sizeof] is of the
    pointee type of the left-hand side. *)
Lemma scanArgVals_found LHSType Vs fk ib rk ib' r :
  scanArgVals env LHSType Vs fk ib rk = (true, ib', r) ->
  (forall v, v ∈ Vs -> isSizeOf v = true ->
     exists H T, v = UnaryExprOrTypeTraitExpr H UETT_SizeOf T
                 /\ QualType_eqb LHSType (getPointerType T) = true)
  /\ ((fk = true /\ List.filter (fun v => negb (isSizeOf v)) Vs = []
       /\ r = rk)
      \/ (fk = false
          /\ exists n K, List.filter (fun v => negb (isSizeOf v)) Vs = [n]
                         /\ getVariableE env n = Some K /\ r = Some K)).
Proof.
  revert fk ib rk. induction Vs as [|v Vs IH]; intros fk ib rk;
    cbn [scanArgVals].
  - intros [= -> _ <-]. split; [by intros v ?%elem_of_nil|]. by left.
  - assert (Hvar : isSizeOf v = false ->
              match getVariableE env v with
              | Some K =>
                  if negb fk
                  then scanArgVals env LHSType Vs true ib (Some K)
                  else (false, ib, Some K)
              | None => (false, ib, rk)
              end = (true, ib', r) ->
              (forall v0, v0 ∈ v :: Vs -> isSizeOf v0 = true ->
                 exists H T, v0 = UnaryExprOrTypeTraitExpr H UETT_SizeOf T
                             /\ QualType_eqb LHSType (getPointerType T) = true)
              /\ ((fk = true
                   /\ List.filter (fun v => negb (isSizeOf v)) (v :: Vs) = []
                   /\ r = rk)
                  \/ (fk = false
                      /\ exists n K,
                           List.filter (fun v => negb (isSizeOf v)) (v :: Vs)
                           = [n]
                           /\ getVariableE env n = Some K /\ r = Some K))).
    { intros Hv. destruct (getVariableE env v) as [K|] eqn:HK; [|done].
      destruct fk; cbn [negb]; [done|]. intros HS.
      destruct (IH _ _ _ HS) as [Hall [(_ & Hf & ->)|[? _]]]; [|done].
      split.
      - intros v0 [->|H0]%elem_of_cons Hs; [congruence|by apply Hall].
      - right. split; [done|]. exists v, K. cbn [List.filter].
        by rewrite Hv, Hf. }
    destruct v; try (apply Hvar; reflexivity).
    destruct Kind; [|apply Hvar; reflexivity].
    destruct (QualType_eqb LHSType (getPointerType ArgTy)) eqn:HT; [|done].
    intros HS. destruct (IH _ _ _ HS) as [Hall Hcases]. split.
    + intros v0 [->|H0]%elem_of_cons Hs; [by exists H, ArgTy|by apply Hall].
    + exact Hcases.
Qed.

Lemma isAllocatorCall_spec E F Vs :
  isAllocatorCall env E = Some (true, F, Vs) ->
  (F = "malloc" \/ F = "calloc")
  /\ (exists H Callee CE Args,
        removeAuxillaryCasts env E = CallExpr H (Some Callee) CE Args
        /\ F = getCalledFunctionName Callee)
  /\ forall v, v ∈ Vs -> isDeclRefExpr v = true \/ isSizeOf v = true.
Proof.
  unfold isAllocatorCall.
  destruct (removeAuxillaryCasts env E) eqn:HE; try discriminate.
  destruct CalleeDecl as [CalleeDecl|]; [|discriminate].
  destruct (AllocatorSizeAssoc _) as [Pidxs|] eqn:HA; [|discriminate].
  destruct (collectBaseExprs Args Pidxs) as [[Bs|]|] eqn:HB; try discriminate.
  destruct (checkBaseExprs Bs) eqn:HC; [|discriminate].
  intros [= <- <-]. split; [|split].
  - unfold AllocatorSizeAssoc in HA.
    destruct (String.eqb_spec (getCalledFunctionName CalleeDecl) "malloc");
      [by left|].
    destruct (String.eqb_spec (getCalledFunctionName CalleeDecl) "calloc");
      [by right|done].
  - by exists H, CalleeDecl, e, Args.
  - intros v Hv. unfold checkBaseExprs in HC.
    rewrite forallb_forall in HC. apply list_elem_of_In, HC in Hv.
    by apply orb_true_iff.
Qed.

End Allocators.

(** X15.  Whatever the expression, [handleAllocatorCall] either does
    nothing or records an allocator match and binds the left-hand side to
    an element count, never to anything else.  It binds only for a call of
    [malloc] or [calloc] whose size operands are all [sizeof]s of the
    pointee type of the left-hand side, but for exactly one declaration
    reference; the count is the bounds key of that reference, which is in
    the scope of the left-hand side or a constant. *)
Theorem handleAllocatorCall_binds_one_count (env : BoundsEnv)
    (LHSType : QualType) (LK : BoundsKey) (E : Expr) (Cs : list ABCall) :
  handleAllocatorCall env LHSType LK E = Some Cs ->
  Cs = []
  \/ exists F Vs n RK,
       Cs = [statInsert AllocatorMatch LK; mergeBounds LK (CountBound RK)]
       /\ isAllocatorCall env E = Some (true, F, Vs)
       /\ (F = "malloc" \/ F = "calloc")
       /\ List.filter (fun v => negb (isSizeOf v)) Vs = [n]
       /\ isDeclRefExpr n = true
       /\ getVariableE env n = Some RK
       /\ (forall v, v ∈ Vs -> v = n \/
             exists H T, v = UnaryExprOrTypeTraitExpr H UETT_SizeOf T
                         /\ LHSType = getPointerType T)
       /\ (getScope (getProgramVar env LK) = getScope (getProgramVar env RK)
           \/ IsNumConstant (getProgramVar env RK) = true).
Proof.
  intros Hrun. pose proof Hrun as Hrun0. unfold handleAllocatorCall in Hrun.
  destruct (isAllocatorCall env E) as [[[[] F] Vs]|] eqn:HI; try discriminate.
  2: { injection Hrun as <-. by left. }
  destruct (scanArgVals env LHSType Vs false true None)
    as [[[] ib] [RK|]] eqn:HS; try (injection Hrun as <-; by left).
  destruct (_ || _) eqn:Hscope; [|injection Hrun as <-; by left].
  injection Hrun as <-.
  destruct (isAllocatorCall_spec env E F Vs HI) as (HF & _ & Hbase).
  destruct (scanArgVals_found env _ _ _ _ _ _ _ HS)
    as [Hsz [[? _]|(_ & n & K & Hf & HK & [= ->])]]; [done|].
  assert (Hn : n ∈ Vs /\ isSizeOf n = false).
  { assert (Hin : n ∈ List.filter (fun v => negb (isSizeOf v)) Vs)
      by (rewrite Hf; apply list_elem_of_here).
    apply list_elem_of_In, filter_In in Hin as [Hin Hneg].
    split; [by apply list_elem_of_In|]. by destruct (isSizeOf n). }
  destruct Hn as [Hn Hns].
  assert (Hib : ib = false).
  { destruct ib; [|done]. exfalso.
    pose proof (handleAllocatorCall_no_ByteBound env LHSType LK E _ LK K
                  Hrun0) as Hno.
    apply Hno. apply elem_of_cons. right. apply list_elem_of_here. }
  subst ib. right. exists F, Vs, n, K.
  split; [done|]. split; [done|]. split; [done|]. split; [done|].
  split; [destruct (Hbase n Hn); [done|congruence]|].
  split; [done|]. split.
  - intros v Hv. destruct (isSizeOf v) eqn:Hvs.
    + right. destruct (Hsz v Hv Hvs) as (H & T & -> & HT).
      exists H, T. split; [done|]. by apply QualType_eqb_eq.
    + left. assert (Hin : v ∈ List.filter (fun v => negb (isSizeOf v)) Vs).
      { apply list_elem_of_In, filter_In. split; [by apply list_elem_of_In|].
        by rewrite Hvs. }
      rewrite Hf in Hin. by apply list_elem_of_singleton in Hin.
  - apply orb_true_iff in Hscope as [H%Nat.eqb_eq|H]; [by left|by right].
Qed.

(** [int *arr = malloc(n * sizeof(int))]: the count is the key of [n]. *)
Lemma handleAllocatorCall_binds_one_count_witness :
  exists F Vs n,
    isAllocatorCall Examples.boundsEnv Examples.mallocInts
    = Some (true, F, Vs)
    /\ List.filter (fun v => negb (isSizeOf v)) Vs = [n]
    /\ getVariableE Examples.boundsEnv n = Some 2.
Proof.
  destruct (handleAllocatorCall_binds_one_count Examples.boundsEnv
              Examples.intPtr 1 Examples.mallocInts
              [statInsert AllocatorMatch 1; mergeBounds 1 (CountBound 2)])
    as [HN|(F & Vs & n & RK & HC & HI & _ & Hf & _ & HK & _)];
    [vm_compute; reflexivity|discriminate HN|].
  injection HC as <-. by exists F, Vs, n.
Defined.

(** X16.  [VisitDeclStmt], for a declared variable with a bounds key: a
    byte count is bound exactly when the initializer, looked at through
    parentheses and casts, is a string literal, and then it is the key of
    the constant of the literal's byte length, bound after whatever the
    allocator rule did; without an initializer, or without a bounds key for
    the variable, nothing happens. *)
Theorem VisitDeclStmt_string_literal (env : BoundsEnv) (VD : Decl)
    (Init : Expr) (DeclKey : BoundsKey) (Cs : list ABCall) :
  getVariableD env VD = Some DeclKey ->
  VisitDeclStmt1 env VD (Some Init) = Some Cs ->
  (forall K1 K2,
     mergeBounds K1 (ByteBound K2) ∈ Cs
     <-> exists H n, IgnoreParenCasts Init = StringLiteral H n
                     /\ K1 = DeclKey /\ K2 = getConstKey env n)
  /\ (forall H n, IgnoreParenCasts Init = StringLiteral H n ->
        exists Cs0,
          handleAllocatorCall env (getDeclType VD) DeclKey Init = Some Cs0
          /\ Cs = Cs0 ++ [mergeBounds DeclKey (ByteBound (getConstKey env n))])
  /\ VisitDeclStmt1 env VD None = Some []
  /\ (forall VD', getVariableD env VD' = None ->
                  VisitDeclStmt1 env VD' (Some Init) = Some []).
Proof.
  intros HK Hrun. unfold VisitDeclStmt1 in *. rewrite HK in Hrun.
  destruct (handleAllocatorCall env (getDeclType VD) DeclKey Init)
    as [Cs0|] eqn:HA; [|done].
  pose proof (fun K1 K2 =>
                handleAllocatorCall_no_ByteBound env _ _ _ _ K1 K2 HA) as Hno.
  split; [|split; [|split]].
  - intros K1 K2. destruct (IgnoreParenCasts Init) eqn:HI;
      try (injection Hrun as <-; split;
           [by intros ?%Hno|by intros (? & ? & ? & _)]).
    injection Hrun as <-. rewrite elem_of_app, list_elem_of_singleton. split.
    + intros [?%Hno|[= -> ->]]; [done|]. by exists H, ByteLength.
    + intros (H' & n & [= _ <-] & -> & ->). by right.
  - intros H n HI. rewrite HI in Hrun. injection Hrun as <-. by exists Cs0.
  - done.
  - intros VD' HN. by rewrite HN.
Qed.

(** [char *buf = "hi";]: the bounds of [buf] are the two bytes of the
    literal. *)
Lemma VisitDeclStmt_string_literal_witness :
  VisitDeclStmt1 Examples.boundsEnv MoreExamples.bufVar
    (Some MoreExamples.hiLiteral)
  = Some [mergeBounds 10 (ByteBound 102)]
  /\ (mergeBounds 10 (ByteBound 102)
      ∈ [mergeBounds 10 (ByteBound 102)]
      <-> exists H n,
            IgnoreParenCasts MoreExamples.hiLiteral = StringLiteral H n
            /\ 10 = 10 /\ 102 = getConstKey Examples.boundsEnv n).
Proof.
  assert (HR : VisitDeclStmt1 Examples.boundsEnv MoreExamples.bufVar
                 (Some MoreExamples.hiLiteral)
               = Some [mergeBounds 10 (ByteBound 102)])
    by (vm_compute; reflexivity).
  split; [exact HR|].
  destruct (VisitDeclStmt_string_literal Examples.boundsEnv
              MoreExamples.bufVar MoreExamples.hiLiteral 10
              [mergeBounds 10 (ByteBound 102)]) as (HB & _);
    [vm_compute; reflexivity|exact HR|].
  exact (HB 10 102).
Defined.

(** ** Function parameters, in general *)

Section ParameterBounds.

Variable env : BoundsEnv.
Variable ParamInfo : option (Decl -> bool).

(** Every entry of the three maps is a parameter with a bounds key, under
    its index, that passed the test of the map. *)
Lemma collectParams_sound i0 Ps :
  let from (test : Decl -> bool) (M : list (nat * (string * BoundsKey))) :=
    forall k v, (k, v) ∈ M ->
      exists j PVD,
        k = i0 + j /\ Ps !! j = Some PVD /\ v.1 = getNameAsString PVD
        /\ getVariableD env PVD = Some v.2 /\ test PVD = true in
  from (fun P => needArrayBounds env P false)
    (collectParams env ParamInfo i0 Ps).1.1
  /\ from (fun P => needArrayBounds env P true)
       (collectParams env ParamInfo i0 Ps).1.2
  /\ from (IsPotentialLengthVar ParamInfo)
       (collectParams env ParamInfo i0 Ps).2.
Proof.
  revert i0. induction Ps as [|P Ps IH]; intros i0 from; subst from;
    cbn [collectParams].
  - cbn [fst snd]. repeat split; by intros k v ?%elem_of_nil.
  - specialize (IH (S i0)). cbn zeta in IH.
    destruct (collectParams env ParamInfo (S i0) Ps) as [[PA PNA] LP].
    cbn [fst snd] in IH. destruct IH as (IHA & IHN & IHL).
    assert (Hshift : forall (test : Decl -> bool)
                (M : list (nat * (string * BoundsKey))),
              (forall k v, (k, v) ∈ M ->
                 exists j PVD,
                   k = S i0 + j /\ Ps !! j = Some PVD
                   /\ v.1 = getNameAsString PVD
                   /\ getVariableD env PVD = Some v.2 /\ test PVD = true) ->
              forall k v, (k, v) ∈ M ->
                exists j PVD,
                  k = i0 + j /\ (P :: Ps) !! j = Some PVD
                  /\ v.1 = getNameAsString PVD
                  /\ getVariableD env PVD = Some v.2 /\ test PVD = true).
    { intros test M HM k v (j & PVD & -> & HR)%HM.
      exists (S j), PVD. split; [lia|exact HR]. }
    destruct (getVariableD env P) as [PK|] eqn:HK; cbn [fst snd].
    2: { split; [|split]; by apply Hshift. }
    assert (Hhead : forall (test : Decl -> bool)
                (M : list (nat * (string * BoundsKey))),
              (forall k v, (k, v) ∈ M ->
                 exists j PVD,
                   k = S i0 + j /\ Ps !! j = Some PVD
                   /\ v.1 = getNameAsString PVD
                   /\ getVariableD env PVD = Some v.2 /\ test PVD = true) ->
              forall k v,
                (k, v) ∈ (if test P then (i0, (getNameAsString P, PK)) :: M
                          else M) ->
                exists j PVD,
                  k = i0 + j /\ (P :: Ps) !! j = Some PVD
                  /\ v.1 = getNameAsString PVD
                  /\ getVariableD env PVD = Some v.2 /\ test PVD = true).
    { intros test M HM k v. destruct (test P) eqn:HT;
        [|by apply Hshift].
      intros [[= -> ->]|Hin]%elem_of_cons; [|by apply (Hshift test M)].
      exists 0, P. split; [lia|]. by repeat split. }
    split; [|split].
    + by apply (Hhead (fun P => needArrayBounds env P false)).
    + by apply (Hhead (fun P => needArrayBounds env P true)).
    + by apply (Hhead (IsPotentialLengthVar ParamInfo)).
Qed.

Lemma findParam_in (M : list (nat * (string * BoundsKey))) i v :
  findParam M i = Some v -> (i, v) ∈ M.
Proof.
  induction M as [|[j w] M IH]; cbn [findParam]; [done|].
  destruct (Nat.eqb_spec i j) as [->|_].
  - intros [= ->]. apply list_elem_of_here.
  - intros H. apply list_elem_of_further. by apply IH.
Qed.

(** The calls of the two loops over the length parameters. *)
Lemma matchLenParams_sound ArrName PBKey LP c :
  c ∈ (matchLenParams ArrName PBKey LP).2 ->
  (exists j LenName LenKey,
     (j, (LenName, LenKey)) ∈ LP
     /\ c = replaceBounds PBKey (CountBound LenKey))
  \/ c = statInsert NamePrefixMatch PBKey.
Proof.
  induction LP as [|[j [LenName LenKey]] Rest IH]; cbn [matchLenParams].
  - by intros ?%elem_of_nil.
  - assert (Hrest : c ∈ (matchLenParams ArrName PBKey Rest).2 ->
              (exists j0 LenName0 LenKey0,
                 (j0, (LenName0, LenKey0)) ∈ (j, (LenName, LenKey)) :: Rest
                 /\ c = replaceBounds PBKey (CountBound LenKey0))
              \/ c = statInsert NamePrefixMatch PBKey).
    { intros [(j0 & n0 & k0 & Hin & ->)| ->]%IH; [left|by right].
      exists j0, n0, k0. split; [by apply list_elem_of_further|done]. }
    assert (Hhere : c ∈ [replaceBounds PBKey (CountBound LenKey);
                         statInsert NamePrefixMatch PBKey] ->
              (exists j0 LenName0 LenKey0,
                 (j0, (LenName0, LenKey0)) ∈ (j, (LenName, LenKey)) :: Rest
                 /\ c = replaceBounds PBKey (CountBound LenKey0))
              \/ c = statInsert NamePrefixMatch PBKey).
    { intros [->|[->|?%elem_of_nil]%elem_of_cons]%elem_of_cons;
        [left|by right|done].
      exists j, LenName, LenKey. split; [apply list_elem_of_here|done]. }
    destruct (hasNameMatch ArrName LenName); [exact Hhere|].
    destruct (nameSubStringMatch ArrName LenName); [|exact Hrest].
    destruct (matchLenParams ArrName PBKey Rest) as [F Cs]. cbn [snd] in *.
    intros [?|?]%elem_of_app; [by apply Hhere|by apply Hrest].
Qed.

Lemma keywordLenParams_sound PBKey LP c :
  c ∈ (keywordLenParams PBKey LP).2 ->
  (exists j LenName LenKey,
     (j, (LenName, LenKey)) ∈ LP
     /\ c = replaceBounds PBKey (CountBound LenKey))
  \/ c = statInsert VariableNameMatch PBKey.
Proof.
  induction LP as [|[j [LenName LenKey]] Rest IH]; cbn [keywordLenParams].
  - by intros ?%elem_of_nil.
  - destruct (keywordLenParams PBKey Rest) as [F Cs]. cbn [snd] in *.
    assert (Hrest : c ∈ Cs ->
              (exists j0 LenName0 LenKey0,
                 (j0, (LenName0, LenKey0)) ∈ (j, (LenName, LenKey)) :: Rest
                 /\ c = replaceBounds PBKey (CountBound LenKey0))
              \/ c = statInsert VariableNameMatch PBKey).
    { intros [(j0 & n0 & k0 & Hin & ->)| ->]%IH; [left|by right].
      exists j0, n0, k0. split; [by apply list_elem_of_further|done]. }
    destruct (fieldNameMatch LenName); cbn [snd]; [|exact Hrest].
    intros [[->|[->|?%elem_of_nil]%elem_of_cons]%elem_of_cons|?]%elem_of_app;
      [left|by right|done|by apply Hrest].
    exists j, LenName, LenKey. split; [apply list_elem_of_here|done].
Qed.

Lemma handleArrParam_sound LP Arr c :
  c ∈ handleArrParam LP Arr ->
  (exists j LenName LenKey,
     (j, (LenName, LenKey)) ∈ LP
     /\ c = replaceBounds Arr.2.2 (CountBound LenKey))
  \/ (exists St, c = statInsert St Arr.2.2 /\ St <> AllocatorMatch)
  \/ c = lengthNotFound Arr.2.1.
Proof.
  unfold handleArrParam.
  destruct (findParam LP (Arr.1 + 1)) as [[LenName LenKey]|] eqn:HF.
  - apply findParam_in in HF. cbn [snd].
    intros [->|[->|?%elem_of_nil]%elem_of_cons]%elem_of_cons; [left| |done].
    + by exists (Arr.1 + 1), LenName, LenKey.
    + right; left. by exists NeighbourParamMatch.
  - pose proof (matchLenParams_sound Arr.2.1 Arr.2.2 LP c) as H1.
    destruct (matchLenParams Arr.2.1 Arr.2.2 LP) as [F1 Cs1].
    cbn [snd] in H1.
    assert (H2 : forall F2 Cs2,
              (if negb F1 then keywordLenParams Arr.2.2 LP else (F1, []))
              = (F2, Cs2) ->
              c ∈ Cs2 ->
              (exists j LenName LenKey,
                 (j, (LenName, LenKey)) ∈ LP
                 /\ c = replaceBounds Arr.2.2 (CountBound LenKey))
              \/ c = statInsert VariableNameMatch Arr.2.2).
    { intros F2 Cs2. destruct (negb F1).
      - intros HK. pose proof (keywordLenParams_sound Arr.2.2 LP c) as H.
        rewrite HK in H. exact H.
      - intros [= _ <-] ?%elem_of_nil. done. }
    destruct (if negb F1 then _ else _) as [F2 Cs2].
    specialize (H2 F2 Cs2 eq_refl).
    intros [[?| ->]%H1|[[?| ->]%H2|Hn]%elem_of_app]%elem_of_app.
    + by left.
    + right; left. by exists NamePrefixMatch.
    + by left.
    + right; left. by exists VariableNameMatch.
    + destruct (negb F2); [|by apply elem_of_nil in Hn].
      apply list_elem_of_singleton in Hn. by right; right.
Qed.

Lemma handleNtArrParam_sound LP Arr c :
  c ∈ handleNtArrParam LP Arr ->
  (exists LenName LenKey,
     (Arr.1 + 1, (LenName, LenKey)) ∈ LP
     /\ fieldNameMatch LenName = true
     /\ c = replaceBounds Arr.2.2 (CountBound LenKey))
  \/ c = statInsert VariableNameMatch Arr.2.2.
Proof.
  unfold handleNtArrParam.
  destruct (findParam LP (Arr.1 + 1)) as [[LenName LenKey]|] eqn:HF;
    [|by intros ?%elem_of_nil].
  apply findParam_in in HF. cbn [fst snd].
  destruct (fieldNameMatch LenName) eqn:HM; [|by intros ?%elem_of_nil].
  intros [->|[->|?%elem_of_nil]%elem_of_cons]%elem_of_cons;
    [left|by right|done].
  by exists LenName, LenKey.
Qed.

End ParameterBounds.

(** X17.  Every call [VisitFunctionDecl] makes is for a definition with a
    body and a prototype, and for one of its parameters that has a bounds
    key and needs array bounds: the call either replaces the bounds of
    that parameter by the element count of a parameter of the same
    function that has a bounds key and is a potential length (of integer
    type and, with the local visitor's information, neither of an
    enumeration type nor recorded as no length), or records a statistic
    other than an allocator match, or reports that no length was found.
    No bounds are merged and no byte count is bound. *)
Theorem VisitFunctionDecl_binds_potential_lengths (env : BoundsEnv)
    (ParamInfo : option (Decl -> bool)) (FD : Decl) (c : ABCall) :
  c ∈ VisitFunctionDecl env ParamInfo FD ->
  isThisDeclarationADefinition FD && declHasBody FD = true
  /\ typeHasProto (getDeclType FD) = true
  /\ exists i PVD PK,
       getParamDecls FD !! i = Some PVD
       /\ getVariableD env PVD = Some PK
       /\ (needArrayBounds env PVD false = true
           \/ needArrayBounds env PVD true = true)
       /\ ((exists j LVD LK,
              c = replaceBounds PK (CountBound LK)
              /\ getParamDecls FD !! j = Some LVD
              /\ getVariableD env LVD = Some LK
              /\ isIntegerType (getDeclType LVD) = true
              /\ IsPotentialLengthVar ParamInfo LVD = true
              /\ forall NLP, ParamInfo = Some NLP ->
                   isEnumeralType (getDeclType LVD) = false
                   /\ NLP LVD = false)
           \/ (exists St, c = statInsert St PK /\ St <> AllocatorMatch)
           \/ c = lengthNotFound (getNameAsString PVD)).
Proof.
  unfold VisitFunctionDecl.
  destruct (isThisDeclarationADefinition FD && declHasBody FD);
    [|by intros ?%elem_of_nil].
  destruct (typeHasProto (getDeclType FD)); [|by intros ?%elem_of_nil].
  pose proof (collectParams_sound env ParamInfo 0 (getParamDecls FD))
    as (HA & HN & HL). cbn zeta in HA, HN, HL.
  destruct (collectParams env ParamInfo 0 (getParamDecls FD))
    as [[PA PNA] LP]. cbn [fst snd] in HA, HN, HL.
  intros Hc. split; [done|]. split; [done|].
  assert (Hlen : forall j LenName LenKey,
            (j, (LenName, LenKey)) ∈ LP ->
            exists LVD,
              getParamDecls FD !! j = Some LVD
              /\ getVariableD env LVD = Some LenKey
              /\ isIntegerType (getDeclType LVD) = true
              /\ IsPotentialLengthVar ParamInfo LVD = true
              /\ forall NLP, ParamInfo = Some NLP ->
                   isEnumeralType (getDeclType LVD) = false
                   /\ NLP LVD = false).
  { intros j n k (j' & LVD & -> & HP & _ & HK & HT)%HL. exists LVD.
    split; [exact HP|]. split; [exact HK|].
    pose proof HT as HT'. unfold IsPotentialLengthVar in HT'.
    destruct (isIntegerType (getDeclType LVD)); [|done].
    split; [done|]. split; [done|]. intros NLP ->.
    unfold isNonLengthParameter in HT'.
    destruct (isEnumeralType (getDeclType LVD)); [done|].
    split; [done|]. by destruct (NLP LVD). }
  assert (Harr : c ∈ flat_map (handleArrParam LP) PA ->
            exists i PVD PK,
              getParamDecls FD !! i = Some PVD
              /\ getVariableD env PVD = Some PK
              /\ (needArrayBounds env PVD false = true
                  \/ needArrayBounds env PVD true = true)
              /\ ((exists j LVD LK,
                     c = replaceBounds PK (CountBound LK)
                     /\ getParamDecls FD !! j = Some LVD
                     /\ getVariableD env LVD = Some LK
                     /\ isIntegerType (getDeclType LVD) = true
                     /\ IsPotentialLengthVar ParamInfo LVD = true
                     /\ forall NLP, ParamInfo = Some NLP ->
                          isEnumeralType (getDeclType LVD) = false
                          /\ NLP LVD = false)
                  \/ (exists St, c = statInsert St PK /\ St <> AllocatorMatch)
                  \/ c = lengthNotFound (getNameAsString PVD))).
  { intros ([i [n PK]] & Hin%list_elem_of_In & Hc')%list_elem_of_In%in_flat_map.
    apply list_elem_of_In in Hc'.
    destruct (HA _ _ Hin) as (i' & PVD & -> & HP & Hn & HK & HT).
    cbn [fst snd] in *. subst n. exists i', PVD, PK.
    split; [exact HP|]. split; [exact HK|]. split; [by left|].
    apply handleArrParam_sound in Hc' as [(j & ln & lk & Hl & ->)|[?|?]];
      cbn [fst snd] in *; [left|by right; left|by right; right].
    destruct (Hlen _ _ _ Hl) as (LVD & ?). by exists j, LVD, lk. }
  apply elem_of_app in Hc as [Hc|Hc].
  - destruct PA as [|a PA]; [by apply elem_of_nil in Hc|].
    destruct LP as [|l LP]; [by apply elem_of_nil in Hc|].
    by apply Harr.
  - apply list_elem_of_In, in_flat_map in Hc
      as ([i [n PK]] & Hin%list_elem_of_In & Hc'%list_elem_of_In).
    destruct (HN _ _ Hin) as (i' & PVD & -> & HP & Hn & HK & HT).
    cbn [fst snd] in *. subst n. exists i', PVD, PK.
    split; [exact HP|]. split; [exact HK|]. split; [by right|].
    apply handleNtArrParam_sound in Hc' as [(ln & lk & Hl & _ & ->)| ->];
      cbn [fst snd] in *.
    + left. destruct (Hlen _ _ _ Hl) as (LVD & ?).
      by exists (0 + i' + 1), LVD, lk.
    + right; left. by exists VariableNameMatch.
Qed.

(** In [fill(int *buf, int n, int buf_len)] the bounds of [buf] are
    replaced by the count of the parameter [n]. *)
Lemma VisitFunctionDecl_binds_potential_lengths_witness :
  exists i PVD PK,
    getParamDecls Examples.fillDecl !! i = Some PVD
    /\ getVariableD Examples.boundsEnv PVD = Some PK
    /\ PK = 10.
Proof.
  destruct (VisitFunctionDecl_binds_potential_lengths Examples.boundsEnv None
              Examples.fillDecl (replaceBounds 10 (CountBound 2)))
    as (_ & _ & i & PVD & PK & HP & HK & _ & [(j & L & LK & HC & _)|[H|H]]).
  - vm_compute. apply list_elem_of_here.
  - exists i, PVD, PK. split; [exact HP|]. split; [exact HK|].
    by injection HC as <- _.
  - destruct H as (St & H & _). discriminate H.
  - discriminate H.
Defined.

(** ** The parameters that are no lengths *)

Section NonLength.

Lemma DeclKind_eqb_refl k : DeclKind_eqb k k = true.
Proof. by destruct k. Qed.

Lemma PSL_eqb_refl l : PSL_eqb l l = true.
Proof.
  unfold PSL_eqb. by rewrite String.eqb_refl, !Nat.eqb_refl.
Qed.

Lemma DeclFlags_eqb_refl f : DeclFlags_eqb f f = true.
Proof. unfold DeclFlags_eqb. by rewrite !Bool.eqb_reflx. Qed.

Lemma Decl_eqb_refl (D : Decl) : Decl_eqb D D = true.
Proof.
  revert D. fix IH 1. intros [k n t l ps f]. cbn [Decl_eqb].
  rewrite DeclKind_eqb_refl, String.eqb_refl, QualType_eqb_refl,
    PSL_eqb_refl, DeclFlags_eqb_refl. cbn [andb]. rewrite andb_true_r.
  induction ps as [|p ps IHps]; [done|]. by rewrite IH, IHps.
Qed.

Lemma elem_of_insertDecl D X Ds :
  X ∈ insertDecl D Ds -> X = D \/ X ∈ Ds.
Proof.
  unfold insertDecl. destruct (existsb _ Ds); [by right|].
  intros [?|HX%list_elem_of_singleton]%elem_of_app; [by right|by left].
Qed.

Lemma insertDecl_keeps D X Ds : X ∈ Ds -> X ∈ insertDecl D Ds.
Proof.
  unfold insertDecl. destruct (existsb _ Ds); [done|].
  intros ?. apply elem_of_app. by left.
Qed.

Lemma insertDecl_found D Ds : inNonLengthParameters (insertDecl D Ds) D = true.
Proof.
  unfold insertDecl, inNonLengthParameters.
  destruct (existsb (Decl_eqb D) Ds) eqn:HE; [done|].
  rewrite existsb_app. cbn [existsb]. by rewrite Decl_eqb_refl, orb_true_r.
Qed.

Lemma inNonLengthParameters_mono Ds Ds' D :
  (forall X, X ∈ Ds -> X ∈ Ds') ->
  inNonLengthParameters Ds D = true -> inNonLengthParameters Ds' D = true.
Proof.
  unfold inNonLengthParameters. intros Hsub.
  intros (X & HX%list_elem_of_In & HE)%existsb_exists.
  apply existsb_exists. exists X. split; [|done].
  by apply list_elem_of_In, Hsub.
Qed.

Lemma addUsedParmVarDecl_spec CE NLP :
  (forall X, X ∈ NLP -> X ∈ addUsedParmVarDecl CE NLP)
  /\ (forall X, X ∈ addUsedParmVarDecl CE NLP ->
        X ∈ NLP
        \/ (isParmVarDecl X = true
            /\ exists H, IgnoreParenCasts CE = DeclRefExpr H X))
  /\ (forall H PVD, IgnoreParenCasts CE = DeclRefExpr H PVD ->
        isParmVarDecl PVD = true ->
        inNonLengthParameters (addUsedParmVarDecl CE NLP) PVD = true).
Proof.
  unfold addUsedParmVarDecl.
  destruct (IgnoreParenCasts CE) eqn:HE;
    try (split; [done|]; split; [by left|done]).
  destruct (isParmVarDecl D) eqn:HP.
  - split; [intros X; apply insertDecl_keeps|]. split.
    + intros X [->|?]%elem_of_insertDecl; [right|by left].
      split; [done|]. by exists H.
    + intros H' PVD [= _ <-] _. apply insertDecl_found.
  - split; [done|]. split; [by left|]. intros H' PVD [= _ <-]. congruence.
Qed.

(** One visit only adds parameter declarations that the visited node
    refers to. *)
Lemma visit_spec V NLP :
  (forall X, X ∈ NLP -> X ∈ visit NLP V)
  /\ (forall X, X ∈ visit NLP V -> X ∈ NLP \/ isParmVarDecl X = true).
Proof.
  destruct V as [Cond|CondVar|OR]; cbn [visit].
  - unfold VisitIfStmt. destruct Cond; try (split; [done|by left]).
    destruct (addUsedParmVarDecl_spec Cond1 NLP) as (K1 & S1 & _).
    destruct (addUsedParmVarDecl_spec Cond2 (addUsedParmVarDecl Cond1 NLP))
      as (K2 & S2 & _).
    destruct Opc; try (split; [done|by left]).
    all: split; [intros X ?; by apply K2, K1|].
    all: intros X [[?|[? _]]%S1|[? _]]%S2; [by left|by right|by right].
  - unfold VisitSwitchStmt. destruct CondVar as [PD|]; [|split; [done|by left]].
    destruct (isParmVarDecl PD) eqn:HP; [|split; [done|by left]].
    split; [intros X; apply insertDecl_keeps|].
    intros X [->|?]%elem_of_insertDecl; [by right|by left].
  - unfold VisitBinAssignCond.
    destruct (IgnoreParenCasts OR); try (split; [done|by left]).
    destruct (addUsedParmVarDecl_spec e1 NLP) as (K1 & S1 & _).
    split; [exact K1|]. intros X [?|[? _]]%S1; [by left|by right].
Qed.

Lemma visits_spec Vs NLP :
  (forall X, X ∈ NLP -> X ∈ foldl visit NLP Vs)
  /\ (forall X, X ∈ foldl visit NLP Vs -> X ∈ NLP \/ isParmVarDecl X = true).
Proof.
  revert NLP. induction Vs as [|V Vs IH]; intros NLP; cbn [foldl].
  - split; [done|by left].
  - destruct (IH (visit NLP V)) as [K S].
    destruct (visit_spec V NLP) as [K1 S1]. split.
    + intros X ?. by apply K, K1.
    + intros X [[?|?]%S1|?]%S; [by left|by right|by right].
Qed.

End NonLength.

(** X18.  The set [NonLengthParameters] of the local visitor only grows,
    and only by parameter declarations.  A parameter that an [if]
    statement compares with [==] or [!=] (on either side, below
    parentheses and casts), that is the condition variable of a [switch],
    or that is the condition of a conditional expression on the right of
    an assignment, is in the set after that visit and after all later
    ones; [IsPotentialLengthVar] then rejects it, and so does it every
    parameter of an enumeration type. *)
Theorem used_parameter_is_no_length (Before After : list LocalVisit)
    (V : LocalVisit) (PVD : Decl) (NLP : list Decl) :
  let NLP' := foldl visit NLP (Before ++ V :: After) in
  isParmVarDecl PVD = true ->
  ((exists H Opc L R h,
      V = OnIfStmt (BinaryOperator H Opc L R)
      /\ (Opc = BO_EQ \/ Opc = BO_NE)
      /\ (IgnoreParenCasts L = DeclRefExpr h PVD
          \/ IgnoreParenCasts R = DeclRefExpr h PVD))
   \/ V = OnSwitchStmt (Some PVD)
   \/ (exists OR H Cond L R h,
         V = OnBinAssign OR
         /\ IgnoreParenCasts OR = ConditionalOperator H Cond L R
         /\ IgnoreParenCasts Cond = DeclRefExpr h PVD)) ->
  (forall X, X ∈ NLP -> X ∈ NLP')
  /\ (forall X, X ∈ NLP' -> X ∈ NLP \/ isParmVarDecl X = true)
  /\ inNonLengthParameters NLP' PVD = true
  /\ IsPotentialLengthVar (Some (inNonLengthParameters NLP')) PVD = false
  /\ (forall P Ds, isEnumeralType (getDeclType P) = true ->
        IsPotentialLengthVar (Some (inNonLengthParameters Ds)) P = false).
Proof.
  intros NLP' HP HV. subst NLP'. rewrite foldl_app. cbn [foldl].
  set (N0 := foldl visit NLP Before).
  destruct (visits_spec Before NLP) as [K0 S0].
  destruct (visit_spec V N0) as [K1 S1].
  destruct (visits_spec After (visit N0 V)) as [K2 S2].
  assert (Hin : inNonLengthParameters (visit N0 V) PVD = true).
  { destruct HV as [(H & Opc & L & R & h & -> & HO & HLR)
                   |[->|(OR & H & Cond & L & R & h & -> & HOR & HC)]];
      cbn [visit].
    - unfold VisitIfStmt.
      destruct (addUsedParmVarDecl_spec L N0) as (KL & _ & FL).
      destruct (addUsedParmVarDecl_spec R (addUsedParmVarDecl L N0))
        as (KR & _ & FR).
      assert (Hboth : inNonLengthParameters
                        (addUsedParmVarDecl R (addUsedParmVarDecl L N0)) PVD
                      = true).
      { destruct HLR as [HL|HR]; [|by apply (FR h)].
        eapply inNonLengthParameters_mono; [exact KR|by apply (FL h)]. }
      by destruct HO as [-> | ->].
    - unfold VisitSwitchStmt. rewrite HP. apply insertDecl_found.
    - unfold VisitBinAssignCond. rewrite HOR.
      destruct (addUsedParmVarDecl_spec Cond N0) as (_ & _ & FC).
      by apply (FC h). }
  assert (Hfin : inNonLengthParameters (foldl visit (visit N0 V) After) PVD
                 = true).
  { eapply inNonLengthParameters_mono; [exact K2|exact Hin]. }
  split; [intros X ?; by apply K2, K1, K0|]. split.
  { intros X [[[?|?]%S0|?]%S1|?]%S2; [by left|by right..]. }
  split; [exact Hfin|]. split.
  - unfold IsPotentialLengthVar, isNonLengthParameter. rewrite Hfin.
    by destruct (isIntegerType (getDeclType PVD)),
         (isEnumeralType (getDeclType PVD)).
  - intros P Ds HE. unfold IsPotentialLengthVar, isNonLengthParameter.
    rewrite HE. by destruct (isIntegerType (getDeclType P)).
Qed.

(** After [if (n == 0)] in the body of [fill(int *buf, int n, int
    buf_len)], [n] is no potential length any more, and the bounds of [buf]
    are taken from [buf_len], by the names. *)
Lemma used_parameter_is_no_length_witness :
  IsPotentialLengthVar None Examples.nParm = true
  /\ IsPotentialLengthVar
       (Some (inNonLengthParameters
                (foldl visit [] [OnIfStmt MoreExamples.nIsZero])))
       Examples.nParm = false
  /\ VisitFunctionDecl Examples.boundsEnv
       (Some (inNonLengthParameters
                (foldl visit [] [OnIfStmt MoreExamples.nIsZero])))
       Examples.fillDecl
     = [replaceBounds 10 (CountBound 12); statInsert NamePrefixMatch 10].
Proof.
  split; [vm_compute; reflexivity|].
  destruct (used_parameter_is_no_length [] []
              (OnIfStmt MoreExamples.nIsZero) Examples.nParm [])
    as (_ & _ & _ & HL & _).
  - vm_compute. reflexivity.
  - left.
    exists (mkExprInfo 63 Examples.intTy ("t.c", 13, 9) true), BO_EQ,
      MoreExamples.nParmRef,
      (IntegerLiteral (mkExprInfo 62 Examples.intTy ("t.c", 13, 12) true) 0),
      (mkExprInfo 60 Examples.intTy ("t.c", 13, 7) true).
    split; [reflexivity|]. split; [by left|]. left. reflexivity.
  - split; [exact HL|]. vm_compute. reflexivity.
Defined.

(** ** The resolver: what a resolution leaves behind *)

Section Grows.

Lemma grows_refl cs : grows cs cs.
Proof. by split. Qed.

Lemma grows_trans cs1 cs2 cs3 : grows cs1 cs2 -> grows cs2 cs3 -> grows cs1 cs3.
Proof. intros [H1 H2] [H3 H4]. split; [by etrans|lia]. Qed.

Lemma onlyAdds_grows cs cs' : onlyAdds cs cs' -> grows cs cs'.
Proof. intros [H1 H2]. split; [done|lia]. Qed.

Lemma freshFrom_grows cs cs' As : freshFrom cs cs' As -> grows cs cs'.
Proof. intros (H1 & H2 & _). split; [by rewrite H1|done]. Qed.

Lemma grows_addConstraint c cs : grows cs (addConstraint c cs).
Proof. split; [by apply prefix_app_r|done]. Qed.

Lemma grows_getFreshVar cs : grows cs (getFreshVar cs).2.
Proof. split; cbn; [done|lia]. Qed.

Lemma grows_constrainOuterTo P C b cs : grows cs (constrainOuterTo P C b cs).
Proof.
  unfold constrainOuterTo. destruct (getCvars P); [apply grows_refl|].
  destruct b; apply grows_addConstraint.
Qed.

Lemma grows_newPVConstraint T N G cs : grows cs (newPVConstraint T N G cs).2.
Proof. eapply freshFrom_grows, newPVConstraint_fresh. Qed.

Lemma grows_getCopy C cs : grows cs (getCopy C cs).2.
Proof. eapply freshFrom_grows, getCopy_fresh. Qed.

Lemma grows_constrainConsVarGeq Ls Rs PL CA cs :
  grows cs (constrainConsVarGeq Ls Rs PL CA cs).
Proof. apply onlyAdds_grows, onlyAdds_constrainConsVarGeq. Qed.

Lemma grows_constrainToWild C rsn PL cs : grows cs (constrainToWild C rsn PL cs).
Proof. apply onlyAdds_grows, onlyAdds_constrainToWild. Qed.

Lemma grows_addAtom PVC A cs : grows cs (addAtom PVC A cs).2.
Proof.
  unfold addAtom. cbn [getFreshVar]. cbn [snd].
  eapply grows_trans; [|apply grows_constrainOuterTo].
  eapply grows_trans; [apply (grows_getFreshVar cs)|]. cbn [getFreshVar snd].
  destruct (getCvars PVC) as [|[VA|c] C]; try apply grows_refl.
  apply grows_addConstraint.
Qed.

Lemma grows_addAtomAll CVS A cs : grows cs (addAtomAll CVS A cs).2.
Proof.
  revert cs. induction CVS as [|CV CVS IH]; intros cs; cbn [addAtomAll];
    [apply grows_refl|].
  assert (H1 : grows cs (if isPV CV then addAtom CV A cs else (CV, cs)).2).
  { destruct (isPV CV); [apply grows_addAtom|apply grows_refl]. }
  destruct (if isPV CV then _ else _) as [X cs1].
  specialize (IH cs1). destruct (addAtomAll CVS A cs1) as [R cs2].
  cbn [snd] in *. by eapply grows_trans.
Qed.

End Grows.

Section Preserves.

Lemma extends_refl s : extends s s.
Proof. split; [apply grows_refl|done]. Qed.

Lemma extends_trans s1 s2 s3 : extends s1 s2 -> extends s2 s3 -> extends s1 s3.
Proof.
  intros [H1 H2] [H3 H4]. split; [by eapply grows_trans|].
  intros k ?. by apply H4, H2.
Qed.

Lemma preserves_ret {A} (Q : A -> Prop) x : Q x -> preserves Q (ret x).
Proof. intros HQ s y s' Hk [= <- <-]. split; [apply extends_refl|done]. Qed.

Lemma preserves_fail {A} (Q : A -> Prop) : preserves Q fail.
Proof. by intros s y s' Hk. Qed.

Lemma preserves_bind {A B} (Q1 : A -> Prop) (Q2 : B -> Prop) m f :
  preserves Q1 m -> (forall x, Q1 x -> preserves Q2 (f x)) ->
  preserves Q2 (bind m f).
Proof.
  intros Hm Hf s y s' Hk. unfold bind.
  destruct (m s) as [[x s1]|] eqn:Hms; [|done]. intros Hfs.
  destruct (Hm _ _ _ Hk Hms) as (HE1 & HK1 & HQ1).
  destruct (Hf x HQ1 _ _ _ HK1 Hfs) as (HE2 & HK2 & HQ2).
  split; [by eapply extends_trans|done].
Qed.

Lemma preserves_weaken {A} (Q1 Q2 : A -> Prop) m :
  preserves Q1 m -> (forall x, Q1 x -> Q2 x) -> preserves Q2 m.
Proof.
  intros Hm HQ s y s' Hk Hr. destruct (Hm _ _ _ Hk Hr) as (? & ? & ?).
  split; [done|]. split; [done|by apply HQ].
Qed.

Lemma preserves_modifyCS f :
  (forall cs, grows cs (f cs)) -> preserves (fun _ => True) (modifyCS f).
Proof. intros Hf s [] s' Hk [= <-]. split; [by split|done]. Qed.

Lemma preserves_withCS {A} (Q : A -> Prop) (f : Constraints -> A * Constraints) :
  (forall cs, grows cs (f cs).2 /\ Q (f cs).1) -> preserves Q (withCS f).
Proof.
  intros Hf s x s' Hk. unfold withCS. specialize (Hf (rCS s)).
  destruct (f (rCS s)) as [y cs]. intros [= <- <-]. destruct Hf as [Hg HQ].
  split; [by split|done].
Qed.

Lemma preserves_store E R :
  R.2 = [] -> preserves (fun _ => True) (storePersistentConstraints E R).
Proof.
  intros HR s [] s' Hk [= <-]. split; [|split; [|done]].
  - split; [apply grows_refl|]. cbn. intros k Hs.
    destruct (decide (getExprId E = k)) as [->|];
      [rewrite lookup_insert_eq; by eexists|by rewrite lookup_insert_ne].
  - intros k r. cbn. destruct (decide (getExprId E = k)) as [->|].
    + rewrite lookup_insert_eq. by intros [= <-].
    + rewrite lookup_insert_ne by done. apply Hk.
Qed.

Lemma preserves_cachedAt E body :
  preserves (fun r : list ConstraintVariable * list nat => r.2 = []) body ->
  preserves (fun r : list ConstraintVariable * list nat => r.2 = [])
    (cachedAt E body).
Proof.
  intros Hb s r s' Hk. unfold cachedAt. unfold bind at 1, getState.
  destruct (hasPersistentConstraints E s).
  - unfold getPersistentConstraints.
    destruct (ExprConstraintVars s !! getExprId E) as [r0|] eqn:Hr0; [|done].
    intros [= <- <-]. split; [apply extends_refl|]. split; [done|].
    by apply (Hk _ _ Hr0).
  - revert s r s' Hk. change (preserves
      (fun r : list ConstraintVariable * list nat => r.2 = [])
      (let* Ret := body in do* storePersistentConstraints E Ret in ret Ret)).
    eapply preserves_bind; [exact Hb|]. intros Ret HRet.
    eapply preserves_bind; [by apply preserves_store|]. intros _ _.
    by apply preserves_ret.
Qed.

Lemma preserves_constraintAllCVarsToWild CSet rsn AtExpr :
  preserves (fun _ => True) (constraintAllCVarsToWild CSet rsn AtExpr).
Proof.
  apply preserves_modifyCS. intros cs. apply onlyAdds_grows, onlyAdds_foldl.
  intros c A. apply onlyAdds_constrainToWild.
Qed.

Lemma preserves_getInvalidCastPVCons E :
  preserves (fun _ => True) (getInvalidCastPVCons E).
Proof.
  intros s r s' Hk. unfold getInvalidCastPVCons. unfold bind at 1, getState.
  destruct (hasPersistentConstraints E s).
  - unfold bind, getPersistentConstraints, ret.
    destruct (ExprConstraintVars s !! getExprId E) as [r0|]; [|done].
    intros [= <- <-]. split; [apply extends_refl|done].
  - revert s r s' Hk.
    match goal with
    | |- forall s r s', keyless s -> ?m s = Some (r, s') -> _ =>
        change (preserves (fun _ : list ConstraintVariable => True) m)
    end.
    eapply (preserves_bind (fun _ => True)).
    { apply preserves_withCS. intros cs. split; [|done].
      apply grows_newPVConstraint. }
    intros P _. eapply (preserves_bind (fun _ => True)).
    { apply preserves_modifyCS. intros cs. apply grows_constrainToWild. }
    intros _ _. eapply (preserves_bind (fun _ => True)).
    { by apply preserves_store. }
    intros _ _. by apply preserves_ret.
Qed.

Lemma preserves_getRewritablePVConstraint E :
  preserves (fun _ => True) (getRewritablePVConstraint E).
Proof.
  unfold getRewritablePVConstraint.
  eapply (preserves_bind (fun _ => True)).
  { apply preserves_withCS. intros cs. split; [|done].
    apply grows_newPVConstraint. }
  intros P _. eapply (preserves_bind (fun _ => True)).
  { unfold constrainWildIfMacro. destruct (negb _); [|by apply preserves_ret].
    apply preserves_modifyCS. intros cs. apply grows_constrainToWild. }
  intros _ _. by apply preserves_ret.
Qed.

Lemma preserves_copyReturnVar env CE RF CV :
  preserves (fun _ => True) (copyReturnVar env CE RF CV).
Proof.
  unfold copyReturnVar.
  eapply (preserves_bind (fun _ => True)).
  { destruct (isPV CV && getIsOriginallyChecked CV).
    - eapply (preserves_bind (fun _ => True)).
      + apply preserves_withCS. intros cs. split; [|done].
        apply grows_newPVConstraint.
      + intros N _. by apply preserves_ret.
    - apply preserves_withCS. intros cs. split; [|done]. apply grows_getCopy. }
  intros N0 _. eapply (preserves_bind (fun _ => True)).
  { apply preserves_modifyCS. intros cs. apply grows_constrainConsVarGeq. }
  intros _ _. eapply (preserves_bind (fun _ => True)).
  { destruct RF; [by apply preserves_ret|].
    apply preserves_modifyCS. intros cs. apply grows_constrainConsVarGeq. }
  intros _ _. by apply preserves_ret.
Qed.

Lemma preserves_copyReturnVars env CE RF Rs Tmp :
  preserves (fun _ => True) (copyReturnVars env CE RF Rs Tmp).
Proof.
  revert Tmp. induction Rs as [|CV Rs IH]; intros Tmp; cbn [copyReturnVars].
  - by apply preserves_ret.
  - eapply (preserves_bind (fun _ => True)); [apply preserves_copyReturnVar|].
    intros N _. apply IH.
Qed.

End Preserves.

Section Later.
Variable env : ResolverEnv.

Local Abbreviation KP := (fun r : list ConstraintVariable * list nat => r.2 = []).

Ltac early :=
  destruct (isRecordType _ || isArithmeticType _);
    [first [by apply preserves_ret
           |destruct (getBaseVarPVConstraint _ _);
              [by apply preserves_ret|apply preserves_fail]]|];
  destruct (negb (isExplicitCastExpr _) && isNULLExpression _ _);
    [by apply preserves_ret|].

Ltac known :=
  first
    [ apply preserves_constraintAllCVarsToWild
    | apply preserves_getInvalidCastPVCons
    | apply preserves_getRewritablePVConstraint
    | apply preserves_copyReturnVars
    | apply preserves_modifyCS; intros ?;
      first [apply grows_constrainConsVarGeq | apply grows_constrainOuterTo]
    | apply (preserves_withCS (fun _ => True)); intros ?; split; [|done];
      first [apply grows_newPVConstraint | apply grows_addAtomAll] ].

Lemma esize_pos E : 0 < esize E.
Proof. destruct E; try destruct Result as [[?|]|]; cbn [esize]; lia. Qed.

Lemma resolveExpr_preserves n :
  forall E TypE, esize E < n -> preserves KP (resolveExpr env TypE E).
Proof.
  induction n as [|n IH]; intros E TypE Hn; [lia|].
  assert (Hderef : forall X TX,
            esize X < n ->
            preserves KP
              (let* T := resolveExpr env TX X in
               match handleDeref T.1 with
               | Some tmp => ret (tmp, T.2)
               | None => fail
               end)).
  { intros X TX HX. eapply preserves_bind; [by apply IH|]. intros T HT.
    destruct (handleDeref T.1); [by apply preserves_ret|apply preserves_fail]. }
  assert (Hall : forall Xs,
            list_sum (map esize Xs) < n ->
            preserves KP
              ((fix getAll (Exprs : list Expr)
                  : M (list ConstraintVariable * list nat) :=
                  match Exprs with
                  | [] => ret ([], [])
                  | X :: Exprs' =>
                      let* ECons := resolveExpr env (getType X) X in
                      let* Agg := getAll Exprs' in
                      ret (insertCVs Agg.1 ECons.1, ECons.2 ++ Agg.2)
                  end) Xs)).
  { induction Xs as [|X Xs IHXs]; simpl; intros HXs.
    - by apply preserves_ret.
    - eapply preserves_bind; [apply IH; lia|]. intros EC HEC.
      eapply preserves_bind; [apply IHXs; lia|]. intros Agg HAgg.
      apply preserves_ret. cbn [snd]. by rewrite HEC, HAgg. }
  destruct E; cbn [esize] in Hn; cbn [resolveExpr].
  1: apply IH; lia.
  all: try (destruct Result as [[ESE|]|]; cbn [esize] in Hn; cbn [resolveExpr]).
  all: early.
  all: try (apply preserves_cachedAt).
  all: try (by apply preserves_ret).
  all: try (apply preserves_fail).
  -     eapply preserves_bind; [apply IH; lia|]. intros CVs HCVs.
    destruct (_ && _ && _); [|by apply preserves_ret].
    eapply preserves_bind; [known|]. intros _ _.
    eapply preserves_bind; [known|]. intros R _. by apply preserves_ret.
  -     destruct (negb (QualType_eqb _ _)); [apply preserves_fail|].
    destruct (_ && _ && _).
    + eapply preserves_bind; [known|]. intros R _. by apply preserves_ret.
    + eapply preserves_bind; [apply IH; lia|]. intros Vars HVars.
      eapply preserves_bind; [known|]. intros P _.
      eapply (preserves_bind (fun _ => True)).
      { destruct (negb _); [known|by apply preserves_ret]. }
      intros _ _. by apply preserves_ret.
  - destruct (getVariable env D); [by apply preserves_ret|apply preserves_fail].
  - destruct (getVariable env Member);
      [by apply preserves_ret|apply preserves_fail].
  - apply IH; lia.
  - destruct Opc; try (by apply preserves_ret); try apply preserves_fail;
      try (apply IH; lia).
    all: destruct (isPointerType (getType E1)); [apply IH; lia|];
      destruct (isPointerType (getType E2)); [apply IH; lia|];
      by apply preserves_ret.
  - apply Hderef; lia.
  - destruct Opc; try (by apply preserves_ret); try apply preserves_fail;
      try (apply IH; lia); try (apply Hderef; lia).
    assert (HE : esize E < n) by lia. clear Hn. revert HE.
    induction E; intros HE; cbn [esize] in HE;
      try (destruct Opc; try (by apply preserves_ret));
      try (apply IH; lia);
      try (apply IHE; lia).
    all: eapply preserves_bind; [apply IH; cbn [esize]; lia|];
      intros T HT; destruct T.1; [apply preserves_fail|];
      eapply preserves_bind; [known|]; intros R _; by apply preserves_ret.
  - eapply (preserves_bind
              (fun RR : list ConstraintVariable * list nat
                        * list ConstraintVariable => RR.1.2 = [])).
    { destruct CalleeDecl as [FD|].
      - destruct (negb (isDeclaratorDecl FD)); [apply preserves_fail|].
        destruct (isFunctionAllocator env _).
        + destruct (if decide (0 < length Args) then _ else _)
            as [[[[A ArgTy]|]|]|];
            try (by apply preserves_ret); try apply preserves_fail.
          eapply preserves_bind; [known|]. intros PVC _.
          eapply preserves_bind; [known|]. intros _ _.
          eapply (preserves_bind (fun _ => True)).
          { destruct (String.eqb _ _); [|by apply preserves_ret].
            destruct Args as [|Arg0 Args]; [apply preserves_fail|].
            assert (HA : esize Arg0 < n) by (simpl in Hn; lia).
            clear Hn. revert HA.
            induction Arg0; intros HA; try (apply IHArg0; cbn [esize] in HA; lia);
              (eapply preserves_bind; [by apply IH|]; intros r _;
               by apply preserves_ret). }
          intros RF _. by apply preserves_ret.
        + destruct (getVariable env FD) as [[? [?|] ?|]|];
            try (by apply preserves_ret). apply preserves_fail.
      - eapply preserves_bind; [apply IH; lia|]. intros tmp Htmp.
        by apply preserves_ret. }
    intros [[ReturnCVs ReturnBSet] ReallocFlow] HRR. cbn in HRR.
    eapply preserves_bind; [known|]. intros Tmp _. by apply preserves_ret.
  - apply (Hall [E2; E3]). simpl. lia.
  - eapply preserves_bind; [apply Hall; lia|]. intros CVars HC.
    destruct (isArrayType _).
    + eapply preserves_bind; [known|]. intros R _. by apply preserves_ret.
    + destruct (isPointerType _); [by apply preserves_ret|apply preserves_fail].
  - eapply preserves_bind; [apply IH; lia|]. intros Vars HVars.
    eapply preserves_bind; [known|]. intros P _.
    eapply preserves_bind; [known|]. intros _ _. by apply preserves_ret.
  - eapply preserves_bind; [known|]. intros P _.
    eapply preserves_bind; [known|]. intros _ _. by apply preserves_ret.
  - intros s r s' Hk. unfold bind at 1, getState.
    destruct (hasPersistentConstraints _ s).
    + unfold getPersistentConstraints.
      destruct (ExprConstraintVars s !! _) as [r0|] eqn:Hr0; [|done].
      intros [= <- <-]. split; [apply extends_refl|]. split; [done|].
      by apply (Hk _ _ Hr0).
    + apply IH; [lia|done].
Qed.
End Later.

(** X19.  Whatever the expression, a returned [getExprConstraintVars]
    leaves a later state: the constraints it found are still there, in
    their order, before the new ones; no key of an unknown is given out a
    second time; and every node that had persistent constraints still has
    some.  The resolver never produces a bounds key: when no stored result
    holds one, the result holds none, and no stored result holds one
    afterwards. *)
Theorem getExprConstraintVars_leaves_later_state (env : ResolverEnv)
    (E : Expr) (s s' : ResolverState)
    (r : list ConstraintVariable * list nat) :
  keyless s ->
  getExprConstraintVars env E s = Some (r, s') ->
  getConstraints (rCS s) `prefix_of` getConstraints (rCS s')
  /\ freshKey (rCS s) <= freshKey (rCS s')
  /\ (forall X, hasPersistentConstraints X s = true ->
                hasPersistentConstraints X s' = true)
  /\ r.2 = []
  /\ keyless s'.
Proof.
  intros Hk Hr. unfold getExprConstraintVars in Hr.
  destruct (resolveExpr_preserves env (S (esize E)) E (getType E)
              (Nat.lt_succ_diag_r _) s r s' Hk Hr)
    as ([[Hp Hf] Hd] & Hk' & HQ).
  split; [exact Hp|]. split; [exact Hf|]. split; [|by split].
  intros X HX. unfold hasPersistentConstraints in *.
  apply bool_decide_eq_true. apply bool_decide_eq_true in HX. by apply Hd.
Qed.

(** The explicit cast [(char * ) q], resolved in a state with one key taken
    and nothing stored. *)
Lemma getExprConstraintVars_leaves_later_state_witness :
  getExprConstraintVars Examples.castEnv Examples.explicitCast
    Examples.castState = Some Examples.explicitOnce
  /\ freshKey (rCS Examples.castState)
     <= freshKey (rCS Examples.explicitOnce.2)
  /\ Examples.explicitOnce.1.2 = [].
Proof.
  assert (H : getExprConstraintVars Examples.castEnv Examples.explicitCast
                Examples.castState
              = Some (Examples.explicitOnce.1, Examples.explicitOnce.2))
    by (vm_compute; reflexivity).
  split; [exact H|].
  destruct (getExprConstraintVars_leaves_later_state Examples.castEnv
              Examples.explicitCast Examples.castState
              Examples.explicitOnce.2 Examples.explicitOnce.1)
    as (_ & HF & _ & HR & _).
  - intros k r. cbn. by rewrite lookup_empty.
  - exact H.
  - split; [exact HF|exact HR].
Defined.

(** ** Taking an address and dereferencing *)

Section Deref.

Lemma getCvars_PVConstraintOf C CV :
  isPV CV = true -> getCvars (PVConstraintOf C CV) = C.
Proof. by destruct CV. Qed.

Lemma isPV_PVConstraintOf C CV : isPV (PVConstraintOf C CV) = isPV CV.
Proof. by destruct CV. Qed.

Lemma PVConstraintOf_twice C C' CV :
  PVConstraintOf C (PVConstraintOf C' CV) = PVConstraintOf C CV.
Proof. by destruct CV. Qed.

Lemma handleDeref_None T :
  handleDeref T = None <-> exists CV, CV ∈ T /\ isPV CV = false.
Proof.
  induction T as [|CV T IH]; cbn [handleDeref].
  - split; [done|]. by intros (? & ?%elem_of_nil & _).
  - destruct (isPV CV) eqn:HP.
    + destruct (handleDeref T) as [tmp|].
      * split.
        -- by destruct (getCvars CV) as [|? [|? ?]].
        -- intros (X & [->|HX]%elem_of_cons & HXP); [congruence|].
           assert (Some tmp = None) as [=]. apply IH. by exists X.
      * split; [|done]. intros _.
        destruct (proj1 IH eq_refl) as (X & HX & HXP). exists X.
        split; [by apply list_elem_of_further|done].
    + split; [|done]. intros _. exists CV.
      split; [apply list_elem_of_here|done].
Qed.

Lemma handleDeref_Some T R X :
  handleDeref T = Some R ->
  X ∈ R <-> exists CV A C,
              CV ∈ T /\ getCvars CV = A :: C /\ C <> []
              /\ X = PVConstraintOf C CV.
Proof.
  revert R. induction T as [|CV T IH]; intros R; cbn [handleDeref].
  - intros [= <-]. split; [by intros ?%elem_of_nil|].
    by intros (? & ? & ? & ?%elem_of_nil & _).
  - destruct (isPV CV) eqn:HP; [|done].
    destruct (handleDeref T) as [tmp|]; [|done].
    specialize (IH tmp eq_refl).
    assert (Hrest : X ∈ tmp ->
              exists CV0 A C,
                CV0 ∈ CV :: T /\ getCvars CV0 = A :: C /\ C <> []
                /\ X = PVConstraintOf C CV0).
    { intros (CV0 & A & C & Hin & HR)%IH. exists CV0, A, C.
      split; [by apply list_elem_of_further|done]. }
    destruct (getCvars CV) as [|A [|B C]] eqn:HC; intros [= <-].
    + split; [exact Hrest|].
      intros (CV0 & A0 & C0 & [->|Hin]%elem_of_cons & HG & HN & ->);
        [congruence|]. apply IH. by exists CV0, A0, C0.
    + split; [exact Hrest|].
      intros (CV0 & A0 & C0 & [->|Hin]%elem_of_cons & HG & HN & ->);
        [congruence|]. apply IH. by exists CV0, A0, C0.
    + rewrite elem_of_insertCVs, list_elem_of_singleton. split.
      * intros [->|?]; [|by apply Hrest].
        exists CV, A, (B :: C). split; [apply list_elem_of_here|done].
      * intros (CV0 & A0 & C0 & [->|Hin]%elem_of_cons & HG & HN & ->).
        -- left. congruence.
        -- right. apply IH. by exists CV0, A0, C0.
Qed.

Lemma addAtom_result PVC P cs :
  (addAtom PVC P cs).1
  = PVConstraintOf (VarAtom (freshKey cs) :: getCvars PVC) PVC.
Proof. reflexivity. Qed.

(** What [addAtomAll] returns: the function variables as they are, and
    every pointer variable with one new unknown in front. *)
Lemma addAtomAll_result CVS P cs X :
  X ∈ (addAtomAll CVS P cs).1 ->
  exists CV,
    CV ∈ CVS
    /\ ((isPV CV = false /\ X = CV)
        \/ (isPV CV = true
            /\ exists k, freshKey cs <= k
                         /\ X = PVConstraintOf (VarAtom k :: getCvars CV) CV)).
Proof.
  revert cs. induction CVS as [|CV CVS IH]; intros cs; cbn [addAtomAll].
  - by intros ?%elem_of_nil.
  - pose proof (grows_addAtom CV P cs) as [_ HG].
    pose proof (addAtom_result CV P cs) as HR.
    destruct (isPV CV) eqn:HP.
    + destruct (addAtom CV P cs) as [Y cs1]. cbn [fst snd] in HG, HR.
      specialize (IH cs1). destruct (addAtomAll CVS P cs1) as [R cs2].
      cbn [fst] in *. rewrite elem_of_insertCVs, list_elem_of_singleton.
      intros [->|(CV0 & Hin & Hc)%IH].
      * exists CV. split; [apply list_elem_of_here|]. right.
        split; [done|]. by exists (freshKey cs).
      * exists CV0. split; [by apply list_elem_of_further|].
        destruct Hc as [?|(? & k & ? & ?)]; [by left|right].
        split; [done|]. exists k. split; [lia|done].
    + specialize (IH cs). destruct (addAtomAll CVS P cs) as [R cs2].
      cbn [fst] in *. rewrite elem_of_insertCVs, list_elem_of_singleton.
      intros [->|(CV0 & Hin & Hc)%IH].
      * exists CV. split; [apply list_elem_of_here|by left].
      * exists CV0. split; [by apply list_elem_of_further|done].
Qed.

(** Conversely, every variable of the set is in the result, a pointer
    variable with a key of its own in front. *)
Lemma addAtomAll_covers CVS P cs CV :
  CV ∈ CVS ->
  if isPV CV
  then exists k, freshKey cs <= k
                 /\ PVConstraintOf (VarAtom k :: getCvars CV) CV
                    ∈ (addAtomAll CVS P cs).1
  else CV ∈ (addAtomAll CVS P cs).1.
Proof.
  revert cs. induction CVS as [|C0 CVS IH]; intros cs; cbn [addAtomAll].
  - by intros ?%elem_of_nil.
  - pose proof (grows_addAtom C0 P cs) as [_ HG].
    pose proof (addAtom_result C0 P cs) as HR.
    assert (Hstep : forall Y cs1,
              freshKey cs <= freshKey cs1 ->
              (isPV C0 = true ->
               Y = PVConstraintOf (VarAtom (freshKey cs) :: getCvars C0) C0) ->
              (isPV C0 = false -> Y = C0) ->
              CV ∈ C0 :: CVS ->
              if isPV CV
              then exists k,
                     freshKey cs <= k
                     /\ PVConstraintOf (VarAtom k :: getCvars CV) CV
                        ∈ (let '(Result, cs2) := addAtomAll CVS P cs1 in
                           (insertCVs Result [Y], cs2)).1
              else CV ∈ (let '(Result, cs2) := addAtomAll CVS P cs1 in
                         (insertCVs Result [Y], cs2)).1).
    { intros Y cs1 Hle HY1 HY2 [->|Hin]%elem_of_cons.
      - destruct (addAtomAll CVS P cs1) as [R cs2]. cbn [fst].
        destruct (isPV C0) eqn:HP.
        + exists (freshKey cs). split; [done|].
          apply elem_of_insertCVs. left. rewrite (HY1 eq_refl).
          apply list_elem_of_here.
        + apply elem_of_insertCVs. left. rewrite (HY2 eq_refl).
          apply list_elem_of_here.
      - specialize (IH cs1 Hin).
        destruct (addAtomAll CVS P cs1) as [R cs2]. cbn [fst] in *.
        destruct (isPV CV).
        + destruct IH as (k & Hk & Hin'). exists k. split; [lia|].
          apply elem_of_insertCVs. by right.
        + apply elem_of_insertCVs. by right. }
    destruct (isPV C0) eqn:HP.
    + destruct (addAtom C0 P cs) as [Y cs1]. cbn [fst snd] in HG, HR.
      by apply Hstep.
    + by apply Hstep.
Qed.

End Deref.

(** X20.  [handleDeref] fails exactly when the set holds a function
    variable.  Otherwise it returns, for every pointer variable with at
    least two levels, the variable without its outermost atom, and nothing
    else: variables with one level or none are dropped.  It undoes
    [addAtomAll]: dereferencing the address of pointer variables gives
    back variables with the atoms they had, the new unknowns are gone, and
    only the variables without any level are lost. *)
Theorem handleDeref_undoes_addAtomAll (T : list ConstraintVariable) :
  (handleDeref T = None <-> exists CV, CV ∈ T /\ isPV CV = false)
  /\ (forall R X,
        handleDeref T = Some R ->
        X ∈ R <-> exists CV A C,
                    CV ∈ T /\ getCvars CV = A :: C /\ C <> []
                    /\ X = PVConstraintOf C CV)
  /\ forall P cs,
       (forall CV, CV ∈ T -> isPV CV = true) ->
       exists R,
         handleDeref (addAtomAll T P cs).1 = Some R
         /\ forall X,
              X ∈ R <-> exists CV,
                          CV ∈ T /\ getCvars CV <> []
                          /\ X = PVConstraintOf (getCvars CV) CV
                          /\ getCvars X = getCvars CV.
Proof.
  split; [apply handleDeref_None|]. split; [intros R X; apply handleDeref_Some|].
  intros P cs HPV.
  destruct (handleDeref (addAtomAll T P cs).1) as [R|] eqn:HD.
  2: { apply handleDeref_None in HD as (Y & HY & HYP).
       apply addAtomAll_result in HY
         as (CV & Hin & [[HP _]|(_ & k & _ & ->)]).
       - rewrite (HPV CV Hin) in HP. discriminate HP.
       - rewrite isPV_PVConstraintOf, (HPV CV Hin) in HYP. discriminate HYP. }
  exists R. split; [done|]. intros X.
  rewrite (handleDeref_Some _ R X HD). split.
  - intros (Y & A & C & HY & HG & HN & ->).
    apply addAtomAll_result in HY
      as (CV & Hin & [[HP _]|(HP & k & _ & ->)]).
    { rewrite (HPV CV Hin) in HP. discriminate HP. }
    rewrite getCvars_PVConstraintOf in HG by done. injection HG as <- <-.
    exists CV. split; [done|]. split; [done|].
    rewrite PVConstraintOf_twice. split; [done|].
    by rewrite getCvars_PVConstraintOf.
  - intros (CV & Hin & HN & -> & _).
    pose proof (addAtomAll_covers T P cs CV Hin) as HC.
    rewrite (HPV CV Hin) in HC. destruct HC as (k & _ & HY).
    exists (PVConstraintOf (VarAtom k :: getCvars CV) CV), (VarAtom k),
      (getCvars CV).
    split; [done|]. split; [by rewrite getCvars_PVConstraintOf by auto|].
    split; [done|]. by rewrite PVConstraintOf_twice.
Qed.

(** ** The entry of a type variable *)

Section TypeVariableEntries.

Variable env : TypeVarEnv.

(** One update. *)
Lemma updateEntry_step Ty CVs e :
  let ok :=
    negb (isTypeAnonymous env (getPointeeOrArrayElementType env Ty))
    && QualType_eqb (getPointeeOrArrayElementType env (TyVarType e))
         (getPointeeOrArrayElementType env Ty) in
  exists e',
    updateEntry env Ty CVs e = Some e'
    /\ TyVarType e' = TyVarType e
    /\ TypeParamConsVar e' = TypeParamConsVar e
    /\ IsConsistent e' = IsConsistent e && ok
    /\ (IsConsistent e = false -> e' = e)
    /\ ArgConsVars e'
       = if IsConsistent e && ok then insertCVs CVs (ArgConsVars e)
         else ArgConsVars e.
Proof.
  unfold updateEntry, getTyVarType, insertConstraintVariables,
    setIsConsistent.
  destruct e as [c T A P]. cbn [IsConsistent TyVarType ArgConsVars
                                 TypeParamConsVar].
  destruct (isTypeAnonymous env _); cbn [negb andb].
  - eexists. split; [done|]. cbn. rewrite andb_false_r.
    repeat split; try done. by intros ->.
  - destruct c; cbn [andb].
    + destruct (QualType_eqb _ _); cbn [negb]; eexists; by repeat split.
    + eexists. by repeat split.
Qed.

End TypeVariableEntries.

(** X21.  [updateEntry] always returns, and never touches the type or the
    solved variable of the entry.  After any sequence of updates the entry
    is consistent exactly when it was before and every update came with a
    type that is not anonymous and has the pointee or element type of the
    entry's type; its constraint variables are then those it had and
    those of all the updates.  An inconsistent entry is never changed
    again, and no update removes a constraint variable. *)
Theorem updateEntry_keeps_consistency (env : TypeVarEnv)
    (Us : list (QualType * list ConstraintVariable))
    (e : TypeVariableEntry) :
  exists e',
    updateEntries env Us e = Some e'
    /\ TyVarType e' = TyVarType e
    /\ TypeParamConsVar e' = TypeParamConsVar e
    /\ (IsConsistent e' = true
        <-> IsConsistent e = true
            /\ forall U, U ∈ Us ->
                 isTypeAnonymous env (getPointeeOrArrayElementType env U.1)
                 = false
                 /\ getPointeeOrArrayElementType env U.1
                    = getPointeeOrArrayElementType env (TyVarType e))
    /\ (IsConsistent e' = true ->
        forall X, X ∈ ArgConsVars e'
                  <-> X ∈ ArgConsVars e \/ exists U, U ∈ Us /\ X ∈ U.2)
    /\ (IsConsistent e = false -> e' = e)
    /\ (forall X, X ∈ ArgConsVars e -> X ∈ ArgConsVars e')
    /\ (is_Some (getConstraintVariables e') <-> IsConsistent e' = true)
    /\ (is_Some (getTyVarType e') <-> IsConsistent e' = true).
Proof.
  assert (Hget : forall e0 : TypeVariableEntry,
            (is_Some (getConstraintVariables e0) <-> IsConsistent e0 = true)
            /\ (is_Some (getTyVarType e0) <-> IsConsistent e0 = true)).
  { intros e0. unfold getConstraintVariables, getTyVarType.
    destruct (IsConsistent e0); split; split; try done;
      by intros [? ?]. }
  revert e. induction Us as [|[Ty CVs] Us IH]; intros e; cbn [updateEntries].
  - exists e. split; [done|]. split; [done|]. split; [done|]. split.
    { split; [intros ?; split; [done|]; by intros U ?%elem_of_nil|by intros [? _]]. }
    split.
    { intros _ X. split; [by left|].
      intros [?|(? & ?%elem_of_nil & _)]; done. }
    split; [done|]. split; [done|]. apply Hget.
  - cbn [fst snd].
    destruct (updateEntry_step env Ty CVs e)
      as (e1 & -> & HT1 & HP1 & HC1 & HI1 & HA1).
    destruct (IH e1) as (e' & -> & HT & HP & HC & HA & HI & HK & HG).
    exists e'. split; [done|]. split; [congruence|]. split; [congruence|].
    assert (Hok : IsConsistent e1 = true
                  <-> IsConsistent e = true
                      /\ isTypeAnonymous env
                           (getPointeeOrArrayElementType env Ty) = false
                      /\ getPointeeOrArrayElementType env Ty
                         = getPointeeOrArrayElementType env (TyVarType e)).
    { rewrite HC1, !andb_true_iff, negb_true_iff. split.
      - intros [? [? ?%QualType_eqb_eq]]. by repeat split.
      - intros [? [? HE]]. repeat split; try done.
        apply QualType_eqb_eq. by rewrite HE. }
    split; [|split; [|split; [|split; [|exact HG]]]].
    + rewrite HC, Hok, HT1. split.
      * intros [(? & ? & ?) HU]. split; [done|].
        intros U [->|?]%elem_of_cons; [done|by apply HU].
      * intros [? HU]. split.
        -- split; [done|]. apply (HU (Ty, CVs)), list_elem_of_here.
        -- intros U ?. apply HU. by apply list_elem_of_further.
    + intros Hc X. rewrite (HA Hc X).
      assert (Hc1 : IsConsistent e1 = true).
      { apply HC in Hc. apply Hc. }
      rewrite HC1 in Hc1. rewrite HA1, Hc1, elem_of_insertCVs. split.
      * intros [[?|?]|(U & ? & ?)]; [by left|right..].
        -- exists (Ty, CVs). split; [apply list_elem_of_here|done].
        -- exists U. split; [by apply list_elem_of_further|done].
      * intros [?|(U & [->|?]%elem_of_cons & ?)].
        -- by left; left.
        -- by left; right.
        -- right. by exists U.
    + intros Hc. rewrite (HI1 Hc) in HI. by apply HI.
    + intros X HX. apply HK. rewrite HA1.
      destruct (IsConsistent e && _); [|done].
      apply elem_of_insertCVs. by left.
Qed.

(** ** The atoms of a constraint variable *)

Section Atoms.

(** The loop over one set of variables. *)
Lemma overSet_spec (Cs : list ConstraintVariable) :
  Forall (fun C => forall T A,
            A ∈ getVarsFromConstraint C T <-> A ∈ T \/ A ∈ atomsOf C) Cs ->
  forall R A,
    A ∈ (fix overSet (Cs : list ConstraintVariable) (R : list Atom)
           : list Atom :=
           match Cs with
           | [] => R
           | C :: Cs' => overSet Cs' (getVarsFromConstraint C R ++ R)
           end) Cs R
    <-> A ∈ R \/ A ∈ flat_map atomsOf Cs.
Proof.
  induction 1 as [|C Cs HC _ IH]; intros R A.
  - cbn [flat_map]. rewrite elem_of_nil. tauto.
  - rewrite IH. cbn [flat_map]. rewrite !elem_of_app, HC. tauto.
Qed.

Lemma overParams_spec (Ps : list (list ConstraintVariable)) :
  Forall (Forall (fun C => forall T A,
            A ∈ getVarsFromConstraint C T <-> A ∈ T \/ A ∈ atomsOf C)) Ps ->
  forall R A,
    A ∈ (fix overParams (Ps : list (list ConstraintVariable))
           (R : list Atom) : list Atom :=
           match Ps with
           | [] => R
           | P :: Ps' =>
               overParams Ps'
                 ((fix overSet (Cs : list ConstraintVariable)
                     (R : list Atom) : list Atom :=
                     match Cs with
                     | [] => R
                     | C :: Cs' =>
                         overSet Cs' (getVarsFromConstraint C R ++ R)
                     end) P R)
           end) Ps R
    <-> A ∈ R \/ A ∈ flat_map (flat_map atomsOf) Ps.
Proof.
  induction 1 as [|P Ps HP _ IH]; intros R A.
  - cbn [flat_map]. rewrite elem_of_nil. tauto.
  - rewrite IH. cbn [flat_map]. rewrite elem_of_app, (overSet_spec P HP).
    tauto.
Qed.

End Atoms.

(** X22.  [getVarsFromConstraint] collects the atoms of a constraint
    variable: an atom is in the result exactly when it was in the vector
    passed in or is owned by the variable, at one of its levels or,
    recursively, in its function-shaped variable, its return variables or
    its parameter variables.  The vector passed in is never shortened, and
    it is not a set: for a function variable the atoms passed in are
    repeated. *)
Theorem getVarsFromConstraint_collects_atoms :
  (forall V T A,
     A ∈ getVarsFromConstraint V T <-> A ∈ T \/ A ∈ atomsOf V)
  /\ (forall V T, length T <= length (getVarsFromConstraint V T))
  /\ getVarsFromConstraint
       (FVConstraint "f" [PVConstraint [VarAtom 0] None
                            (defaultPVInfo "f" "int" false)] [] false true)
       [VarAtom 1]
     = [VarAtom 0; VarAtom 1; VarAtom 1].
Proof.
  split; [|split; [|reflexivity]].
  - intros V. induction V as [vs i|vs f i IH|n rs ps b q Hrs Hps]
      using ConstraintVariable_nested_ind; intros T A;
      cbn [getVarsFromConstraint atomsOf].
    + rewrite app_nil_r, elem_of_app. tauto.
    + rewrite IH, !elem_of_app. tauto.
    + rewrite (overParams_spec ps Hps), (overSet_spec rs Hrs), elem_of_app.
      tauto.
  - assert (Hset : forall Cs : list ConstraintVariable,
              Forall (fun C => forall T,
                        length T <= length (getVarsFromConstraint C T)) Cs ->
              forall R,
                length R
                <= length
                     ((fix overSet (Cs : list ConstraintVariable)
                         (R : list Atom) : list Atom :=
                         match Cs with
                         | [] => R
                         | C :: Cs' =>
                             overSet Cs' (getVarsFromConstraint C R ++ R)
                         end) Cs R)).
    { induction 1 as [|C Cs HC _ IH]; intros R; [done|].
      etrans; [|apply IH]. rewrite length_app. lia. }
    intros V. induction V as [vs i|vs f i IH|n rs ps b q Hrs Hps]
      using ConstraintVariable_nested_ind; intros T;
      cbn [getVarsFromConstraint].
    + rewrite length_app. lia.
    + etrans; [|apply IH]. rewrite length_app. lia.
    + etrans; [apply (Hset rs Hrs T)|].
      generalize ((fix overSet (Cs : list ConstraintVariable)
                     (R : list Atom) : list Atom :=
                     match Cs with
                     | [] => R
                     | C :: Cs' =>
                         overSet Cs' (getVarsFromConstraint C R ++ R)
                     end) rs T).
      induction Hps as [|P Ps HP _ IHP]; intros R; [done|].
      etrans; [apply (Hset P HP R)|apply IHP].
Qed.

(** ** Linking: where every new constraint comes from *)

Section LinkCauses.

Implicit Types (cs : Constraints) (c : Constraint).

(** A fold of steps: a constraint of the result was there before or was
    added by the step for one element. *)
Lemma foldl_added {X} (f : Constraints -> X -> Constraints)
    (Q : X -> Constraint -> Prop) (l : list X) :
  (forall cs x c, c ∈ getConstraints (f cs x) ->
                  c ∈ getConstraints cs \/ Q x c) ->
  forall cs c, c ∈ getConstraints (foldl f cs l) ->
               c ∈ getConstraints cs \/ exists x, x ∈ l /\ Q x c.
Proof.
  intros Hf. induction l as [|x l IH]; intros cs c; cbn [foldl]; [by left|].
  intros [[?|?]%Hf|(y & ? & ?)]%IH; [by left|right..].
  - exists x. split; [apply list_elem_of_here|done].
  - exists y. split; [by apply list_elem_of_further|done].
Qed.

Lemma constrainToWild_added C rsn PL cs c :
  c ∈ getConstraints (constrainToWild C rsn PL cs) ->
  c ∈ getConstraints cs
  \/ exists A, A ∈ atomsOf C /\ c = CGeq (mkGeq A getWild rsn PL).
Proof.
  rewrite constrainToWild_log, elem_of_app.
  intros [?|(A & -> & ?)%list_elem_of_fmap]; [by left|right]. by exists A.
Qed.

(** An edge between two atoms, without reason or position. *)
Lemma constrainConsVarGeq1_added L R CA cs c :
  c ∈ getConstraints (constrainConsVarGeq1 L R None CA cs) ->
  c ∈ getConstraints cs \/ exists A B, c = CGeq (mkGeq A B "" None).
Proof.
  unfold constrainConsVarGeq1. rewrite addConstraints_log, elem_of_app.
  intros [?|Hin]; [by left|right].
  apply list_elem_of_In, in_flat_map in Hin as ([A B] & _ & Hc).
  apply list_elem_of_In in Hc.
  cbn [fst snd] in Hc. unfold createAtomGeq, createGeq in Hc.
  destruct CA;
    repeat (apply elem_of_cons in Hc as [->|Hc]; [by eexists _, _|]);
    by apply elem_of_nil in Hc.
Qed.

Lemma constrainConsVarGeq_added Ls Rs CA cs c :
  c ∈ getConstraints (constrainConsVarGeq Ls Rs None CA cs) ->
  c ∈ getConstraints cs \/ exists A B, c = CGeq (mkGeq A B "" None).
Proof.
  unfold constrainConsVarGeq. intros Hc.
  apply (foldl_added _
           (fun (L : ConstraintVariable) c =>
              exists A B, c = CGeq (mkGeq A B "" None))) in Hc
    as [?|(L & _ & ?)]; [by left|by right|].
  intros cs0 L c0 Hc0.
  apply (foldl_added _
           (fun (R : ConstraintVariable) c =>
              exists A B, c = CGeq (mkGeq A B "" None))) in Hc0
    as [?|(R & _ & ?)]; [by left|by right|].
  intros cs1 R c1. apply constrainConsVarGeq1_added.
Qed.

Lemma constrainNeighbours_added C cs c :
  c ∈ getConstraints (constrainNeighbours C cs) ->
  c ∈ getConstraints cs \/ exists A B, c = CGeq (mkGeq A B "" None).
Proof.
  revert cs. induction C as [|V1 C IH]; intros cs; [by left|].
  destruct C as [|V2 C]; [by left|]. cbn [constrainNeighbours].
  intros [[?|?]%constrainConsVarGeq_added|?]%IH; [by left|by right..].
Qed.

(** What the third block adds for two declarations. *)
Lemma mergePair_added P1 P2 cs c :
  c ∈ getConstraints (mergePair P1 P2 cs) ->
  c ∈ getConstraints cs
  \/ (exists A B, c = CGeq (mkGeq A B "" None))
  \/ (numParams P1 <> numParams P2
      /\ hasProtoType P1 = true /\ hasProtoType P2 = true
      /\ exists A,
           (A ∈ atomsOf P1 \/ A ∈ atomsOf P2)
           /\ c = CGeq (mkGeq A getWild
                          ("Return value of function:" +:+ getName P1) None)).
Proof.
  unfold mergePair.
  destruct (Nat.eqb_spec (numParams P1) (numParams P2)) as [_|Hne].
  - intros Hc.
    apply (foldl_added _
             (fun (LR : list ConstraintVariable * list ConstraintVariable) c =>
                exists A B, c = CGeq (mkGeq A B "" None))) in Hc
      as [[?|?]%constrainConsVarGeq_added|(LR & _ & ?)];
      [by left|by right; left|by right; left|].
    intros cs0 LR c0 [?|?]%constrainConsVarGeq_added; [by left|by right].
  - destruct (hasProtoType P1) eqn:H1, (hasProtoType P2) eqn:H2; cbn [andb];
      try (intros [?|?]%constrainConsVarGeq_added; [by left|by right; left]).
    intros [Hc|(A & ? & ->)]%constrainToWild_added.
    + apply constrainToWild_added in Hc as [Hc|(A & ? & ->)].
      * apply constrainConsVarGeq_added in Hc as [?|?];
          [by left|by right; left].
      * right; right. split; [done|]. split; [done|]. split; [done|].
        exists A. split; [by left|done].
    + right; right. split; [done|]. split; [done|]. split; [done|].
      exists A. split; [by right|done].
Qed.

Lemma mergeDeclsLoop_added fuel P :
  forall VI VJ (Gap : bool) cs cs' Gap' c,
    mergeDeclsLoop fuel P VI VJ Gap cs = Some (cs', Gap') ->
    c ∈ getConstraints cs' ->
    c ∈ getConstraints cs
    \/ (exists A B, c = CGeq (mkGeq A B "" None))
    \/ exists P1 P2 A,
         P1 ∈ P /\ P2 ∈ P /\ hasBody P1 = false /\ hasBody P2 = false
         /\ numParams P1 <> numParams P2
         /\ hasProtoType P1 = true /\ hasProtoType P2 = true
         /\ (A ∈ atomsOf P1 \/ A ∈ atomsOf P2)
         /\ c = CGeq (mkGeq A getWild
                        ("Return value of function:" +:+ getName P1) None).
Proof.
  induction fuel as [|fuel IH]; intros VI VJ Gap cs cs' Gap' c;
    cbn [mergeDeclsLoop].
  - destruct (P !! VJ); [done|]. intros [= <- _]. by left.
  - destruct (P !! VJ) as [P2|] eqn:H2; [|intros [= <- _]; by left].
    destruct (P !! VI) as [P1|] eqn:H1; [|done].
    destruct (hasBody P2) eqn:HB2; [apply IH|].
    assert (Hstep : forall c0,
              c0 ∈ getConstraints
                     (if negb (hasBody P1) && negb false
                      then mergePair P1 P2 cs else cs) ->
              c0 ∈ getConstraints cs
              \/ (exists A B, c0 = CGeq (mkGeq A B "" None))
              \/ exists P1 P2 A,
                   P1 ∈ P /\ P2 ∈ P /\ hasBody P1 = false
                   /\ hasBody P2 = false
                   /\ numParams P1 <> numParams P2
                   /\ hasProtoType P1 = true /\ hasProtoType P2 = true
                   /\ (A ∈ atomsOf P1 \/ A ∈ atomsOf P2)
                   /\ c0 = CGeq (mkGeq A getWild
                                   ("Return value of function:"
                                      +:+ getName P1) None)).
    { intros c0. destruct (hasBody P1) eqn:HB1; cbn [negb andb]; [by left|].
      intros [?|[?|(? & ? & ? & A & ? & ->)]]%mergePair_added;
        [by left|by right; left|right; right].
      exists P1, P2, A.
      split; [by eapply list_elem_of_lookup_2|].
      split; [by eapply list_elem_of_lookup_2|]. done. }
    destruct (negb Gap); intros Hrun Hc;
      destruct (IH _ _ _ _ _ _ _ Hrun Hc) as [?%Hstep|?]; tauto.
Qed.

Lemma mergeAllDecls_added Ps :
  forall (Gap : bool) cs cs' Gap' c,
    mergeAllDecls Ps Gap cs = Some (cs', Gap') ->
    c ∈ getConstraints cs' ->
    c ∈ getConstraints cs
    \/ (exists A B, c = CGeq (mkGeq A B "" None))
    \/ exists Sym P1 P2 A,
         Sym ∈ Ps /\ P1 ∈ Sym.2 /\ P2 ∈ Sym.2
         /\ hasBody P1 = false /\ hasBody P2 = false
         /\ numParams P1 <> numParams P2
         /\ hasProtoType P1 = true /\ hasProtoType P2 = true
         /\ (A ∈ atomsOf P1 \/ A ∈ atomsOf P2)
         /\ c = CGeq (mkGeq A getWild
                        ("Return value of function:" +:+ getName P1) None).
Proof.
  induction Ps as [|Sym Ps IH]; intros Gap cs cs' Gap' c;
    cbn [mergeAllDecls].
  - intros [= <- _]. by left.
  - destruct (mergeDecls Sym.2 Gap cs) as [[cs1 G1]|] eqn:HM; [|done].
    intros Hrun Hc.
    destruct (IH _ _ _ _ _ Hrun Hc)
      as [Hc1|[?|(S0 & P1 & P2 & A & ? & HR)]].
    + unfold mergeDecls in HM. destruct (decide _).
      * destruct (mergeDeclsLoop_added _ _ _ _ _ _ _ _ _ HM Hc1)
          as [?|[?|(P1 & P2 & A & HR)]]; [by left|by right; left|].
        right; right. exists Sym, P1, P2, A.
        split; [apply list_elem_of_here|exact HR].
      * injection HM as <- _. by left.
    + by right; left.
    + right; right. exists S0, P1, P2, A.
      split; [by apply list_elem_of_further|exact HR].
Qed.

Lemma constrainExternToWild_added F G cs c :
  c ∈ getConstraints (constrainExternToWild F G cs) ->
  c ∈ getConstraints cs
  \/ exists A,
       (exists U, U ∈ getReturnVars G /\ A ∈ atomsOf U
                  /\ c = CGeq (mkGeq A getWild
                                 ("Return value of an external function:"
                                    +:+ F) None))
       \/ (exists Ps PVar,
             Ps ∈ getParamVars G /\ PVar ∈ Ps /\ A ∈ atomsOf PVar
             /\ c = CGeq (mkGeq A getWild
                            "Inner pointer of a parameter to external function."
                            None)).
Proof.
  unfold constrainExternToWild. intros Hc.
  apply (foldl_added _
           (fun (Ps : list ConstraintVariable) c =>
              exists PVar, PVar ∈ Ps
                /\ exists A, A ∈ atomsOf PVar
                     /\ c = CGeq (mkGeq A getWild
                                    "Inner pointer of a parameter to external function."
                                    None))) in Hc
    as [Hc|(Ps & ? & PVar & ? & A & ? & ->)].
  - apply (foldl_added _
             (fun (U : ConstraintVariable) c =>
                exists A, A ∈ atomsOf U
                          /\ c = CGeq (mkGeq A getWild
                                         ("Return value of an external function:"
                                            +:+ F) None))) in Hc
      as [?|(U & ? & A & ? & ->)]; [by left| |].
    + right. exists A. left. by exists U.
    + intros cs0 U c0. apply constrainToWild_added.
  - right. exists A. right. by exists Ps, PVar.
  - intros cs0 Ps c0 Hc0.
    apply (foldl_added _
             (fun (PVar : ConstraintVariable) c =>
                exists A, A ∈ atomsOf PVar
                     /\ c = CGeq (mkGeq A getWild
                                    "Inner pointer of a parameter to external function."
                                    None))) in Hc0
      as [?|(PVar & ? & ?)]; [by left|right; by exists PVar|].
    intros cs1 PVar c1. apply constrainToWild_added.
Qed.

Lemma constrainExterns_added Us Decls :
  forall cs cs' c,
    constrainExterns Us Decls cs = Some cs' ->
    c ∈ getConstraints cs' ->
    c ∈ getConstraints cs
    \/ exists U Gs G A,
         U ∈ Us /\ U.2 = false /\ isExternOkay U.1 = false
         /\ Decls !! U.1 = Some Gs /\ G ∈ Gs
         /\ ((exists V, V ∈ getReturnVars G /\ A ∈ atomsOf V
                        /\ c = CGeq (mkGeq A getWild
                                       ("Return value of an external function:"
                                          +:+ U.1) None))
             \/ (exists Ps PVar,
                   Ps ∈ getParamVars G /\ PVar ∈ Ps /\ A ∈ atomsOf PVar
                   /\ c = CGeq (mkGeq A getWild
                                  "Inner pointer of a parameter to external function."
                                  None))).
Proof.
  induction Us as [|U Us IH]; intros cs cs' c; cbn [constrainExterns].
  - intros [= <-]. by left.
  - assert (Hrest : forall cs0,
              constrainExterns Us Decls cs0 = Some cs' ->
              c ∈ getConstraints cs' ->
              c ∈ getConstraints cs0
              \/ exists U0 Gs G A,
                   U0 ∈ U :: Us /\ U0.2 = false /\ isExternOkay U0.1 = false
                   /\ Decls !! U0.1 = Some Gs /\ G ∈ Gs
                   /\ ((exists V, V ∈ getReturnVars G /\ A ∈ atomsOf V
                          /\ c = CGeq (mkGeq A getWild
                                         ("Return value of an external function:"
                                            +:+ U0.1) None))
                       \/ (exists Ps PVar,
                             Ps ∈ getParamVars G /\ PVar ∈ Ps
                             /\ A ∈ atomsOf PVar
                             /\ c = CGeq (mkGeq A getWild
                                            "Inner pointer of a parameter to external function."
                                            None)))).
    { intros cs0 Hrun Hc.
      destruct (IH _ _ _ Hrun Hc) as [?|(U0 & Gs & G & A & ? & HR)];
        [by left|right].
      exists U0, Gs, G, A. split; [by apply list_elem_of_further|exact HR]. }
    destruct (negb U.2 && negb (isExternOkay U.1)) eqn:HU; [|apply Hrest].
    apply andb_true_iff in HU as [HU2%negb_true_iff HOk%negb_true_iff].
    destruct (Decls !! U.1) as [Gs|] eqn:HD; [|done].
    intros Hrun Hc. destruct (Hrest _ Hrun Hc) as [Hc1|?]; [|by right].
    apply (foldl_added _
             (fun (G : ConstraintVariable) c =>
                exists A,
                  (exists V, V ∈ getReturnVars G /\ A ∈ atomsOf V
                     /\ c = CGeq (mkGeq A getWild
                                    ("Return value of an external function:"
                                       +:+ U.1) None))
                  \/ (exists Ps PVar,
                        Ps ∈ getParamVars G /\ PVar ∈ Ps /\ A ∈ atomsOf PVar
                        /\ c = CGeq (mkGeq A getWild
                                       "Inner pointer of a parameter to external function."
                                       None)))) in Hc1
      as [?|(G & ? & A & HR)]; [by left| |].
    + right. exists U, Gs, G, A. split; [apply list_elem_of_here|done].
    + intros cs0 G c0. apply constrainExternToWild_added.
Qed.

End LinkCauses.

(** X23.  Every constraint in the system after [link] was there before,
    or is an edge between two atoms without reason, or forces an atom to
    WILD for one of two causes: the atom belongs to one of two
    declarations without body of one function that both carry a prototype
    and differ in their number of parameters (only when declarations are
    merged), or it belongs to a return or parameter variable of a
    declaration of an external function that has no body anywhere and is
    not [malloc] or [free].  A program without such functions gets no
    WILD constraint from [link]. *)
Theorem link_forces_wild_only_with_cause (sep : bool)
    (Info Info' : ProgramInfo) (c : Constraint) :
  link sep Info = Some Info' ->
  c ∈ getConstraints (CS Info') ->
  c ∈ getConstraints (CS Info)
  \/ (exists A B, c = CGeq (mkGeq A B "" None))
  \/ (sep = false
      /\ exists N Ds P1 P2 A,
           ExternalFunctionDeclFVCons Info !! N = Some Ds
           /\ P1 ∈ Ds /\ P2 ∈ Ds
           /\ hasBody P1 = false /\ hasBody P2 = false
           /\ numParams P1 <> numParams P2
           /\ hasProtoType P1 = true /\ hasProtoType P2 = true
           /\ (A ∈ atomsOf P1 \/ A ∈ atomsOf P2)
           /\ c = CGeq (mkGeq A getWild
                          ("Return value of function:" +:+ getName P1) None))
  \/ (exists F Gs G A,
        ExternFunctions Info !! F = Some false
        /\ isExternOkay F = false
        /\ ExternalFunctionDeclFVCons Info !! F = Some Gs /\ G ∈ Gs
        /\ ((exists V, V ∈ getReturnVars G /\ A ∈ atomsOf V
                       /\ c = CGeq (mkGeq A getWild
                                      ("Return value of an external function:"
                                         +:+ F) None))
            \/ (exists Ps PVar,
                  Ps ∈ getParamVars G /\ PVar ∈ Ps /\ A ∈ atomsOf PVar
                  /\ c = CGeq (mkGeq A getWild
                                 "Inner pointer of a parameter to external function."
                                 None)))).
Proof.
  unfold link. intros Hrun Hc.
  destruct (if negb sep then _ else _) as [[cs3 g]|] eqn:H3; [|done].
  destruct (constrainExterns _ _ cs3) as [cs4|] eqn:E; [|done].
  injection Hrun as <-. cbn [CS setCS] in Hc.
  destruct (constrainExterns_added _ _ _ _ _ E Hc)
    as [Hc3|([F b] & Gs & G & A & HF%elem_of_inNameOrder & Hb & HR)].
  2: { cbn [fst snd] in *. subst b. right; right; right.
       by exists F, Gs, G, A. }
  assert (Hc2 :
            c ∈ getConstraints
                  (foldl (fun c (V : string * list ConstraintVariable) =>
                            constrainNeighbours V.2 c)
                     (foldl (fun c (V : PersistentSourceLoc
                                        * list ConstraintVariable) =>
                               constrainNeighbours V.2 c)
                        (CS Info) (map_to_list (Variables Info)))
                     (inNameOrder (GlobalVariableSymbols Info)))
            \/ (exists A B, c = CGeq (mkGeq A B "" None))
            \/ (sep = false
                /\ exists N Ds P1 P2 A,
                     ExternalFunctionDeclFVCons Info !! N = Some Ds
                     /\ P1 ∈ Ds /\ P2 ∈ Ds
                     /\ hasBody P1 = false /\ hasBody P2 = false
                     /\ numParams P1 <> numParams P2
                     /\ hasProtoType P1 = true /\ hasProtoType P2 = true
                     /\ (A ∈ atomsOf P1 \/ A ∈ atomsOf P2)
                     /\ c = CGeq (mkGeq A getWild
                                    ("Return value of function:"
                                       +:+ getName P1) None))).
  { destruct sep; cbn [negb] in H3.
    - injection H3 as <- _. by left.
    - destruct (mergeAllDecls_added _ _ _ _ _ _ H3 Hc3)
        as [?|[?|([N Ds] & P1 & P2 & A & HN%elem_of_inNameOrder & HR)]];
        [by left|by right; left|right; right].
      split; [done|]. by exists N, Ds, P1, P2, A. }
  destruct Hc2 as [Hc2|[?|?]]; [|by right; left|by right; right; left].
  apply (foldl_added _
           (fun (V : string * list ConstraintVariable) c =>
              exists A B, c = CGeq (mkGeq A B "" None))) in Hc2
    as [Hc1|(? & _ & ?)]; [|by right; left|].
  2: { intros cs0 V c0. apply constrainNeighbours_added. }
  apply (foldl_added _
           (fun (V : PersistentSourceLoc * list ConstraintVariable) c =>
              exists A B, c = CGeq (mkGeq A B "" None))) in Hc1
    as [?|(? & _ & ?)]; [by left|by right; left|].
  intros cs0 V c0. apply constrainNeighbours_added.
Qed.

(** In the example of the two declarations of [g] that differ in their
    number of parameters, the atoms are forced to WILD for that cause. *)
Lemma link_forces_wild_only_with_cause_witness :
  exists N Ds,
    ExternalFunctionDeclFVCons Examples.twoDeclsInfo !! N = Some Ds
    /\ Examples.g1 ∈ Ds.
Proof.
  destruct (link_forces_wild_only_with_cause false Examples.twoDeclsInfo
              Examples.twoDeclsLinked
              (CGeq (mkGeq (VarAtom 0) getWild "Return value of function:g"
                       None)))
    as [H|[(A & B & H)|[(_ & N & Ds & P1 & P2 & A & HN & H1 & H2 & _)
                       |(F & Gs & G & A & _ & _ & _ & _ & HR)]]].
  - vm_compute. reflexivity.
  - vm_compute. repeat first [apply list_elem_of_here|apply list_elem_of_further].
  - vm_compute in H. by apply elem_of_nil in H.
  - discriminate H.
  - exists "g", [Examples.g1; Examples.g2]. split; [vm_compute; reflexivity|].
    apply list_elem_of_here.
  - exfalso.
    destruct HR as [(V & _ & _ & H)|(Ps & PVar & _ & _ & _ & H)];
      discriminate H.
Defined.

(** ** The compilation-unit flag *)

Section Persisted.

Lemma setPersisted_back Info b :
  persisted Info = b -> setPersisted (setPersisted Info (negb b)) b = Info.
Proof. intros <-. by destruct Info. Qed.

Lemma persisted_getOnDemand D Info :
  persisted (getOnDemandFuncDeclarationConstraint D Info).2 = persisted Info.
Proof.
  unfold getOnDemandFuncDeclarationConstraint.
  destruct (isGlobal D).
  - destruct (ExternalFunctionDeclFVCons Info !! _); [done|].
    by destruct (newFVConstraint D (CS Info)) as [F cs1].
  - destruct (getStaticFuncDeclConstraintSet Info _ _); [done|].
    by destruct (newFVConstraint D (CS Info)) as [F cs1].
Qed.

Lemma persisted_getFuncFVConstraints FD Info Defn :
  persisted (getFuncFVConstraints FD Info Defn).2 = persisted Info.
Proof.
  unfold getFuncFVConstraints.
  destruct (if Defn then _ else _); [done|apply persisted_getOnDemand].
Qed.

Lemma persisted_getVariableOnDemand D Parent c Info r I1 :
  getVariableOnDemand D Parent c Info = Some (r, I1) ->
  persisted Info = false /\ persisted I1 = false.
Proof.
  unfold getVariableOnDemand. destruct (persisted Info) eqn:HP; [done|].
  destruct (isParmVarDecl D || isFunctionDecl D);
    [|intros [= _ <-]; by split].
  destruct (if isParmVarDecl D then _ else _) as [[FD PIdx]|]; [|done].
  pose proof (persisted_getFuncFVConstraints FD Info c) as HF.
  destruct (getFuncFVConstraints FD Info c) as [Fs I2]. cbn [snd] in HF.
  destruct PIdx as [i|].
  - destruct (collectParamCons Fs i []); [|done].
    intros [= _ <-]. split; [done|congruence].
  - intros [= _ <-]. split; [done|congruence].
Qed.

End Persisted.

(** X24.  The flag [persisted] makes a protocol of the compilation units.
    A new [ProgramInfo] is persisted: it accepts neither [addVariable] nor
    a look-up before [enterCompilationUnit].  [enterCompilationUnit]
    returns exactly on persisted information and [exitCompilationUnit]
    exactly on information that is not; each undoes the other and changes
    nothing else.  After [exitCompilationUnit] every [addVariable] and
    every look-up fails, and whatever [addVariable] or a look-up returns
    can be left with [exitCompilationUnit]. *)
Theorem compilation_unit_protocol :
  (forall D, addVariable D newProgramInfo = None)
  /\ (forall D P c, getVariableOnDemand D P c newProgramInfo = None)
  /\ is_Some (enterCompilationUnit newProgramInfo)
  /\ forall Info,
       (is_Some (enterCompilationUnit Info) <-> persisted Info = true)
       /\ (is_Some (exitCompilationUnit Info) <-> persisted Info = false)
       /\ (forall I1, enterCompilationUnit Info = Some I1 ->
                      exitCompilationUnit I1 = Some Info)
       /\ (forall I1, exitCompilationUnit Info = Some I1 ->
             enterCompilationUnit I1 = Some Info
             /\ (forall D, addVariable D I1 = None)
             /\ (forall D P c, getVariableOnDemand D P c I1 = None))
       /\ (forall D I1, addVariable D Info = Some I1 ->
                        is_Some (exitCompilationUnit I1))
       /\ (forall D P c r I1,
             getVariableOnDemand D P c Info = Some (r, I1) ->
             is_Some (exitCompilationUnit I1)).
Proof.
  split; [done|]. split; [done|]. split; [by eexists|]. intros Info.
  unfold enterCompilationUnit, exitCompilationUnit.
  split; [|split; [|split; [|split; [|split]]]].
  - destruct (persisted Info); split; try done; by intros [? ?].
  - destruct (persisted Info); split; try done; by intros [? ?].
  - destruct (persisted Info) eqn:HP; [|done]. intros I1 [= <-].
    cbn [persisted setPersisted negb]. f_equal.
    exact (setPersisted_back Info true HP).
  - destruct (persisted Info) eqn:HP; [done|]. intros I1 [= <-].
    cbn [persisted setPersisted negb].
    split; [f_equal; exact (setPersisted_back Info false HP)|]. by split.
  - intros D I1 (_ & _ & HP & _)%addVariable_inv. rewrite HP. by eexists.
  - intros D P c r I1 [_ HP]%persisted_getVariableOnDemand. rewrite HP.
    by eexists.
Qed.

(** ** Expressions of record and arithmetic type *)

Section Scalars.

Variable env : ResolverEnv.

Lemma resolveExpr_scalar TypE E s r s' :
  isRecordType TypE || isArithmeticType TypE = true ->
  resolveExpr env TypE E s = Some (r, s') ->
  s' = s /\ r.2 = []
  /\ (r.1 = [getNonPtrPVConstraint]
      \/ exists H D,
           IgnoreParens E = DeclRefExpr H D
           /\ r.1 = [getNamedNonPtrPVConstraint (getNameAsString D)]).
Proof.
  intros HT. induction E; cbn [resolveExpr IgnoreParens]; [exact IHE|..];
    try (destruct Result as [[?|]|]); rewrite ?HT; unfold ret, PVConstraintFromType;
    rewrite ?HT; try (intros [= <- <-]; split; [done|]; split; [done|];
                      by left).
  unfold getBaseVarPVConstraint.
  destruct (isRecordType (getType _) || isArithmeticType (getType _));
    [|done].
  intros [= <- <-]. split; [done|]. split; [done|]. right. by exists H, D.
Qed.

End Scalars.

(** X25.  An expression of record or arithmetic type has no atoms:
    whenever [getExprConstraintVars] returns for it, nothing has been
    added to the constraint system and nothing stored; the result is one
    variable without any level, the marker of non-pointers or, for a
    reference to a declaration (below parentheses), the marker named after
    it, and no bounds key; [containsValidCons] rejects the result. *)
Theorem getExprConstraintVars_scalar (env : ResolverEnv) (E : Expr)
    (s s' : ResolverState) (r : list ConstraintVariable * list nat) :
  isRecordType (getType E) || isArithmeticType (getType E) = true ->
  getExprConstraintVars env E s = Some (r, s') ->
  s' = s /\ r.2 = []
  /\ (r.1 = [getNonPtrPVConstraint]
      \/ exists H D,
           IgnoreParens E = DeclRefExpr H D
           /\ r.1 = [getNamedNonPtrPVConstraint (getNameAsString D)])
  /\ (forall C, C ∈ r.1 -> isPV C = true /\ getCvars C = [])
  /\ containsValidCons r.1 = false.
Proof.
  intros HT Hr.
  destruct (resolveExpr_scalar env _ _ _ _ _ HT Hr) as (-> & HB & HR).
  split; [done|]. split; [done|]. split; [exact HR|].
  destruct HR as [->|(H & D & _ & ->)]; split;
    try (intros C ->%list_elem_of_singleton; by split); reflexivity.
Qed.

(** The reference to [n] of the allocation examples, of type [int]. *)
Lemma getExprConstraintVars_scalar_witness :
  getExprConstraintVars Examples.castEnv Examples.nRef Examples.castState
  = Some (([getNamedNonPtrPVConstraint "n"], []), Examples.castState).
Proof.
  assert (H : getExprConstraintVars Examples.castEnv Examples.nRef
                Examples.castState
              = Some (([getNamedNonPtrPVConstraint "n"], []),
                      Examples.castState))
    by (vm_compute; reflexivity).
  destruct (getExprConstraintVars_scalar Examples.castEnv Examples.nRef
              Examples.castState Examples.castState
              ([getNamedNonPtrPVConstraint "n"], []))
    as (_ & _ & _ & _ & _); [vm_compute; reflexivity|exact H|exact H].
Defined.

(** ** Linking: the second declaration of a symbol *)

Section SingleDecls.

Lemma singleDecls_insertNewFVConstraints FD F Info :
  singleDecls Info -> singleDecls (insertNewFVConstraints FD [F] Info).
Proof.
  intros HS N Gs. unfold insertNewFVConstraints, insertIntoExternalFunctionMap,
    insertIntoStaticFunctionMap.
  destruct (isGlobal FD); destruct (_ && _);
    repeat match goal with
    | |- context [match ?m !! ?k with _ => _ end] => destruct (m !! k) eqn:?
    end;
    cbn [ExternalFunctionDeclFVCons]; try apply HS.
  destruct (decide (getNameAsString FD = N)) as [->|Hne].
  - rewrite lookup_insert_eq. intros [= <-]. cbn. lia.
  - rewrite lookup_insert_ne by done. apply HS.
Qed.

Lemma singleDecls_frame Info Info' :
  ExternalFunctionDeclFVCons Info' = ExternalFunctionDeclFVCons Info ->
  singleDecls Info -> singleDecls Info'.
Proof. intros HE HS N Gs. rewrite HE. apply HS. Qed.

Lemma singleDecls_addVariable D Info Info' :
  singleDecls Info -> addVariable D Info = Some Info' -> singleDecls Info'.
Proof.
  intros HS. unfold addVariable.
  destruct (persisted Info); [done|]. destruct (negb (valid _)); [done|].
  set (Info0 := setVariables Info _).
  assert (H0 : singleDecls Info0) by (by apply (singleDecls_frame Info)).
  assert (Hmacro : forall r : option ProgramInfo,
            (forall I3, r = Some I3 -> singleDecls I3) ->
            match r with
            | None => None
            | Some Info3 =>
                if negb (isRewritable D) then
                  Some (setCS Info3
                          (foldl (fun c C =>
                                    constrainToWild C
                                      "Pointer in Macro declaration." None c)
                             (CS Info3)
                             (lookupVars (Variables Info3) (mkPSL D))))
                else Some Info3
            end = Some Info' -> singleDecls Info').
  { intros [I3|] HI3; [|done]. specialize (HI3 I3 eq_refl).
    destruct (negb (isRewritable D)); intros [= <-]; [|done].
    by apply (singleDecls_frame I3). }
  apply Hmacro. clear Hmacro. intros I3.
  destruct (isFunctionDecl D).
  - destruct (negb (isFunctionType _)); [done|].
    destruct (negb (hasConstraintType isFV _)); [|by intros [= <-]].
    destruct (newFVConstraint D (CS Info0)) as [F cs1].
    destruct (negb (Nat.eqb _ _)); [done|]. intros [= <-].
    apply (singleDecls_frame
             (insertNewFVConstraints D [F]
                (setVariables (setCS Info0 cs1)
                   (insertVars (mkPSL D) [F] (Variables Info0)))));
      [done|].
    apply singleDecls_insertNewFVConstraints.
    by apply (singleDecls_frame Info0).
  - destruct (isVarDecl D || isFieldDecl D); [|done].
    destruct (isPointerType _ || isArrayType _); [|by intros [= <-]].
    destruct (negb (hasConstraintType isPV _)); [|by intros [= <-]].
    destruct (newPVConstraint _ _ _ _) as [P cs1]. intros [= <-].
    by apply (singleDecls_frame Info0).
Qed.

Lemma singleDecls_getOnDemand D Info :
  singleDecls Info ->
  singleDecls (getOnDemandFuncDeclarationConstraint D Info).2.
Proof.
  intros HS. unfold getOnDemandFuncDeclarationConstraint.
  destruct (isGlobal D).
  - destruct (ExternalFunctionDeclFVCons Info !! _) eqn:HL; [done|].
    destruct (newFVConstraint D (CS Info)) as [F cs]. cbn [snd].
    intros N Gs. cbn [setDeclMaps ExternalFunctionDeclFVCons].
    destruct (decide (getNameAsString D = N)) as [->|Hne].
    + rewrite lookup_insert_eq. intros [= <-]. cbn. lia.
    + rewrite lookup_insert_ne by done. apply HS.
  - destruct (getStaticFuncDeclConstraintSet _ _ _); [done|].
    destruct (newFVConstraint D (CS Info)) as [F cs]. cbn [snd].
    by apply (singleDecls_frame Info).
Qed.

Lemma mergeAllDecls_single Ps Gap cs :
  (forall S, S ∈ Ps -> length S.2 <= 1) ->
  mergeAllDecls Ps Gap cs = Some (cs, Gap).
Proof.
  induction Ps as [|S Ps IH]; intros HS; cbn [mergeAllDecls]; [done|].
  unfold mergeDecls. destruct (decide (1 < length S.2)) as [Hl|_].
  - specialize (HS S (list_elem_of_here _ _)). lia.
  - apply IH. intros S' HS'. apply HS. by apply list_elem_of_further.
Qed.

End SingleDecls.

(** C3.  The block of [link] that compares the declarations of one
    symbol never finds two of them.  Every writer of the map of
    declarations stores one function variable and only for a name that
    has none: [addVariable] through [insertNewFVConstraints], and the
    look-up on demand.  From the newly constructed program information on
    every name therefore has at most one declaration recorded, and the
    block adds no constraint: [link] is what its other three blocks do.

    [int *g(int *a);] in a.c and [int *g(int *a, int *b);] in b.c, both
    registered: the variables of both declarations are in [Variables], the
    map of declarations holds the first one only and [MultipleRewrites] is
    raised.  [link] constrains the two atoms of the first declaration as
    those of an unresolved external function; the atoms 2, 3 and 4 of the
    second declaration are in no constraint, and no constraint has the
    reason of mismatched declarations.  Had the comparison been made for
    the two variables, it would have constrained all five atoms to WILD
    with that reason. *)
Theorem link_never_compares_declarations :
  singleDecls newProgramInfo
  /\ (forall D Info Info',
        singleDecls Info -> addVariable D Info = Some Info' ->
        singleDecls Info')
  /\ (forall D Info,
        singleDecls Info ->
        singleDecls (getOnDemandFuncDeclarationConstraint D Info).2)
  /\ (forall F Info, singleDecls Info -> singleDecls (seeFunctionDecl F Info))
  /\ (forall Info Gap cs,
        singleDecls Info ->
        mergeAllDecls (inNameOrder (ExternalFunctionDeclFVCons Info)) Gap cs
        = Some (cs, Gap))
  /\ (forall Info Info' sep,
        singleDecls Info ->
        (link sep Info = Some Info' <-> link true Info = Some Info'))
  /\ MoreExamples.twoUnits = Some MoreExamples.twoUnitsInfo
  /\ numParams MoreExamples.gVarA <> numParams MoreExamples.gVarB
  /\ hasProtoType MoreExamples.gVarA = true
  /\ hasProtoType MoreExamples.gVarB = true
  /\ Variables MoreExamples.twoUnitsInfo !! ("a.c", 1, 6)
     = Some [MoreExamples.gVarA]
  /\ Variables MoreExamples.twoUnitsInfo !! ("b.c", 1, 6)
     = Some [MoreExamples.gVarB]
  /\ ExternalFunctionDeclFVCons MoreExamples.twoUnitsInfo
     = {["g" := [MoreExamples.gVarA]]}
  /\ MultipleRewrites MoreExamples.twoUnitsInfo = true
  /\ link false MoreExamples.twoUnitsInfo = Some MoreExamples.twoUnitsLinked
  /\ getConstraints (CS MoreExamples.twoUnitsLinked)
     = [CGeq (mkGeq (VarAtom 0) getWild
                "Return value of an external function:g" None);
        CGeq (mkGeq (VarAtom 1) getWild
                "Inner pointer of a parameter to external function." None)]
  /\ atomsOf MoreExamples.gVarB = [VarAtom 2; VarAtom 3; VarAtom 4]
  /\ (forall cs A,
        A ∈ atomsOf MoreExamples.gVarA ++ atomsOf MoreExamples.gVarB ->
        CGeq (mkGeq A getWild "Return value of function:g" None)
          ∈ getConstraints
              (mergePair MoreExamples.gVarA MoreExamples.gVarB cs)).
Proof.
  split; [by intros N Gs|].
  split; [exact singleDecls_addVariable|].
  split; [exact singleDecls_getOnDemand|].
  split.
  { intros F Info HS. apply (singleDecls_frame Info); [|done].
    unfold seeFunctionDecl. by destruct (negb (isGlobal F)). }
  assert (HM : forall Info Gap cs,
            singleDecls Info ->
            mergeAllDecls (inNameOrder (ExternalFunctionDeclFVCons Info))
              Gap cs = Some (cs, Gap)).
  { intros Info Gap cs HS. apply mergeAllDecls_single.
    intros [N Gs] HN%elem_of_inNameOrder. by apply (HS N). }
  split; [exact HM|].
  split.
  { intros Info Info' sep HS. unfold link.
    destruct sep; cbn [negb]; [done|]. by rewrite HM. }
  split; [vm_compute; reflexivity|].
  split; [vm_compute; lia|].
  repeat (split; [vm_compute; reflexivity|]).
  intros cs A HA.
  apply (mergePair_forces MoreExamples.gVarA MoreExamples.gVarB cs A);
    [vm_compute; lia|reflexivity|reflexivity|exact HA].
Qed.

(** ** Allocation sites: operands below a conversion *)

Section ConvertedOperands.

Variable env : BoundsEnv.

(** A product with an operand that is an implicit cast is no allocator
    call for [isAllocatorCall], whatever is below the cast. *)
Lemma isAllocatorCall_converted E H Callee CE HB Opc HC X Other
    (swap : bool) :
  removeAuxillaryCasts env E
  = CallExpr H (Some Callee) CE
      [BinaryOperator HB Opc
         (if swap then Other else ImplicitCastExpr HC X)
         (if swap then ImplicitCastExpr HC X else Other)] ->
  getCalledFunctionName Callee = "malloc" ->
  isAllocatorCall env E = Some (false, "malloc", []).
Proof.
  intros HE HF. unfold isAllocatorCall. rewrite HE, HF.
  change (AllocatorSizeAssoc "malloc") with (Some [0]).
  cbv beta iota.
  assert (HL : forall x : Expr, [x] !! 0 = Some x) by reflexivity.
  cbn [collectBaseExprs]. rewrite HL.
  destruct (isMultiplicativeOp Opc); [|done]. cbn [app].
  unfold checkBaseExprs.
  destruct swap; cbn [forallb isDeclRefExpr isSizeOf orb andb];
    [by rewrite andb_false_r|done].
Qed.

End ConvertedOperands.

(** C2.  The front end reads a variable through a conversion node: in
    [int *arr = malloc(n * sizeof(int));] the operand of the product is an
    [ImplicitCastExpr] around the reference to [n].  [isAllocatorCall]
    applies [isa<DeclRefExpr>] to the operand as it stands, so the call is
    no allocator call for it, [handleAllocatorCall] does nothing and
    [VisitDeclStmt] binds nothing to the key of [arr]; this holds whatever
    the operand below the cast is, on either side of the product.  With
    the cast taken away, as [removeAuxillaryCasts] does for the call
    itself, the same declaration is an allocator match and the key of
    [arr] is bound to the element count [n]: for an operand that is
    itself the reference to a variable with a bounds key, in the scope of
    the left-hand side or a numeric constant, and a [sizeof] of the
    pointee type of the left-hand side, the element count is bound.  No
    call of
    [handleAllocatorCall] ever binds a byte count: with a [sizeof] of
    another type, as in [malloc(n * sizeof(char))], nothing is bound. *)
Theorem allocator_call_converted_operand_unbound :
  isAllocatorCall Examples.boundsEnv Examples.mallocIntsConverted
  = Some (false, "malloc", [])
  /\ VisitDeclStmt1 Examples.boundsEnv Examples.arrDecl
       (Some Examples.mallocIntsConverted) = Some []
  /\ (forall LHSType LK H X Other,
        handleAllocatorCall Examples.boundsEnv LHSType LK
          (Examples.mallocOf (ImplicitCastExpr H X) Other) = Some []
        /\ handleAllocatorCall Examples.boundsEnv LHSType LK
             (Examples.mallocOf Other (ImplicitCastExpr H X)) = Some [])
  /\ IgnoreParenCasts Examples.nValue = Examples.nRef
  /\ VisitDeclStmt1 Examples.boundsEnv Examples.arrDecl
       (Some Examples.mallocInts)
     = Some [statInsert AllocatorMatch 1; mergeBounds 1 (CountBound 2)]
  /\ VisitDeclStmt1 Examples.boundsEnv Examples.arrDecl
       (Some Examples.mallocChars) = Some []
  /\ (forall env LHSType LK E H Callee CE HB Opc HN ND HS T RK
             (swap : bool),
        let n := DeclRefExpr HN ND in
        let sz := UnaryExprOrTypeTraitExpr HS UETT_SizeOf T in
        removeAuxillaryCasts env E
        = CallExpr H (Some Callee) CE
            [BinaryOperator HB Opc (if swap then sz else n)
               (if swap then n else sz)] ->
        getCalledFunctionName Callee = "malloc" ->
        isMultiplicativeOp Opc = true ->
        getVariableE env n = Some RK ->
        handleAllocatorCall env LHSType LK E
        = Some (if QualType_eqb LHSType (getPointerType T)
                   && (Nat.eqb (getScope (getProgramVar env LK))
                         (getScope (getProgramVar env RK))
                       || IsNumConstant (getProgramVar env RK))
                then [statInsert AllocatorMatch LK;
                      mergeBounds LK (CountBound RK)]
                else []))
  /\ (forall env LHSType LK E Cs K1 K2,
        handleAllocatorCall env LHSType LK E = Some Cs ->
        mergeBounds K1 (ByteBound K2) ∉ Cs).
Proof.
  split; [vm_compute; reflexivity|].
  split; [vm_compute; reflexivity|].
  split.
  { intros LHSType LK H X Other. split; unfold handleAllocatorCall.
    - by rewrite (isAllocatorCall_converted Examples.boundsEnv
                    (Examples.mallocOf (ImplicitCastExpr H X) Other)
                    (mkExprInfo 43 Examples.voidPtr ("t.c", 4, 14) true)
                    Examples.mallocDecl Examples.mallocRef
                    (mkExprInfo 42 Examples.intTy ("t.c", 4, 21) true)
                    BO_Mul H X Other false eq_refl eq_refl).
    - by rewrite (isAllocatorCall_converted Examples.boundsEnv
                    (Examples.mallocOf Other (ImplicitCastExpr H X))
                    (mkExprInfo 43 Examples.voidPtr ("t.c", 4, 14) true)
                    Examples.mallocDecl Examples.mallocRef
                    (mkExprInfo 42 Examples.intTy ("t.c", 4, 21) true)
                    BO_Mul H X Other true eq_refl eq_refl). }
  split; [reflexivity|].
  split; [vm_compute; reflexivity|].
  split; [vm_compute; reflexivity|].
  split.
  { intros env LHSType LK E H Callee CE HB Opc HN ND HS T RK swap.
    apply handleAllocatorCall_product. }
  intros env LHSType LK E Cs K1 K2. apply handleAllocatorCall_no_ByteBound.
Qed.

(** ** The root-cause analysis: a constant on the left *)

Section ConstantLeft.

Lemma recordConstraints_returns Cs st :
  is_Some (recordConstraints Cs st) -> forallb leftIsVar Cs = true.
Proof.
  revert st. induction Cs as [|C Cs IH]; intros st; [done|].
  cbn [recordConstraints forallb].
  destruct (recordConstraint C st) as [st'|] eqn:HC; [|by intros [? ?]].
  intros HS. rewrite (IH st' HS), andb_true_r.
  destruct st as [D W]. destruct C as [[L R rsn PL]|]; [|done].
  cbn [recordConstraint leftIsVar getRHS getLHS] in *.
  by destruct R as [r|[]], L as [l|c].
Qed.

Lemma computePointerDisjointSet_returns canWrite Info :
  is_Some (computePointerDisjointSet canWrite Info)
  <-> forallb leftIsVar (getConstraints (CS Info)) = true.
Proof.
  split; [|apply computePointerDisjointSet_total].
  unfold computePointerDisjointSet.
  destruct (recordConstraints _ _) as [st|] eqn:HR; [|by intros [? ?]].
  intros _. apply (recordConstraints_returns _ (Clear, ∅)). by rewrite HR.
Qed.

Variable env : ResolverEnv.

(** The first resolution of a string literal, whose type is an array
    type, hands over the upper bound NTARR of its new variable: a
    constraint with a constant on the left and an unknown on the right. *)
Lemma resolveExpr_string_literal TypE H n T s r s' :
  isRecordType TypE || isArithmeticType TypE = false ->
  isNULLExpression env (StringLiteral H n) = false ->
  hasPersistentConstraints (StringLiteral H n) s = false ->
  eType H = ArrayType T ->
  resolveExpr env TypE (StringLiteral H n) s = Some (r, s') ->
  CGeq (mkGeq getNTArr (VarAtom (freshKey (rCS s))) "" None)
    ∈ getConstraints (rCS s').
Proof.
  intros HT HN HP HA. cbn [resolveExpr]. rewrite HT. cbn [isExplicitCastExpr negb andb].
  rewrite HN.
  unfold cachedAt. unfold bind at 1. unfold getState. rewrite HP.
  unfold bind.
  unfold withCS, modifyCS, storePersistentConstraints, ret, getType.
  cbn [getInfo]. rewrite HA. cbn [newPVConstraint getFreshVar].
  pose proof (newPVConstraint_isPV T "StringLiteral" false
                (mkCS (getConstraints (rCS s)) (S (freshKey (rCS s)))))
    as HPV.
  destruct (newPVConstraint T _ _ _) as [C cs2] eqn:HC. cbn [fst snd] in *.
  intros [= <- <-]. cbn [rCS]. unfold constrainOuterTo.
  rewrite getCvars_pushAtom by done. cbn [addConstraint getConstraints].
  apply elem_of_app. right. apply list_elem_of_singleton. reflexivity.
Qed.

End ConstantLeft.

(** C5.  The first loop of [computePointerDisjointSet] casts the left
    side of every [Geq] constraint to an unknown and reads its key; it
    tests the right side for null, not the left one.  The analysis
    therefore returns exactly on the constraint systems in which every
    [Geq] to WILD or to an unknown has an unknown on the left.  The
    resolver hands over the converse kind for every string literal: the
    upper bound [Geq(NTARR, q)] of the literal's variable.  On the
    constraints of
    [char *strcpy(char *dst, const char *src);
     void f(char *p) { strcpy(p, "hi"); }],
    before and after [link], the analysis does not return: no group, no
    leader and no set of indirectly WILD pointers is computed. *)
Theorem computePointerDisjointSet_constant_left :
  (forall canWrite Info,
     is_Some (computePointerDisjointSet canWrite Info)
     <-> forallb leftIsVar (getConstraints (CS Info)) = true)
  /\ (forall env TypE H n T s r s',
        isRecordType TypE || isArithmeticType TypE = false ->
        isNULLExpression env (StringLiteral H n) = false ->
        hasPersistentConstraints (StringLiteral H n) s = false ->
        eType H = ArrayType T ->
        resolveExpr env TypE (StringLiteral H n) s = Some (r, s') ->
        CGeq (mkGeq getNTArr (VarAtom (freshKey (rCS s))) "" None)
          ∈ getConstraints (rCS s')
        /\ forallb leftIsVar (getConstraints (rCS s')) = false)
  /\ Examples.afterCall = Some Examples.afterCallInfo
  /\ Examples.linked = Some Examples.linkedInfo
  /\ CGeq (mkGeq getNTArr (VarAtom 4) "" None)
       ∈ getConstraints (CS Examples.afterCallInfo)
  /\ CGeq (mkGeq (VarAtom 0) getWild
             "Return value of an external function:strcpy" None)
       ∈ getConstraints (CS Examples.linkedInfo)
  /\ (forall canWrite,
        computePointerDisjointSet canWrite Examples.afterCallInfo = None
        /\ computePointerDisjointSet canWrite Examples.linkedInfo = None).
Proof.
  split; [exact computePointerDisjointSet_returns|].
  split.
  { intros env TypE H n T s r s' HT HN HP HA Hr.
    pose proof (resolveExpr_string_literal env TypE H n T s r s'
                  HT HN HP HA Hr) as Hin.
    split; [exact Hin|].
    apply not_true_iff_false. intros HF.
    rewrite forallb_forall in HF.
    apply list_elem_of_In, HF in Hin. discriminate Hin. }
  split; [vm_compute; reflexivity|].
  split; [vm_compute; reflexivity|].
  split; [vm_compute; apply list_elem_of_here|].
  split.
  { vm_compute. do 3 apply list_elem_of_further. apply list_elem_of_here. }
  intros canWrite. split; reflexivity.
Qed.

(** ** Array bounds: the calls about one parameter *)

Section CallsAbout.

Variable env : BoundsEnv.
Variable ParamInfo : option (Decl -> bool).

Lemma callsAbout_app K l1 l2 :
  callsAbout K (l1 ++ l2) = callsAbout K l1 ++ callsAbout K l2.
Proof. unfold callsAbout. induction l1 as [|c l1 IH]; [done|].
  cbn [app List.filter]. destruct (bool_decide _); cbn [app]; by rewrite IH.
Qed.

Lemma callsAbout_other K l :
  (forall c, c ∈ l -> boundsKeyOf c <> Some K) -> callsAbout K l = [].
Proof.
  unfold callsAbout. induction l as [|c l IH]; intros Hl; [done|].
  cbn [List.filter]. rewrite bool_decide_eq_false_2.
  - apply IH. intros c' Hc'. apply Hl. by apply list_elem_of_further.
  - apply Hl, list_elem_of_here.
Qed.

Lemma callsAbout_all K l :
  (forall c, c ∈ l -> boundsKeyOf c = Some K) -> callsAbout K l = l.
Proof.
  unfold callsAbout. induction l as [|c l IH]; intros Hl; [done|].
  cbn [List.filter]. rewrite bool_decide_eq_true_2.
  - f_equal. apply IH. intros c' Hc'. apply Hl. by apply list_elem_of_further.
  - apply Hl, list_elem_of_here.
Qed.

Lemma keywordLenParams_calls PBKey LP c :
  c ∈ (keywordLenParams PBKey LP).2 ->
  (exists LenKey, c = replaceBounds PBKey (CountBound LenKey))
  \/ c = statInsert VariableNameMatch PBKey.
Proof.
  induction LP as [|[j [LenName LenKey]] Rest IH]; cbn [keywordLenParams].
  - by intros ?%elem_of_nil.
  - destruct (keywordLenParams PBKey Rest) as [F Cs]. cbn [snd] in *.
    destruct (fieldNameMatch LenName); [|exact IH]. cbn [snd app].
    intros [->|[->|Hc]%elem_of_cons]%elem_of_cons;
      [left; by eexists|by right|by apply IH].
Qed.

(** Every call the array loop makes for a parameter is about the key of
    that parameter, or is the diagnostic. *)
Lemma handleArrParam_key LP j n K c :
  c ∈ handleArrParam LP (j, (n, K)) ->
  boundsKeyOf c = Some K \/ boundsKeyOf c = None.
Proof.
  unfold handleArrParam. cbn [fst snd].
  destruct (findParam LP (j + 1)) as [Len|].
  - intros [->|[->|?%elem_of_nil]%elem_of_cons]%elem_of_cons;
      [by left|by left|done].
  - pose proof (matchLenParams_calls n K LP) as HM.
    destruct (matchLenParams n K LP) as [F1 Cs1]. cbn [snd] in HM.
    pose proof (keywordLenParams_calls K LP) as HK.
    assert (H2 : forall F2 Cs2,
              (forall c, c ∈ Cs2 ->
                 (exists LenKey, c = replaceBounds K (CountBound LenKey))
                 \/ c = statInsert VariableNameMatch K) ->
              c ∈ Cs1 ++ Cs2
                  ++ (if negb F2 then [lengthNotFound n] else []) ->
              boundsKeyOf c = Some K \/ boundsKeyOf c = None).
    { intros F2 Cs2 H2. rewrite !elem_of_app.
      intros [[[L' ->]| ->]%HM|[[[L' ->]| ->]%H2|Hc]]; try (by left).
      destruct (negb F2); [|by apply elem_of_nil in Hc].
      apply list_elem_of_singleton in Hc as ->. by right. }
    destruct (negb F1).
    + destruct (keywordLenParams K LP) as [F2 Cs2]. by apply H2.
    + apply H2. by intros c' ?%elem_of_nil.
Qed.

Lemma handleNtArrParam_key LP j n K c :
  c ∈ handleNtArrParam LP (j, (n, K)) -> boundsKeyOf c = Some K.
Proof.
  unfold handleNtArrParam. cbn [fst snd].
  destruct (findParam LP (j + 1)) as [Len|]; [|by intros ?%elem_of_nil].
  destruct (fieldNameMatch Len.1); [|by intros ?%elem_of_nil].
  by intros [->|[->|?%elem_of_nil]%elem_of_cons]%elem_of_cons.
Qed.

Lemma callsAbout_flat_map_other K (f : nat * (string * BoundsKey) -> list ABCall)
    (M : list (nat * (string * BoundsKey))) :
  (forall x c, x ∈ M -> c ∈ f x ->
               boundsKeyOf c = Some x.2.2 \/ boundsKeyOf c = None) ->
  (forall x, x ∈ M -> x.2.2 <> K) ->
  callsAbout K (flat_map f M) = [].
Proof.
  intros Hf HM. apply callsAbout_other.
  intros c (x & Hx & Hc)%list_elem_of_In%in_flat_map.
  apply list_elem_of_In in Hx, Hc.
  destruct (Hf x c Hx Hc) as [-> | ->]; [|done].
  intros [= HK]. by apply (HM x Hx).
Qed.

(** The three maps of a list of parameters are those of its parts. *)
Lemma collectParams_app i0 Ps1 Ps2 :
  collectParams env ParamInfo i0 (Ps1 ++ Ps2)
  = ((collectParams env ParamInfo i0 Ps1).1.1
       ++ (collectParams env ParamInfo (i0 + length Ps1) Ps2).1.1,
     (collectParams env ParamInfo i0 Ps1).1.2
       ++ (collectParams env ParamInfo (i0 + length Ps1) Ps2).1.2,
     (collectParams env ParamInfo i0 Ps1).2
       ++ (collectParams env ParamInfo (i0 + length Ps1) Ps2).2).
Proof.
  revert i0. induction Ps1 as [|P Ps1 IH]; intros i0.
  - cbn [app length collectParams fst snd]. rewrite Nat.add_0_r.
    by destruct (collectParams env ParamInfo i0 Ps2) as [[? ?] ?].
  - cbn [app length collectParams]. rewrite (IH (S i0)).
    replace (S i0 + length Ps1) with (i0 + S (length Ps1)) by lia.
    destruct (collectParams env ParamInfo (S i0) Ps1) as [[A1 N1] L1].
    destruct (collectParams env ParamInfo (i0 + S (length Ps1)) Ps2)
      as [[A2 N2] L2]. cbn [fst snd].
    destruct (getVariableD env P) as [K|]; [|done].
    by destruct (needArrayBounds env P false), (needArrayBounds env P true),
      (IsPotentialLengthVar ParamInfo P).
Qed.

(** The keys in the maps are keys of the parameters. *)
Lemma collectParams_keys i0 Ps (Q : BoundsKey -> Prop) :
  (forall P K, P ∈ Ps -> getVariableD env P = Some K -> Q K) ->
  forall x,
    x ∈ (collectParams env ParamInfo i0 Ps).1.1
    \/ x ∈ (collectParams env ParamInfo i0 Ps).1.2 ->
    Q x.2.2.
Proof.
  revert i0. induction Ps as [|P Ps IH]; intros i0 HQ x.
  - cbn. by intros [?%elem_of_nil|?%elem_of_nil].
  - cbn [collectParams].
    specialize (IH (S i0) (fun P' K HP' => HQ P' K (list_elem_of_further _ _ _ HP')) x).
    destruct (collectParams env ParamInfo (S i0) Ps) as [[A N] L].
    cbn [fst snd] in IH.
    destruct (getVariableD env P) as [K|] eqn:HK; cbn [fst snd]; [|exact IH].
    pose proof (HQ P K (list_elem_of_here _ _) HK) as HQK.
    destruct (needArrayBounds env P false), (needArrayBounds env P true);
      rewrite ?elem_of_cons; intros H;
      repeat match goal with
      | H : _ \/ _ |- _ => destruct H as [H|H]
      end; subst; try done; try (apply IH; by left); try (apply IH; by right).
Qed.

End CallsAbout.

(** C6, as the code has it.  In a function definition with a prototype
    let the parameter at position [i] have the bounds key [PK], of its
    own, and need array bounds, and let the parameter at position [i + 1]
    have the bounds key [LK] and be a potential length (integer type, not
    excluded as a non-length parameter).  Then the calls of
    [VisitFunctionDecl] about [PK] are: the bound of the array parameter is
    replaced by the element count of its neighbour and a neighbour match
    is recorded, by the loop over the array parameters, which tries no
    name for it; and, only when the parameter needs NT-array bounds as
    well and the name of the neighbour is a length keyword, the loop over
    the NT-array parameters replaces the bound by the same element count
    once more and records a keyword match.  No other bound is given to
    the parameter. *)
Theorem adjacent_parameter_binds_element_count (env : BoundsEnv)
    (ParamInfo : option (Decl -> bool)) (FD : Decl) (i : nat)
    (PVD LVD : Decl) (PK LK : BoundsKey) :
  isThisDeclarationADefinition FD && declHasBody FD = true ->
  typeHasProto (getDeclType FD) = true ->
  getParamDecls FD !! i = Some PVD ->
  getParamDecls FD !! (i + 1) = Some LVD ->
  getVariableD env PVD = Some PK ->
  needArrayBounds env PVD false = true ->
  getVariableD env LVD = Some LK ->
  IsPotentialLengthVar ParamInfo LVD = true ->
  (forall j Q K, getParamDecls FD !! j = Some Q -> j <> i ->
                 getVariableD env Q = Some K -> K <> PK) ->
  callsAbout PK (VisitFunctionDecl env ParamInfo FD)
  = [replaceBounds PK (CountBound LK); statInsert NeighbourParamMatch PK]
    ++ (if needArrayBounds env PVD true
           && fieldNameMatch (getNameAsString LVD)
        then [replaceBounds PK (CountBound LK);
              statInsert VariableNameMatch PK]
        else [])
  /\ forall B, replaceBounds PK B ∈ VisitFunctionDecl env ParamInfo FD ->
               B = CountBound LK.
Proof.
  intros HDef HProto HP HL HPK HPN HLK HLen Hown.
  assert (HFind : findParam (collectParams env ParamInfo 0 (getParamDecls FD)).2
                    (i + 1) = Some (getNameAsString LVD, LK)).
  { apply (collectParams_find env ParamInfo 0 _ (i + 1) LVD LK HL HLK HLen). }
  assert (Hsplit : getParamDecls FD
                   = take i (getParamDecls FD)
                     ++ [PVD] ++ drop (S i) (getParamDecls FD)).
  { symmetry. by apply take_drop_middle. }
  assert (Hlen : length (take i (getParamDecls FD)) = i).
  { apply length_take_le. apply lookup_lt_Some in HP. lia. }
  set (Ps1 := take i (getParamDecls FD)) in *.
  set (Ps2 := drop (S i) (getParamDecls FD)) in *.
  assert (H1 : forall P K, P ∈ Ps1 -> getVariableD env P = Some K -> K <> PK).
  { intros P K [j Hj]%list_elem_of_lookup HK.
    apply (Hown j P K); [|apply lookup_lt_Some in Hj; lia|done].
    rewrite Hsplit. rewrite lookup_app_l; [done|].
    by apply lookup_lt_Some in Hj. }
  assert (H2 : forall P K, P ∈ Ps2 -> getVariableD env P = Some K -> K <> PK).
  { intros P K [j Hj]%list_elem_of_lookup HK.
    apply (Hown (S i + j) P K); [|lia|done].
    unfold Ps2 in Hj. by rewrite lookup_drop in Hj. }
  assert (HV : VisitFunctionDecl env ParamInfo FD
               = flat_map
                   (handleArrParam
                      (collectParams env ParamInfo 0 (getParamDecls FD)).2)
                   (collectParams env ParamInfo 0 (getParamDecls FD)).1.1
                 ++ flat_map
                      (handleNtArrParam
                         (collectParams env ParamInfo 0 (getParamDecls FD)).2)
                      (collectParams env ParamInfo 0 (getParamDecls FD)).1.2).
  { unfold VisitFunctionDecl. rewrite HDef, HProto.
    assert (HA : (i, (getNameAsString PVD, PK))
                 ∈ (collectParams env ParamInfo 0 (getParamDecls FD)).1.1).
    { apply collectParams_arrays. exists i, PVD. by repeat split. }
    destruct (collectParams env ParamInfo 0 (getParamDecls FD))
      as [[PA' PNA'] LP']. cbn [fst snd] in *.
    destruct PA' as [|a PA']; [by apply elem_of_nil in HA|].
    destruct LP' as [|l LP']; [discriminate HFind|]. reflexivity. }
  set (LP := (collectParams env ParamInfo 0 (getParamDecls FD)).2) in *.
  assert (HPA : (collectParams env ParamInfo 0 (getParamDecls FD)).1.1
                = (collectParams env ParamInfo 0 Ps1).1.1
                  ++ [(i, (getNameAsString PVD, PK))]
                  ++ (collectParams env ParamInfo (S i) Ps2).1.1).
  { rewrite Hsplit at 1. rewrite !collectParams_app. cbn [fst snd].
    rewrite Hlen. cbn [length collectParams app]. rewrite HPK, HPN.
    cbn [Nat.add]. replace (i + 1) with (S i) by lia.
    by destruct (collectParams env ParamInfo (S i) Ps2) as [[? ?] ?]. }
  assert (HPNA : (collectParams env ParamInfo 0 (getParamDecls FD)).1.2
                 = (collectParams env ParamInfo 0 Ps1).1.2
                   ++ (if needArrayBounds env PVD true
                       then [(i, (getNameAsString PVD, PK))] else [])
                   ++ (collectParams env ParamInfo (S i) Ps2).1.2).
  { rewrite Hsplit at 1. rewrite !collectParams_app. cbn [fst snd].
    rewrite Hlen. cbn [length collectParams app]. rewrite HPK.
    cbn [Nat.add]. replace (i + 1) with (S i) by lia.
    destruct (collectParams env ParamInfo (S i) Ps2) as [[? ?] ?].
    cbn [fst snd].
    by destruct (needArrayBounds env PVD false), (needArrayBounds env PVD true),
      (IsPotentialLengthVar ParamInfo PVD). }
  assert (HArr : handleArrParam LP (i, (getNameAsString PVD, PK))
                 = [replaceBounds PK (CountBound LK);
                    statInsert NeighbourParamMatch PK]).
  { unfold handleArrParam. cbn [fst snd]. by rewrite HFind. }
  assert (HNt : handleNtArrParam LP (i, (getNameAsString PVD, PK))
                = if fieldNameMatch (getNameAsString LVD)
                  then [replaceBounds PK (CountBound LK);
                        statInsert VariableNameMatch PK]
                  else []).
  { unfold handleNtArrParam. cbn [fst snd]. by rewrite HFind. }
  assert (Hother : forall i0 Ps,
            (forall P K, P ∈ Ps -> getVariableD env P = Some K -> K <> PK) ->
            callsAbout PK
              (flat_map (handleArrParam LP)
                 (collectParams env ParamInfo i0 Ps).1.1) = []
            /\ callsAbout PK
                 (flat_map (handleNtArrParam LP)
                    (collectParams env ParamInfo i0 Ps).1.2) = []).
  { intros i0 Ps HPs.
    pose proof (collectParams_keys env ParamInfo i0 Ps (fun K => K <> PK) HPs)
      as HK.
    split; apply callsAbout_flat_map_other.
    - intros [j [n K]] c _. apply handleArrParam_key.
    - intros x Hx. apply HK. by left.
    - intros [j [n K]] c _ Hc. left. by apply handleNtArrParam_key in Hc.
    - intros x Hx. apply HK. by right. }
  destruct (Hother 0 Ps1 H1) as [HA1 HN1].
  destruct (Hother (S i) Ps2 H2) as [HA2 HN2].
  assert (Hcalls :
    callsAbout PK (VisitFunctionDecl env ParamInfo FD)
    = [replaceBounds PK (CountBound LK); statInsert NeighbourParamMatch PK]
      ++ (if needArrayBounds env PVD true
             && fieldNameMatch (getNameAsString LVD)
          then [replaceBounds PK (CountBound LK);
                statInsert VariableNameMatch PK]
          else [])).
  { rewrite HV, HPA, HPNA. rewrite callsAbout_app.
    rewrite !flat_map_app, !callsAbout_app, HA1, HA2, HN1, HN2.
    cbn [flat_map app]. rewrite !app_nil_r, HArr.
    rewrite (callsAbout_all PK [_; _]).
    2: { intros c [->|[->|?%elem_of_nil]%elem_of_cons]%elem_of_cons; done. }
    destruct (needArrayBounds env PVD true); cbn [flat_map andb app];
      [|done].
    rewrite app_nil_r, HNt.
    destruct (fieldNameMatch (getNameAsString LVD)); [|done].
    rewrite (callsAbout_all PK [_; _]); [done|].
    intros c [->|[->|?%elem_of_nil]%elem_of_cons]%elem_of_cons; done. }
  split; [exact Hcalls|].
  intros B HB.
  assert (HB' : replaceBounds PK B
                ∈ callsAbout PK (VisitFunctionDecl env ParamInfo FD)).
  { unfold callsAbout. apply list_elem_of_In, filter_In.
    split; [by apply list_elem_of_In|]. by apply bool_decide_eq_true_2. }
  rewrite Hcalls in HB'. clear -HB'.
  destruct (_ && _);
    repeat (apply elem_of_cons in HB' as [HB'|HB']; [congruence|]);
    by apply elem_of_nil in HB'.
Qed.

(** [void put(char **names, int len) { }], where [names] needs array and
    NT-array bounds: its bound is the element count [len] and nothing
    else. *)
Lemma adjacent_parameter_binds_element_count_witness :
  callsAbout 30
    (VisitFunctionDecl MoreExamples.ntBoundsEnv None MoreExamples.putDecl)
  = [replaceBounds 30 (CountBound 31); statInsert NeighbourParamMatch 30;
     replaceBounds 30 (CountBound 31); statInsert VariableNameMatch 30]
  /\ forall B,
       replaceBounds 30 B
         ∈ VisitFunctionDecl MoreExamples.ntBoundsEnv None MoreExamples.putDecl ->
       B = CountBound 31.
Proof.
  destruct (adjacent_parameter_binds_element_count MoreExamples.ntBoundsEnv
              None MoreExamples.putDecl 0 MoreExamples.namesParm
              MoreExamples.lenParm 30 31)
    as [HC HB];
    [vm_compute; reflexivity | vm_compute; reflexivity
    | vm_compute; reflexivity | vm_compute; reflexivity
    | vm_compute; reflexivity | vm_compute; reflexivity
    | vm_compute; reflexivity | vm_compute; reflexivity | |].
  - intros [|[|j]] Q K HQ Hj HK; [done| |done].
    injection HQ as <-. vm_compute in HK. injection HK as <-. lia.
  - split; [exact HC|exact HB].
Defined.

(** C6 as stated does not hold for a parameter that needs NT-array bounds
    as well: for [names] in [void put(char **names, int len) { }] the
    neighbour [len] is bound by the loop over the array parameters, and
    the loop over the NT-array parameters then applies the keyword test to
    the name [len], binds again and records a keyword match.  In
    [void fill(int *buf, int n, int buf_len) { }], where [buf] needs
    array bounds only, the neighbour match is all there is. *)
Lemma adjacent_parameter_keyword_counterexample :
  needArrayBounds MoreExamples.ntBoundsEnv MoreExamples.namesParm false = true
  /\ IsPotentialLengthVar None MoreExamples.lenParm = true
  /\ fieldNameMatch "len" = true
  /\ VisitFunctionDecl MoreExamples.ntBoundsEnv None MoreExamples.putDecl
     = [replaceBounds 30 (CountBound 31); statInsert NeighbourParamMatch 30;
        replaceBounds 30 (CountBound 31); statInsert VariableNameMatch 30]
  /\ statInsert VariableNameMatch 30
       ∈ VisitFunctionDecl MoreExamples.ntBoundsEnv None MoreExamples.putDecl
  /\ VisitFunctionDecl Examples.boundsEnv None Examples.fillDecl
     = [replaceBounds 10 (CountBound 2); statInsert NeighbourParamMatch 10].
Proof.
  repeat (split; [vm_compute; reflexivity|]).
  split; [|vm_compute; reflexivity].
  vm_compute. do 3 apply list_elem_of_further. apply list_elem_of_here.
Qed.

(** ** The resolver: where a resolution stores *)

Section StoresWithin.

Context {A B : Type}.
Implicit Types K : nat -> Prop.

Lemma storesWithin_ret K (x : A) : storesWithin K (ret x).
Proof. by intros s y s' [= <- <-]. Qed.

Lemma storesWithin_fail K : storesWithin K (@fail A).
Proof. by intros s y s'. Qed.

Lemma storesWithin_bind K (m : M A) (f : A -> M B) :
  storesWithin K m -> (forall x, storesWithin K (f x)) ->
  storesWithin K (bind m f).
Proof.
  intros Hm Hf s y s'. unfold bind.
  destruct (m s) as [[x s1]|] eqn:Hms; [|done]. intros Hfs k Hk.
  rewrite (Hf x _ _ _ Hfs k Hk). by apply (Hm _ _ _ Hms).
Qed.

Lemma storesWithin_withCS K (f : Constraints -> A * Constraints) :
  storesWithin K (withCS f).
Proof.
  intros s x s'. unfold withCS. destruct (f (rCS s)) as [y cs].
  by intros [= <- <-].
Qed.

End StoresWithin.

Section StoresWithinResolver.

Implicit Types K : nat -> Prop.

Lemma storesWithin_modifyCS K f : storesWithin K (modifyCS f).
Proof. by intros s [] s' [= <-]. Qed.

Lemma storesWithin_store K E R :
  K (getExprId E) -> storesWithin K (storePersistentConstraints E R).
Proof.
  intros HK s [] s' [= <-] k Hk. cbn.
  rewrite lookup_insert_ne; [done|]. by intros <-.
Qed.

Lemma storesWithin_cachedAt K E body :
  K (getExprId E) -> storesWithin K body -> storesWithin K (cachedAt E body).
Proof.
  intros HK Hb s r s'. unfold cachedAt. unfold bind at 1, getState.
  destruct (hasPersistentConstraints E s).
  - unfold getPersistentConstraints.
    destruct (ExprConstraintVars s !! getExprId E); [|done].
    by intros [= <- <-].
  - revert s r s'.
    change (storesWithin K
      (let* Ret := body in do* storePersistentConstraints E Ret in ret Ret)).
    apply storesWithin_bind; [exact Hb|]. intros Ret.
    apply storesWithin_bind; [by apply storesWithin_store|]. intros _.
    apply storesWithin_ret.
Qed.

Lemma storesWithin_constraintAllCVarsToWild K CSet rsn AtExpr :
  storesWithin K (constraintAllCVarsToWild CSet rsn AtExpr).
Proof. apply storesWithin_modifyCS. Qed.

Lemma storesWithin_getInvalidCastPVCons K E :
  K (getExprId E) -> storesWithin K (getInvalidCastPVCons E).
Proof.
  intros HK s r s'. unfold getInvalidCastPVCons. unfold bind at 1, getState.
  destruct (hasPersistentConstraints E s).
  - unfold bind, getPersistentConstraints, ret.
    destruct (ExprConstraintVars s !! getExprId E); [|done].
    by intros [= <- <-].
  - revert s r s'.
    match goal with
    | |- forall s r s', ?m s = Some (r, s') -> _ =>
        change (storesWithin K m)
    end.
    apply storesWithin_bind; [apply storesWithin_withCS|]. intros P.
    apply storesWithin_bind; [apply storesWithin_modifyCS|]. intros _.
    apply storesWithin_bind; [by apply storesWithin_store|]. intros _.
    apply storesWithin_ret.
Qed.

Lemma storesWithin_getRewritablePVConstraint K E :
  storesWithin K (getRewritablePVConstraint E).
Proof.
  unfold getRewritablePVConstraint.
  apply storesWithin_bind; [apply storesWithin_withCS|]. intros P.
  apply storesWithin_bind; [|intros _; apply storesWithin_ret].
  unfold constrainWildIfMacro.
  destruct (negb _); [apply storesWithin_modifyCS|apply storesWithin_ret].
Qed.

Lemma storesWithin_copyReturnVar K env CE RF CV :
  storesWithin K (copyReturnVar env CE RF CV).
Proof.
  unfold copyReturnVar.
  apply storesWithin_bind.
  { destruct (isPV CV && getIsOriginallyChecked CV).
    - apply storesWithin_bind; [apply storesWithin_withCS|].
      intros N. apply storesWithin_ret.
    - apply storesWithin_withCS. }
  intros N0. apply storesWithin_bind; [apply storesWithin_modifyCS|].
  intros _. apply storesWithin_bind; [|intros _; apply storesWithin_ret].
  destruct RF; [apply storesWithin_ret|apply storesWithin_modifyCS].
Qed.

Lemma storesWithin_copyReturnVars K env CE RF Rs Tmp :
  storesWithin K (copyReturnVars env CE RF Rs Tmp).
Proof.
  revert Tmp. induction Rs as [|CV Rs IH]; intros Tmp; cbn [copyReturnVars].
  - apply storesWithin_ret.
  - apply storesWithin_bind; [apply storesWithin_copyReturnVar|].
    intros N. apply IH.
Qed.

End StoresWithinResolver.

Section Footprint.

Variable env : ResolverEnv.

Ltac sub H :=
  let k := fresh "k" in let Hk := fresh "Hk" in
  intros k Hk; apply H; cbn [nodeIds concat map];
  rewrite ?elem_of_cons, ?elem_of_app; auto 10.

Ltac early :=
  destruct (isRecordType _ || isArithmeticType _);
    [first [apply storesWithin_ret
           |destruct (getBaseVarPVConstraint _ _);
              [apply storesWithin_ret|apply storesWithin_fail]]|];
  destruct (negb (isExplicitCastExpr _) && isNULLExpression _ _);
    [apply storesWithin_ret|].

Ltac known :=
  first
    [ apply storesWithin_constraintAllCVarsToWild
    | apply storesWithin_getRewritablePVConstraint
    | apply storesWithin_copyReturnVars
    | apply storesWithin_modifyCS
    | apply storesWithin_withCS
    | apply storesWithin_ret
    | apply storesWithin_fail ].

(** A resolution stores results for nodes of the expression only. *)
Lemma resolveExpr_storesWithin n :
  forall E TypE (K : nat -> Prop),
    esize E < n -> (forall k, k ∈ nodeIds E -> K k) ->
    storesWithin K (resolveExpr env TypE E).
Proof.
  induction n as [|n IH]; intros E TypE K Hn HK; [lia|].
  assert (Hderef : forall X TX,
            esize X < n -> (forall k, k ∈ nodeIds X -> K k) ->
            storesWithin K
              (let* T := resolveExpr env TX X in
               match handleDeref T.1 with
               | Some tmp => ret (tmp, T.2)
               | None => fail
               end)).
  { intros X TX HX HKX. apply storesWithin_bind; [by apply IH|]. intros T.
    destruct (handleDeref T.1); known. }
  assert (Hall : forall Xs,
            list_sum (map esize Xs) < n ->
            (forall k, k ∈ concat (map nodeIds Xs) -> K k) ->
            storesWithin K
              ((fix getAll (Exprs : list Expr)
                  : M (list ConstraintVariable * list nat) :=
                  match Exprs with
                  | [] => ret ([], [])
                  | X :: Exprs' =>
                      let* ECons := resolveExpr env (getType X) X in
                      let* Agg := getAll Exprs' in
                      ret (insertCVs Agg.1 ECons.1, ECons.2 ++ Agg.2)
                  end) Xs)).
  { induction Xs as [|X Xs IHXs]; simpl; intros HXs HKs.
    - apply storesWithin_ret.
    - apply storesWithin_bind.
      { apply IH; [lia|]. intros k Hk. apply HKs.
        apply elem_of_app. by left. }
      intros EC. apply storesWithin_bind; [|intros Agg; apply storesWithin_ret].
      apply IHXs; [lia|]. intros k Hk. apply HKs. apply elem_of_app.
      by right. }
  assert (Hself : K (getExprId E)).
  { apply HK. destruct E; try destruct Result as [[?|]|]; apply list_elem_of_here. }
  destruct E; cbn [esize] in Hn; cbn [resolveExpr].
  1: apply IH; [lia|sub HK].
  all: try (destruct Result as [[ESE|]|]; cbn [esize] in Hn; cbn [resolveExpr]).
  all: early.
  all: try (apply storesWithin_cachedAt; [exact Hself|]).
  all: try (by apply storesWithin_ret).
  all: try (apply storesWithin_fail).
  - apply storesWithin_bind; [apply IH; [lia|sub HK]|]. intros CVs.
    destruct (_ && _ && _); [|apply storesWithin_ret].
    apply storesWithin_bind; [known|]. intros _.
    apply storesWithin_bind;
      [by apply storesWithin_getInvalidCastPVCons|].
    intros R. apply storesWithin_ret.
  - destruct (negb (QualType_eqb _ _)); [apply storesWithin_fail|].
    destruct (_ && _ && _).
    + apply storesWithin_bind;
        [by apply storesWithin_getInvalidCastPVCons|].
      intros R. apply storesWithin_ret.
    + apply storesWithin_bind; [apply IH; [lia|sub HK]|]. intros Vars.
      apply storesWithin_bind; [known|]. intros P.
      apply storesWithin_bind; [|intros _; apply storesWithin_ret].
      destruct (negb _); known.
  - destruct (getVariable env D); known.
  - destruct (getVariable env Member); known.
  - apply IH; [lia|sub HK].
  - destruct Opc; try known; try (apply IH; [lia|sub HK]).
    all: destruct (isPointerType (getType E1)); [apply IH; [lia|sub HK]|];
      destruct (isPointerType (getType E2)); [apply IH; [lia|sub HK]|];
      known.
  - apply Hderef; [lia|sub HK].
  - destruct Opc; try known; try (apply IH; [lia|sub HK]);
      try (apply Hderef; [lia|sub HK]).
    assert (HE : esize E < n) by lia.
    assert (HKE : forall k, k ∈ nodeIds E -> K k) by (sub HK).
    clear Hn HK Hself. revert HE HKE.
    induction E; intros HE HKE; cbn [esize] in HE;
      try (destruct Opc; try known);
      try (apply IH; [lia|sub HKE]);
      try (apply IHE; [lia|sub HKE]).
    all: apply storesWithin_bind; [apply IH; [cbn [esize]; lia|exact HKE]|];
      intros T; destruct T.1; [apply storesWithin_fail|];
      apply storesWithin_bind; [known|]; intros R; apply storesWithin_ret.
  - apply storesWithin_bind.
    { destruct CalleeDecl as [FD|].
      - destruct (negb (isDeclaratorDecl FD)); [apply storesWithin_fail|].
        destruct (isFunctionAllocator env _).
        + destruct (if decide (0 < length Args) then _ else _)
            as [[[[A ArgTy]|]|]|]; try known.
          apply storesWithin_bind; [known|]. intros PVC.
          apply storesWithin_bind; [known|]. intros _.
          apply storesWithin_bind; [|intros RF; apply storesWithin_ret].
          destruct (String.eqb _ _); [|apply storesWithin_ret].
          destruct Args as [|Arg0 Args]; [apply storesWithin_fail|].
          assert (HA : esize Arg0 < n) by (simpl in Hn; lia).
          assert (HKA : forall k, k ∈ nodeIds Arg0 -> K k).
          { intros k Hk. apply HK. cbn [nodeIds concat map].
            rewrite elem_of_cons, !elem_of_app. auto. }
          clear Hn HK Hself. revert HA HKA.
          induction Arg0; intros HA HKA;
            try (apply IHArg0; [cbn [esize] in HA; lia|sub HKA]);
            (apply storesWithin_bind; [by apply IH|]; intros r;
             apply storesWithin_ret).
        + destruct (getVariable env FD) as [[? [?|] ?|]|]; known.
      - apply storesWithin_bind; [apply IH; [lia|sub HK]|]. intros tmp.
        apply storesWithin_ret. }
    intros [[ReturnCVs ReturnBSet] ReallocFlow].
    apply storesWithin_bind; [known|]. intros Tmp. apply storesWithin_ret.
  - apply (Hall [E2; E3]); [simpl; lia|].
    intros k Hk. apply HK. cbn [nodeIds]. cbn [concat map] in Hk.
    rewrite app_nil_r in Hk. rewrite elem_of_cons, !elem_of_app.
    apply elem_of_app in Hk. tauto.
  - apply storesWithin_bind; [apply Hall; [lia|sub HK]|]. intros CVars.
    destruct (isArrayType _).
    + apply storesWithin_bind; [known|]. intros R. apply storesWithin_ret.
    + destruct (isPointerType _); known.
  - apply storesWithin_bind; [apply IH; [lia|sub HK]|]. intros Vars.
    apply storesWithin_bind; [known|]. intros P.
    apply storesWithin_bind; [known|]. intros _. apply storesWithin_ret.
  - apply storesWithin_bind; [known|]. intros P.
    apply storesWithin_bind; [known|]. intros _. apply storesWithin_ret.
  - intros s r s'. unfold bind at 1, getState.
    destruct (hasPersistentConstraints _ s).
    + unfold getPersistentConstraints.
      destruct (ExprConstraintVars s !! _) as [r0|]; [|done].
      by intros [= <- <-].
    + apply IH; [lia|sub HK].
Qed.

End Footprint.

(** ** The resolver: a node resolved again *)

Section Again.

Variable env : ResolverEnv.

Lemma nothingNew_refl s : nothingNew s s.
Proof.
  split; [done|]. split; [done|]. exists []. split; [by rewrite app_nil_r|].
  by intros c ?%elem_of_nil.
Qed.

Lemma hasPersistentConstraints_true E s :
  hasPersistentConstraints E s = true
  <-> is_Some (ExprConstraintVars s !! getExprId E).
Proof. unfold hasPersistentConstraints. apply bool_decide_eq_true. Qed.

Lemma hasPersistentConstraints_false E s :
  hasPersistentConstraints E s = false
  <-> ExprConstraintVars s !! getExprId E = None.
Proof.
  unfold hasPersistentConstraints. rewrite bool_decide_eq_false.
  by rewrite eq_None_not_Some.
Qed.

(** What the frame returns is stored for the node afterwards. *)
Lemma cachedAt_stored E body s0 r s1 :
  cachedAt E body s0 = Some (r, s1) ->
  ExprConstraintVars s1 !! getExprId E = Some r.
Proof.
  unfold cachedAt, bind, getState, getPersistentConstraints,
    storePersistentConstraints, ret.
  destruct (hasPersistentConstraints E s0).
  - destruct (ExprConstraintVars s0 !! getExprId E) as [r0|] eqn:Hr0; [|done].
    by intros [= <- <-].
  - destruct (body s0) as [[Ret sb]|]; [|done].
    intros [= <- <-]. cbn. by rewrite lookup_insert_eq.
Qed.

Lemma cachedAt_hit E body s r :
  ExprConstraintVars s !! getExprId E = Some r ->
  cachedAt E body s = Some (r, s).
Proof.
  intros Hr. unfold cachedAt, bind, getState, getPersistentConstraints.
  rewrite (proj2 (hasPersistentConstraints_true E s)) by (by eexists).
  by rewrite Hr.
Qed.

Lemma cachedAt_twice E body s0 r s1 s :
  cachedAt E body s0 = Some (r, s1) ->
  ExprConstraintVars s !! getExprId E
  = ExprConstraintVars s1 !! getExprId E ->
  exists s', cachedAt E body s = Some (r, s') /\ nothingNew s s'.
Proof.
  intros Hr%cachedAt_stored Hs. exists s. split; [|apply nothingNew_refl].
  apply cachedAt_hit. by rewrite Hs.
Qed.

(** [getInvalidCastPVCons]: its result is stored for the node afterwards,
    and the constraints it found are still there. *)
Lemma getInvalidCastPVCons_stored E s0 R s1 :
  getInvalidCastPVCons E s0 = Some (R, s1) ->
  (exists v, ExprConstraintVars s1 !! getExprId E = Some v /\ v.1 = R)
  /\ (forall c, c ∈ getConstraints (rCS s0) -> c ∈ getConstraints (rCS s1)).
Proof.
  unfold getInvalidCastPVCons. unfold bind at 1, getState.
  destruct (hasPersistentConstraints E s0).
  - unfold bind, getPersistentConstraints, ret.
    destruct (ExprConstraintVars s0 !! getExprId E) as [v|] eqn:Hv; [|done].
    intros [= <- <-]. split; [by exists v|done].
  - unfold bind, withCS, modifyCS, storePersistentConstraints, ret.
    pose proof (grows_newPVConstraint (getType E) "Invalid cast" false
                  (rCS s0)) as [Hg _].
    destruct (newPVConstraint _ _ _ _) as [P cs1]. cbn [snd] in Hg.
    intros [= <- <-]. cbn [rCS ExprConstraintVars]. split.
    + exists ([P], []). by rewrite lookup_insert_eq.
    + intros c Hc. eapply prefix_elem_of; [apply constrainToWild_prefix|].
      by eapply prefix_elem_of.
Qed.

Lemma getInvalidCastPVCons_hit E s v :
  ExprConstraintVars s !! getExprId E = Some v ->
  getInvalidCastPVCons E s = Some (v.1, s).
Proof.
  intros Hv. unfold getInvalidCastPVCons, bind, getState,
    getPersistentConstraints, ret.
  rewrite (proj2 (hasPersistentConstraints_true E s)) by (by eexists).
  by rewrite Hv.
Qed.

Ltac pure s :=
  unfold ret, fail; intros [= <- <-] _ _; exists s;
  split; [reflexivity|apply nothingNew_refl].

Ltac hit s :=
  let Hr := fresh "Hr" in let Hc := fresh "Hc" in let Hs := fresh "Hs" in
  intros Hr Hc Hs; apply (cachedAt_twice _ _ _ _ _ s Hr);
  apply Hs, list_elem_of_here.

(** A node resolved once resolves again to the same result, in every
    later state that kept the stored results of its nodes, and nothing
    new comes of it. *)
Lemma resolveExpr_twice n :
  forall E TypE s0 r s1 s,
    esize E < n -> NoDup (nodeIds E) ->
    resolveExpr env TypE E s0 = Some (r, s1) ->
    (forall c, c ∈ getConstraints (rCS s1) -> c ∈ getConstraints (rCS s)) ->
    (forall k, k ∈ nodeIds E ->
               ExprConstraintVars s !! k = ExprConstraintVars s1 !! k) ->
    exists s', resolveExpr env TypE E s = Some (r, s') /\ nothingNew s s'.
Proof.
  induction n as [|n IH]; intros E TypE s0 r s1 s Hn HND; [lia|].
  destruct E; cbn [esize] in Hn; cbn [resolveExpr].
  1: { intros Hr Hc Hs. cbn [nodeIds] in HND, Hs.
       apply NoDup_cons in HND as [_ HND].
       apply (IH E TypE s0 r s1 s); [lia|done|done|done|].
       intros k Hk. apply Hs. by apply list_elem_of_further. }
  all: try (destruct Result as [[ESE|]|]; cbn [esize] in Hn; cbn [resolveExpr]).
  all: destruct (isRecordType TypE || isArithmeticType TypE);
    [first [pure s
           |destruct (getBaseVarPVConstraint _ _); [pure s|done]]|].
  all: destruct (negb (isExplicitCastExpr _) && isNULLExpression env _);
    [pure s|].
  all: try (hit s).
  - (* implicit cast *)
    unfold bind at 1.
    destruct (resolveExpr env (getType E) E s0) as [[CVs sa]|] eqn:HX;
      [|done].
    cbn [nodeIds getExprId getInfo] in HND.
    apply NoDup_cons in HND as [Hfresh HND].
    destruct (_ && _ && _) eqn:Hcond.
    + unfold bind at 1. unfold constraintAllCVarsToWild at 1, modifyCS.
      set (sb := mkRS _ (ExprConstraintVars sa)).
      unfold bind at 1.
      destruct (getInvalidCastPVCons _ sb) as [[R sc]|] eqn:HG; [|done].
      unfold ret. intros [= <- <-] Hc Hs.
      destruct (getInvalidCastPVCons_stored _ _ _ _ HG)
        as [(v & Hv & HvR) Hsub].
      pose proof (storesWithin_getInvalidCastPVCons
                    (fun k => k = eId H) (ImplicitCastExpr H E) eq_refl
                    _ _ _ HG) as Hkeep.
      assert (Hlog : forall cs,
                getConstraints
                  (foldl (fun c A =>
                            constrainToWild A
                              ("Cast from " +:+ getAsString (getType E)
                               +:+ " to " +:+ getAsString TypE)
                              (Some (ePSL H)) c) cs CVs.1)
                = getConstraints cs
                  ++ flat_map
                       (fun C => map (fun A =>
                                        CGeq (mkGeq A getWild
                                                ("Cast from "
                                                 +:+ getAsString (getType E)
                                                 +:+ " to "
                                                 +:+ getAsString TypE)
                                                (Some (ePSL H))))
                                   (atomsOf C)) CVs.1).
      { intros cs. apply foldl_constrainToWild_log. }
      destruct (IH E (getType E) s0 CVs sa s) as (s' & HX' & HN');
        [lia|done|done| | |].
      { intros c Hc'. apply Hc, Hsub. unfold sb. cbn [rCS].
        cbn [option_map getInfo]. rewrite Hlog. apply elem_of_app. by left. }
      { intros k Hk. rewrite (Hs k) by (by apply list_elem_of_further).
        rewrite (Hkeep k); [done|]. intros ->. by apply Hfresh. }
      unfold bind at 1. rewrite HX'.
      unfold bind at 1. unfold constraintAllCVarsToWild at 1, modifyCS.
      set (s2 := mkRS _ (ExprConstraintVars s')).
      destruct HN' as (HS' & HF' & again & HA' & Hagain).
      assert (Hv2 : ExprConstraintVars s2 !! eId H = Some v).
      { unfold s2. cbn [ExprConstraintVars]. rewrite HS'.
        rewrite (Hs (eId H)) by apply list_elem_of_here. exact Hv. }
      unfold bind.
      rewrite (getInvalidCastPVCons_hit (ImplicitCastExpr H E) s2 v Hv2).
      unfold ret. rewrite HvR. exists s2. split; [done|].
      unfold s2. split; [done|]. cbn [rCS option_map getInfo]. split.
      { by rewrite foldl_constrainToWild_fresh. }
      eexists. split.
      { rewrite Hlog, HA', <- app_assoc. reflexivity. }
      intros c [Hc'|Hc']%elem_of_app; [by apply Hagain|].
      apply Hc, Hsub. unfold sb. cbn [rCS option_map getInfo].
      rewrite Hlog. apply elem_of_app. by right.
    + unfold ret. intros [= <- <-] Hc Hs.
      destruct (IH E (getType E) s0 CVs sa s) as (s' & HX' & HN');
        [lia|done|done|done| |].
      { intros k Hk. apply Hs. by apply list_elem_of_further. }
      unfold bind. rewrite HX'. by exists s'.
  - destruct (getVariable env D); [pure s|done].
  - destruct (getVariable env Member); [pure s|done].
  - intros Hr Hc Hs. cbn [nodeIds] in HND, Hs.
    apply NoDup_cons in HND as [_ HND].
    apply (IH E (getType E) s0 r s1 s); [lia|done|done|done|].
    intros k Hk. apply Hs. by apply list_elem_of_further.
  - (* statement expression *)
    cbn [nodeIds getExprId getInfo] in HND.
    apply NoDup_cons in HND as [Hfresh HND].
    unfold bind, getState.
    destruct (hasPersistentConstraints _ s0) eqn:Hhas.
    + unfold getPersistentConstraints.
      change (getExprId (StmtExpr H (Some (Some ESE)))) with (eId H).
      destruct (ExprConstraintVars s0 !! eId H) as [v|] eqn:Hv; [|done].
      intros [= <- <-] Hc Hs.
      assert (Hv' : ExprConstraintVars s !! eId H = Some v).
      { rewrite (Hs (eId H)) by apply list_elem_of_here. exact Hv. }
      rewrite (proj2 (hasPersistentConstraints_true _ s)) by (by eexists).
      change (getExprId (StmtExpr H (Some (Some ESE)))) with (eId H).
      rewrite Hv'. exists s.
      split; [done|apply nothingNew_refl].
    + intros Hr Hc Hs.
      apply hasPersistentConstraints_false in Hhas.
      change (getExprId (StmtExpr H (Some (Some ESE)))) with (eId H) in Hhas.
      pose proof (resolveExpr_storesWithin env (S (esize ESE)) ESE
                    (getType ESE) (fun k => k ∈ nodeIds ESE)
                    (Nat.lt_succ_diag_r _) (fun k Hk => Hk)
                    _ _ _ Hr (eId H) Hfresh) as Hkeep.
      assert (Hmiss : ExprConstraintVars s !! eId H = None).
      { rewrite (Hs (eId H)) by apply list_elem_of_here.
        by rewrite Hkeep. }
      rewrite (proj2 (hasPersistentConstraints_false _ s)) by done.
      apply (IH ESE (getType ESE) s0 r s1 s); [lia|done|done|done|].
      intros k Hk. apply Hs. by apply list_elem_of_further.
Qed.

End Again.

Section Stored.

Variable env : ResolverEnv.

(** The result of a node of a stored class, neither of record or
    arithmetic type nor a null pointer, is the entry of the node. *)
Lemma resolveExpr_stored TypE E s r s' :
  isMemoised E = true ->
  isRecordType TypE || isArithmeticType TypE = false ->
  negb (isExplicitCastExpr (IgnoreParens E))
    && isNULLExpression env (IgnoreParens E) = false ->
  resolveExpr env TypE E s = Some (r, s') ->
  ExprConstraintVars s' !! getExprId (IgnoreParens E) = Some r.
Proof.
  intros Hm HT. induction E; cbn [isMemoised] in Hm; try discriminate Hm;
    try (destruct Result as [[?|]|]; try discriminate Hm);
    cbn [IgnoreParens resolveExpr]; try (by apply IHE);
    rewrite HT; intros ->; apply cachedAt_stored.
Qed.

End Stored.

(** C8.  Let the nodes of an expression have identities of their own.
    When [getExprConstraintVars] has returned for the expression, it
    returns the same result for it a second time, and nothing new comes of
    the second resolution: the stored results are the same, no key of an
    unknown is taken, and every constraint it hands to the constraint
    system was there before, so that the edges of the constraint graph are
    the same.  For an expression of a class whose result is stored, the
    state is the same altogether, and the result is the entry stored for
    the node unless the expression is of record or arithmetic type or a
    null pointer. *)
Theorem getExprConstraintVars_resolved_again (env : ResolverEnv) (E : Expr)
    (s s1 : ResolverState) (r : list ConstraintVariable * list nat) :
  NoDup (nodeIds E) ->
  getExprConstraintVars env E s = Some (r, s1) ->
  exists s2,
    getExprConstraintVars env E s1 = Some (r, s2)
    /\ ExprConstraintVars s2 = ExprConstraintVars s1
    /\ freshKey (rCS s2) = freshKey (rCS s1)
    /\ (exists again,
          getConstraints (rCS s2) = getConstraints (rCS s1) ++ again
          /\ forall c, c ∈ again -> c ∈ getConstraints (rCS s1))
    /\ sameEdges (rCS s1) (rCS s2)
    /\ (isMemoised E = true ->
        s2 = s1
        /\ (isRecordType (getType E) || isArithmeticType (getType E) = false ->
            negb (isExplicitCastExpr (IgnoreParens E))
              && isNULLExpression env (IgnoreParens E) = false ->
            ExprConstraintVars s1 !! getExprId (IgnoreParens E) = Some r)).
Proof.
  intros HND Hr. unfold getExprConstraintVars in *.
  destruct (resolveExpr_twice env (S (esize E)) E (getType E) s r s1 s1)
    as (s2 & H2 & HS & HF & again & HA & Hagain);
    [lia|done|done|done|done|].
  exists s2. split; [exact H2|]. split; [exact HS|]. split; [exact HF|].
  split; [by exists again|]. split.
  { intros c. rewrite HA, elem_of_app. split; [by left|].
    intros [?|?]; [done|by apply Hagain]. }
  intros Hm. split.
  - pose proof (resolveExpr_again env _ _ _ _ _ Hm Hr) as H2'.
    rewrite H2' in H2. by injection H2 as <-.
  - intros HT HN. by apply (resolveExpr_stored env (getType E) E s).
Qed.

(** The unsafe implicit conversion of [q] to [char *], resolved twice: the
    second resolution hands over again the constraint that forces the
    unknown of [q] to WILD, which is in the constraint system already. *)
Lemma getExprConstraintVars_resolved_again_witness :
  getExprConstraintVars Examples.castEnv Examples.implicitCast
    Examples.castState = Some Examples.implicitOnce
  /\ getExprConstraintVars Examples.castEnv Examples.implicitCast
       Examples.implicitOnce.2
     = Some (Examples.implicitOnce.1, Examples.implicitTwice.2)
  /\ ExprConstraintVars Examples.implicitTwice.2
     = ExprConstraintVars Examples.implicitOnce.2
  /\ sameEdges (rCS Examples.implicitOnce.2) (rCS Examples.implicitTwice.2).
Proof.
  assert (H1 : getExprConstraintVars Examples.castEnv Examples.implicitCast
                 Examples.castState
               = Some (Examples.implicitOnce.1, Examples.implicitOnce.2))
    by (vm_compute; reflexivity).
  assert (H2 : getExprConstraintVars Examples.castEnv Examples.implicitCast
                 Examples.implicitOnce.2
               = Some (Examples.implicitOnce.1, Examples.implicitTwice.2))
    by (vm_compute; reflexivity).
  split; [exact H1|]. split; [exact H2|].
  destruct (getExprConstraintVars_resolved_again Examples.castEnv
              Examples.implicitCast Examples.castState
              Examples.implicitOnce.2 Examples.implicitOnce.1)
    as (s2 & H2' & HS & _ & _ & HE & _).
  - apply (bool_decide_unpack _). vm_compute. exact I.
  - exact H1.
  - rewrite H2 in H2'. apply (inj Some) in H2'.
    apply (f_equal snd) in H2'. cbn [snd] in H2'. rewrite <- H2' in HS, HE.
    split; [exact HS|exact HE].
Defined.
